(** * VexCL device vectors and expression templates

    A shallow embedding of [vexcl/vector.hpp]: the expression-template
    nodes that synthesise an OpenCL kernel, the multi-device vector with
    its partition table, host/device transfers, the per-expression kernel
    cache, and the performance-weighted partitioner.

    Conventions.  [size_t] is a 64-bit unsigned integer, modelled in [N]
    with the wrap-around written out ([size_add], [size_sub], [size_mul]).
    A [std::vector] is a list; its unchecked [operator[]] outside the
    bounds is undefined behaviour, which the model reports as [UB].  A C++
    exception is the result [Exn]. *)

From Stdlib Require Import Ascii QArith Qround Qpower Lqa.
From Stdlib Require Import Floats.SpecFloat.
From stdpp Require Import base numbers list strings gmap.

Local Open Scope N_scope.

(** ** Results of a call: a value, a thrown exception, undefined behaviour *)

Inductive result (A : Type) : Type :=
| Val (a : A)
| Exn (what : string)
| UB.

Arguments Val {A} a.
Arguments Exn {A} what.
Arguments UB {A}.

Definition bind {A B : Type} (r : result A) (k : A -> result B) : result B :=
  match r with
  | Val a => k a
  | Exn w => Exn w
  | UB => UB
  end.

Notation "'let!' x ':=' r 'in' k" := (bind r (fun x => k))
  (at level 10, x name, r at level 200, k at level 200).

Definition throws {A : Type} (r : result A) : Prop :=
  exists what, r = Exn what.

Definition returns {A : Type} (r : result A) : Prop :=
  exists a, r = Val a.

(** Unchecked [v[i]] of a [std::vector]. *)
Definition at_ {A : Type} (v : list A) (i : nat) : result A :=
  match v !! i with
  | Some a => Val a
  | None => UB
  end.

(** ** [size_t] arithmetic *)

Definition size_modulus : N := 2 ^ 64.

Definition size_add (a b : N) : N := (a + b) mod size_modulus.

Definition size_sub (a b : N) : N :=
  if b <=? a then a - b else size_modulus - (b - a).

Definition size_mul (a b : N) : N := (a * b) mod size_modulus.

(** ** Element types and their OpenCL names ([type_name<T>()]) *)

Inductive cl_base : Set :=
| cl_float | cl_double | cl_char | cl_uchar | cl_short
| cl_ushort | cl_int | cl_uint | cl_long | cl_ulong.

Inductive cl_len : Set := len1 | len2 | len4 | len8 | len16.

Record ctype : Set := CType { base : cl_base; len : cl_len }.

#[global] Instance cl_base_eq_dec : EqDecision cl_base.
Proof. solve_decision. Defined.

#[global] Instance cl_len_eq_dec : EqDecision cl_len.
Proof. solve_decision. Defined.

#[global] Instance ctype_eq_dec : EqDecision ctype.
Proof. solve_decision. Defined.

Definition base_name (b : cl_base) : string :=
  match b with
  | cl_float => "float" | cl_double => "double"
  | cl_char => "char" | cl_uchar => "uchar"
  | cl_short => "short" | cl_ushort => "ushort"
  | cl_int => "int" | cl_uint => "uint"
  | cl_long => "long" | cl_ulong => "ulong"
  end.

Definition len_name (l : cl_len) : string :=
  match l with
  | len1 => "" | len2 => "2" | len4 => "4" | len8 => "8" | len16 => "16"
  end.

Definition type_name (T : ctype) : string := base_name (base T) +:+ len_name (len T).

(** [sizeof(T)] in bytes. *)
Definition base_size (b : cl_base) : N :=
  match b with
  | cl_char | cl_uchar => 1
  | cl_short | cl_ushort => 2
  | cl_float | cl_int | cl_uint => 4
  | cl_double | cl_long | cl_ulong => 8
  end.

Definition len_count (l : cl_len) : N :=
  match l with
  | len1 => 1 | len2 => 2 | len4 => 4 | len8 => 8 | len16 => 16
  end.

Definition sizeof (T : ctype) : N := base_size (base T) * len_count (len T).

(** [size_t] is [cl_ulong] on the 64-bit targets modelled here. *)
Definition size_t : ctype := CType cl_ulong len1.

(** ** OpenCL handles *)

Abbreviation cl_context := N (only parsing).
Abbreviation cl_device_id := N (only parsing).
Abbreviation Buffer := N (only parsing).
Abbreviation Event := N (only parsing).

Definition CL_DEVICE_TYPE_CPU : N := 2.
Definition CL_DEVICE_TYPE_GPU : N := 4.

Record Device : Set := MkDevice {
  device_id : cl_device_id;
  device_type : N;
  max_compute_units : N
}.

Record Context : Set := MkContext {
  context_id : cl_context;
  context_devices : list Device
}.

Record CommandQueue : Set := MkQueue {
  queue_id : N;
  queue_context : Context;
  queue_device : Device
}.

(** ** The device vector, [vex::vector<T>] *)

Record vector : Set := MkVector {
  elem : ctype;
  queue : list CommandQueue;
  part : list N;
  buf : list Buffer;
  event : list Event
}.

(** [vector::size()]. *)
Definition size (v : vector) : N :=
  match last (part v) with
  | None => 0
  | Some n => n
  end.

(** [vector::nparts()]. *)
Definition nparts (v : vector) : nat := length (queue v).

(** [vector::part_size(d)]: [part[d + 1] - part[d]]. *)
Definition vector_part_size (v : vector) (d : nat) : result N :=
  let! hi := at_ (part v) (d + 1) in
  let! lo := at_ (part v) d in
  Val (size_sub hi lo).

(** ** Expression nodes

    A composed expression is a tree of [BinaryExpression<LHS, OP, RHS>]
    nodes; its operands are wrapped by [KernelGenerator], which passes a
    node of the [expression] interface through and adapts an arithmetic
    value to a leaf.  [EVec] is a [vex::vector<T>] held by reference,
    [EScalar] an arithmetic value of type [T] with its bit pattern. *)

Inductive expr : Set :=
| EVec (v : vector)
| EScalar (T : ctype) (bits : Z)
| EBin (OP : ascii) (lhs rhs : expr).

(** The free operators that build the nodes. *)
Definition operator_plus (lhs rhs : expr) : expr := EBin "+" lhs rhs.
Definition operator_minus (lhs rhs : expr) : expr := EBin "-" lhs rhs.
Definition operator_times (lhs rhs : expr) : expr := EBin "*" lhs rhs.
Definition operator_divide (lhs rhs : expr) : expr := EBin "/" lhs rhs.

(** [kernel_name()]: "v" for a vector, "c" for an adapted scalar, and for
    a binary node the switch over [OP] in Polish notation. *)
Fixpoint kernel_name (e : expr) : result string :=
  match e with
  | EVec _ => Val "v"
  | EScalar _ _ => Val "c"
  | EBin OP lhs rhs =>
      if decide (OP = "+"%char) then
        let! l := kernel_name lhs in let! r := kernel_name rhs in Val (("p" +:+ l) +:+ r)
      else if decide (OP = "-"%char) then
        let! l := kernel_name lhs in let! r := kernel_name rhs in Val (("m" +:+ l) +:+ r)
      else if decide (OP = "*"%char) then
        let! l := kernel_name lhs in let! r := kernel_name rhs in Val (("t" +:+ l) +:+ r)
      else if decide (OP = "/"%char) then
        let! l := kernel_name lhs in let! r := kernel_name rhs in Val (("d" +:+ l) +:+ r)
      else Exn "unknown operation"
  end.

(** [part_size(dev)]. *)
Fixpoint part_size (e : expr) (dev : nat) : result N :=
  match e with
  | EVec v => vector_part_size v dev
  | EScalar _ _ => Val 0
  | EBin _ lhs rhs =>
      let! l := part_size lhs dev in
      let! r := part_size rhs dev in
      Val (N.max l r)
  end.

(** The operators [operator+], [operator-], [operator*], [operator/]
    instantiate. *)
Definition supported (OP : ascii) : bool :=
  bool_decide (OP = "+"%char) || bool_decide (OP = "-"%char)
  || bool_decide (OP = "*"%char) || bool_decide (OP = "/"%char).

(** An expression composed with the four operators only. *)
Fixpoint composed (e : expr) : bool :=
  match e with
  | EVec _ | EScalar _ _ => true
  | EBin OP lhs rhs => supported OP && composed lhs && composed rhs
  end.

(** The shape of an expression: its tree of operators and leaf kinds,
    without the data and element types of the leaves. *)
Inductive shape : Set :=
| SVec
| SScalar
| SBin (OP : ascii) (lhs rhs : shape).

Fixpoint shape_of (e : expr) : shape :=
  match e with
  | EVec _ => SVec
  | EScalar _ _ => SScalar
  | EBin OP lhs rhs => SBin OP (shape_of lhs) (shape_of rhs)
  end.

(** The token the switch picks for a supported operator. *)
Definition token (OP : ascii) : string :=
  if decide (OP = "+"%char) then "p"
  else if decide (OP = "-"%char) then "m"
  else if decide (OP = "*"%char) then "t"
  else "d".

(** ** The device API and the state it acts on

    The OpenCL host API is an external collaborator.  The model keeps the
    contents of every device buffer (in elements, a [value] being an
    element's bit pattern), the sequence of API calls made so far, and the
    next fresh event handle.  Every [cl::CommandQueue] here is in-order, so
    the transfers of one queue take effect in the order they are enqueued:
    the model moves the data at the enqueue and records the call with its
    blocking flag; the host may rely on the result of a non-blocking call
    once it has waited on the call's event. *)

Abbreviation value := Z (only parsing).
Abbreviation Program := N (only parsing).
Abbreviation Kernel := N (only parsing).

Inductive kernel_arg : Set :=
| ArgSize (n : N)
| ArgBuffer (b : Buffer)
| ArgScalar (T : ctype) (bits : Z).

Inductive call : Set :=
| WriteBuffer (q : N) (b : Buffer) (blocking : bool) (offset cb : N) (ev : Event)
| ReadBuffer (q : N) (b : Buffer) (blocking : bool) (offset cb : N) (ev : Event)
| CopyBuffer (q : N) (src dst : Buffer) (src_offset dst_offset cb : N)
| EventWait (ev : Event)
| BuildSources (ctx : cl_context) (source : string)
| CreateKernel (p : Program) (name : string)
| WorkgroupSize (k : Kernel)
| SetArg (k : Kernel) (pos : N) (arg : kernel_arg)
| NDRangeKernel (q : N) (k : Kernel) (global_size local_size : N).

(** The static members of [vector<T>::exdata<Expr>]: one triple of maps
    for every destination element type [T] and expression type [Expr]. *)
Record exdata : Type := MkExdata {
  compiled : gmap cl_context bool;
  kernel : gmap cl_context Kernel;
  wgsize : gmap cl_context N
}.

(** The C++ type of an expression: the template arguments of its nodes. *)
Inductive expr_type : Set :=
| TVec (T : ctype)
| TScalar (T : ctype)
| TBin (OP : ascii) (LHS RHS : expr_type).

#[global] Instance expr_type_eq_dec : EqDecision expr_type.
Proof. solve_decision. Defined.

Fixpoint type_of (e : expr) : expr_type :=
  match e with
  | EVec v => TVec (elem v)
  | EScalar T _ => TScalar T
  | EBin OP lhs rhs => TBin OP (type_of lhs) (type_of rhs)
  end.

Record world : Type := MkWorld {
  mem : gmap Buffer (list value);
  calls : list call;
  next_event : Event;
  statics : ctype -> expr_type -> exdata
}.

(** A computation on the world that returns, throws or is undefined;
    what it did to the world before throwing stays done. *)
Definition M (A : Type) : Type := world -> result A * world.

Definition mret {A : Type} (a : A) : M A := fun w => (Val a, w).

Definition mbind {A B : Type} (m : M A) (k : A -> M B) : M B :=
  fun w =>
    match m w with
    | (Val a, w') => k a w'
    | (Exn what, w') => (Exn what, w')
    | (UB, w') => (UB, w')
    end.

Definition lift {A : Type} (r : result A) : M A := fun w => (r, w).

Notation "'do!' x ':=' m 'in' k" := (mbind m (fun x => k))
  (at level 10, x name, m at level 200, k at level 200).

Definition add_call (w : world) (c : call) : world :=
  MkWorld (mem w) (calls w ++ [c]) (next_event w) (statics w).

Definition record_call (c : call) : M unit := fun w => (Val tt, add_call w c).

Definition fresh_event : M Event :=
  fun w => (Val (next_event w),
            MkWorld (mem w) (calls w) (next_event w + 1) (statics w)).

Definition store (b : Buffer) (data : list value) : M unit :=
  fun w => (Val tt, MkWorld (<[b := data]> (mem w)) (calls w) (next_event w) (statics w)).

(** [for (uint d = 0; d < n; d++)] over a loop-carried state. *)
Fixpoint for_ {S : Type} (ds : list nat) (body : nat -> S -> M S) (s : S) : M S :=
  match ds with
  | [] => mret s
  | d :: ds' => do! s' := body d s in for_ ds' body s'
  end.

(** [data] written over [old] from element [off] on. *)
Definition splice (old : list value) (off : nat) (data : list value) : list value :=
  take off old ++ data ++ drop (off + length data) old.

(** [clEnqueueWriteBuffer]: [cb] bytes from the host pointer to byte
    [offset] of buffer [b], whose elements have type [T].  A null or
    released buffer and a region outside the buffer are reported by the
    API; a host array shorter than the region is read out of bounds. *)
Definition enqueueWriteBuffer (q : CommandQueue) (b : Buffer) (T : ctype)
    (blocking : bool) (offset cb : N) (hostptr : list value) : M Event :=
  fun w =>
    match mem w !! b with
    | None => (Exn "CL_INVALID_MEM_OBJECT", w)
    | Some old =>
        if sizeof T * N.of_nat (length old) <? offset + cb
        then (Exn "CL_INVALID_VALUE", w)
        else
          let n := N.to_nat (cb / sizeof T) in
          if (length hostptr <? n)%nat then (UB, w)
          else
            (do! ev := fresh_event in
             do! _ := store b (splice old (N.to_nat (offset / sizeof T)) (take n hostptr)) in
             do! _ := record_call (WriteBuffer (queue_id q) b blocking offset cb ev) in
             mret ev) w
    end.

(** [clEnqueueReadBuffer]: [cb] bytes from byte [offset] of buffer [b] to
    the host array [host] from element [host_off] on. *)
Definition enqueueReadBuffer (q : CommandQueue) (b : Buffer) (T : ctype)
    (blocking : bool) (offset cb : N) (host : list value) (host_off : nat) :
    M (Event * list value) :=
  fun w =>
    match mem w !! b with
    | None => (Exn "CL_INVALID_MEM_OBJECT", w)
    | Some old =>
        if sizeof T * N.of_nat (length old) <? offset + cb
        then (Exn "CL_INVALID_VALUE", w)
        else
          let n := N.to_nat (cb / sizeof T) in
          if (length host <? host_off + n)%nat then (UB, w)
          else
            (do! ev := fresh_event in
             do! _ := record_call (ReadBuffer (queue_id q) b blocking offset cb ev) in
             mret (ev, splice host host_off
                         (take n (drop (N.to_nat (offset / sizeof T)) old)))) w
    end.

(** [clEnqueueCopyBuffer] between two buffers of element type [T]. *)
Definition enqueueCopyBuffer (q : CommandQueue) (src dst : Buffer) (T : ctype)
    (src_offset dst_offset cb : N) : M unit :=
  fun w =>
    match mem w !! src, mem w !! dst with
    | Some from, Some old =>
        if (sizeof T * N.of_nat (length from) <? src_offset + cb)
           || (sizeof T * N.of_nat (length old) <? dst_offset + cb)
        then (Exn "CL_INVALID_VALUE", w)
        else if bool_decide (src = dst) then (Exn "CL_MEM_COPY_OVERLAP", w)
        else
          let n := N.to_nat (cb / sizeof T) in
          (do! _ := store dst (splice old (N.to_nat (dst_offset / sizeof T))
                                 (take n (drop (N.to_nat (src_offset / sizeof T)) from))) in
           record_call (CopyBuffer (queue_id q) src dst src_offset dst_offset cb)) w
    | _, _ => (Exn "CL_INVALID_MEM_OBJECT", w)
    end.

(** [cl::Event::wait()]; the handle 0 is the null event of a
    default-constructed [cl::Event]. *)
Definition wait (ev : Event) : M unit :=
  if ev =? 0 then lift (Exn "CL_INVALID_EVENT") else record_call (EventWait ev).

(** ** Transfers between host and device vector *)

Definition set_event (this : vector) (d : nat) (ev : Event) : vector :=
  MkVector (elem this) (queue this) (part this) (buf this) (<[d := ev]> (event this)).

(** One iteration of the transfer loops: the part of
    [[offset, offset + size)] that lies in shard [d]. *)
Definition shard_range (this : vector) (offset size_ : N) (d : nat) : result (N * N * N) :=
  let! lo := at_ (part this) d in
  let! hi := at_ (part this) (d + 1) in
  Val (N.max offset lo, N.min (size_add offset size_) hi, lo).

(** The body of the loop that waits for a blocking transfer. *)
Definition wait_shard (offset size_ : N) (d : nat) (this : vector) : M vector :=
  do! r := lift (shard_range this offset size_ d) in
  let '(start, stop, lo) := r in
  if start <? stop then
    do! ev := lift (at_ (event this) d) in
    do! _ := wait ev in
    mret this
  else mret this.

(** The body of the loop of [write_data]. *)
Definition write_shard (offset size_ : N) (hostptr : list value) (d : nat)
    (this : vector) : M vector :=
  do! r := lift (shard_range this offset size_ d) in
  let '(start, stop, lo) := r in
  if stop <=? start then mret this
  else
    do! q := lift (at_ (queue this) d) in
    do! b := lift (at_ (buf this) d) in
    do! _ := lift (at_ (event this) d) in
    do! ev := enqueueWriteBuffer q b (elem this) false
                (size_mul (sizeof (elem this)) (size_sub start lo))
                (size_mul (sizeof (elem this)) (size_sub stop start))
                (drop (N.to_nat (size_sub start offset)) hostptr) in
    mret (set_event this d ev).

(** [vector::write_data]. *)
Definition write_data (this : vector) (offset size_ : N) (hostptr : list value)
    (blocking : bool) : M vector :=
  if size_ =? 0 then mret this
  else
    do! this := for_ (seq 0 (length (queue this)))
                  (write_shard offset size_ hostptr) this in
    if blocking
    then for_ (seq 0 (length (queue this))) (wait_shard offset size_) this
    else mret this.

(** The body of the loop of [read_data]; the host array is carried along
    as the transfers leave it. *)
Definition read_shard (offset size_ : N) (d : nat) (s : vector * list value) :
    M (vector * list value) :=
  do! r := lift (shard_range (fst s) offset size_ d) in
  let '(start, stop, lo) := r in
  if stop <=? start then mret s
  else
    do! q := lift (at_ (queue (fst s)) d) in
    do! b := lift (at_ (buf (fst s)) d) in
    do! _ := lift (at_ (event (fst s)) d) in
    do! r := enqueueReadBuffer q b (elem (fst s)) false
               (size_mul (sizeof (elem (fst s))) (size_sub start lo))
               (size_mul (sizeof (elem (fst s))) (size_sub stop start))
               (snd s) (N.to_nat (size_sub start offset)) in
    mret (set_event (fst s) d (fst r), snd r).

(** [vector::read_data]. *)
Definition read_data (this : vector) (offset size_ : N) (hostptr : list value)
    (blocking : bool) : M (vector * list value) :=
  if size_ =? 0 then mret (this, hostptr)
  else
    do! s := for_ (seq 0 (length (queue this)))
               (read_shard offset size_) (this, hostptr) in
    if blocking then
      do! this := for_ (seq 0 (length (queue (fst s))))
                    (wait_shard offset size_) (fst s) in
      mret (this, snd s)
    else mret s.

(** [vex::copy] between a host vector and a device vector. *)
Definition copy_to_device (hv : list value) (dv : vector) (blocking : bool) : M vector :=
  write_data dv 0 (size dv) hv blocking.

Definition copy_to_host (dv : vector) (hv : list value) (blocking : bool) : M (vector * list value) :=
  read_data dv 0 (size dv) hv blocking.

(** ** Element access *)

(** The result of a loop run with a bound on its iterations. *)
Inductive loop (A : Type) : Type :=
| Done (r : result A)
| OutOfFuel.

Arguments Done {A} r.
Arguments OutOfFuel {A}.

(** [while (index >= part[d + 1] && d < nparts()) d++;], one unit of fuel
    for each evaluation of the condition. *)
Fixpoint shard_search (fuel : nat) (this : vector) (index : N) (d : nat) : loop nat :=
  match fuel with
  | O => OutOfFuel
  | S fuel' =>
      match at_ (part this) (d + 1) with
      | Val p =>
          if (p <=? index) && (d <? nparts this)%nat
          then shard_search fuel' this index (d + 1)
          else Done (Val d)
      | Exn what => Done (Exn what)
      | UB => Done UB
      end
  end.

(** The proxy [vector::element]. *)
Record element : Set := MkElement {
  element_queue : CommandQueue;
  element_buf : Buffer;
  element_index : N
}.

(** [vector::operator[]]. *)
Definition operator_index (fuel : nat) (this : vector) (index : N) : loop (nat * element) :=
  match shard_search fuel this index 0 with
  | OutOfFuel => OutOfFuel
  | Done r =>
      Done (let! d := r in
            let! q := at_ (queue this) d in
            let! b := at_ (buf this) d in
            let! lo := at_ (part this) d in
            Val (d, MkElement q b (size_sub index lo)))
  end.

(** [element::operator T()]: a blocking read of one element. *)
Definition element_read (T : ctype) (e : element) : M value :=
  do! r := enqueueReadBuffer (element_queue e) (element_buf e) T true
             (size_mul (element_index e) (sizeof T)) (sizeof T) [0%Z] 0 in
  lift (at_ (snd r) 0).

(** [element::operator=(T val)]: a blocking write of one element. *)
Definition element_write (T : ctype) (e : element) (val : value) : M value :=
  do! _ := enqueueWriteBuffer (element_queue e) (element_buf e) T true
             (size_mul (element_index e) (sizeof T)) (sizeof T) [val] in
  mret val.

(** ** Copy assignment

    [operator=(const vector &x)] compares the addresses of its operands,
    so the vectors live in a heap of objects. *)

Abbreviation addr := N (only parsing).

(** The body of the loop of the copy assignment. *)
Definition copy_shard (x : vector) (d : nat) (this : vector) : M vector :=
  do! hi := lift (at_ (part this) (d + 1)) in
  do! lo := lift (at_ (part this) d) in
  let psize := size_sub hi lo in
  if psize =? 0 then mret this
  else
    do! q := lift (at_ (queue this) d) in
    do! src := lift (at_ (buf x) d) in
    do! dst := lift (at_ (buf this) d) in
    do! _ := enqueueCopyBuffer q src dst (elem this) 0 0
               (size_mul psize (sizeof (elem this))) in
    mret this.

(** [vector::operator=(const vector &x)], on the objects at the addresses
    [this] and [x] of the heap [h]; it returns [*this]. *)
Definition copy_assign (h : gmap addr vector) (this x : addr) : M vector :=
  match h !! this, h !! x with
  | Some vthis, Some vx =>
      if bool_decide (x <> this)
      then for_ (seq 0 (length (queue vthis))) (copy_shard vx) vthis
      else mret vthis
  | _, _ => lift UB
  end.

(** [c] is the copy of shard [d] of [x] to shard [d] of [this]. *)
Definition copy_of (this x : vector) (d : nat) (c : call) : Prop :=
  exists (q : CommandQueue) (src dst : Buffer) (lo hi : N),
    queue this !! d = Some q /\ buf x !! d = Some src /\ buf this !! d = Some dst /\
    part this !! d = Some lo /\ part this !! S d = Some hi /\
    c = CopyBuffer (queue_id q) src dst 0 0 ((hi - lo) * sizeof (elem this)).

(** ** What a transfer should issue

    The part of [[offset, offset + length)] that lies in shard [d] is not
    empty. *)
Definition intersects (v : vector) (offset length_ : N) (d : nat) : bool :=
  match part v !! d, part v !! S d with
  | Some lo, Some hi => N.max offset lo <? N.min (offset + length_) hi
  | _, _ => false
  end.

(** The shards a transfer of [[offset, offset + length)] touches. *)
Definition touched (v : vector) (offset length_ : N) : list nat :=
  filter (fun d => Is_true (intersects v offset length_ d)) (seq 0 (nparts v)).

Definition call_event (c : call) : Event :=
  match c with
  | WriteBuffer _ _ _ _ _ ev | ReadBuffer _ _ _ _ _ ev => ev
  | _ => 0
  end.

(** [c] is the non-blocking transfer, made by [mk], of the part of
    [[offset, offset + length)] in shard [d], on that shard's queue and
    buffer, and [evs] holds its event for the shard. *)
Definition transfer_of (mk : N -> Buffer -> bool -> N -> N -> Event -> call)
    (v : vector) (offset length_ : N) (evs : list Event) (d : nat) (c : call) : Prop :=
  exists (q : CommandQueue) (b : Buffer) (lo hi : N) (ev : Event),
    queue v !! d = Some q /\ buf v !! d = Some b /\
    part v !! d = Some lo /\ part v !! S d = Some hi /\
    evs !! d = Some ev /\ ev <> 0 /\
    c = mk (queue_id q) b false
          (sizeof (elem v) * (N.max offset lo - lo))
          (sizeof (elem v) * (N.min (offset + length_) hi - N.max offset lo))
          ev.

(** The calls a transfer should make after the calls [before]: one
    transfer for each touched shard, in the order of the shards, and then,
    when blocking, a wait on the event of each of them. *)
Definition issued (mk : N -> Buffer -> bool -> N -> N -> Event -> call)
    (v : vector) (offset length_ : N) (blocking : bool)
    (evs : list Event) (before after : list call) : Prop :=
  exists transfers : list call,
    Forall2 (transfer_of mk v offset length_ evs) (touched v offset length_) transfers /\
    after = before ++ transfers
            ++ (if blocking then map (fun c => EventWait (call_event c)) transfers
                else []).

(** The vector [v] with the events [evs], as the transfers leave it. *)
Definition with_events (v : vector) (evs : list Event) : vector :=
  MkVector (elem v) (queue v) (part v) (buf v) evs.

(** Elements [lo] to [hi - 1] of a host array. *)
Definition segment (host : list value) (lo hi : N) : list value :=
  take (N.to_nat (hi - lo)) (drop (N.to_nat lo) host).

(** ** The invariants of the data model

    The partition table has one entry more than there are queues, starts
    at 0 and does not decrease; there is a buffer and an event for every
    queue; the vector's bytes fit a [size_t]. *)

Fixpoint sorted (l : list N) : bool :=
  match l with
  | a :: (b :: _) as t => (a <=? b) && sorted t
  | _ => true
  end.

Definition wf_vector (v : vector) : bool :=
  bool_decide (length (part v) = S (nparts v))
  && bool_decide (length (buf v) = nparts v)
  && bool_decide (length (event v) = nparts v)
  && bool_decide (part v !! 0%nat = Some 0)
  && sorted (part v)
  && (sizeof (elem v) * size v <? size_modulus).

Definition shard_nonempty (v : vector) (d : nat) : bool :=
  match part v !! d, part v !! S d with
  | Some lo, Some hi => lo <? hi
  | _, _ => false
  end.

(** The buffer of a non-empty shard is a live buffer of the shard's size. *)
Definition shard_allocated (v : vector) (w : world) (d : nat) : bool :=
  match part v !! d, part v !! S d, buf v !! d with
  | Some lo, Some hi, Some b =>
      if lo <? hi then
        match mem w !! b with
        | Some data => N.of_nat (length data) =? hi - lo
        | None => false
        end
      else true
  | _, _, _ => false
  end.

Definition live_buffers (v : vector) : list Buffer :=
  omap (fun d => if shard_nonempty v d then buf v !! d else None)
       (seq 0 (nparts v)).

(** Every non-empty shard has its own allocated buffer. *)
Definition allocated (v : vector) (w : world) : bool :=
  forallb (shard_allocated v w) (seq 0 (nparts v))
  && bool_decide (NoDup (live_buffers v)).

(** * The arithmetic of [double]

    The partitioner computes in [double].  A [double] is an IEEE 754
    binary64 number ([spec_float] at 53 bits of precision and exponents
    up to 1024), every operation rounds to nearest with ties to even, and
    there is neither excess precision nor contraction of a product and a
    quotient into one operation. *)

Definition prec : Z := 53.
Definition emax : Z := 1024.

Definition d_zero : spec_float := S754_zero false.
Definition d_add : spec_float -> spec_float -> spec_float := SFadd prec emax.
Definition d_mul : spec_float -> spec_float -> spec_float := SFmul prec emax.
Definition d_div : spec_float -> spec_float -> spec_float := SFdiv prec emax.

(** The conversion of a [size_t] to [double]. *)
Definition d_of_size (n : N) : spec_float :=
  binary_normalize prec emax (Z.of_N n) 0 false.

(** The conversion of a [double] to [size_t]: the value truncated
    towards zero; the behaviour is undefined when the truncated value is
    not a [size_t], as for a NaN and the infinities. *)
Definition d_to_size (x : spec_float) : result N :=
  match x with
  | S754_zero _ => Val 0
  | S754_finite s m e =>
      let t := Z.shiftl (Z.pos m) e in
      if s then (if (t =? 0)%Z then Val 0 else UB)
      else if (t <? Z.of_N size_modulus)%Z then Val (Z.to_N t) else UB
  | _ => UB
  end.

(** A zero or a positive finite number in canonical form. *)
Definition nonneg_finite (r : spec_float) : bool :=
  valid_binary prec emax r &&
  match r with
  | S754_zero _ | S754_finite false _ _ => true
  | _ => false
  end.

Definition is_finite (r : spec_float) : bool :=
  match r with
  | S754_zero _ | S754_finite _ _ _ => true
  | _ => false
  end.

Definition is_zero (r : spec_float) : bool :=
  match r with
  | S754_zero _ => true
  | _ => false
  end.

(** ** The numbers the operations round

    What follows serves the proofs: the value of a finite number as a
    rational, and the rounding of a rational to binary64. *)

(** [2^e] as a rational. *)
Definition pow2 (e : Z) : Q := (2 ^ e)%Q.

(** The value of a finite number. *)
Definition SF2Q (f : spec_float) : Q :=
  match f with
  | S754_finite s m e => (inject_Z (cond_Zopp s (Z.pos m)) * pow2 e)%Q
  | _ => 0%Q
  end.

(** [y] lies in [[m, m + 1)] at the place [l] says. *)
Definition locates (y : Q) (m : Z) (l : location) : Prop :=
  (inject_Z m <= y)%Q /\ (y < inject_Z m + 1)%Q /\
  match l with
  | loc_Exact => (y == inject_Z m)%Q
  | loc_Inexact Lt => (inject_Z m < y)%Q /\ (y < inject_Z m + (1 # 2))%Q
  | loc_Inexact Eq => (y == inject_Z m + (1 # 2))%Q
  | loc_Inexact Gt => (inject_Z m + (1 # 2) < y)%Q
  end.

(** The integer nearest to [y], the even one of two. *)
Definition rne (y : Q) : Z :=
  let f := Qfloor y in
  match (y - inject_Z f ?= 1 # 2)%Q with
  | Lt => f
  | Eq => if Z.even f then f else (f + 1)%Z
  | Gt => (f + 1)%Z
  end.

(** The exponent binary64 gives a non-negative number [x]: [x] is below
    [2^(E + 53)] and, unless [E] is the least exponent, not below
    [2^(E + 52)]. *)
Definition has_exp (x : Q) (E : Z) : Prop :=
  (-1074 <= E)%Z /\ (0 <= x)%Q /\ (x < pow2 (E + 53))%Q /\
  (E = (-1074)%Z \/ (pow2 (E + 52) <= x)%Q).

(** [x] rounded to a multiple of [2^E]. *)
Definition RNDE (x : Q) (E : Z) : Q := (inject_Z (rne (x / pow2 E)) * pow2 E)%Q.

(** The number with mantissa [M], at most [2^53], and exponent [E]. *)
Definition pack (M E : Z) : spec_float :=
  match M with
  | Z0 => S754_zero false
  | Z.pos m =>
      if (M <? 2 ^ 53)%Z then
        if (E <=? 971)%Z then S754_finite false m E else S754_infinity false
      else
        if (E + 1 <=? 971)%Z then S754_finite false (Z.to_pos (2 ^ 52)) (E + 1)
        else S754_infinity false
  | Z.neg _ => S754_nan
  end.

(** [r] is [x] rounded to binary64: a non-negative number when the
    rounded value is below [2^1024], and positive infinity otherwise. *)
Definition rounds (x : Q) (r : spec_float) : Prop :=
  (nonneg_finite r = true \/ r = S754_infinity false) /\
  exists E : Z,
    has_exp x E /\
    if is_finite r then (SF2Q r == RNDE x E)%Q else (pow2 1024 <= RNDE x E)%Q.

(** ** The partitioner

    The measured weight of a device, [device_vector_perf], is a parameter
    of the model: a bandwidth measurement remembered per device. *)

(** Modelled from the spec: [alignup] of [vexcl/util.hpp], which is not
    among the sources; the spec's round_to_alignment, the least multiple
    of [m] that is not below [n]. *)
Definition alignup (n m : N) : N :=
  if n mod m =? 0 then n else n - n mod m + m.

Section Partitioner.

(** The alignment [alignup] defaults to, and the weight measured for a
    device. *)
Variable alignment : N.
Variable device_vector_perf : Context -> Device -> spec_float.

(** [v.back()] of a vector that is not empty. *)
Definition back (v : list spec_float) : spec_float := List.last v d_zero.

(** [cumsum.push_back(cumsum.back() + device_vector_perf(...))]. *)
Definition push_perf (cumsum : list spec_float) (q : CommandQueue) : list spec_float :=
  cumsum ++ [d_add (back cumsum)
               (device_vector_perf (queue_context q) (queue_device q))].

(** [part[d + 1] = std::min(n, alignup(n * cumsum[d + 1] / cumsum.back()))]:
    [n] is converted to [double] for the product, and the quotient to
    [size_t] for [alignup]. *)
Definition set_boundary (n : N) (cumsum : list spec_float) (part : list N) (d : nat) :
    result (list N) :=
  let! c := at_ cumsum (d + 1) in
  let! b := d_to_size (d_div (d_mul (d_of_size n) c) (back cumsum)) in
  Val (<[(d + 1)%nat := N.min n (alignup b alignment)]> part).

(** [for(uint d = 0; d < queue.size(); d++) part[d + 1] = ...]. *)
Fixpoint boundaries (n : N) (cumsum : list spec_float) (ds : list nat) (part : list N) :
    result (list N) :=
  match ds with
  | [] => Val part
  | d :: ds' =>
      let! part := set_boundary n cumsum part d in
      boundaries n cumsum ds' part
  end.

(** [partition_by_vector_perf(n, queue)], for a [size_t] [n]. *)
Definition partition_by_vector_perf (n : N) (queue : list CommandQueue) :
    result (list N) :=
  let part := replicate (length queue + 1) 0 in
  let! part :=
    if (1 <? length queue)%nat then
      let cumsum := fold_left push_perf queue [d_zero] in
      boundaries n cumsum (seq 0 (length queue)) part
    else Val part in
  Val (<[(length part - 1)%nat := n]> part).

(** What the weights have to meet for a length [n] when there is more
    than one queue: every weight is a finite number that is not
    negative, their sum is not zero, and [n] times their sum is
    finite. *)
Definition weights_fit (n : N) (queue : list CommandQueue) : Prop :=
  (forall q, q ∈ queue ->
     nonneg_finite (device_vector_perf (queue_context q) (queue_device q)) = true) /\
  is_zero (back (fold_left push_perf queue [d_zero])) = false /\
  is_finite (d_mul (d_of_size n) (back (fold_left push_perf queue [d_zero]))) = true.

End Partitioner.

(** The largest length the partitioner is shown to split:
    [2^64 - 2^13]. *)
Definition max_partitioned : N := 18446744073709543424.

(** Weights for the examples: the number of compute units of the device;
    1 for the devices numbered below 3 and 0 for the others; 0 for every
    device. *)
Definition units_perf (c : Context) (d : Device) : spec_float :=
  d_of_size (max_compute_units d).

Definition tail_zero_perf (c : Context) (d : Device) : spec_float :=
  d_of_size (if device_id d <? 3 then 1 else 0).

Definition zero_perf (c : Context) (d : Device) : spec_float := d_zero.

(** ** Kernel source synthesis *)

Definition nl : string := String (ascii_of_nat 10) "".
Definition tab : string := String (ascii_of_nat 9) "".

(** [preamble(os, name)]: empty for vectors and scalars. *)
Fixpoint preamble (e : expr) (name : string) : string :=
  match e with
  | EVec _ | EScalar _ _ => ""
  | EBin _ lhs rhs => preamble lhs (name +:+ "l") +:+ preamble rhs (name +:+ "r")
  end.

(** [kernel_prm(os, name)]. *)
Fixpoint kernel_prm (e : expr) (name : string) : string :=
  match e with
  | EVec v => "," +:+ nl +:+ tab +:+ "global " +:+ type_name (elem v) +:+ " *" +:+ name
  | EScalar T _ => "," +:+ nl +:+ tab +:+ type_name T +:+ " " +:+ name
  | EBin _ lhs rhs => kernel_prm lhs (name +:+ "l") +:+ kernel_prm rhs (name +:+ "r")
  end.

(** [kernel_expr(os, name)]. *)
Fixpoint kernel_expr (e : expr) (name : string) : string :=
  match e with
  | EVec _ => name +:+ "[i]"
  | EScalar _ _ => name
  | EBin OP lhs rhs =>
      "(" +:+ kernel_expr lhs (name +:+ "l") +:+ " " +:+ String OP " "
      +:+ kernel_expr rhs (name +:+ "r") +:+ ")"
  end.

(** [kernel_args(k, devnum, pos)]: the arguments bound from position
    [pos] on, left to right. *)
Fixpoint kernel_args (e : expr) (devnum : nat) : result (list kernel_arg) :=
  match e with
  | EVec v => let! b := at_ (buf v) devnum in Val [ArgBuffer b]
  | EScalar T bits => Val [ArgScalar T bits]
  | EBin _ lhs rhs =>
      let! l := kernel_args lhs devnum in
      let! r := kernel_args rhs devnum in
      Val (l ++ r)
  end.

(** What the assignment needs of [vexcl/util.hpp] and of the OpenCL
    compiler: the header of every kernel source, [build_sources], the
    constructor of [cl::Kernel] and [kernel_workgroup_size], each of which
    may throw. *)
Record DeviceAPI : Type := MkAPI {
  standard_kernel_header : string;
  build_sources : Context -> string -> result Program;
  create_kernel : Program -> string -> result Kernel;
  kernel_workgroup_size : Kernel -> list Device -> result N
}.

(** The source text the assignment builds for destination element type
    [T], expression [e] and kernel name [name]. *)
Definition kernel_source (api : DeviceAPI) (T : ctype) (e : expr) (name : string)
    (device_is_cpu : bool) : string :=
  standard_kernel_header api
  +:+ preamble e "prm"
  +:+ "kernel void " +:+ name +:+ "(" +:+ nl
  +:+ tab +:+ type_name size_t +:+ " n," +:+ nl
  +:+ tab +:+ "global " +:+ type_name T +:+ " *res"
  +:+ kernel_prm e "prm"
  +:+ nl +:+ tab +:+ ")" +:+ nl +:+ "{" +:+ nl
  +:+ tab +:+ "size_t i = get_global_id(0);" +:+ nl
  +:+ (if device_is_cpu then
         tab +:+ "if (i < n) {" +:+ nl
         +:+ tab +:+ tab +:+ "res[i] = "
       else
         tab +:+ "size_t grid_size = get_num_groups(0) * get_local_size(0);" +:+ nl
         +:+ tab +:+ "while (i < n) {" +:+ nl
         +:+ tab +:+ tab +:+ "res[i] = ")
  +:+ kernel_expr e "prm"
  +:+ (if device_is_cpu then
         ";" +:+ nl +:+ tab +:+ "}" +:+ nl +:+ "}" +:+ nl
       else
         ";" +:+ nl +:+ tab +:+ tab +:+ "i += grid_size;" +:+ nl
         +:+ tab +:+ "}" +:+ nl +:+ "}" +:+ nl).

(** ** The kernel cache *)

(** The world with the static members of [vector<T>::exdata<Expr>]
    replaced. *)
Definition set_cache (w : world) (T : ctype) (E : expr_type) (x : exdata) : world :=
  MkWorld (mem w) (calls w) (next_event w)
    (fun T' E' => if decide (T' = T /\ E' = E) then x else statics w T' E').

Definition get_exdata (T : ctype) (E : expr_type) : M exdata :=
  fun w => (Val (statics w T E), w).

Definition put_exdata (T : ctype) (E : expr_type) (x : exdata) : M unit :=
  fun w => (Val tt, set_cache w T E x).

(** [exdata<Expr>::compiled[context()]] read: a missing key is inserted
    with [false]. *)
Definition read_compiled (T : ctype) (E : expr_type) (c : cl_context) : M bool :=
  do! x := get_exdata T E in
  match compiled x !! c with
  | Some b => mret b
  | None =>
      do! _ := put_exdata T E (MkExdata (<[c := false]> (compiled x)) (kernel x) (wgsize x)) in
      mret false
  end.

(** [exdata<Expr>::kernel[context()]] read: a missing key is inserted
    with the null kernel. *)
Definition read_kernel (T : ctype) (E : expr_type) (c : cl_context) : M Kernel :=
  do! x := get_exdata T E in
  match kernel x !! c with
  | Some k => mret k
  | None =>
      do! _ := put_exdata T E (MkExdata (compiled x) (<[c := 0]> (kernel x)) (wgsize x)) in
      mret 0
  end.

(** [exdata<Expr>::wgsize[context()]] read: a missing key is inserted
    with 0. *)
Definition read_wgsize (T : ctype) (E : expr_type) (c : cl_context) : M N :=
  do! x := get_exdata T E in
  match wgsize x !! c with
  | Some n => mret n
  | None =>
      do! _ := put_exdata T E (MkExdata (compiled x) (kernel x) (<[c := 0]> (wgsize x))) in
      mret 0
  end.

Definition write_compiled (T : ctype) (E : expr_type) (c : cl_context) (b : bool) : M unit :=
  do! x := get_exdata T E in
  put_exdata T E (MkExdata (<[c := b]> (compiled x)) (kernel x) (wgsize x)).

Definition write_kernel (T : ctype) (E : expr_type) (c : cl_context) (k : Kernel) : M unit :=
  do! x := get_exdata T E in
  put_exdata T E (MkExdata (compiled x) (<[c := k]> (kernel x)) (wgsize x)).

Definition write_wgsize (T : ctype) (E : expr_type) (c : cl_context) (n : N) : M unit :=
  do! x := get_exdata T E in
  put_exdata T E (MkExdata (compiled x) (kernel x) (<[c := n]> (wgsize x))).

(** ** Assignment of an expression *)

(** The body of [if (!exdata<Expr>::compiled[context()])]: synthesis,
    build, kernel construction, and only then the flag and the work-group
    size. *)
Definition compile (api : DeviceAPI) (T : ctype) (e : expr) (context : Context) : M unit :=
  let E := type_of e in
  do! device0 := lift (at_ (context_devices context) 0) in
  let device_is_cpu := device_type device0 =? CL_DEVICE_TYPE_CPU in
  do! name := lift (kernel_name e) in
  let source := kernel_source api T e name device_is_cpu in
  do! _ := record_call (BuildSources (context_id context) source) in
  do! program := lift (build_sources api context source) in
  do! _ := record_call (CreateKernel program name) in
  do! k := lift (create_kernel api program name) in
  do! _ := write_kernel T E (context_id context) k in
  do! _ := write_compiled T E (context_id context) true in
  do! k' := read_kernel T E (context_id context) in
  do! _ := record_call (WorkgroupSize k') in
  do! wg := lift (kernel_workgroup_size api k' (context_devices context)) in
  write_wgsize T E (context_id context) wg.

(** The body of the first loop, over the queues. *)
Definition compile_for_queue (api : DeviceAPI) (T : ctype) (e : expr)
    (q : CommandQueue) : M unit :=
  let context := queue_context q in
  do! done := read_compiled T (type_of e) (context_id context) in
  if done then mret tt else compile api T e context.

Fixpoint for_each {A : Type} (l : list A) (body : A -> M unit) : M unit :=
  match l with
  | [] => mret tt
  | a :: l' => do! _ := body a in for_each l' body
  end.

(** [k.setArg(pos++, arg)] for each argument in turn; the position after
    the last is returned. *)
Fixpoint set_args (k : Kernel) (pos : N) (args : list kernel_arg) : M N :=
  match args with
  | [] => mret pos
  | a :: args' =>
      do! _ := record_call (SetArg k pos a) in set_args k (pos + 1) args'
  end.

(** The body of the second loop, over the shards: the launch.  Either
    branch of the launch size reads [wgsize[context()]] once. *)
Definition launch_shard (e : expr) (d : nat) (this : vector) : M vector :=
  let T := elem this in
  let E := type_of e in
  do! hi := lift (at_ (part this) (d + 1)) in
  do! lo := lift (at_ (part this) d) in
  let psize := size_sub hi lo in
  if psize =? 0 then mret this
  else
    do! q := lift (at_ (queue this) d) in
    let context := queue_context q in
    let device := queue_device q in
    do! wg := read_wgsize T E (context_id context) in
    let g_size :=
      if device_type device =? CL_DEVICE_TYPE_CPU
      then alignup psize wg
      else size_mul (size_mul (max_compute_units device) wg) 4 in
    do! k := read_kernel T E (context_id context) in
    do! pos := set_args k 0 [ArgSize psize] in
    do! k := read_kernel T E (context_id context) in
    do! b := lift (at_ (buf this) d) in
    do! pos := set_args k pos [ArgBuffer b] in
    do! k := read_kernel T E (context_id context) in
    do! args := lift (kernel_args e d) in
    do! _ := set_args k pos args in
    do! k := read_kernel T E (context_id context) in
    do! wg := read_wgsize T E (context_id context) in
    do! _ := record_call (NDRangeKernel (queue_id q) k g_size wg) in
    mret this.

(** [vector::operator=(const Expr &expr)]. *)
Definition assign_expr (api : DeviceAPI) (this : vector) (e : expr) : M vector :=
  do! _ := for_each (queue this) (compile_for_queue api (elem this) e) in
  for_ (seq 0 (length (queue this))) (launch_shard e) this.

(** [operator+=], [operator*=], [operator/=] and [operator-=]. *)
Definition operator_plus_assign (api : DeviceAPI) (this : vector) (e : expr) : M vector :=
  assign_expr api this (operator_plus (EVec this) e).

Definition operator_times_assign (api : DeviceAPI) (this : vector) (e : expr) : M vector :=
  assign_expr api this (operator_times (EVec this) e).

Definition operator_divide_assign (api : DeviceAPI) (this : vector) (e : expr) : M vector :=
  assign_expr api this (operator_divide (EVec this) e).

Definition operator_minus_assign (api : DeviceAPI) (this : vector) (e : expr) : M vector :=
  assign_expr api this (operator_minus (EVec this) e).

(** The accumulation [dst OP= expr] as the spec words it:
    [dst = dst OP expr]. *)
Definition accumulate_spec (api : DeviceAPI) (OP : ascii) (dst : vector) (e : expr) :
    M vector :=
  assign_expr api dst (EBin OP (EVec dst) e).

(** The calls that build a kernel source for context [c]. *)
Definition is_build (c : cl_context) (x : call) : bool :=
  match x with
  | BuildSources c' _ => bool_decide (c' = c)
  | _ => false
  end.

Definition builds (c : cl_context) (cs : list call) : nat :=
  length (List.filter (is_build c) cs).

(** The cache of [vector<T>::exdata<Expr>] holds a compiled kernel for
    context [c]. *)
Definition is_compiled (w : world) (T : ctype) (E : expr_type) (c : cl_context) : Prop :=
  compiled (statics w T E) !! c = Some true.

(** The calls of synthesis and compilation. *)
Definition is_compile_call (x : call) : bool :=
  match x with
  | BuildSources _ _ | CreateKernel _ _ | WorkgroupSize _ => true
  | _ => false
  end.

(** The source built for queue [q]'s context, when the expression has a
    name and the context a device. *)
Definition source_for (api : DeviceAPI) (T : ctype) (e : expr) (q : CommandQueue) :
    option (string * string) :=
  match context_devices (queue_context q) !! 0%nat, kernel_name e with
  | Some device0, Val name =>
      Some (name,
            kernel_source api T e name (device_type device0 =? CL_DEVICE_TYPE_CPU))
  | _, _ => None
  end.

(** Queue [q]'s context was built and its kernel constructed: [k] is the
    kernel the compiler made for it. *)
Definition built_for (api : DeviceAPI) (T : ctype) (e : expr) (q : CommandQueue)
    (k : Kernel) : Prop :=
  exists (name source : string) (p : Program),
    source_for api T e q = Some (name, source) /\
    build_sources api (queue_context q) source = Val p /\
    create_kernel api p name = Val k.

(** Every run of [m], whatever its outcome, relates the world before to
    the world after by [R]. *)
Definition preserves {A : Type} (R : world -> world -> Prop) (m : M A) : Prop :=
  forall (w w' : world) (r : result A), m w = (r, w') -> R w w'.

(** What a launch may do to the world: leave device memory, the events
    and every compiled flag alone, keep the kernels and work-group sizes
    that are cached, and make no call of synthesis or compilation. *)
Definition launch_frame (w w' : world) : Prop :=
  mem w' = mem w /\ next_event w' = next_event w /\
  (forall T E, compiled (statics w' T E) = compiled (statics w T E)) /\
  (forall T E c k, kernel (statics w T E) !! c = Some k ->
                   kernel (statics w' T E) !! c = Some k) /\
  (forall T E c n, wgsize (statics w T E) !! c = Some n ->
                   wgsize (statics w' T E) !! c = Some n) /\
  exists new : list call,
    calls w' = calls w ++ new /\
    forallb (fun x => negb (is_compile_call x)) new = true.

Definition add_calls (w : world) (cs : list call) : world :=
  MkWorld (mem w) (calls w ++ cs) (next_event w) (statics w).

(** The calls of [set_args]. *)
Fixpoint setarg_calls (k : Kernel) (pos : N) (args : list kernel_arg) : list call :=
  match args with
  | [] => []
  | a :: args' => SetArg k pos a :: setarg_calls k (pos + 1) args'
  end.

(** The cache of [vector<T>::exdata<Expr>] holds a kernel and a
    work-group size for the context of every queue in [qs]. *)
Definition cache_ready (w : world) (T : ctype) (E : expr_type)
    (qs : list CommandQueue) : Prop :=
  forall q, q ∈ qs ->
    is_compiled w T E (context_id (queue_context q)) /\
    exists k wg,
      kernel (statics w T E) !! context_id (queue_context q) = Some k /\
      wgsize (statics w T E) !! context_id (queue_context q) = Some wg.

(** A call of a launch that uses what is cached: its kernel is the one
    cached for the context of one of the queues [qs], a launch is on that
    queue with the cached work-group size, and it is no call of synthesis
    or compilation. *)
Definition uses_cache (w : world) (T : ctype) (E : expr_type)
    (qs : list CommandQueue) (x : call) : Prop :=
  match x with
  | SetArg k _ _ =>
      exists q, q ∈ qs /\
        kernel (statics w T E) !! context_id (queue_context q) = Some k
  | NDRangeKernel qid k _ wg =>
      exists q, q ∈ qs /\ queue_id q = qid /\
        kernel (statics w T E) !! context_id (queue_context q) = Some k /\
        wgsize (statics w T E) !! context_id (queue_context q) = Some wg
  | _ => False
  end.

(** * A sample platform

    One context with three GPU devices, the second of which reports no
    compute units, a queue on each, and vectors split [0, 2, 2, 5] over
    them, so that the middle shard is empty. *)

Definition gpu0 : Device := MkDevice 1 CL_DEVICE_TYPE_GPU 1.
Definition gpu1 : Device := MkDevice 2 CL_DEVICE_TYPE_GPU 0.
Definition gpu2 : Device := MkDevice 3 CL_DEVICE_TYPE_GPU 3.

Definition ctx0 : Context := MkContext 7 [gpu0; gpu1; gpu2].

Definition q0 : CommandQueue := MkQueue 10 ctx0 gpu0.
Definition q1 : CommandQueue := MkQueue 11 ctx0 gpu1.
Definition q2 : CommandQueue := MkQueue 12 ctx0 gpu2.

Definition sample_queues : list CommandQueue := [q0; q1; q2].

Definition float1 : ctype := CType cl_float len1.
Definition double1 : ctype := CType cl_double len1.

Definition vec_a : vector := MkVector float1 sample_queues [0; 2; 2; 5] [100; 101; 102] [0; 0; 0].
Definition vec_b : vector := MkVector float1 sample_queues [0; 2; 2; 5] [110; 111; 112] [0; 0; 0].
Definition vec_c : vector := MkVector float1 sample_queues [0; 2; 2; 5] [120; 121; 122] [0; 0; 0].
Definition vec_d : vector := MkVector double1 sample_queues [0; 2; 2; 5] [130; 131; 132] [0; 0; 0].

Definition no_exdata : exdata := MkExdata ∅ ∅ ∅.

(** Device memory with the buffers of the non-empty shards, no call made
    yet and nothing compiled. *)
Definition world0 : world :=
  MkWorld
    (<[100 := [0; 0]%Z]> (<[102 := [0; 0; 0]%Z]>
      (<[110 := [7; 8]%Z]> (<[112 := [9; 10; 11]%Z]>
        (<[120 := [0; 0]%Z]> (<[122 := [0; 0; 0]%Z]>
          (<[130 := [0; 0]%Z]> (<[132 := [0; 0; 0]%Z]> ∅))))))))
    [] 1 (fun _ _ => no_exdata).

Definition sample_host : list value := [1; 2; 3; 4; 5]%Z.
Definition sample_out : list value := [0; 0; 0; 0; 0]%Z.

(** The vector objects by address, for the copy assignment. *)
Definition sample_heap : gmap addr vector := <[1 := vec_a]> (<[2 := vec_b]> ∅).

(** A device API whose compiler succeeds: programs and kernels are
    numbered by the length of their text. *)
Definition api_ok : DeviceAPI :=
  MkAPI "" (fun _ source => Val (N.of_nat (String.length source)))
        (fun p _ => Val (p + 1)) (fun _ _ => Val 64).

(** A device API whose compiler rejects every source. *)
Definition api_fail : DeviceAPI :=
  MkAPI "" (fun _ _ => Exn "build failed")
        (fun p _ => Val (p + 1)) (fun _ _ => Val 64).

(** [vec_b + 2] and [vec_a + 3]: one expression type. *)
Definition sum_b : expr := operator_plus (EVec vec_b) (EScalar float1 2).
Definition sum_a : expr := operator_plus (EVec vec_a) (EScalar float1 3).

(** The scalar [2.0f] as an expression. *)
Definition two : expr := EScalar float1 2.

(** An expression with an operator outside the four, under a sum. *)
Definition rem_b : expr := EBin "%" (EVec vec_b) (EVec vec_b).
Definition sum_rem : expr := operator_plus rem_b (EVec vec_b).

(** [vec_a = vec_b + 2] and then [vec_c = vec_a + 3], with a compiler
    that succeeds. *)
Definition world1 : world := snd (assign_expr api_ok vec_a sum_b world0).
Definition world2 : world := snd (assign_expr api_ok vec_c sum_a world1).

(** [vec_a = vec_b + 2] with a compiler that fails, and then once more
    with one that succeeds. *)
Definition world_failed : world := snd (assign_expr api_fail vec_a sum_b world0).
Definition world_retried : world := snd (assign_expr api_ok vec_a sum_b world_failed).

(** * The rest of the vector interface *)

(** ** The elements of a device vector, as the host sees them *)

(** What shard [d] holds: the data of its buffer; an empty shard has no
    buffer and holds nothing. *)
Definition shard_data (v : vector) (w : world) (d : nat) : list value :=
  if shard_nonempty v d then
    match buf v !! d with
    | Some b => default [] (mem w !! b)
    | None => []
    end
  else [].

(** The shards one after the other. *)
Definition contents (v : vector) (w : world) : list value :=
  concat (map (shard_data v w) (seq 0 (nparts v))).

(** The number of elements a transfer of [[offset, offset + length)] moves:
    the range is cut at the end of the vector. *)
Definition moved (v : vector) (offset length_ : N) : N :=
  N.min (offset + length_) (size v) - offset.

(** ** Conversions between [size_t] and [ptrdiff_t] *)

Definition to_size (d : Z) : N := Z.to_N (d mod Z.of_N size_modulus).

Definition to_ptrdiff (n : N) : Z :=
  if n <? size_modulus / 2 then Z.of_N n else (Z.of_N n - Z.of_N size_modulus)%Z.

(** ** Iterators, [vector::iterator_type]

    An iterator refers to its vector, which the functions here take as
    [vec], and holds a position and the number of the shard the position
    falls in. *)

Module iterator_type.
Record t : Set := Mk { pos : N; part : nat }.
End iterator_type.

(** [while (pos >= vec.part[part + 1] && part < vec.nparts()) part++;]
    over [table], the partition table from entry [part + 1] on: every
    evaluation of the condition reads the head of [table]. *)
Fixpoint advance_on (n : nat) (pos : N) (d : nat) (table : list N) : result nat :=
  match table with
  | [] => UB
  | p :: table' =>
      if (p <=? pos) && (d <? n)%nat
      then advance_on n pos (d + 1) table'
      else Val d
  end.

Definition advance (vec : vector) (pos : N) (d : nat) : result nat :=
  advance_on (nparts vec) pos d (drop (d + 1) (part vec)).

(** The constructor [iterator_type(vec, pos)]. *)
Definition iterator_new (vec : vector) (pos : N) : result iterator_type.t :=
  if bool_decide (part vec = []) then Val (iterator_type.Mk pos 0)
  else
    let! d := advance vec pos 0 in
    Val (iterator_type.Mk pos d).

(** [begin()] and [end()]. *)
Definition vector_begin (vec : vector) : result iterator_type.t :=
  iterator_new vec 0.

Definition vector_end (vec : vector) : result iterator_type.t :=
  iterator_new vec (size vec).

(** [operator*()]. *)
Definition iterator_deref (vec : vector) (it : iterator_type.t) : result element :=
  let! q := at_ (queue vec) (iterator_type.part it) in
  let! b := at_ (buf vec) (iterator_type.part it) in
  let! lo := at_ (part vec) (iterator_type.part it) in
  Val (MkElement q b (size_sub (iterator_type.pos it) lo)).

(** [operator++()]. *)
Definition iterator_incr (vec : vector) (it : iterator_type.t) : result iterator_type.t :=
  let pos := size_add (iterator_type.pos it) 1 in
  let! d := advance vec pos (iterator_type.part it) in
  Val (iterator_type.Mk pos d).

(** [++] applied [k] times. *)
Definition incremented (v : vector) (k : nat) (r : result iterator_type.t) :
    result iterator_type.t :=
  Nat.iter k (fun r => let! it := r in iterator_incr v it) r.

(** [operator+(ptrdiff_t d)]. *)
Definition iterator_plus (vec : vector) (it : iterator_type.t) (d : Z) :
    result iterator_type.t :=
  iterator_new vec (size_add (iterator_type.pos it) (to_size d)).

(** [operator-(iterator_type it)]: [pos - it.pos] as a [ptrdiff_t]. *)
Definition iterator_minus (this it : iterator_type.t) : Z :=
  to_ptrdiff (size_sub (iterator_type.pos this) (iterator_type.pos it)).

(** [operator==] and [operator!=]. *)
Definition iterator_eq (this it : iterator_type.t) : bool :=
  iterator_type.pos this =? iterator_type.pos it.

Definition iterator_ne (this it : iterator_type.t) : bool :=
  negb (iterator_type.pos this =? iterator_type.pos it).

(** ** Copies of a range

    [vex::copy(first, last, result, blocking)] from a device vector to the
    host: [result] is the host array from [&result[0]] on; the function
    returns [result + (last - first)], here the distance the host iterator
    has moved. *)
Definition copy_range_to_host (vec : vector) (first last : iterator_type.t)
    (result : list value) (blocking : bool) : M (vector * list value * Z) :=
  let n := iterator_minus last first in
  do! r := read_data vec (iterator_type.pos first) (to_size n) result blocking in
  mret (r, n).

(** [vex::copy(first, last, result, blocking)] from the host to a device
    vector: [first] is the host array from [&first[0]] on and [n] is
    [last - first]; the function returns the device iterator
    [result + (last - first)]. *)
Definition copy_range_to_device (first : list value) (n : Z) (vec : vector)
    (result : iterator_type.t) (blocking : bool) : M (vector * iterator_type.t) :=
  do! vec' := write_data vec (iterator_type.pos result) (to_size n) first blocking in
  do! it := lift (iterator_plus vec' result n) in
  mret (vec', it).

(** ** Swap and move

    [vector::swap] exchanges the four members of two objects of one
    element type. *)
Definition with_members (this v : vector) : vector :=
  MkVector (elem this) (queue v) (part v) (buf v) (event v).

Definition vector_swap (h : gmap addr vector) (this v : addr) : result (gmap addr vector) :=
  match h !! this, h !! v with
  | Some vthis, Some vv =>
      Val (<[v := with_members vv vthis]> (<[this := with_members vthis vv]> h))
  | _, _ => UB
  end.

(** The move assignment [operator=(vector &&v)]: [swap(v); return *this;]. *)
Definition move_assign (h : gmap addr vector) (this v : addr) :
    result (gmap addr vector * vector) :=
  let! h' := vector_swap h this v in
  let! vthis := match h' !! this with Some x => Val x | None => UB end in
  Val (h', vthis).

(** The free function [swap(x, y)]: [x.swap(y)]. *)
Definition swap (h : gmap addr vector) (x y : addr) : result (gmap addr vector) :=
  vector_swap h x y.

(** * The terminals of an expression and the launch

    The kernel source declares one parameter for every terminal of the
    expression, and the launch binds one argument for each. *)

Inductive terminal : Set :=
| TermVec (v : vector)
| TermScalar (T : ctype) (bits : Z).

(** The terminals of an expression from left to right, each with the name
    that the synthesis gives it when the root is named [name]. *)
Fixpoint terminals (e : expr) (name : string) : list (string * terminal) :=
  match e with
  | EVec v => [(name, TermVec v)]
  | EScalar T bits => [(name, TermScalar T bits)]
  | EBin _ lhs rhs => terminals lhs (name +:+ "l") ++ terminals rhs (name +:+ "r")
  end.

(** The declaration of the kernel parameter of a terminal. *)
Definition terminal_prm (x : string * terminal) : string :=
  match snd x with
  | TermVec v =>
      "," +:+ nl +:+ tab +:+ "global " +:+ type_name (elem v) +:+ " *" +:+ fst x
  | TermScalar T _ => "," +:+ nl +:+ tab +:+ type_name T +:+ " " +:+ fst x
  end.

(** The text that stands for a terminal in the body of the kernel. *)
Definition terminal_expr (x : string * terminal) : string :=
  match snd x with
  | TermVec _ => fst x +:+ "[i]"
  | TermScalar _ _ => fst x
  end.

(** The kernel argument of a terminal on device [devnum]. *)
Definition terminal_arg (devnum : nat) (x : string * terminal) : result kernel_arg :=
  match snd x with
  | TermVec v => let! b := at_ (buf v) devnum in Val (ArgBuffer b)
  | TermScalar T bits => Val (ArgScalar T bits)
  end.

(** The results of a list of calls, up to the first that fails. *)
Fixpoint collect {A : Type} (l : list (result A)) : result (list A) :=
  match l with
  | [] => Val []
  | r :: l' => let! a := r in let! rest := collect l' in Val (a :: rest)
  end.

Definition concat_strings (l : list string) : string :=
  foldr String.append "" l.

(** The global size of the launch on a shard of [psize] elements. *)
Definition global_size (q : CommandQueue) (psize wg : N) : N :=
  if device_type (queue_device q) =? CL_DEVICE_TYPE_CPU
  then alignup psize wg
  else size_mul (size_mul (max_compute_units (queue_device q)) wg) 4.

(** The calls of the launch on shard [d], with the kernel and the
    work-group size that world [w] has cached for the shard's context:
    the arguments at positions 0, 1, 2, ... and the launch itself; none
    for an empty shard. *)
Definition launch_calls (w : world) (e : expr) (this : vector) (d : nat) : list call :=
  match part this !! d, part this !! S d, queue this !! d, buf this !! d,
        kernel_args e d with
  | Some lo, Some hi, Some q, Some b, Val args =>
      if lo <? hi then
        let x := statics w (elem this) (type_of e) in
        let k := default 0 (kernel x !! context_id (queue_context q)) in
        let wg := default 0 (wgsize x !! context_id (queue_context q)) in
        setarg_calls k 0 (ArgSize (hi - lo) :: ArgBuffer b :: args)
        ++ [NDRangeKernel (queue_id q) k (global_size q (hi - lo) wg) wg]
      else []
  | _, _, _, _, _ => []
  end.

(** * OpenCL scalar and vector types ([vexcl/types.hpp]) *)

(** [cl_scalar_of<T>::type]: the scalar type of a vector or scalar
    type. *)
Definition cl_scalar_of (T : ctype) : ctype := CType (base T) len1.

(** [cl_vector_length<T>::value]. *)
Definition cl_vector_length (T : ctype) : N := len_count (len T).

(** [cl_vector_of<T, dim>::type], which is specialised for the scalar
    types and the dimensions 1, 2, 4, 8 and 16 only; there is no member
    [type] otherwise. *)
Definition cl_vector_of (T : ctype) (dim : N) : option ctype :=
  match len T with
  | len1 =>
      if dim =? 1 then Some (CType (base T) len1)
      else if dim =? 2 then Some (CType (base T) len2)
      else if dim =? 4 then Some (CType (base T) len4)
      else if dim =? 8 then Some (CType (base T) len8)
      else if dim =? 16 then Some (CType (base T) len16)
      else None
  | _ => None
  end.

(** [is_cl_native<T>] holds of every type of [ctype]. *)
Definition is_cl_native (T : ctype) : bool := true.

Definition is_cl_scalar (T : ctype) : bool :=
  is_cl_native T && (cl_vector_length T =? 1).

Definition is_cl_vector (T : ctype) : bool :=
  is_cl_native T && (1 <? cl_vector_length T).

(** ** Values of the vector types

    A value of [cl_<base><len>] holds its components in the array [s] of
    [len] entries.  The operators below are those the macros [BIN_OP],
    [BIN_SCALAR_OP] and [CL_VEC_TYPE] define for every base type and
    length; [op] is the operator of the base type. *)

Section ClVector.

Context {A : Type}.
Variable op : A -> A -> A.
Variable neg : A -> A.
Variable show : A -> string.

(** [for (size_t i = 0; i < len; i++) a.s[i] op= b.s[i];] from [i] on,
    with [n] iterations left. *)
Fixpoint assign_loop (n i : nat) (a b : list A) : result (list A) :=
  match n with
  | O => Val a
  | S n' =>
      let! x := at_ a i in
      let! y := at_ b i in
      assign_loop n' (S i) (<[i := op x y]> a) b
  end.

(** [operator op=(a, b)] on two vectors; it returns [a]. *)
Definition vector_op_assign (len : nat) (a b : list A) : result (list A) :=
  assign_loop len 0 a b.

(** [operator op(a, b)] on two vectors: [res = a; return res op= b;]. *)
Definition vector_op (len : nat) (a b : list A) : result (list A) :=
  let res := a in vector_op_assign len res b.

(** [for (size_t i = 0; i < len; i++) a.s[i] op= b;]. *)
Fixpoint scalar_assign_loop (n i : nat) (a : list A) (b : A) : result (list A) :=
  match n with
  | O => Val a
  | S n' =>
      let! x := at_ a i in
      scalar_assign_loop n' (S i) (<[i := op x b]> a) b
  end.

(** [operator op=(a, b)] on a vector and a scalar. *)
Definition vector_scalar_op_assign (len : nat) (a : list A) (b : A) : result (list A) :=
  scalar_assign_loop len 0 a b.

(** [operator op(a, b)] on a vector and a scalar:
    [res = a; return res op= b;]. *)
Definition vector_scalar_op (len : nat) (a : list A) (b : A) : result (list A) :=
  let res := a in vector_scalar_op_assign len res b.

(** [operator op(a, b)] on a scalar and a vector:
    [res = b; return res op= a;]. *)
Definition scalar_vector_op (len : nat) (a : A) (b : list A) : result (list A) :=
  let res := b in vector_scalar_op_assign len res a.

(** [for (size_t i = 0; i < len; i++) res.s[i] = -a.s[i];] *)
Fixpoint negate_loop (n i : nat) (res a : list A) : result (list A) :=
  match n with
  | O => Val res
  | S n' =>
      let! x := at_ a i in
      let! _ := at_ res i in
      negate_loop n' (S i) (<[i := neg x]> res) a
  end.

(** The unary [operator-(a)]; [res] is declared without an initial
    value, and [uninit] is what its array happens to hold. *)
Definition vector_negate (len : nat) (uninit a : list A) : result (list A) :=
  negate_loop len 0 uninit a.

(** The loop of [operator<<]: a comma before every component but the
    first. *)
Fixpoint print_loop (n i : nat) (os : string) (value : list A) : result string :=
  match n with
  | O => Val os
  | S n' =>
      let os := if bool_decide (i <> 0%nat) then os +:+ "," else os in
      let! x := at_ value i in
      print_loop n' (S i) (os +:+ show x) value
  end.

(** [operator<<(os, value)] for the type [T] of [len] components. *)
Definition print_vector (T : ctype) (len : nat) (os : string) (value : list A) :
    result string :=
  let! os := print_loop len 0 (os +:+ "(" +:+ type_name T +:+ ")(") value in
  Val (os +:+ ")").

(** The components separated by commas. *)
Fixpoint separated (l : list string) : string :=
  match l with
  | [] => ""
  | [x] => x
  | x :: l' => x +:+ "," +:+ separated l'
  end.

End ClVector.

(** [cl_convert<To>(val)]: [out.s[i] = val.s[i]] for every component,
    with the conversion of the base types; [uninit] is what the array of
    [out] happens to hold. *)
Fixpoint convert_loop {A B : Type} (conv : A -> B) (n i : nat) (out : list B)
    (val : list A) : result (list B) :=
  match n with
  | O => Val out
  | S n' =>
      let! x := at_ val i in
      let! _ := at_ out i in
      convert_loop conv n' (S i) (<[i := conv x]> out) val
  end.

Definition cl_convert {A B : Type} (conv : A -> B) (n : nat) (uninit : list B)
    (val : list A) : result (list B) :=
  convert_loop conv n 0 uninit val.

(** * Theorems *)

(** ** Kernel names *)

Lemma string_app_cons (c : ascii) (s t : string) :
  String c s +:+ t = String c (s +:+ t).
Proof. reflexivity. Qed.

Lemma string_app_nil (t : string) : "" +:+ t = t.
Proof. reflexivity. Qed.

Lemma string_app_assoc (s1 s2 s3 : string) :
  (s1 +:+ s2) +:+ s3 = s1 +:+ (s2 +:+ s3).
Proof.
  induction s1 as [|c s1 IH]; [reflexivity |].
  rewrite !string_app_cons. by f_equal.
Qed.

Ltac str_simpl :=
  repeat (rewrite ?string_app_cons, ?string_app_nil in * ).

Lemma supported_cases (OP : ascii) :
  supported OP = true ->
  OP = "+"%char \/ OP = "-"%char \/ OP = "*"%char \/ OP = "/"%char.
Proof.
  unfold supported. rewrite !orb_true_iff, !bool_decide_eq_true. tauto.
Qed.

Lemma unsupported_cases (OP : ascii) :
  supported OP = false ->
  OP <> "+"%char /\ OP <> "-"%char /\ OP <> "*"%char /\ OP <> "/"%char.
Proof.
  unfold supported. rewrite !orb_false_iff, !bool_decide_eq_false. tauto.
Qed.

(** For a supported operator the switch prepends the operator's token. *)
Lemma kernel_name_supported (OP : ascii) (lhs rhs : expr) :
  supported OP = true ->
  kernel_name (EBin OP lhs rhs) =
  let! l := kernel_name lhs in
  let! r := kernel_name rhs in Val (token OP +:+ l +:+ r).
Proof.
  intros H. destruct (supported_cases _ H) as [-> | [-> | [-> | ->]]];
    reflexivity.
Qed.

Lemma kernel_name_unsupported (OP : ascii) (lhs rhs : expr) :
  supported OP = false ->
  kernel_name (EBin OP lhs rhs) = Exn "unknown operation".
Proof.
  intros H. destruct (unsupported_cases _ H) as (H1 & H2 & H3 & H4).
  simpl. repeat (case_decide; [congruence |]). reflexivity.
Qed.

Lemma token_head (OP : ascii) :
  supported OP = true ->
  exists c, token OP = String c "" /\ c <> "v"%char /\ c <> "c"%char.
Proof.
  intros H. destruct (supported_cases _ H) as [-> | [-> | [-> | ->]]];
    eexists; (split; [reflexivity | split; discriminate]).
Qed.

Lemma token_inj (OP1 OP2 : ascii) :
  supported OP1 = true -> supported OP2 = true ->
  token OP1 = token OP2 -> OP1 = OP2.
Proof.
  intros H1 H2.
  destruct (supported_cases _ H1) as [-> | [-> | [-> | ->]]];
    destruct (supported_cases _ H2) as [-> | [-> | [-> | ->]]];
    (reflexivity || discriminate).
Qed.

(** A composed expression has a name. *)
Lemma composed_named (e : expr) :
  composed e = true -> exists n, kernel_name e = Val n.
Proof.
  induction e as [v | T c | OP l IHl r IHr]; simpl composed; intros H.
  - by exists "v".
  - by exists "c".
  - apply andb_true_iff in H as [H Hr]. apply andb_true_iff in H as [HOP Hl].
    destruct (IHl Hl) as [a Ha], (IHr Hr) as [b Hb].
    rewrite (kernel_name_supported _ _ _ HOP), Ha, Hb. simpl. by eexists.
Qed.

(** Polish notation is a prefix code: a name followed by any text
    determines the shape and the text. *)
Lemma kernel_name_prefix_code (e1 : expr) :
  forall (e2 : expr) (n1 n2 r1 r2 : string),
    composed e1 = true -> composed e2 = true ->
    kernel_name e1 = Val n1 -> kernel_name e2 = Val n2 ->
    n1 +:+ r1 = n2 +:+ r2 ->
    shape_of e1 = shape_of e2 /\ r1 = r2.
Proof.
  induction e1 as [v1 | T1 c1 | OP1 l1 IHl r1' IHr];
    intros e2 n1 n2 r1 r2 C1 C2 N1 N2 E.
  - destruct e2 as [v2 | T2 c2 | OP2 l2 r2'].
    + simpl in N1, N2; simplify_eq; str_simpl; by simplify_eq.
    + simpl in N1, N2; simplify_eq; str_simpl; discriminate.
    + simpl in C2. apply andb_true_iff in C2 as [C2 _].
      apply andb_true_iff in C2 as [HOP _].
      rewrite (kernel_name_supported _ _ _ HOP) in N2.
      destruct (kernel_name l2); [|done..]. destruct (kernel_name r2'); [|done..].
      simpl in N1, N2; simplify_eq.
      destruct (token_head _ HOP) as (c & Hc' & Hv & Hc); rewrite Hc' in *;
        str_simpl; congruence.
  - destruct e2 as [v2 | T2 c2 | OP2 l2 r2'].
    + simpl in N1, N2; simplify_eq; str_simpl; discriminate.
    + simpl in N1, N2; simplify_eq; str_simpl; by simplify_eq.
    + simpl in C2. apply andb_true_iff in C2 as [C2 _].
      apply andb_true_iff in C2 as [HOP _].
      rewrite (kernel_name_supported _ _ _ HOP) in N2.
      destruct (kernel_name l2); [|done..]. destruct (kernel_name r2'); [|done..].
      simpl in N1, N2; simplify_eq.
      destruct (token_head _ HOP) as (c & Hc' & Hv & Hc); rewrite Hc' in *;
        str_simpl; congruence.
  - simpl in C1. apply andb_true_iff in C1 as [C1 Cr1].
    apply andb_true_iff in C1 as [HOP1 Cl1].
    rewrite (kernel_name_supported _ _ _ HOP1) in N1.
    destruct (kernel_name l1) as [a1| |] eqn:Ha1; [|done..].
    destruct (kernel_name r1') as [b1| |] eqn:Hb1; [|done..].
    simpl in N1. simplify_eq.
    destruct (token_head _ HOP1) as (c1 & Hc1 & Hv & Hc).
    destruct e2 as [v2 | T2 c2 | OP2 l2 r2'].
    + simpl in N2; simplify_eq; rewrite Hc1 in E; str_simpl; congruence.
    + simpl in N2; simplify_eq; rewrite Hc1 in E; str_simpl; congruence.
    + simpl in C2. apply andb_true_iff in C2 as [C2 Cr2].
      apply andb_true_iff in C2 as [HOP2 Cl2].
      rewrite (kernel_name_supported _ _ _ HOP2) in N2.
      destruct (kernel_name l2) as [a2| |] eqn:Ha2; [|done..].
      destruct (kernel_name r2') as [b2| |] eqn:Hb2; [|done..].
      simpl in N2. simplify_eq.
      destruct (token_head _ HOP2) as (c2 & Hc2 & _ & _).
      assert (token OP1 = token OP2 /\
              a1 +:+ (b1 +:+ r1) = a2 +:+ (b2 +:+ r2)) as [Ht E'].
      { rewrite !string_app_assoc in E. rewrite Hc1, Hc2 in E |- *.
        str_simpl. by simplify_eq. }
      apply (token_inj _ _ HOP1 HOP2) in Ht as ->.
      destruct (IHl l2 a1 a2 _ _ Cl1 Cl2 eq_refl Ha2 E') as [Sl E''].
      destruct (IHr r2' b1 b2 _ _ Cr1 Cr2 eq_refl Hb2 E'') as [Sr ->].
      simpl. by rewrite Sl, Sr.
Qed.

(** The name depends on the shape only. *)
Lemma kernel_name_of_shape (e1 : expr) :
  forall e2 : expr, shape_of e1 = shape_of e2 -> kernel_name e1 = kernel_name e2.
Proof.
  induction e1 as [v1 | T1 c1 | OP1 l1 IHl r1 IHr];
    intros [v2 | T2 c2 | OP2 l2 r2] S; simpl in S; try discriminate;
    try reflexivity.
  injection S as -> Sl Sr. simpl.
  by rewrite (IHl _ Sl), (IHr _ Sr).
Qed.

Lemma shape_acyclic (s t : shape) (OP : ascii) : s <> SBin OP s t.
Proof.
  revert t OP. induction s as [| | OP' l IHl r IHr]; intros t OP E;
    try discriminate.
  injection E as -> E _. by apply IHl in E.
Qed.

Lemma kernel_name_defined (e : expr) : kernel_name e <> UB.
Proof.
  induction e as [v | T c | OP l IHl r IHr]; try discriminate.
  destruct (supported OP) eqn:HOP.
  - rewrite (kernel_name_supported _ _ _ HOP).
    destruct (kernel_name l); [|done..]. by destruct (kernel_name r).
  - by rewrite (kernel_name_unsupported _ _ _ HOP).
Qed.

(** C3: on expressions composed of vectors, scalars and the four
    operators, two kernel names are equal exactly when the two
    expressions have the same shape; every such expression has a name;
    [a + (b + c)] and [(a + b) + c] are named differently. *)
Theorem kernel_name_injective_on_shapes (e1 e2 a b c : expr) :
  composed e1 = true -> composed e2 = true ->
  composed a = true -> composed b = true -> composed c = true ->
  returns (kernel_name e1) /\
  (kernel_name e1 = kernel_name e2 <-> shape_of e1 = shape_of e2) /\
  kernel_name (operator_plus a (operator_plus b c)) <>
  kernel_name (operator_plus (operator_plus a b) c).
Proof.
  intros C1 C2 Ca Cb Cc.
  assert (forall x y, composed x = true -> composed y = true ->
            kernel_name x = kernel_name y -> shape_of x = shape_of y) as inj.
  { intros x y Cx Cy E.
    destruct (composed_named _ Cx) as [n Hn], (composed_named _ Cy) as [m Hm].
    assert (n = m) as <- by congruence.
    by apply (kernel_name_prefix_code x y n n "" "" Cx Cy Hn Hm). }
  split; [apply composed_named, C1 |]. split.
  - split; [by apply inj | apply kernel_name_of_shape].
  - intros E. apply inj in E.
    + simpl in E. injection E as E _. by apply shape_acyclic in E.
    + simpl. by rewrite Ca, Cb, Cc.
    + simpl. by rewrite Ca, Cb, Cc.
Qed.

(** C8, as amended: an unsupported operator throws whatever the
    operands; a supported operator throws exactly when an operand's name
    throws, and otherwise returns its token before the operands' names. *)
Theorem kernel_name_throws_iff (OP : ascii) (lhs rhs : expr) :
  (supported OP = false ->
   kernel_name (EBin OP lhs rhs) = Exn "unknown operation") /\
  (supported OP = true ->
   (throws (kernel_name (EBin OP lhs rhs)) <->
    throws (kernel_name lhs) \/ throws (kernel_name rhs)) /\
   (forall l r : string,
      kernel_name lhs = Val l -> kernel_name rhs = Val r ->
      kernel_name (EBin OP lhs rhs) = Val (token OP +:+ l +:+ r))).
Proof.
  split; [apply kernel_name_unsupported |].
  intros HOP. rewrite (kernel_name_supported _ _ _ HOP).
  pose proof (kernel_name_defined lhs) as Dl.
  pose proof (kernel_name_defined rhs) as Dr.
  unfold throws. split.
  - destruct (kernel_name lhs) as [l| wl |]; [| |done].
    + destruct (kernel_name rhs) as [r| wr |]; [| |done]; simpl.
      * split; [intros [w ?]; discriminate | intros [[w ?] | [w ?]]; discriminate].
      * split; [right | ]; by exists wr.
    + simpl. split; [left|]; by exists wl.
  - by intros l r -> ->.
Qed.

(** ** The partition table *)

Lemma sizeof_pos (T : ctype) : 0 < sizeof T.
Proof. destruct T as [[] []]; reflexivity. Qed.

Lemma sorted_adjacent (l : list N) (i : nat) (a b : N) :
  sorted l = true -> l !! i = Some a -> l !! S i = Some b -> a <= b.
Proof.
  revert i. induction l as [|x [|y l] IH]; intros i Hs Ha Hb; try done.
  simpl in Hs. apply andb_true_iff in Hs as [Hxy Hs].
  destruct i as [|i]; simpl in Ha, Hb.
  - simplify_eq. by apply N.leb_le.
  - by apply (IH i).
Qed.

Lemma sorted_lookup_le (l : list N) (i j : nat) (a b : N) :
  sorted l = true -> (i <= j)%nat -> l !! i = Some a -> l !! j = Some b -> a <= b.
Proof.
  intros Hs Hij Ha. revert b. induction Hij as [|j Hij IH]; intros b Hb.
  - by simplify_eq.
  - destruct (lookup_lt_is_Some_2 l j) as [c Hc];
      [apply lookup_lt_Some in Hb; lia |].
    etrans; [by apply IH | by eapply sorted_adjacent].
Qed.

Section WellFormed.

Context (v : vector) (Hwf : wf_vector v = true).

Lemma wf_fields :
  length (part v) = S (nparts v) /\ length (buf v) = nparts v /\
  length (event v) = nparts v /\ part v !! 0%nat = Some 0 /\
  sorted (part v) = true /\ sizeof (elem v) * size v < size_modulus.
Proof.
  unfold wf_vector in Hwf. rewrite !andb_true_iff, !bool_decide_eq_true in Hwf.
  rewrite N.ltb_lt in Hwf. tauto.
Qed.

Lemma wf_size_lookup : part v !! nparts v = Some (size v).
Proof.
  destruct wf_fields as (Hl & _). unfold size. rewrite last_lookup, Hl. simpl.
  destruct (lookup_lt_is_Some_2 (part v) (nparts v)) as [n Hn]; [lia |].
  by rewrite Hn.
Qed.

Lemma wf_size_bound : size v < size_modulus.
Proof.
  destruct wf_fields as (_ & _ & _ & _ & _ & Hb).
  pose proof (sizeof_pos (elem v)). nia.
Qed.

Lemma wf_part_lookup (d : nat) :
  (d <= nparts v)%nat -> exists p, part v !! d = Some p /\ p <= size v.
Proof.
  intros Hd. destruct wf_fields as (Hl & _ & _ & _ & Hs & _).
  destruct (lookup_lt_is_Some_2 (part v) d) as [p Hp]; [lia |].
  exists p. split; [done |].
  eapply sorted_lookup_le; [done | exact Hd | done | apply wf_size_lookup].
Qed.

Lemma wf_shard (d : nat) :
  (d < nparts v)%nat ->
  exists lo hi q b ev,
    part v !! d = Some lo /\ part v !! S d = Some hi /\ lo <= hi <= size v /\
    queue v !! d = Some q /\ buf v !! d = Some b /\ event v !! d = Some ev.
Proof.
  intros Hd. destruct wf_fields as (Hl & Hb & He & _ & Hs & _).
  destruct (wf_part_lookup d) as (lo & Hlo & _); [lia |].
  destruct (wf_part_lookup (S d)) as (hi & Hhi & Hle); [lia |].
  destruct (lookup_lt_is_Some_2 (queue v) d) as [q Hq]; [done |].
  destruct (lookup_lt_is_Some_2 (buf v) d) as [b Hbuf]; [lia |].
  destruct (lookup_lt_is_Some_2 (event v) d) as [ev Hev]; [lia |].
  exists lo, hi, q, b, ev. repeat split; try done.
  by eapply sorted_adjacent.
Qed.

End WellFormed.

(** ** Element access *)

Lemma shard_search_step (v : vector) (index : N) (fuel d : nat) (p : N) :
  part v !! S d = Some p ->
  shard_search (S fuel) v index d =
  if (p <=? index) && (d <? nparts v)%nat
  then shard_search fuel v index (S d) else Done (Val d).
Proof.
  intros Hp. cbn [shard_search]. unfold at_. by rewrite !Nat.add_1_r, Hp.
Qed.

Lemma shard_search_off_table (v : vector) (index : N) (fuel d : nat) :
  part v !! S d = None -> shard_search (S fuel) v index d = Done UB.
Proof.
  intros Hp. cbn [shard_search]. unfold at_. by rewrite !Nat.add_1_r, Hp.
Qed.

(** More fuel than the loop needs does not change its result. *)
Lemma shard_search_fuel (v : vector) (index : N) (fuel : nat) :
  forall (d : nat) (r : result nat),
    shard_search fuel v index d = Done r ->
    forall fuel', (fuel <= fuel')%nat -> shard_search fuel' v index d = Done r.
Proof.
  induction fuel as [|fuel IH]; intros d r H fuel' Hle; [done |].
  destruct fuel' as [|fuel']; [lia |]. simpl in *.
  destruct (at_ (part v) (d + 1)) as [p | |]; try done.
  destruct ((p <=? index) && (d <? nparts v)%nat); [|done].
  apply IH; [done | lia].
Qed.

(** The loop evaluates its condition at most once per shard and once
    more. *)
Lemma shard_search_total (v : vector) (index : N) :
  forall (m d : nat), (nparts v <= d + m)%nat ->
    exists r, shard_search (S m) v index d = Done r.
Proof.
  induction m as [|m IH]; intros d Hd; simpl.
  - destruct (at_ (part v) (d + 1)) as [p | |]; eauto.
    destruct (Nat.ltb_spec d (nparts v)); [lia |].
    rewrite andb_false_r. eauto.
  - destruct (at_ (part v) (d + 1)) as [p | |]; eauto.
    destruct ((p <=? index) && (d <? nparts v)%nat); eauto.
    apply IH. lia.
Qed.

(** In range, the loop stops at the shard that holds the index. *)
Lemma shard_search_in_range (v : vector) (index : N) :
  wf_vector v = true -> index < size v ->
  forall (m d : nat) (lo : N),
    (d + m = nparts v)%nat -> part v !! d = Some lo -> lo <= index ->
    exists (d' : nat) (lo' hi' : N),
      shard_search (S m) v index d = Done (Val d') /\
      (d' < nparts v)%nat /\
      part v !! d' = Some lo' /\ part v !! S d' = Some hi' /\
      lo' <= index < hi'.
Proof.
  intros Hwf Hin. induction m as [|m IH]; intros d lo Hd Hlo Hle.
  - rewrite Nat.add_0_r in Hd. subst d.
    rewrite (wf_size_lookup v Hwf) in Hlo. simplify_eq. lia.
  - destruct (wf_shard v Hwf d) as (lo0 & hi & q & b & ev & Hlo0 & Hhi & _);
      [lia |]. simplify_eq.
    rewrite (shard_search_step _ _ _ _ _ Hhi).
    destruct (N.leb_spec hi index) as [Hhi_le | Hhi_gt].
    + destruct (Nat.ltb_spec d (nparts v)); [|lia]. cbn [andb].
      apply (IH (S d) hi); [lia | done..].
    + cbn [andb]. exists d, lo, hi. repeat split; try done. lia.
Qed.

(** Past the end, the loop reads the partition table out of bounds. *)
Lemma shard_search_out_of_range (v : vector) (index : N) :
  wf_vector v = true -> size v <= index ->
  forall (m d : nat),
    (d + m = nparts v)%nat -> shard_search (S m) v index d = Done UB.
Proof.
  intros Hwf Hout. induction m as [|m IH]; intros d Hd.
  - rewrite Nat.add_0_r in Hd. subst d.
    destruct (wf_fields v Hwf) as (Hl & _).
    apply shard_search_off_table, lookup_ge_None_2. lia.
  - destruct (wf_part_lookup v Hwf (S d)) as (hi & Hhi & Hle); [lia |].
    rewrite (shard_search_step _ _ _ _ _ Hhi).
    destruct (N.leb_spec hi index); [|lia].
    destruct (Nat.ltb_spec d (nparts v)); [|lia]. cbn [andb].
    apply IH. lia.
Qed.

Lemma size_sub_le (a b : N) : b <= a -> size_sub a b = a - b.
Proof. intros H. unfold size_sub. by destruct (N.leb_spec b a); [|lia]. Qed.

(** C10: for an index below [size()], [operator[]] returns within
    [nparts() + 1] evaluations of its loop condition, at the one shard
    [d] with [part[d] <= index < part[d + 1]], and the element it builds
    holds that shard's queue and buffer and the local offset
    [index - part[d]], which is below the shard's part size.  For an
    index at or past [size()] the loop runs off the partition table. *)
Theorem operator_index_selects_owner (v : vector) (index : N) :
  wf_vector v = true ->
  (exists r, operator_index (S (nparts v)) v index = Done r) /\
  (index < size v ->
   exists (d : nat) (q : CommandQueue) (b : Buffer) (lo hi : N),
     (forall fuel, (S (nparts v) <= fuel)%nat ->
        operator_index fuel v index = Done (Val (d, MkElement q b (index - lo)))) /\
     queue v !! d = Some q /\ buf v !! d = Some b /\
     part v !! d = Some lo /\ part v !! S d = Some hi /\
     lo <= index < hi /\
     vector_part_size v d = Val (hi - lo) /\ index - lo < hi - lo /\
     (forall (d' : nat) (lo' hi' : N),
        part v !! d' = Some lo' -> part v !! S d' = Some hi' ->
        lo' <= index < hi' -> d' = d)) /\
  (size v <= index -> operator_index (S (nparts v)) v index = Done UB).
Proof.
  intros Hwf. destruct (wf_fields v Hwf) as (Hl & _ & _ & H0 & Hs & _).
  split; [|split].
  - unfold operator_index.
    destruct (shard_search_total v index (nparts v) 0) as [r ->]; [lia |].
    eauto.
  - intros Hin.
    destruct (shard_search_in_range v index Hwf Hin (nparts v) 0 0)
      as (d & lo & hi & Hd & Hlt & Hlo & Hhi & Hrange); [lia | done | lia |].
    destruct (wf_shard v Hwf d Hlt)
      as (lo0 & hi0 & q & b & ev & ? & ? & ? & Hq & Hb & _). simplify_eq.
    exists d, q, b, lo, hi. repeat split; try done; try lia.
    + intros fuel Hfuel. unfold operator_index.
      rewrite (shard_search_fuel _ _ _ _ _ Hd fuel Hfuel).
      unfold at_. simpl. rewrite Hq. simpl. rewrite Hb. simpl. rewrite Hlo. simpl.
      rewrite size_sub_le; [done | lia].
    + unfold vector_part_size, at_. rewrite Nat.add_1_r, Hhi. simpl.
      rewrite Hlo. simpl. rewrite size_sub_le; [done | lia].
    + intros d' lo' hi' Hlo' Hhi' Hr.
      destruct (Nat.lt_total d' d) as [Hlt' | [-> | Hgt]]; [| done |].
      * assert (hi' <= lo); [|lia].
        eapply (sorted_lookup_le (part v) (S d') d); [done | lia | done..].
      * assert (hi <= lo'); [|lia].
        eapply (sorted_lookup_le (part v) (S d) d'); [done | lia | done..].
  - intros Hout. unfold operator_index.
    by rewrite (shard_search_out_of_range v index Hwf Hout (nparts v) 0).
Qed.

(** ** Transfers *)

Lemma with_events_id (v : vector) : with_events v (event v) = v.
Proof. by destruct v. Qed.

Lemma wf_with_events (v : vector) (evs : list Event) :
  wf_vector v = true -> length evs = nparts v ->
  wf_vector (with_events v evs) = true.
Proof.
  intros Hwf He. destruct (wf_fields v Hwf) as (Hl & Hb & _ & H0 & Hs & Hbytes).
  unfold wf_vector, with_events, nparts, size in *. simpl.
  rewrite !andb_true_iff, !bool_decide_eq_true, N.ltb_lt. tauto.
Qed.

Lemma enqueueWriteBuffer_ok (q : CommandQueue) (b : Buffer) (T : ctype)
    (blocking : bool) (offset cb : N) (host old : list value) (w : world) :
  mem w !! b = Some old ->
  offset + cb <= sizeof T * N.of_nat (length old) ->
  (N.to_nat (cb / sizeof T) <= length host)%nat ->
  enqueueWriteBuffer q b T blocking offset cb host w =
  (Val (next_event w),
   MkWorld (<[b := splice old (N.to_nat (offset / sizeof T))
                     (take (N.to_nat (cb / sizeof T)) host)]> (mem w))
           (calls w ++ [WriteBuffer (queue_id q) b blocking offset cb (next_event w)])
           (next_event w + 1) (statics w)).
Proof.
  intros Hb Hfit Hhost. unfold enqueueWriteBuffer. rewrite Hb.
  destruct (N.ltb_spec (sizeof T * N.of_nat (length old)) (offset + cb)); [lia |].
  destruct (Nat.ltb_spec (length host) (N.to_nat (cb / sizeof T))); [lia |].
  reflexivity.
Qed.

Lemma enqueueReadBuffer_ok (q : CommandQueue) (b : Buffer) (T : ctype)
    (blocking : bool) (offset cb : N) (host old : list value) (host_off : nat)
    (w : world) :
  mem w !! b = Some old ->
  offset + cb <= sizeof T * N.of_nat (length old) ->
  (host_off + N.to_nat (cb / sizeof T) <= length host)%nat ->
  enqueueReadBuffer q b T blocking offset cb host host_off w =
  (Val (next_event w,
        splice host host_off
          (take (N.to_nat (cb / sizeof T)) (drop (N.to_nat (offset / sizeof T)) old))),
   MkWorld (mem w)
           (calls w ++ [ReadBuffer (queue_id q) b blocking offset cb (next_event w)])
           (next_event w + 1) (statics w)).
Proof.
  intros Hb Hfit Hhost. unfold enqueueReadBuffer. rewrite Hb.
  destruct (N.ltb_spec (sizeof T * N.of_nat (length old)) (offset + cb)); [lia |].
  destruct (Nat.ltb_spec (length host) (host_off + N.to_nat (cb / sizeof T))); [lia |].
  reflexivity.
Qed.

Lemma size_mul_small (a b : N) : a * b < size_modulus -> size_mul a b = a * b.
Proof. intros H. unfold size_mul. by apply N.mod_small. Qed.

Lemma size_add_small (a b : N) : a + b < size_modulus -> size_add a b = a + b.
Proof. intros H. unfold size_add. by apply N.mod_small. Qed.

Lemma sizeof_div (T : ctype) (n : N) : sizeof T * n / sizeof T = n.
Proof.
  pose proof (sizeof_pos T). rewrite N.mul_comm. apply N.div_mul. lia.
Qed.

Lemma length_segment (host : list value) (lo hi : N) :
  hi <= N.of_nat (length host) -> lo <= hi ->
  length (segment host lo hi) = N.to_nat (hi - lo).
Proof.
  intros Hhi Hlo. unfold segment. rewrite length_take, length_drop. lia.
Qed.

Lemma splice_all (old data : list value) :
  length data = length old -> splice old 0 data = data.
Proof.
  intros Hl. unfold splice. rewrite take_0, Nat.add_0_l, Hl, drop_all.
  simpl. apply app_nil_r.
Qed.

(** A whole-vector transfer meets shard [d] in the shard itself. *)
Lemma shard_range_whole (v : vector) (evs : list Event) (d : nat) (lo hi : N) :
  wf_vector v = true ->
  part v !! d = Some lo -> part v !! S d = Some hi ->
  shard_range (with_events v evs) 0 (size v) d = Val (N.max 0 lo, N.min (0 + size v) hi, lo).
Proof.
  intros Hwf Hlo Hhi. unfold shard_range, at_. simpl.
  rewrite Hlo. simpl. rewrite Nat.add_1_r, Hhi. simpl.
  rewrite size_add_small; [done |]. pose proof (wf_size_bound v Hwf). lia.
Qed.

Lemma intersects_whole (v : vector) (d : nat) (lo hi : N) :
  part v !! d = Some lo -> part v !! S d = Some hi ->
  intersects v 0 (size v) d = (N.max 0 lo <? N.min (0 + size v) hi).
Proof. intros Hlo Hhi. unfold intersects. by rewrite Hlo, Hhi. Qed.

(** ** Allocated buffers *)

Lemma omap_NoDup_inj {A B : Type} (f : A -> option B) (l : list A)
    (i j : nat) (x y : A) (b : B) :
  NoDup (omap f l) -> l !! i = Some x -> l !! j = Some y ->
  f x = Some b -> f y = Some b -> i = j.
Proof.
  revert i j. induction l as [|z l IH]; intros i j Hnd Hi Hj Hx Hy; [done |].
  simpl in Hnd.
  assert (forall k u, l !! k = Some u -> f u = Some b -> f z = Some b -> False)
    as Hfalse.
  { intros k u Hk Hu Hz. rewrite Hz in Hnd. apply NoDup_cons in Hnd as [Hnot _].
    apply Hnot, list_elem_of_omap. exists u. split; [|done].
    by eapply list_elem_of_lookup_2. }
  destruct i as [|i], j as [|j]; simpl in Hi, Hj; simplify_eq.
  - done.
  - exfalso. eauto.
  - exfalso. eauto.
  - f_equal. apply IH; try done.
    destruct (f z); [by apply NoDup_cons in Hnd as [_ ?] | done].
Qed.

Lemma allocated_fields (v : vector) (w : world) :
  allocated v w = true ->
  (forall d, (d < nparts v)%nat -> shard_allocated v w d = true) /\
  NoDup (live_buffers v).
Proof.
  unfold allocated. rewrite andb_true_iff, bool_decide_eq_true, forallb_forall.
  intros [Hall Hnd]. split; [|done].
  intros d Hd. apply Hall, in_seq. lia.
Qed.

Lemma allocated_shard (v : vector) (w : world) (d : nat) (lo hi : N) (b : Buffer) :
  allocated v w = true -> (d < nparts v)%nat ->
  part v !! d = Some lo -> part v !! S d = Some hi -> buf v !! d = Some b ->
  lo < hi ->
  exists old, mem w !! b = Some old /\ N.of_nat (length old) = hi - lo.
Proof.
  intros Ha Hd Hlo Hhi Hb Hlt. apply allocated_fields in Ha as [Hall _].
  specialize (Hall d Hd). unfold shard_allocated in Hall.
  rewrite Hlo, Hhi, Hb in Hall.
  destruct (N.ltb_spec lo hi); [|lia].
  destruct (mem w !! b) as [old|]; [|done].
  exists old. split; [done |]. by apply N.eqb_eq.
Qed.

Lemma allocated_distinct (v : vector) (w : world) (d1 d2 : nat) (b : Buffer) :
  allocated v w = true -> (d1 < nparts v)%nat -> (d2 < nparts v)%nat ->
  shard_nonempty v d1 = true -> shard_nonempty v d2 = true ->
  buf v !! d1 = Some b -> buf v !! d2 = Some b -> d1 = d2.
Proof.
  intros Ha H1 H2 N1 N2 B1 B2. apply allocated_fields in Ha as [_ Hnd].
  apply (omap_NoDup_inj _ _ d1 d2 d1 d2 b Hnd).
  - by apply lookup_seq_lt.
  - by apply lookup_seq_lt.
  - by rewrite N1.
  - by rewrite N2.
Qed.

(** Overwriting a buffer with as many elements keeps the vector
    allocated. *)
Lemma allocated_store (v : vector) (w : world) (b : Buffer)
    (old data : list value) (cs : list call) (e : Event) :
  allocated v w = true -> mem w !! b = Some old -> length data = length old ->
  allocated v (MkWorld (<[b := data]> (mem w)) cs e (statics w)) = true.
Proof.
  intros Ha Hb Hlen. unfold allocated in *.
  apply andb_true_iff in Ha as [Hall Hnd]. apply andb_true_iff. split; [|done].
  rewrite forallb_forall in Hall |- *. intros d Hd. specialize (Hall d Hd).
  unfold shard_allocated in *. simpl.
  destruct (part v !! d) as [lo|]; [|done].
  destruct (part v !! S d) as [hi|]; [|done].
  destruct (buf v !! d) as [b'|]; [|done].
  destruct (lo <? hi); [|done].
  destruct (decide (b' = b)) as [-> | Hne].
  - rewrite lookup_insert_eq. rewrite Hb in Hall. by rewrite Hlen.
  - by rewrite lookup_insert_ne.
Qed.

Lemma allocated_same_mem (v : vector) (w w' : world) :
  mem w' = mem w -> allocated v w' = allocated v w.
Proof.
  intros Hm. unfold allocated. f_equal.
  induction (seq 0 (nparts v)) as [|d l IH]; [done |]. simpl. rewrite IH.
  f_equal. unfold shard_allocated. by rewrite Hm.
Qed.

(** A shard of a well-formed vector: its bounds and what they imply for
    the byte counts of its transfer. *)
Lemma shard_bytes (v : vector) (Hwf : wf_vector v = true) (d : nat) (lo hi : N) :
  part v !! d = Some lo -> part v !! S d = Some hi ->
  lo <= hi /\ hi <= size v /\
  sizeof (elem v) * (hi - lo) < size_modulus.
Proof.
  intros Hlo Hhi. destruct (wf_fields v Hwf) as (Hl & _ & _ & _ & Hs & Hbytes).
  assert (lo <= hi) by (by eapply sorted_adjacent).
  assert (hi <= size v).
  { eapply sorted_lookup_le; [done | | done | apply (wf_size_lookup v Hwf)].
    apply lookup_lt_Some in Hhi. lia. }
  repeat split; try done.
  eapply N.le_lt_trans; [|exact Hbytes]. apply N.mul_le_mono_l. lia.
Qed.

Lemma shard_nonempty_iff (v : vector) (d : nat) (lo hi : N) :
  part v !! d = Some lo -> part v !! S d = Some hi ->
  shard_nonempty v d = (lo <? hi).
Proof. intros Hlo Hhi. unfold shard_nonempty. by rewrite Hlo, Hhi. Qed.

Section WholeTransfer.

Context (v : vector) (Hwf : wf_vector v = true).
Context (host : list value) (Hhost : N.of_nat (length host) = size v).

(** One iteration of the loop of [write_data] over the whole vector. *)
Lemma write_shard_whole (evs : list Event) (w : world) (d : nat) (lo hi : N)
    (q : CommandQueue) (b : Buffer) (ev0 : Event) (old : list value) :
  part v !! d = Some lo -> part v !! S d = Some hi ->
  queue v !! d = Some q -> buf v !! d = Some b -> evs !! d = Some ev0 ->
  (lo < hi -> mem w !! b = Some old /\ N.of_nat (length old) = hi - lo) ->
  write_shard 0 (size v) host d (with_events v evs) w =
  if N.max 0 lo <? N.min (0 + size v) hi then
    (Val (with_events v (<[d := next_event w]> evs)),
     MkWorld (<[b := segment host lo hi]> (mem w))
       (calls w ++ [WriteBuffer (queue_id q) b false
                      (sizeof (elem v) * (N.max 0 lo - lo))
                      (sizeof (elem v) * (N.min (0 + size v) hi - N.max 0 lo))
                      (next_event w)])
       (next_event w + 1) (statics w))
  else (Val (with_events v evs), w).
Proof.
  intros Hlo Hhi Hq Hb Hev Hold.
  destruct (shard_bytes v Hwf d lo hi Hlo Hhi) as (Hle & Hhi_le & Hbytes).
  unfold write_shard, mbind, lift.
  rewrite (shard_range_whole v evs d lo hi Hwf Hlo Hhi).
  replace (N.max 0 lo) with lo by lia.
  replace (N.min (0 + size v) hi) with hi by lia.
  destruct (N.ltb_spec lo hi) as [Hlt | Hge].
  - destruct (N.leb_spec hi lo); [lia |].
    destruct (Hold Hlt) as [Hmem Hlen].
    unfold at_. simpl. rewrite Hq, Hb, Hev.
    rewrite !size_sub_le by lia.
    rewrite N.sub_diag, N.sub_0_r.
    rewrite (size_mul_small _ 0) by (rewrite N.mul_0_r; done).
    rewrite (size_mul_small _ (hi - lo)) by done.
    rewrite (enqueueWriteBuffer_ok _ _ _ _ _ _ _ old); [| done | lia |].
    + rewrite N.mul_0_r, N.Div0.div_0_l.
      rewrite sizeof_div. simpl.
      rewrite splice_all; [done |].
      rewrite length_take, length_drop. lia.
    + rewrite sizeof_div, length_drop. lia.
  - destruct (N.leb_spec hi lo); [done | lia].
Qed.


Lemma for_cons {S : Type} (d : nat) (ds : list nat) (body : nat -> S -> M S)
    (s s' : S) (w w' : world) :
  body d s w = (Val s', w') ->
  for_ (d :: ds) body s w = for_ ds body s' w'.
Proof. intros H. cbn [for_]. unfold mbind. by rewrite H. Qed.

(** The loop of [write_data] over the whole vector, from shard [a] on:
    it issues the transfers of the non-empty shards, leaves each of their
    buffers holding the shard's segment of the host array, and touches
    nothing else. *)
Lemma write_loop_whole (m : nat) :
  forall (a : nat) (evs : list Event) (w : world),
    (a + m = nparts v)%nat -> length evs = nparts v ->
    allocated v w = true -> next_event w <> 0 ->
    exists (evs' : list Event) (w' : world) (new : list call),
      for_ (seq a m) (write_shard 0 (size v) host) (with_events v evs) w =
      (Val (with_events v evs'), w') /\
      length evs' = nparts v /\ allocated v w' = true /\ next_event w' <> 0 /\
      statics w' = statics w /\
      calls w' = calls w ++ new /\
      Forall2 (transfer_of WriteBuffer v 0 (size v) evs')
        (filter (fun d => Is_true (intersects v 0 (size v) d)) (seq a m)) new /\
      (forall d, (d < a)%nat -> evs' !! d = evs !! d) /\
      (forall d lo hi b,
         (a <= d)%nat -> part v !! d = Some lo -> part v !! S d = Some hi ->
         lo < hi -> buf v !! d = Some b ->
         mem w' !! b = Some (segment host lo hi)) /\
      (forall b,
         (forall d, (a <= d < nparts v)%nat -> shard_nonempty v d = true ->
                    buf v !! d <> Some b) ->
         mem w' !! b = mem w !! b).
Proof.
  induction m as [|m IH]; intros a evs w Ha Hevs Halloc Hne.
  - exists evs, w, []. rewrite app_nil_r. repeat split; try done.
    intros d lo hi b Hd _ Hhi. apply lookup_lt_Some in Hhi.
    destruct (wf_fields v Hwf) as (Hl & _). lia.
  - destruct (wf_shard v Hwf a) as (lo & hi & q & b & ev0 & Hlo & Hhi & Hle & Hq & Hb & _);
      [lia |].
    destruct (lookup_lt_is_Some_2 evs a) as [e0 He0]; [lia |].
    assert (lo < hi -> exists old, mem w !! b = Some old /\
                                   N.of_nat (length old) = hi - lo) as Hold.
    { intros Hlt. eapply allocated_shard; try done. lia. }
    pose proof (intersects_whole v a lo hi Hlo Hhi) as Hint.
    cbn [seq]. rewrite filter_cons.
    destruct (N.ltb_spec lo hi) as [Hlt | Hge].
    + destruct (Hold Hlt) as (old & Hmem & Hlen).
      pose proof (write_shard_whole evs w a lo hi q b e0 old Hlo Hhi Hq Hb He0
                    (fun _ => conj Hmem Hlen)) as Hstep.
      assert ((N.max 0 lo <? N.min (0 + size v) hi) = true) as Hhit
          by (apply N.ltb_lt; lia).
      rewrite Hhit in Hstep, Hint.
      set (w1 := MkWorld (<[b := segment host lo hi]> (mem w)) _ _ _) in Hstep.
      destruct (IH (S a) (<[a := next_event w]> evs) w1)
        as (evs' & w' & new & Hrun & Hlen' & Halloc' & Hne' & Hst & Hcalls
            & Hnew & Hframe & Hdata & Hmemframe).
      * lia.
      * by rewrite length_insert.
      * apply (allocated_store v w b old); [done.. |].
        rewrite length_segment; lia.
      * simpl. lia.
      * exists evs', w', (WriteBuffer (queue_id q) b false
                            (sizeof (elem v) * (N.max 0 lo - lo))
                            (sizeof (elem v) * (N.min (0 + size v) hi - N.max 0 lo))
                            (next_event w) :: new).
        assert (forall d, (a < d < nparts v)%nat ->
                  shard_nonempty v d = true -> buf v !! d <> Some b) as Hother.
        { intros d Hd Hn Hbd.
          assert (d = a); [|lia].
          eapply (allocated_distinct v w d a b); try done; try lia.
          rewrite (shard_nonempty_iff v a lo hi Hlo Hhi). by apply N.ltb_lt. }
        split; [by rewrite (for_cons _ _ _ _ _ _ _ Hstep) |].
        split; [done |]. split; [done |]. split; [done |].
        split; [by rewrite Hst |].
        split; [rewrite Hcalls; simpl; by rewrite <- app_assoc |].
        split.
        { rewrite decide_True by (rewrite Hint; exact I).
          apply Forall2_cons. split; [|done].
          exists q, b, lo, hi, (next_event w). repeat split; try done.
          rewrite Hframe by lia. apply list_lookup_insert_eq. lia. }
        split.
        { intros d Hd. rewrite Hframe by lia. apply list_lookup_insert_ne. lia. }
        split.
        { intros d lo' hi' b' Hd Hlo' Hhi' Hlt' Hb'.
          destruct (decide (d = a)) as [-> | Hda].
          - simplify_eq. rewrite Hmemframe by done. simpl.
            apply lookup_insert_eq.
          - apply (Hdata d); try done. lia. }
        { intros b' Hb'. rewrite Hmemframe.
          - simpl. apply lookup_insert_ne. intros ->. apply (Hb' a); [lia | | done].
            rewrite (shard_nonempty_iff v a lo hi Hlo Hhi). by apply N.ltb_lt.
          - intros d Hd. apply Hb'. lia. }
    + pose proof (write_shard_whole evs w a lo hi q b e0 [] Hlo Hhi Hq Hb He0)
        as Hstep.
      assert ((N.max 0 lo <? N.min (0 + size v) hi) = false) as Hmiss
          by (apply N.ltb_ge; lia).
      rewrite Hmiss in Hstep, Hint.
      specialize (Hstep ltac:(lia)).
      destruct (IH (S a) evs w)
        as (evs' & w' & new & Hrun & Hlen' & Halloc' & Hne' & Hst & Hcalls
            & Hnew & Hframe & Hdata & Hmemframe); [lia | done.. |].
      exists evs', w', new.
      split; [by rewrite (for_cons _ _ _ _ _ _ _ Hstep) |].
      repeat (split; [done |]).
      split.
      { rewrite decide_False by (rewrite Hint; exact id). done. }
      split; [intros d Hd; apply Hframe; lia |].
      split.
      { intros d lo' hi' b' Hd Hlo' Hhi' Hlt' Hb'.
        destruct (decide (d = a)) as [-> | Hda]; [simplify_eq; lia |].
        apply (Hdata d); try done. lia. }
      { intros b' Hb'. apply Hmemframe. intros d Hd. apply Hb'. lia. }
Qed.

Lemma length_splice (old data : list value) (off : nat) :
  (off + length data <= length old)%nat ->
  length (splice old off data) = length old.
Proof.
  intros H. unfold splice. rewrite !length_app, length_take, length_drop. lia.
Qed.

Lemma take_splice (old data : list value) (off : nat) :
  (off + length data <= length old)%nat ->
  take (off + length data) (splice old off data) = take off old ++ data.
Proof.
  intros H. unfold splice. rewrite app_assoc.
  rewrite take_app_length'; [done |].
  rewrite length_app, length_take. lia.
Qed.

(** One iteration of the loop of [read_data] over the whole vector. *)
Lemma read_shard_whole (evs : list Event) (out : list value) (w : world)
    (d : nat) (lo hi : N) (q : CommandQueue) (b : Buffer) (ev0 : Event)
    (old : list value) :
  part v !! d = Some lo -> part v !! S d = Some hi ->
  queue v !! d = Some q -> buf v !! d = Some b -> evs !! d = Some ev0 ->
  N.of_nat (length out) = size v ->
  (lo < hi -> mem w !! b = Some old /\ N.of_nat (length old) = hi - lo) ->
  read_shard 0 (size v) d (with_events v evs, out) w =
  if N.max 0 lo <? N.min (0 + size v) hi then
    (Val (with_events v (<[d := next_event w]> evs), splice out (N.to_nat lo) old),
     MkWorld (mem w)
       (calls w ++ [ReadBuffer (queue_id q) b false
                      (sizeof (elem v) * (N.max 0 lo - lo))
                      (sizeof (elem v) * (N.min (0 + size v) hi - N.max 0 lo))
                      (next_event w)])
       (next_event w + 1) (statics w))
  else (Val (with_events v evs, out), w).
Proof.
  intros Hlo Hhi Hq Hb Hev Hout Hold.
  destruct (shard_bytes v Hwf d lo hi Hlo Hhi) as (Hle & Hhi_le & Hbytes).
  unfold read_shard, mbind, lift. cbn [fst snd].
  rewrite (shard_range_whole v evs d lo hi Hwf Hlo Hhi).
  replace (N.max 0 lo) with lo by lia.
  replace (N.min (0 + size v) hi) with hi by lia.
  destruct (N.ltb_spec lo hi) as [Hlt | Hge].
  - destruct (N.leb_spec hi lo); [lia |].
    destruct (Hold Hlt) as [Hmem Hlen].
    unfold at_. simpl. rewrite Hq, Hb, Hev.
    rewrite !size_sub_le by lia.
    rewrite N.sub_diag, N.sub_0_r.
    rewrite (size_mul_small _ 0) by (rewrite N.mul_0_r; done).
    rewrite (size_mul_small _ (hi - lo)) by done.
    rewrite (enqueueReadBuffer_ok _ _ _ _ _ _ _ old); [| done | lia |].
    + rewrite N.mul_0_r, N.Div0.div_0_l, sizeof_div. simpl.
      rewrite drop_0, take_ge by lia. done.
    + rewrite sizeof_div. lia.
  - destruct (N.leb_spec hi lo); [done | lia].
Qed.

(** The loop of [read_data] over the whole vector, from shard [a] on,
    when every non-empty shard's buffer holds its segment of [host] and
    the array read into agrees with [host] below shard [a]. *)
Lemma read_loop_whole (m : nat) :
  forall (a : nat) (evs : list Event) (out : list value) (w : world) (pa : N),
    (a + m = nparts v)%nat -> length evs = nparts v ->
    N.of_nat (length out) = size v -> next_event w <> 0 ->
    (forall d lo hi b,
       (a <= d)%nat -> part v !! d = Some lo -> part v !! S d = Some hi ->
       lo < hi -> buf v !! d = Some b ->
       mem w !! b = Some (segment host lo hi)) ->
    part v !! a = Some pa ->
    take (N.to_nat pa) out = take (N.to_nat pa) host ->
    exists (evs' : list Event) (w' : world) (new : list call),
      for_ (seq a m) (read_shard 0 (size v)) (with_events v evs, out) w =
      (Val (with_events v evs', host), w') /\
      length evs' = nparts v /\ mem w' = mem w /\ next_event w' <> 0 /\
      statics w' = statics w /\
      calls w' = calls w ++ new /\
      Forall2 (transfer_of ReadBuffer v 0 (size v) evs')
        (filter (fun d => Is_true (intersects v 0 (size v) d)) (seq a m)) new /\
      (forall d, (d < a)%nat -> evs' !! d = evs !! d).
Proof.
  induction m as [|m IH]; intros a evs out w pa Ha Hevs Hout Hne Hdata Hpa Htake.
  - exists evs, w, []. rewrite app_nil_r. repeat split; try done.
    rewrite Nat.add_0_r in Ha. subst a.
    rewrite (wf_size_lookup v Hwf) in Hpa. simplify_eq.
    rewrite !take_ge in Htake by lia. by subst.
  - destruct (wf_shard v Hwf a) as (lo & hi & q & b & ev0 & Hlo & Hhi & Hle & Hq & Hb & _);
      [lia |].
    assert (pa = lo) as -> by congruence. clear Hpa.
    destruct (lookup_lt_is_Some_2 evs a) as [e0 He0]; [lia |].
    pose proof (intersects_whole v a lo hi Hlo Hhi) as Hint.
    pose proof (read_shard_whole evs out w a lo hi q b e0 (segment host lo hi)
                  Hlo Hhi Hq Hb He0 Hout) as Hstep.
    cbn [seq]. rewrite filter_cons.
    destruct (N.ltb_spec lo hi) as [Hlt | Hge].
    + assert ((N.max 0 lo <? N.min (0 + size v) hi) = true) as Hhit
          by (apply N.ltb_lt; lia).
      rewrite Hhit in Hstep, Hint.
      assert (length (segment host lo hi) = N.to_nat (hi - lo)) as Hseg
          by (apply length_segment; lia).
      assert (N.of_nat (length (segment host lo hi)) = hi - lo) as Hseg' by lia.
      specialize (Hstep (fun _ => conj (Hdata a lo hi b (Nat.le_refl a) Hlo Hhi Hlt Hb)
                                       Hseg')).
      set (w1 := MkWorld (mem w) _ _ _) in Hstep.
      destruct (IH (S a) (<[a := next_event w]> evs)
                  (splice out (N.to_nat lo) (segment host lo hi)) w1 hi)
        as (evs' & w' & new & Hrun & Hlen' & Hmem' & Hne' & Hst & Hcalls
            & Hnew & Hframe).
      * lia.
      * by rewrite length_insert.
      * rewrite length_splice; [done | lia].
      * simpl. lia.
      * intros d lo' hi' b' Hd. apply Hdata. lia.
      * done.
      * replace (N.to_nat hi) with (N.to_nat lo + length (segment host lo hi))%nat
          by lia.
        rewrite take_splice by lia. rewrite Htake, Hseg. unfold segment.
        apply take_take_drop.
      * exists evs', w', (ReadBuffer (queue_id q) b false
                            (sizeof (elem v) * (N.max 0 lo - lo))
                            (sizeof (elem v) * (N.min (0 + size v) hi - N.max 0 lo))
                            (next_event w) :: new).
        split; [by rewrite (for_cons _ _ _ _ _ _ _ Hstep) |].
        split; [done |]. split; [done |]. split; [done |].
        split; [by rewrite Hst |].
        split; [rewrite Hcalls; simpl; by rewrite <- app_assoc |].
        split.
        { rewrite decide_True by (rewrite Hint; exact I).
          apply Forall2_cons. split; [|done].
          exists q, b, lo, hi, (next_event w). repeat split; try done.
          rewrite Hframe by lia. apply list_lookup_insert_eq. lia. }
        { intros d Hd. rewrite Hframe by lia. apply list_lookup_insert_ne. lia. }
    + assert ((N.max 0 lo <? N.min (0 + size v) hi) = false) as Hmiss
          by (apply N.ltb_ge; lia).
      rewrite Hmiss in Hstep, Hint.
      specialize (Hstep ltac:(lia)).
      destruct (IH (S a) evs out w hi)
        as (evs' & w' & new & Hrun & Hlen' & Hmem' & Hne' & Hst & Hcalls
            & Hnew & Hframe); try done.
      * lia.
      * intros d lo' hi' b' Hd. apply Hdata. lia.
      * by replace hi with lo by lia.
      * exists evs', w', new.
        split; [by rewrite (for_cons _ _ _ _ _ _ _ Hstep) |].
        repeat (split; [done |]).
        split; [rewrite decide_False by (rewrite Hint; exact id); done |].
        intros d Hd; apply Hframe; lia.
Qed.

(** The loop that waits for the events of a whole-vector transfer. *)
Lemma wait_loop_whole (mk : N -> Buffer -> bool -> N -> N -> Event -> call)
    (Hmk : forall q b bl o c e, call_event (mk q b bl o c e) = e) (m : nat) :
  forall (a : nat) (evs : list Event) (w : world) (transfers : list call),
    (a + m = nparts v)%nat ->
    Forall2 (transfer_of mk v 0 (size v) evs)
      (filter (fun d => Is_true (intersects v 0 (size v) d)) (seq a m)) transfers ->
    for_ (seq a m) (wait_shard 0 (size v)) (with_events v evs) w =
    (Val (with_events v evs),
     MkWorld (mem w)
       (calls w ++ map (fun c => EventWait (call_event c)) transfers)
       (next_event w) (statics w)).
Proof.
  induction m as [|m IH]; intros a evs w transfers Ha Htr.
  - simpl in Htr. apply Forall2_nil_inv_l in Htr as ->.
    simpl. rewrite app_nil_r. by destruct w.
  - destruct (wf_shard v Hwf a) as (lo & hi & q & b & ev0 & Hlo & Hhi & Hle & _);
      [lia |].
    pose proof (intersects_whole v a lo hi Hlo Hhi) as Hint.
    cbn [seq] in Htr |- *. rewrite filter_cons in Htr.
    assert (wait_shard 0 (size v) a (with_events v evs) w =
            if N.max 0 lo <? N.min (0 + size v) hi then
              (do! ev := lift (at_ evs a) in
               do! _ := wait ev in mret (with_events v evs)) w
            else (Val (with_events v evs), w)) as Hstep.
    { unfold wait_shard, mbind at 1, lift at 1.
      rewrite (shard_range_whole v evs a lo hi Hwf Hlo Hhi).
      by destruct (N.max 0 lo <? N.min (0 + size v) hi). }
    destruct (N.max 0 lo <? N.min (0 + size v) hi) eqn:Hhit.
    + rewrite decide_True in Htr by (rewrite Hint; exact I).
      apply Forall2_cons_inv_l in Htr as (c & ts & Hc & Hts & ->).
      destruct Hc as (q' & b' & lo' & hi' & ev & _ & _ & _ & _ & Hev & Hev0 & ->).
      assert (wait_shard 0 (size v) a (with_events v evs) w =
              (Val (with_events v evs),
               MkWorld (mem w) (calls w ++ [EventWait ev]) (next_event w) (statics w)))
        as Hstep'.
      { rewrite Hstep. unfold mbind, lift, at_, wait. rewrite Hev.
        destruct (N.eqb_spec ev 0); done. }
      rewrite (for_cons _ _ _ _ _ _ _ Hstep').
      rewrite (IH (S a) evs _ ts); [| lia | done].
      simpl. rewrite Hmk. by rewrite <- app_assoc.
    + rewrite decide_False in Htr by (rewrite Hint; exact id).
      rewrite (for_cons _ _ _ _ _ _ _ Hstep).
      apply IH; [lia | done].
Qed.

End WholeTransfer.

Lemma touched_empty (v : vector) : size v = 0 -> touched v 0 (size v) = [].
Proof.
  intros H0. unfold touched. rewrite H0.
  induction (seq 0 (nparts v)) as [|d l IH]; [done |].
  rewrite filter_cons, IH, decide_False; [done |].
  unfold intersects. destruct (part v !! d) as [lo|]; [|exact id].
  destruct (part v !! S d) as [hi|]; [|exact id].
  destruct (N.ltb_spec (N.max 0 lo) (N.min (0 + 0) hi)); [lia | exact id].
Qed.

Lemma call_event_write (q : N) (b : Buffer) (bl : bool) (o c : N) (e : Event) :
  call_event (WriteBuffer q b bl o c e) = e.
Proof. reflexivity. Qed.

Lemma call_event_read (q : N) (b : Buffer) (bl : bool) (o c : N) (e : Event) :
  call_event (ReadBuffer q b bl o c e) = e.
Proof. reflexivity. Qed.

(** C2: on a well-formed vector whose non-empty shards are allocated,
    [write_data(0, n, host, blocking)] followed by
    [read_data(0, n, out, CL_TRUE)] returns the host array written, for
    any number of shards; each of the two calls issues one transfer for
    every shard that meets [[0, n)], none for the others, and, when
    blocking, then waits on the event of each transfer it issued. *)
Theorem write_read_round_trip (v : vector) (host out : list value)
    (blocking : bool) (w : world) :
  wf_vector v = true -> allocated v w = true -> next_event w <> 0 ->
  N.of_nat (length host) = size v -> N.of_nat (length out) = size v ->
  exists (v1 v2 : vector) (w1 w2 : world),
    write_data v 0 (size v) host blocking w = (Val v1, w1) /\
    read_data v1 0 (size v) out true w1 = (Val (v2, host), w2) /\
    issued WriteBuffer v 0 (size v) blocking (event v1) (calls w) (calls w1) /\
    issued ReadBuffer v 0 (size v) true (event v2) (calls w1) (calls w2) /\
    v1 = with_events v (event v1) /\ v2 = with_events v (event v2).
Proof.
  intros Hwf Halloc Hne Hhost Hout.
  destruct (wf_fields v Hwf) as (Hl & _ & Hel & H0 & _).
  destruct (N.eqb_spec (size v) 0) as [Hz | Hnz].
  - exists v, v, w, w. unfold write_data, read_data, issued.
    destruct (N.eqb_spec (size v) 0); [|done]. unfold mret.
    assert (out = host) as ->.
    { destruct out, host; try done; simpl in *; lia. }
    rewrite (touched_empty v Hz).
    repeat split; try (by rewrite with_events_id).
    + exists []. split; [constructor | by destruct blocking; rewrite !app_nil_r].
    + exists []. split; [constructor | by rewrite !app_nil_r].
  - destruct (write_loop_whole v Hwf host Hhost (nparts v) 0 (event v) w)
      as (evs1 & w1 & tw & Hrun1 & Hlen1 & Halloc1 & Hne1 & Hst1 & Hcalls1
          & Htw & _ & Hdata1 & _); try done.
    rewrite with_events_id in Hrun1.
    assert (exists w1',
      write_data v 0 (size v) host blocking w = (Val (with_events v evs1), w1') /\
      mem w1' = mem w1 /\ next_event w1' = next_event w1 /\
      calls w1' = calls w ++ tw ++
        (if blocking then map (fun c => EventWait (call_event c)) tw else []))
      as (w1' & Hwrite & Hmem1' & Hnext1' & Hcalls1').
    { unfold write_data. destruct (N.eqb_spec (size v) 0); [done |].
      unfold mbind. fold (nparts v). rewrite Hrun1. destruct blocking.
      - cbn [queue with_events]. fold (nparts v).
        rewrite (wait_loop_whole v Hwf host Hhost WriteBuffer call_event_write (nparts v) 0
                   evs1 w1 tw); [| done | done].
        eexists. split; [done |]. simpl. by rewrite Hcalls1, app_assoc.
      - exists w1. by rewrite app_nil_r. }
    destruct (read_loop_whole v Hwf host Hhost (nparts v) 0 evs1 out w1' 0)
      as (evs2 & w2 & tr & Hrun2 & Hlen2 & Hmem2 & Hne2 & Hst2 & Hcalls2
          & Htr & _); try done.
    { by rewrite Hnext1'. }
    { intros d lo hi b Hd. rewrite Hmem1'. by apply Hdata1. }
    exists (with_events v evs1), (with_events v evs2), w1'.
    eexists. split; [exact Hwrite |]. split; [|split; [|split]].
    + unfold read_data. destruct (N.eqb_spec (size v) 0); [done |].
      unfold mbind. cbn [queue with_events]. fold (nparts v). rewrite Hrun2.
      cbn [fst snd queue with_events]. fold (nparts v).
      rewrite (wait_loop_whole v Hwf host Hhost ReadBuffer call_event_read (nparts v) 0
                 evs2 w2 tr); [| done | done].
      reflexivity.
    + exists tw. split; [exact Htw | exact Hcalls1'].
    + exists tr. split; [exact Htr |]. simpl. by rewrite Hcalls2, app_assoc.
    + done.
Qed.

(** ** Copy assignment *)

Lemma enqueueCopyBuffer_ok (q : CommandQueue) (src dst : Buffer) (T : ctype)
    (cb : N) (from old : list value) (w : world) :
  mem w !! src = Some from -> mem w !! dst = Some old -> src <> dst ->
  cb = sizeof T * N.of_nat (length from) -> length old = length from ->
  enqueueCopyBuffer q src dst T 0 0 cb w =
  (Val tt,
   MkWorld (<[dst := from]> (mem w))
           (calls w ++ [CopyBuffer (queue_id q) src dst 0 0 cb])
           (next_event w) (statics w)).
Proof.
  intros Hsrc Hdst Hne -> Hlen. unfold enqueueCopyBuffer. rewrite Hsrc, Hdst.
  rewrite Hlen, N.add_0_l.
  destruct (N.ltb_spec (sizeof T * N.of_nat (length from))
              (sizeof T * N.of_nat (length from))); [lia |].
  cbn [orb]. rewrite bool_decide_eq_false_2 by done.
  rewrite N.Div0.div_0_l, sizeof_div. unfold mbind, store, record_call. simpl.
  rewrite drop_0, take_ge by lia. rewrite splice_all by done. reflexivity.
Qed.

(** A buffer that is no live buffer of [v] does not matter to its
    allocation. *)
Lemma allocated_store_other (v : vector) (w : world) (b : Buffer)
    (data : list value) (cs : list call) (e : Event) :
  allocated v w = true -> b ∉ live_buffers v ->
  allocated v (MkWorld (<[b := data]> (mem w)) cs e (statics w)) = true.
Proof.
  intros Ha Hb. unfold allocated in *.
  apply andb_true_iff in Ha as [Hall Hnd]. apply andb_true_iff. split; [|done].
  rewrite forallb_forall in Hall |- *. intros d Hd. specialize (Hall d Hd).
  unfold shard_allocated in *. simpl.
  destruct (part v !! d) as [lo|] eqn:Hlo; [|done].
  destruct (part v !! S d) as [hi|] eqn:Hhi; [|done].
  destruct (buf v !! d) as [b'|] eqn:Hb'; [|done].
  destruct (lo <? hi) eqn:Hlt; [|done].
  rewrite lookup_insert_ne; [done |]. intros ->. apply Hb.
  apply list_elem_of_omap. exists d. split.
  - apply list_elem_of_In. done.
  - unfold shard_nonempty. by rewrite Hlo, Hhi, Hlt.
Qed.

Lemma live_buffer_intro (v : vector) (d : nat) (b : Buffer) :
  (d < nparts v)%nat -> shard_nonempty v d = true -> buf v !! d = Some b ->
  b ∈ live_buffers v.
Proof.
  intros Hd Hn Hb. apply list_elem_of_omap. exists d. split.
  - apply list_elem_of_In, in_seq. lia.
  - by rewrite Hn.
Qed.

Section CopyAssign.

Context (vthis vx : vector).
Context (Hwf : wf_vector vthis = true) (Hwfx : wf_vector vx = true).
Context (Hpart : part vx = part vthis) (Hqueue : queue vx = queue vthis).
Context (Hdisjoint : live_buffers vthis ## live_buffers vx).

Lemma copy_nonempty_same (d : nat) : shard_nonempty vx d = shard_nonempty vthis d.
Proof. unfold shard_nonempty. by rewrite Hpart. Qed.

(** One iteration of the copy loop. *)
Lemma copy_shard_step (w : world) (d : nat) (lo hi : N) (q : CommandQueue)
    (src dst : Buffer) (from old : list value) :
  part vthis !! d = Some lo -> part vthis !! S d = Some hi ->
  queue vthis !! d = Some q -> buf vx !! d = Some src -> buf vthis !! d = Some dst ->
  (lo < hi ->
   mem w !! src = Some from /\ mem w !! dst = Some old /\ src <> dst /\
   N.of_nat (length from) = hi - lo /\ N.of_nat (length old) = hi - lo) ->
  copy_shard vx d vthis w =
  if lo <? hi then
    (Val vthis,
     MkWorld (<[dst := from]> (mem w))
       (calls w ++ [CopyBuffer (queue_id q) src dst 0 0
                      ((hi - lo) * sizeof (elem vthis))])
       (next_event w) (statics w))
  else (Val vthis, w).
Proof.
  intros Hlo Hhi Hq Hsrc Hdst Hmem.
  destruct (shard_bytes vthis Hwf d lo hi Hlo Hhi) as (Hle & Hhi_le & Hbytes).
  unfold copy_shard, mbind, lift, at_. rewrite Nat.add_1_r, Hhi, Hlo.
  rewrite size_sub_le by lia.
  destruct (N.ltb_spec lo hi) as [Hlt | Hge].
  - destruct (N.eqb_spec (hi - lo) 0); [lia |].
    destruct (Hmem Hlt) as (Hfrom & Hold & Hne & Hlf & Hlo').
    rewrite Hq, Hsrc, Hdst.
    rewrite size_mul_small by (rewrite N.mul_comm; done).
    rewrite (enqueueCopyBuffer_ok _ _ _ _ _ from old); try done; [| lia].
    rewrite Hlf. apply N.mul_comm.
  - destruct (N.eqb_spec (hi - lo) 0); [done | lia].
Qed.

(** The copy loop from shard [a] on. *)
Lemma copy_loop (m : nat) :
  forall (a : nat) (w : world),
    (a + m = nparts vthis)%nat ->
    allocated vthis w = true -> allocated vx w = true ->
    exists (w' : world) (new : list call),
      for_ (seq a m) (copy_shard vx) vthis w = (Val vthis, w') /\
      next_event w' = next_event w /\ statics w' = statics w /\
      calls w' = calls w ++ new /\
      Forall2 (copy_of vthis vx)
        (filter (fun d => Is_true (shard_nonempty vthis d)) (seq a m)) new /\
      (forall d src dst,
         (a <= d < nparts vthis)%nat -> shard_nonempty vthis d = true ->
         buf vx !! d = Some src -> buf vthis !! d = Some dst ->
         mem w' !! dst = mem w !! src) /\
      (forall b,
         (forall d, (a <= d < nparts vthis)%nat -> shard_nonempty vthis d = true ->
                    buf vthis !! d <> Some b) ->
         mem w' !! b = mem w !! b).
Proof.
  assert (nparts vx = nparts vthis) as Hn by (unfold nparts; by rewrite Hqueue).
  induction m as [|m IH]; intros a w Ha Halloc Hallocx.
  - exists w, []. rewrite app_nil_r. repeat split; try done.
    intros d src dst Hd. lia.
  - destruct (wf_shard vthis Hwf a)
      as (lo & hi & q & dst & ev0 & Hlo & Hhi & Hle & Hq & Hdst & _); [lia |].
    destruct (wf_shard vx Hwfx a)
      as (lo' & hi' & q' & src & ev0' & Hlo' & Hhi' & _ & _ & Hsrc & _); [lia |].
    rewrite Hpart in Hlo', Hhi'. simplify_eq.
    pose proof (shard_nonempty_iff vthis a lo hi Hlo Hhi) as Hne.
    cbn [seq]. rewrite filter_cons.
    destruct (N.ltb_spec lo hi) as [Hlt | Hge].
    + destruct (allocated_shard vthis w a lo hi dst) as (old & Hold & Hlen);
        try done; [lia |].
      destruct (allocated_shard vx w a lo hi src) as (from & Hfrom & Hlenf);
        try done; [lia | by rewrite Hpart | by rewrite Hpart |].
      assert (dst ∈ live_buffers vthis) as Hdst_live
          by (apply (live_buffer_intro vthis a); [lia | done | done]).
      assert (src ∈ live_buffers vx) as Hsrc_live.
      { apply (live_buffer_intro vx a); [lia | | done].
        by rewrite copy_nonempty_same. }
      assert (src <> dst) as Hsd by (intros ->; by apply (Hdisjoint dst)).
      pose proof (copy_shard_step w a lo hi q src dst from old Hlo Hhi Hq Hsrc Hdst
                    (fun _ => conj Hfrom (conj Hold (conj Hsd (conj Hlenf Hlen)))))
        as Hstep.
      destruct (N.ltb_spec lo hi); [|lia].
      set (w1 := MkWorld (<[dst := from]> (mem w)) _ _ _) in Hstep.
      destruct (IH (S a) w1) as (w' & new & Hrun & Hnext & Hst & Hcalls & Hnew
                                 & Hdata & Hframe).
      * lia.
      * apply (allocated_store vthis w dst old); [done.. | lia].
      * apply allocated_store_other; [done |]. intros Hin.
        by apply (Hdisjoint dst).
      * exists w', (CopyBuffer (queue_id q) src dst 0 0
                      ((hi - lo) * sizeof (elem vthis)) :: new).
        split; [by rewrite (for_cons _ _ _ _ _ _ _ Hstep) |].
        split; [by rewrite Hnext |]. split; [by rewrite Hst |].
        split; [rewrite Hcalls; simpl; by rewrite <- app_assoc |].
        split.
        { rewrite decide_True by (rewrite Hne; exact I).
          apply Forall2_cons. split; [|done].
          by exists q, src, dst, lo, hi. }
        split.
        { intros d src' dst' Hd Hnd Hsrc' Hdst'.
          destruct (decide (d = a)) as [-> | Hda].
          - simplify_eq. rewrite Hframe.
            + simpl. by rewrite lookup_insert_eq.
            + intros d' Hd' Hnd' Hbd. assert (d' = a); [|lia].
              eapply (allocated_distinct vthis w d' a dst); try done; lia.
          - rewrite (Hdata d src' dst'); try done; [| lia].
            simpl. apply lookup_insert_ne. intros ->.
            apply (Hdisjoint src'); [done |].
            apply (live_buffer_intro vx d); [lia | | done].
            by rewrite copy_nonempty_same. }
        { intros b Hb. rewrite Hframe.
          - simpl. apply lookup_insert_ne. intros ->. apply (Hb a); [lia | done..].
          - intros d Hd. apply Hb. lia. }
    + pose proof (copy_shard_step w a lo hi q src dst [] [] Hlo Hhi Hq Hsrc Hdst
                    ltac:(lia)) as Hstep.
      destruct (N.ltb_spec lo hi); [lia |].
      destruct (IH (S a) w) as (w' & new & Hrun & Hnext & Hst & Hcalls & Hnew
                                & Hdata & Hframe); [lia | done.. |].
      exists w', new.
      split; [by rewrite (for_cons _ _ _ _ _ _ _ Hstep) |].
      repeat (split; [done |]).
      split; [rewrite decide_False by (rewrite Hne; exact id); done |].
      split.
      { intros d src' dst' Hd Hnd. apply Hdata; [|done].
        destruct (decide (d = a)) as [-> | Hda]; [|lia].
        congruence. }
      { intros b Hb. apply Hframe. intros d Hd. apply Hb. lia. }
Qed.

End CopyAssign.

(** C9: assigning a vector to itself enqueues nothing and returns the
    vector with the world as it was.  Assigning from a distinct vector of
    the same shape enqueues one buffer copy for every non-empty shard, in
    shard order, after which each such destination buffer holds what the
    source buffer held; the vector objects, the events and every other
    buffer are as before. *)
Theorem copy_assign_frame (h : gmap addr vector) (this x : addr)
    (vthis vx : vector) (w : world) :
  h !! this = Some vthis -> h !! x = Some vx ->
  (x = this -> copy_assign h this x w = (Val vthis, w)) /\
  (x <> this ->
   wf_vector vthis = true -> wf_vector vx = true ->
   part vx = part vthis -> queue vx = queue vthis ->
   live_buffers vthis ## live_buffers vx ->
   allocated vthis w = true -> allocated vx w = true ->
   exists (w' : world) (copies : list call),
     copy_assign h this x w = (Val vthis, w') /\
     next_event w' = next_event w /\ statics w' = statics w /\
     calls w' = calls w ++ copies /\
     Forall2 (copy_of vthis vx)
       (filter (fun d => Is_true (shard_nonempty vthis d)) (seq 0 (nparts vthis)))
       copies /\
     (forall d src dst,
        (d < nparts vthis)%nat -> shard_nonempty vthis d = true ->
        buf vx !! d = Some src -> buf vthis !! d = Some dst ->
        mem w' !! dst = mem w !! src) /\
     (forall b, b ∉ live_buffers vthis -> mem w' !! b = mem w !! b)).
Proof.
  intros Hthis Hx. split.
  - intros ->. unfold copy_assign. rewrite Hthis.
    rewrite bool_decide_eq_false_2 by (intros H; by apply H). done.
  - intros Hne Hwf Hwfx Hpart Hqueue Hdisj Halloc Hallocx.
    destruct (copy_loop vthis vx Hwf Hwfx Hpart Hqueue Hdisj (nparts vthis) 0 w)
      as (w' & copies & Hrun & Hnext & Hst & Hcalls & Hcopies & Hdata & Hframe);
      try done.
    exists w', copies. unfold copy_assign. rewrite Hthis, Hx.
    rewrite bool_decide_eq_true_2 by done. fold (nparts vthis).
    repeat (split; [done |]). split.
    + intros d src dst Hd. apply Hdata. lia.
    + intros b Hb. apply Hframe. intros d Hd Hn Hbd. apply Hb.
      apply (live_buffer_intro vthis d); [lia | done..].
Qed.

(** ** Part sizes *)

(** The indices [operator[]] sends to shard [d] are those of the shard's
    range. *)
Lemma shard_search_owner (v : vector) (index : N) (d : nat) (lo hi : N) :
  wf_vector v = true ->
  part v !! d = Some lo -> part v !! S d = Some hi ->
  shard_search (S (nparts v)) v index 0 = Done (Val d) <-> lo <= index < hi.
Proof.
  intros Hwf Hlo Hhi.
  destruct (operator_index_selects_owner v index Hwf) as (_ & Hin & Hout).
  destruct (wf_fields v Hwf) as (Hl & _ & _ & H0 & _).
  split.
  - intros Hs. destruct (N.lt_ge_cases index (size v)) as [Hlt | Hge].
    + destruct (shard_search_in_range v index Hwf Hlt (nparts v) 0 0)
        as (d' & lo' & hi' & Hd' & _ & Hlo' & Hhi' & Hr); [lia | done | lia |].
      rewrite Hs in Hd'. by simplify_eq.
    + rewrite (shard_search_out_of_range v index Hwf Hge (nparts v) 0) in Hs;
        [done | lia].
  - intros Hr.
    assert (index < size v) as Hlt.
    { destruct (shard_bytes v Hwf d lo hi Hlo Hhi) as (_ & Hle & _). lia. }
    destruct (shard_search_in_range v index Hwf Hlt (nparts v) 0 0)
      as (d' & lo' & hi' & Hd' & _ & Hlo' & Hhi' & Hr'); [lia | done | lia |].
    destruct (Hin Hlt) as (d0 & q & b & lo0 & hi0 & _ & _ & _ & Hlo0 & Hhi0 & _ & _ & _ & Huniq).
    rewrite Hd'. do 2 f_equal.
    rewrite (Huniq d' lo' hi' Hlo' Hhi' Hr'). symmetry. by eapply Huniq.
Qed.

(** C6: the part size of a binary node is the maximum of the part sizes
    of its operands; that of a vector leaf is [part[d + 1] - part[d]],
    the number of indices that the vector keeps on device [d]; that of an
    adapted scalar is zero. *)
Theorem part_size_by_node (OP : ascii) (lhs rhs : expr) (v : vector)
    (T : ctype) (bits : Z) (d : nat) :
  (forall l r : N,
     part_size lhs d = Val l -> part_size rhs d = Val r ->
     part_size (EBin OP lhs rhs) d = Val (N.max l r)) /\
  (wf_vector v = true -> (d < nparts v)%nat ->
   exists lo hi : N,
     part v !! d = Some lo /\ part v !! S d = Some hi /\
     part_size (EVec v) d = Val (hi - lo) /\
     (forall index : N,
        shard_search (S (nparts v)) v index 0 = Done (Val d) <-> lo <= index < hi)) /\
  part_size (EScalar T bits) d = Val 0.
Proof.
  split; [|split].
  - intros l r Hl Hr. simpl. by rewrite Hl, Hr.
  - intros Hwf Hd.
    destruct (wf_shard v Hwf d Hd) as (lo & hi & _ & _ & _ & Hlo & Hhi & Hle & _).
    exists lo, hi. split; [done |]. split; [done |]. split.
    + simpl. unfold vector_part_size, at_. rewrite Nat.add_1_r, Hhi. simpl.
      rewrite Hlo. simpl. rewrite size_sub_le; [done | lia].
    + intros index. by apply shard_search_owner.
  - reflexivity.
Qed.

(** * The arithmetic of [double]: what the operations of binary64 compute *)

Section Pow2.
Local Open Scope Q_scope.

Lemma pow2_pos (e : Z) : 0 < pow2 e.
Proof. unfold pow2. by apply Qpower_0_lt. Qed.

Lemma pow2_add (a b : Z) : pow2 (a + b) == pow2 a * pow2 b.
Proof. unfold pow2. by apply Qpower_plus. Qed.

Lemma pow2_sub (a b : Z) : pow2 (a - b) == pow2 a / pow2 b.
Proof. unfold pow2. by apply Qpower_minus. Qed.

Lemma pow2_0 : pow2 0 == 1.
Proof. reflexivity. Qed.

Lemma pow2_1 : pow2 1 == 2.
Proof. reflexivity. Qed.

Lemma pow2_succ (a : Z) : pow2 (a + 1) == 2 * pow2 a.
Proof. rewrite pow2_add, pow2_1. ring. Qed.

Lemma pow2_le (a b : Z) : (a <= b)%Z -> pow2 a <= pow2 b.
Proof. intros H. unfold pow2. by apply Qpower_le_compat_l. Qed.

Lemma pow2_lt (a b : Z) : (a < b)%Z -> pow2 a < pow2 b.
Proof. intros H. unfold pow2. by apply Qpower_lt_compat_l. Qed.

Lemma pow2_lt_inv (a b : Z) : pow2 a < pow2 b -> (a < b)%Z.
Proof. intros H. unfold pow2 in H. by apply Qpower_lt_compat_l_inv in H. Qed.

Lemma pow2_le_inv (a b : Z) : pow2 a <= pow2 b -> (a <= b)%Z.
Proof. intros H. unfold pow2 in H. by apply Qpower_le_compat_l_inv in H. Qed.

Lemma pow2_Z (e : Z) : (0 <= e)%Z -> pow2 e == inject_Z (2 ^ e).
Proof. intros H. unfold pow2. by rewrite Zpower_Qpower. Qed.

End Pow2.
Section Rounding.
Local Open Scope Q_scope.

Ltac pow_lia :=
  repeat match goal with
         | |- context [(2 ^ ?e)%Z] =>
             let H := fresh in
             pose proof (Z.pow_nonneg 2 e ltac:(lia)) as H;
             generalize dependent (2 ^ e)%Z; intros
         | H : context [(2 ^ ?e)%Z] |- _ =>
             let H := fresh in
             pose proof (Z.pow_nonneg 2 e ltac:(lia)) as H;
             generalize dependent (2 ^ e)%Z; intros
         end; lia.

Lemma digits2_pos_spec (m : positive) :
  (2 ^ (Z.pos (digits2_pos m) - 1) <= Z.pos m < 2 ^ Z.pos (digits2_pos m))%Z.
Proof.
  induction m as [m IH | m IH |]; cbn [digits2_pos].
  - rewrite Pos2Z.inj_succ. change (Z.pos m~1) with (2 * Z.pos m + 1)%Z.
    replace (Z.succ (Z.pos (digits2_pos m)) - 1)%Z
      with (Z.succ (Z.pos (digits2_pos m) - 1)) by lia.
    rewrite !Z.pow_succ_r by lia. pow_lia.
  - rewrite Pos2Z.inj_succ. change (Z.pos m~0) with (2 * Z.pos m)%Z.
    replace (Z.succ (Z.pos (digits2_pos m)) - 1)%Z
      with (Z.succ (Z.pos (digits2_pos m) - 1)) by lia.
    rewrite !Z.pow_succ_r by lia. pow_lia.
  - simpl. lia.
Qed.

Lemma Zdigits2_spec (m : Z) :
  (0 < m)%Z -> (2 ^ (Zdigits2 m - 1) <= m < 2 ^ Zdigits2 m)%Z /\ (0 < Zdigits2 m)%Z.
Proof.
  destruct m as [|m|m]; try lia. intros _. split; [apply digits2_pos_spec | simpl; lia].
Qed.

(** The number of digits is determined by the binade. *)
Lemma Zdigits2_unique (m d : Z) :
  (0 < m)%Z -> (2 ^ (d - 1) <= m < 2 ^ d)%Z -> (0 < d)%Z -> Zdigits2 m = d.
Proof.
  intros Hm Hd Hpos. destruct (Zdigits2_spec m Hm) as (Hs & Hp).
  destruct (Z.lt_trichotomy (Zdigits2 m) d) as [Hlt | [Heq | Hgt]]; [|done|].
  - assert (2 ^ Zdigits2 m <= 2 ^ (d - 1))%Z by (apply Z.pow_le_mono_r; lia). lia.
  - assert (2 ^ d <= 2 ^ (Zdigits2 m - 1))%Z by (apply Z.pow_le_mono_r; lia). lia.
Qed.

Lemma locates_ext (y y' : Q) (m : Z) (l : location) :
  y == y' -> locates y m l -> locates y' m l.
Proof.
  unfold locates. intros Hy (H1 & H2 & H3).
  split; [lra |]. split; [lra |].
  destruct l as [|[]]; [lra | lra | split; lra | lra].
Qed.

Lemma locates_floor (y : Q) (m : Z) (l : location) : locates y m l -> Qfloor y = m.
Proof.
  intros (H1 & H2 & _).
  pose proof (Qfloor_le y) as Hf1. pose proof (Qlt_floor y) as Hf2.
  rewrite inject_Z_plus in Hf2. change (inject_Z 1) with 1 in Hf2.
  assert (inject_Z (Qfloor y) < inject_Z (m + 1)) as Ha
      by (rewrite inject_Z_plus; change (inject_Z 1) with 1; lra).
  assert (inject_Z m < inject_Z (Qfloor y + 1)) as Hb
      by (rewrite inject_Z_plus; change (inject_Z 1) with 1; lra).
  rewrite <- Zlt_Qlt in Ha, Hb. lia.
Qed.

Lemma inject_Z_xO (p : positive) : inject_Z (Z.pos p~0) == 2 * inject_Z (Z.pos p).
Proof. change (Z.pos p~0) with (2 * Z.pos p)%Z. rewrite inject_Z_mult. reflexivity. Qed.

Lemma inject_Z_xI (p : positive) : inject_Z (Z.pos p~1) == 2 * inject_Z (Z.pos p) + 1.
Proof.
  change (Z.pos p~1) with (2 * Z.pos p + 1)%Z.
  rewrite inject_Z_plus, inject_Z_mult. reflexivity.
Qed.

(** One shift to the right halves the number located. *)
Lemma shr_1_locates (y : Q) (mrs : shr_record) :
  (0 <= shr_m mrs)%Z -> locates y (shr_m mrs) (loc_of_shr_record mrs) ->
  (0 <= shr_m (shr_1 mrs))%Z /\
  locates (y / 2) (shr_m (shr_1 mrs)) (loc_of_shr_record (shr_1 mrs)).
Proof.
  destruct mrs as [m r s]. cbn [shr_m]. intros Hm.
  assert (y == 2 * (y / 2)) as Hy by field. revert Hy. generalize (y / 2). intros z Hy.
  destruct m as [|[p|p|]|]; [| | | |lia]; unfold locates;
    destruct r, s; cbn [shr_1 shr_m loc_of_shr_record orb];
    rewrite ?inject_Z_xO, ?inject_Z_xI; change (inject_Z 0) with 0;
    change (inject_Z 1) with 1;
    intros (H1 & H2 & H3); (split; [lia |]);
    repeat match goal with |- _ /\ _ => split end; lra.
Qed.

Lemma iter_shr_locates (p : positive) :
  forall (y : Q) (mrs : shr_record),
    (0 <= shr_m mrs)%Z -> locates y (shr_m mrs) (loc_of_shr_record mrs) ->
    (0 <= shr_m (SpecFloat.iter_pos shr_1 p mrs))%Z /\
    locates (y / pow2 (Z.pos p)) (shr_m (SpecFloat.iter_pos shr_1 p mrs))
      (loc_of_shr_record (SpecFloat.iter_pos shr_1 p mrs)).
Proof.
  induction p as [p IH | p IH |]; intros y mrs Hm Hloc; cbn [SpecFloat.iter_pos].
  - destruct (shr_1_locates y mrs Hm Hloc) as (Hm1 & Hl1).
    destruct (IH _ _ Hm1 Hl1) as (Hm2 & Hl2).
    destruct (IH _ _ Hm2 Hl2) as (Hm3 & Hl3).
    split; [done |]. eapply locates_ext; [|exact Hl3].
    replace (Z.pos p~1) with (Z.pos p + Z.pos p + 1)%Z by lia.
    rewrite !pow2_add, pow2_1. pose proof (pow2_pos (Z.pos p)). field. lra.
  - destruct (IH _ _ Hm Hloc) as (Hm2 & Hl2).
    destruct (IH _ _ Hm2 Hl2) as (Hm3 & Hl3).
    split; [done |]. eapply locates_ext; [|exact Hl3].
    replace (Z.pos p~0) with (Z.pos p + Z.pos p)%Z by lia.
    rewrite !pow2_add. pose proof (pow2_pos (Z.pos p)). field. lra.
  - destruct (shr_1_locates y mrs Hm Hloc) as (Hm1 & Hl1).
    split; [done |]. eapply locates_ext; [|exact Hl1].
    rewrite pow2_1. reflexivity.
Qed.

Lemma loc_of_shr_record_of_loc (m : Z) (l : location) :
  loc_of_shr_record (shr_record_of_loc m l) = l /\ shr_m (shr_record_of_loc m l) = m.
Proof. by destruct l as [|[]]. Qed.

(** [shr] by [n] places divides the number located by [2^n]. *)
Lemma shr_locates (y : Q) (m e n : Z) (l : location) :
  (0 <= m)%Z -> (0 <= n)%Z -> locates y m l ->
  exists mrs : shr_record,
    shr (shr_record_of_loc m l) e n = (mrs, (e + n)%Z) /\
    (0 <= shr_m mrs)%Z /\
    locates (y / pow2 n) (shr_m mrs) (loc_of_shr_record mrs).
Proof.
  intros Hm Hn Hloc. destruct (loc_of_shr_record_of_loc m l) as (Hl & Hsm).
  destruct n as [|p|p]; [| |lia].
  - exists (shr_record_of_loc m l). cbn [shr]. rewrite Z.add_0_r, Hl, Hsm.
    split; [done |]. split; [done |]. eapply locates_ext; [|exact Hloc].
    rewrite pow2_0. field.
  - exists (SpecFloat.iter_pos shr_1 p (shr_record_of_loc m l)). split; [done |].
    apply iter_shr_locates; by rewrite ?Hl, Hsm.
Qed.

(** ** Rounding to nearest, ties to even *)

Lemma rne_comp (y y' : Q) : y == y' -> rne y = rne y'.
Proof.
  intros H. unfold rne. rewrite (Qfloor_comp _ _ H).
  assert ((y - inject_Z (Qfloor y') ?= 1 # 2) = (y' - inject_Z (Qfloor y') ?= 1 # 2)) as ->;
    [|done].
  apply Qcompare_comp; [|reflexivity]. lra.
Qed.

Lemma rne_locates (y : Q) (m : Z) (l : location) :
  locates y m l -> round_nearest_even m l = rne y.
Proof.
  intros Hloc. pose proof (locates_floor _ _ _ Hloc) as Hf.
  destruct Hloc as (H1 & H2 & H3). unfold rne. rewrite Hf.
  destruct (Qcompare_spec (y - inject_Z m) (1 # 2)) as [Hc | Hc | Hc];
    destruct l as [|[]]; cbn [round_nearest_even]; try done; lra.
Qed.

Lemma rne_Z (k : Z) : rne (inject_Z k) = k.
Proof.
  unfold rne. rewrite Qfloor_Z.
  destruct (Qcompare_spec (inject_Z k - inject_Z k) (1 # 2)) as [Hc | Hc | Hc];
    [lra | done | lra].
Qed.

Lemma rne_bounds (y : Q) :
  y - (1 # 2) <= inject_Z (rne y) <= y + (1 # 2).
Proof.
  unfold rne. pose proof (Qfloor_le y) as Hf1. pose proof (Qlt_floor y) as Hf2.
  rewrite inject_Z_plus in Hf2. change (inject_Z 1) with 1 in Hf2.
  destruct (Qcompare_spec (y - inject_Z (Qfloor y)) (1 # 2)) as [Hc | Hc | Hc].
  - destruct (Z.even (Qfloor y)); rewrite ?inject_Z_plus; change (inject_Z 1) with 1; lra.
  - lra.
  - rewrite inject_Z_plus. change (inject_Z 1) with 1. lra.
Qed.

Lemma rne_mono (y1 y2 : Q) : y1 <= y2 -> (rne y1 <= rne y2)%Z.
Proof.
  intros Hy. pose proof (Qfloor_resp_le _ _ Hy) as Hf. unfold rne.
  destruct (Z.eq_dec (Qfloor y1) (Qfloor y2)) as [Heq | Hne].
  - rewrite Heq.
    destruct (Qcompare_spec (y1 - inject_Z (Qfloor y2)) (1 # 2)) as [Hc1 | Hc1 | Hc1];
      destruct (Qcompare_spec (y2 - inject_Z (Qfloor y2)) (1 # 2)) as [Hc2 | Hc2 | Hc2];
      try lra; destruct (Z.even (Qfloor y2)); lia.
  - destruct (y1 - inject_Z (Qfloor y1) ?= 1 # 2), (y2 - inject_Z (Qfloor y2) ?= 1 # 2);
      repeat match goal with |- context [if ?b then _ else _] => destruct b end; lia.
Qed.

Lemma rne_nonneg (y : Q) : 0 <= y -> (0 <= rne y)%Z.
Proof. intros H. rewrite <- (rne_Z 0). by apply rne_mono. Qed.

End Rounding.
Section BinaryRound.
Local Open Scope Q_scope.

Lemma fexp_spec (e : Z) : fexp prec emax e = Z.max (e - 53) (-1074).
Proof. reflexivity. Qed.

Lemma has_exp_unique (x : Q) (E1 E2 : Z) : has_exp x E1 -> has_exp x E2 -> E1 = E2.
Proof.
  intros (Hm1 & H0 & Hu1 & Hl1) (Hm2 & _ & Hu2 & Hl2).
  assert (forall Ea Eb, (-1074 <= Ea)%Z -> x < pow2 (Ea + 53) ->
            (Eb = (-1074)%Z \/ pow2 (Eb + 52) <= x) -> (Eb <= Ea)%Z) as Hle.
  { intros Ea Eb Hma Hua [-> | Hlb]; [done |].
    assert (pow2 (Eb + 52) < pow2 (Ea + 53)) as Hlt by lra.
    apply pow2_lt_inv in Hlt. lia. }
  pose proof (Hle E1 E2 Hm1 Hu1 Hl2). pose proof (Hle E2 E1 Hm2 Hu2 Hl1). lia.
Qed.

Lemma div_mul (x c : Q) : 0 < c -> x == x / c * c.
Proof. intros H. field. lra. Qed.

Lemma div_pow2 (x : Q) (a b : Z) : x / pow2 a / pow2 b == x / pow2 (a + b).
Proof.
  rewrite pow2_add. pose proof (pow2_pos a). pose proof (pow2_pos b). field. lra.
Qed.

Lemma div_pow2_lt (x : Q) (a b : Z) : x < pow2 (a + b) -> x / pow2 a < pow2 b.
Proof.
  intros H. rewrite pow2_add in H. pose proof (pow2_pos a) as Ha.
  apply Qlt_shift_div_r; [done |]. lra.
Qed.

Lemma div_pow2_le (x : Q) (a b : Z) : pow2 (a + b) <= x -> pow2 b <= x / pow2 a.
Proof.
  intros H. rewrite pow2_add in H. pose proof (pow2_pos a) as Ha.
  apply Qle_shift_div_l; [done |]. lra.
Qed.

Lemma div_pow2_nonneg (x : Q) (a : Z) : 0 <= x -> 0 <= x / pow2 a.
Proof.
  intros H. pose proof (pow2_pos a) as Ha. apply Qle_shift_div_l; [done |]. lra.
Qed.

(** The mantissa of a rounded number. *)
Lemma rne_has_exp (x : Q) (E : Z) :
  has_exp x E ->
  (0 <= rne (x / pow2 E) <= 2 ^ 53)%Z /\
  (E = (-1074)%Z \/ (2 ^ 52 <= rne (x / pow2 E))%Z).
Proof.
  intros (Hm & H0 & Hu & Hl). split; [split |].
  - apply rne_nonneg. by apply div_pow2_nonneg.
  - rewrite <- (rne_Z (2 ^ 53)). apply rne_mono.
    rewrite <- pow2_Z by lia. apply Qlt_le_weak. by apply div_pow2_lt.
  - destruct Hl as [-> | Hl]; [by left | right].
    rewrite <- (rne_Z (2 ^ 52)). apply rne_mono.
    rewrite <- pow2_Z by lia. by apply div_pow2_le.
Qed.

(** What [binary_round_aux] returns for a number located at [mx] with
    exponent [ex], when [ex] is not above the exponent of the format. *)
Lemma binary_round_aux_correct (x : Q) (mx ex : Z) (lx : location) :
  (0 <= mx)%Z -> locates (x / pow2 ex) mx lx ->
  (ex <= fexp prec emax (Zdigits2 mx + ex))%Z ->
  let E := fexp prec emax (Zdigits2 mx + ex) in
  has_exp x E /\
  binary_round_aux prec emax false mx ex lx = pack (rne (x / pow2 E)) E.
Proof.
  intros Hmx Hloc Hex E.
  assert (has_exp x E) as HE.
  { destruct Hloc as (Hl1 & Hl2 & _). pose proof (pow2_pos ex) as Hpex.
    pose proof (div_mul x (pow2 ex) Hpex) as Hxz.
    revert Hl1 Hl2 Hxz. generalize (x / pow2 ex). intros z Hl1 Hl2 Hxz.
    assert (0 <= inject_Z mx) as Hmx' by (change 0 with (inject_Z 0); by rewrite <- Zle_Qle).
    assert (0 <= x) as H0 by nra.
    subst E. rewrite fexp_spec in *.
    split; [lia |]. split; [done |].
    destruct (Z.eq_dec mx 0%Z) as [-> | Hne].
    - cbn [Zdigits2] in *. rewrite Z.add_0_l in *.
      assert (Z.max (ex - 53) (-1074) = (-1074)%Z) as -> by lia.
      split; [|by left].
      change (inject_Z 0) with 0 in Hl2.
      assert (x < pow2 ex) as Hx by nra.
      eapply Qlt_le_trans; [exact Hx |]. apply pow2_le. lia.
    - destruct (Zdigits2_spec mx) as ((Hd1 & Hd2) & Hd); [lia |].
      set (d := Zdigits2 mx) in *.
      assert (pow2 (d - 1 + ex) <= x < pow2 (d + ex)) as (Hx1 & Hx2).
      { rewrite !pow2_add, (pow2_Z (d - 1)), (pow2_Z d) by lia.
        assert (inject_Z (2 ^ (d - 1)) <= inject_Z mx) as Ha by (by rewrite <- Zle_Qle).
        assert (inject_Z mx + 1 <= inject_Z (2 ^ d)) as Hb.
        { change 1 with (inject_Z 1). rewrite <- inject_Z_plus, <- Zle_Qle. lia. }
        clear -Hl1 Hl2 Hxz Hpex Ha Hb. revert Hl1 Hl2 Hxz Hpex Ha Hb.
        generalize (inject_Z (2 ^ (d - 1))) (inject_Z (2 ^ d)) (inject_Z mx) (pow2 ex).
        intros A B m P Hl1 Hl2 Hxz Hpex Ha Hb. rewrite Hxz. split.
        - apply Qmult_le_compat_r; lra.
        - apply Qmult_lt_compat_r; lra. }
      split.
      + eapply Qlt_le_trans; [exact Hx2 |]. apply pow2_le. lia.
      + destruct (Z.max_spec (d + ex - 53) (-1074)) as [(? & ->) | (? & ->)]; [by left |].
        right. eapply Qle_trans; [|exact Hx1]. apply pow2_le. lia. }
  split; [done |].
  destruct (rne_has_exp x E HE) as ((HM0 & HM1) & HM2).
  destruct HE as (HEmin & _).
  unfold binary_round_aux, shr_fexp. fold E.
  destruct (shr_locates (x / pow2 ex) mx ex (E - ex) lx Hmx ltac:(lia) Hloc)
    as (mrs & Hshr & Hm & Hloc').
  rewrite Hshr. replace (ex + (E - ex))%Z with E by lia.
  rewrite (rne_locates _ _ _ Hloc').
  rewrite (rne_comp _ (x / pow2 E))
    by (rewrite div_pow2; by replace (ex + (E - ex))%Z with E by lia).
  set (M := rne (x / pow2 E)) in *.
  rewrite fexp_spec.
  destruct (Z.eq_dec M 0%Z) as [HM | HM].
  - rewrite HM. cbn [Zdigits2]. rewrite Z.add_0_l.
    assert (Z.max (E - 53) (-1074) - E <= 0)%Z as Hn by lia.
    destruct (Z.max (E - 53) (-1074) - E)%Z as [|p|p] eqn:Hs; [| lia |]; reflexivity.
  - destruct (Zdigits2_spec M ltac:(lia)) as ((Hd1 & Hd2) & Hd).
    destruct (Z.eq_dec M (2 ^ 53)%Z) as [HMtop | HMtop].
    + rewrite HMtop.
      assert (Zdigits2 (2 ^ 53) = 54%Z) as -> by reflexivity.
      assert (Z.max (54 + E - 53) (-1074) - E = 1)%Z as -> by lia.
      reflexivity.
    + assert (Zdigits2 M <= 53)%Z as Hd53.
      { destruct (Z.le_gt_cases (Zdigits2 M) 53) as [? | Hgt]; [done |].
        assert (2 ^ 53 <= 2 ^ (Zdigits2 M - 1))%Z by (apply Z.pow_le_mono_r; lia). lia. }
      assert (Z.max (Zdigits2 M + E - 53) (-1074) - E <= 0)%Z as Hn by lia.
      destruct M as [|m|m]; [done | | lia].
      assert (shr (shr_record_of_loc (Z.pos m) loc_Exact) E
                (Z.max (Zdigits2 (Z.pos m) + E - 53) (-1074) - E) =
              (shr_record_of_loc (Z.pos m) loc_Exact, E)) as ->.
      { destruct (Z.max (Zdigits2 (Z.pos m) + E - 53) (-1074) - E)%Z; [done | lia | done]. }
      cbn [shr_record_of_loc shr_m pack].
      destruct (Z.ltb_spec (Z.pos m) (2 ^ 53)) as [? | ?]; [|lia].
      reflexivity.
Qed.

End BinaryRound.
Section Rounds.
Local Open Scope Q_scope.

Lemma valid_finite (s : bool) (m : positive) (e : Z) :
  valid_binary prec emax (S754_finite s m e) = true <->
  Z.max (Z.pos (digits2_pos m) + e - 53) (-1074) = e /\ (e <= 971)%Z.
Proof.
  cbn [valid_binary]. unfold bounded, canonical_mantissa. rewrite fexp_spec.
  change (emax - prec)%Z with 971%Z.
  rewrite andb_true_iff, Z.eqb_eq, Z.leb_le. reflexivity.
Qed.

Lemma inject_Z_pos (z : Z) : (0 < z)%Z -> 0 < inject_Z z.
Proof. intros H. change 0 with (inject_Z 0). by rewrite <- Zlt_Qlt. Qed.

Lemma inject_Z_nonneg (z : Z) : (0 <= z)%Z -> 0 <= inject_Z z.
Proof. intros H. change 0 with (inject_Z 0). by rewrite <- Zle_Qle. Qed.

Lemma mul_pow2_le (a b : Z) (e : Z) :
  (a <= b)%Z -> inject_Z a * pow2 e <= inject_Z b * pow2 e.
Proof.
  intros H. apply Qmult_le_compat_r; [by rewrite <- Zle_Qle |].
  apply Qlt_le_weak, pow2_pos.
Qed.

Lemma mul_pow2_lt (a b : Z) (e : Z) :
  (a < b)%Z -> inject_Z a * pow2 e < inject_Z b * pow2 e.
Proof.
  intros H. apply Qmult_lt_compat_r; [apply pow2_pos | by rewrite <- Zlt_Qlt].
Qed.

Lemma Zpow_pow2 (k e : Z) : (0 <= k)%Z -> inject_Z (2 ^ k) * pow2 e == pow2 (k + e).
Proof. intros H. rewrite pow2_add, (pow2_Z k) by done. reflexivity. Qed.

(** A canonical non-negative number: its value, its exponent. *)
Lemma nonneg_finite_value (r : spec_float) :
  nonneg_finite r = true ->
  0 <= SF2Q r < pow2 1024 /\
  exists E : Z, has_exp (SF2Q r) E /\ RNDE (SF2Q r) E == SF2Q r /\
    exists k : Z, (0 <= k)%Z /\ SF2Q r == inject_Z k * pow2 E.
Proof.
  unfold nonneg_finite. intros H. apply andb_true_iff in H as (Hv & Hs).
  destruct r as [s | s | | s m e]; try done.
  - cbn [SF2Q]. split; [split; [lra | apply pow2_pos] |].
    exists (-1074)%Z. split; [|split].
    + split; [lia |]. split; [lra |]. split; [apply pow2_pos | by left].
    + unfold RNDE. rewrite (rne_comp _ (inject_Z 0)), rne_Z.
      * change (inject_Z 0) with 0. ring.
      * change (inject_Z 0) with 0. unfold Qdiv. ring.
    + exists 0%Z. split; [lia |]. change (inject_Z 0) with 0. ring.
  - destruct s; [done |]. apply valid_finite in Hv as (Hc & He).
    cbn [SF2Q cond_Zopp]. pose proof (digits2_pos_spec m) as (Hd1 & Hd2).
    set (d := Z.pos (digits2_pos m)) in *.
    assert (0 < d)%Z as Hd by (subst d; lia).
    pose proof (pow2_pos e) as Hpe.
    assert (0 < inject_Z (Z.pos m)) as Hm by (by apply inject_Z_pos).
    assert (inject_Z (Z.pos m) * pow2 e < pow2 (d + e)) as Hup.
    { rewrite <- Zpow_pow2 by lia. by apply mul_pow2_lt. }
    split; [split |].
    + apply Qlt_le_weak. by apply Qmult_lt_0_compat.
    + eapply Qlt_le_trans; [exact Hup |]. apply pow2_le. lia.
    + exists e. split; [|split].
      * split; [lia |]. split; [apply Qlt_le_weak; by apply Qmult_lt_0_compat |].
        split.
        -- eapply Qlt_le_trans; [exact Hup |]. apply pow2_le. lia.
        -- destruct (Z.eq_dec e (-1074)%Z) as [? | Hne]; [by left | right].
           assert (d = 53%Z) as Hd53 by lia.
           replace (e + 52)%Z with (52 + e)%Z by lia.
           rewrite <- (Zpow_pow2 52) by lia. apply mul_pow2_le.
           rewrite Hd53 in Hd1. exact Hd1.
      * unfold RNDE. rewrite (rne_comp _ (inject_Z (Z.pos m))), rne_Z; [reflexivity |].
        field. lra.
      * exists (Z.pos m). split; [lia | reflexivity].
Qed.

(** The number [pack] makes is the rounded number. *)
Lemma pack_rounds (x : Q) (E : Z) :
  has_exp x E -> rounds x (pack (rne (x / pow2 E)) E).
Proof.
  intros HE. destruct (rne_has_exp x E HE) as ((HM0 & HM1) & HM2).
  pose proof HE as (HEmin & _).
  assert (RNDE x E = inject_Z (rne (x / pow2 E)) * pow2 E) as HR by reflexivity.
  revert HR HM0 HM1 HM2. generalize (rne (x / pow2 E)). intros M HR HM0 HM1 HM2.
  assert (forall m e, (0 < Z.pos m < 2 ^ 53)%Z -> (e <= 971)%Z -> (-1074 <= e)%Z ->
            (e = (-1074)%Z \/ (2 ^ 52 <= Z.pos m)%Z) ->
            nonneg_finite (S754_finite false m e) = true) as Hvalid.
  { intros m e Hm He1 He2 Hcanon. unfold nonneg_finite.
    apply andb_true_iff. split; [|done]. apply valid_finite. split; [|done].
    pose proof (digits2_pos_spec m) as (Hd1 & Hd2).
    set (d := Z.pos (digits2_pos m)) in *.
    assert (d <= 53)%Z as Hd53.
    { destruct (Z.le_gt_cases d 53) as [? | Hgt]; [done |].
      assert (2 ^ 53 <= 2 ^ (d - 1))%Z by (apply Z.pow_le_mono_r; lia). lia. }
    destruct Hcanon as [-> | Hbig]; [lia |].
    assert (53 <= d)%Z; [|lia].
    destruct (Z.le_gt_cases 53 d) as [? | Hlt]; [done |].
    assert (2 ^ d <= 2 ^ 52)%Z by (apply Z.pow_le_mono_r; lia). lia. }
  unfold rounds. destruct M as [|m|m]; [| |lia]; cbn [pack].
  - split; [by left |]. exists E. split; [done |]. cbn [is_finite SF2Q].
    rewrite HR. change (inject_Z 0) with 0. ring.
  - destruct (Z.ltb_spec (Z.pos m) (2 ^ 53)) as [Hlt | Hge].
    + destruct (Z.leb_spec E 971) as [Hle | Hgt].
      * split; [left; apply Hvalid; lia |]. exists E. split; [done |].
        cbn [is_finite SF2Q cond_Zopp]. by rewrite HR.
      * split; [by right |]. exists E. split; [done |]. cbn [is_finite].
        rewrite HR. destruct HM2 as [-> | HM2]; [lia |].
        eapply Qle_trans; [|apply mul_pow2_le; exact HM2].
        rewrite Zpow_pow2 by lia. apply pow2_le. lia.
    + assert (Z.pos m = 2 ^ 53)%Z as Hm by lia.
      destruct (Z.leb_spec (E + 1) 971) as [Hle | Hgt].
      * split; [left; apply Hvalid; [done | lia | lia | by right] |].
        exists E. split; [done |]. cbn [is_finite SF2Q cond_Zopp].
        change (Z.pos (Z.to_pos (2 ^ 52))) with (2 ^ 52)%Z.
        rewrite HR, Hm. rewrite !Zpow_pow2 by done.
        by replace (52 + (E + 1))%Z with (53 + E)%Z by lia.
      * split; [by right |]. exists E. split; [done |]. cbn [is_finite].
        rewrite HR, Hm, Zpow_pow2 by done. apply pow2_le. lia.
Qed.

(** Rounding never decreases with the number rounded. *)
Lemma RNDE_mono (x1 x2 : Q) (E1 E2 : Z) :
  has_exp x1 E1 -> has_exp x2 E2 -> x1 <= x2 -> RNDE x1 E1 <= RNDE x2 E2.
Proof.
  intros H1 H2 Hx.
  destruct (rne_has_exp x1 E1 H1) as ((Ha0 & Ha1) & Ha2).
  destruct (rne_has_exp x2 E2 H2) as ((Hb0 & Hb1) & Hb2).
  destruct H1 as (Hm1 & H01 & Hu1 & Hl1). destruct H2 as (Hm2 & H02 & Hu2 & Hl2).
  unfold RNDE.
  assert (E1 <= E2)%Z as HE.
  { destruct Hl1 as [-> | Hl1]; [done |].
    assert (pow2 (E1 + 52) < pow2 (E2 + 53)) as Hlt by lra.
    apply pow2_lt_inv in Hlt. lia. }
  destruct (Z.eq_dec E1 E2) as [-> | Hne].
  - apply mul_pow2_le, rne_mono. pose proof (pow2_pos E2) as HP.
    pose proof (div_mul x1 (pow2 E2) HP) as Hz1.
    pose proof (div_mul x2 (pow2 E2) HP) as Hz2.
    revert Hz1 Hz2. generalize (x1 / pow2 E2) (x2 / pow2 E2) (pow2 E2) HP.
    clear -Hx. intros z1 z2 P HP Hz1 Hz2. nra.
  - destruct Hb2 as [-> | Hb2]; [lia |].
    eapply Qle_trans; [apply mul_pow2_le; exact Ha1 |].
    eapply Qle_trans; [|apply mul_pow2_le; exact Hb2].
    rewrite !Zpow_pow2 by lia. apply pow2_le. lia.
Qed.

Lemma rounds_mono (x1 x2 : Q) (r1 r2 : spec_float) :
  rounds x1 r1 -> rounds x2 r2 -> x1 <= x2 -> is_finite r2 = true ->
  nonneg_finite r1 = true /\ SF2Q r1 <= SF2Q r2.
Proof.
  intros (Hk1 & E1 & HE1 & Hv1) (Hk2 & E2 & HE2 & Hv2) Hx Hf2.
  rewrite Hf2 in Hv2. pose proof (RNDE_mono x1 x2 E1 E2 HE1 HE2 Hx) as Hmono.
  destruct Hk2 as [Hk2 | ->]; [|done].
  destruct (nonneg_finite_value r2 Hk2) as ((_ & Hlt) & _).
  destruct Hk1 as [Hk1 | ->].
  - split; [done |].
    assert (is_finite r1 = true) as Hf1.
    { unfold nonneg_finite in Hk1. apply andb_true_iff in Hk1 as (_ & Hk1).
      by destruct r1 as [| | |[]]. }
    rewrite Hf1 in Hv1. lra.
  - cbn [is_finite] in Hv1. lra.
Qed.

Lemma rounds_finite (x : Q) (r : spec_float) :
  rounds x r -> is_finite r = true -> nonneg_finite r = true.
Proof. intros ([H | ->] & _) Hf; done. Qed.

Lemma rounds_unique_value (x : Q) (r : spec_float) (E : Z) :
  rounds x r -> has_exp x E -> is_finite r = true -> SF2Q r == RNDE x E.
Proof.
  intros (_ & E' & HE' & Hv) HE Hf. rewrite Hf in Hv.
  by rewrite (has_exp_unique x E E' HE HE').
Qed.

Lemma rounds_ext (x x' : Q) (r : spec_float) : x == x' -> rounds x r -> rounds x' r.
Proof.
  intros Hx (Hk & E & (Hm & H0 & Hu & Hl) & Hv). split; [done |]. exists E. split.
  - split; [done |]. split; [lra |]. split; [lra |]. destruct Hl; [by left | right; lra].
  - unfold RNDE in *. rewrite <- (rne_comp (x / pow2 E)); [done |]. by rewrite Hx.
Qed.

End Rounds.
Section Operations.
Local Open Scope Q_scope.

Lemma rounds_zero (s : bool) : rounds 0 (S754_zero s).
Proof.
  split; [by left |]. exists (-1074)%Z. split.
  - split; [lia |]. split; [lra |]. split; [apply pow2_pos | by left].
  - cbn [is_finite SF2Q]. unfold RNDE.
    rewrite (rne_comp _ (inject_Z 0)), rne_Z.
    + change (inject_Z 0) with 0. ring.
    + change (inject_Z 0) with 0. unfold Qdiv. ring.
Qed.

(** A canonical number is its own rounding. *)
Lemma rounds_self (r : spec_float) : nonneg_finite r = true -> rounds (SF2Q r) r.
Proof.
  intros Hr. destruct (nonneg_finite_value r Hr) as (_ & E & HE & Hexact & _).
  split; [by left |]. exists E. split; [done |].
  assert (is_finite r = true) as ->.
  { unfold nonneg_finite in Hr. apply andb_true_iff in Hr as (_ & Hr).
    by destruct r as [| | |[]]. }
  by rewrite Hexact.
Qed.

Lemma nonneg_finite_cases (r : spec_float) :
  nonneg_finite r = true ->
  (exists s, r = S754_zero s) \/
  (exists m e, r = S754_finite false m e /\
     Z.max (Z.pos (digits2_pos m) + e - 53) (-1074) = e /\ (e <= 971)%Z).
Proof.
  unfold nonneg_finite. intros H. apply andb_true_iff in H as (Hv & Hs).
  destruct r as [s | s | | [] m e]; try done.
  - left. by exists s.
  - right. exists m, e. split; [done |]. by apply valid_finite in Hv.
Qed.

Lemma binary_round_aux_rounds (x : Q) (mx ex : Z) (lx : location) :
  (0 <= mx)%Z -> locates (x / pow2 ex) mx lx ->
  (ex <= fexp prec emax (Zdigits2 mx + ex))%Z ->
  rounds x (binary_round_aux prec emax false mx ex lx).
Proof.
  intros Hmx Hloc Hex.
  destruct (binary_round_aux_correct x mx ex lx Hmx Hloc Hex) as (HE & ->).
  by apply pack_rounds.
Qed.

Lemma locates_exact (x : Q) (m e : Z) :
  x == inject_Z m * pow2 e -> locates (x / pow2 e) m loc_Exact.
Proof.
  intros Hx. pose proof (pow2_pos e) as He.
  assert (x / pow2 e == inject_Z m) as Hq by (rewrite Hx; field; lra).
  unfold locates. lra.
Qed.

Lemma digits2_mul (a b : positive) :
  (Z.pos (digits2_pos a) + Z.pos (digits2_pos b) - 1 <= Z.pos (digits2_pos (a * b)))%Z.
Proof.
  pose proof (digits2_pos_spec a) as (Ha1 & Ha2).
  pose proof (digits2_pos_spec b) as (Hb1 & Hb2).
  pose proof (digits2_pos_spec (a * b)) as (Hc1 & Hc2).
  set (da := Z.pos (digits2_pos a)) in *. set (db := Z.pos (digits2_pos b)) in *.
  set (dc := Z.pos (digits2_pos (a * b))) in *.
  assert (0 < da)%Z by (subst da; lia). assert (0 < db)%Z by (subst db; lia).
  assert (2 ^ (da - 1 + (db - 1)) < 2 ^ dc)%Z as Hlt.
  { rewrite Z.pow_add_r by lia. rewrite Pos2Z.inj_mul in Hc2.
    eapply Z.le_lt_trans; [|exact Hc2]. apply Z.mul_le_mono_nonneg; try done.
    all: apply Z.pow_nonneg; lia. }
  apply Z.pow_lt_mono_r_iff in Hlt; lia.
Qed.

(** Multiplication rounds the product. *)
Lemma SFmul_rounds (a b : spec_float) :
  nonneg_finite a = true -> nonneg_finite b = true ->
  rounds (SF2Q a * SF2Q b) (SFmul prec emax a b).
Proof.
  intros Ha Hb.
  destruct (nonneg_finite_cases a Ha) as [(sa & ->) | (ma & ea & -> & Hca & Hea)];
    destruct (nonneg_finite_cases b Hb) as [(sb & ->) | (mb & eb & -> & Hcb & Heb)];
    cbn [SFmul SF2Q cond_Zopp].
  - eapply rounds_ext; [|apply rounds_zero]. ring.
  - eapply rounds_ext; [|apply rounds_zero]. ring.
  - eapply rounds_ext; [|apply rounds_zero]. ring.
  - apply binary_round_aux_rounds; [lia | |].
    + apply locates_exact. rewrite Pos2Z.inj_mul, inject_Z_mult, pow2_add. ring.
    + rewrite fexp_spec. cbn [Zdigits2]. pose proof (digits2_mul ma mb).
      assert (0 < Z.pos (digits2_pos ma))%Z by lia.
      assert (0 < Z.pos (digits2_pos mb))%Z by lia. lia.
Qed.

Lemma iter_xO (m d : positive) :
  Z.pos (Pos.iter xO m d) = (Z.pos m * 2 ^ Z.pos d)%Z /\
  Z.pos (digits2_pos (Pos.iter xO m d)) = (Z.pos (digits2_pos m) + Z.pos d)%Z.
Proof.
  induction d as [|d IH] using Pos.peano_ind.
  - cbn [Pos.iter digits2_pos]. rewrite Pos2Z.inj_succ. split; lia.
  - rewrite Pos.iter_succ. cbn [digits2_pos]. destruct IH as (IH1 & IH2).
    rewrite !Pos2Z.inj_succ, IH2. rewrite Z.pow_succ_r by lia.
    change (Z.pos (Pos.iter xO m d)~0) with (2 * Z.pos (Pos.iter xO m d))%Z.
    rewrite IH1. split; lia.
Qed.

(** Aligning a mantissa to a lower exponent keeps the value. *)
Lemma shl_align_spec (m : positive) (e e' : Z) :
  let '(mz, ez) := shl_align m e e' in
  (ez = Z.min e e') /\
  (inject_Z (Z.pos mz) * pow2 ez == inject_Z (Z.pos m) * pow2 e)%Q /\
  (Z.pos (digits2_pos mz) + ez = Z.pos (digits2_pos m) + e)%Z.
Proof.
  unfold shl_align. destruct (e' - e)%Z as [|d|d] eqn:Hd.
  - split; [lia |]. split; [reflexivity | done].
  - split; [lia |]. split; [reflexivity | done].
  - destruct (iter_xO m d) as (Hv & Hdig).
    change (PosDef.Pos.iter xO m d) with (Pos.iter xO m d).
    split; [lia |]. split; [|lia].
    rewrite Hv, inject_Z_mult, <- Qmult_assoc, Zpow_pow2 by lia.
    by replace (Z.pos d + e')%Z with e by lia.
Qed.

(** [binary_round] rounds the number with mantissa [m] and exponent [e]. *)
Lemma binary_round_rounds (m : positive) (e : Z) :
  rounds (inject_Z (Z.pos m) * pow2 e) (binary_round prec emax false m e).
Proof.
  unfold binary_round.
  pose proof (shl_align_spec m e (fexp prec emax (Z.pos (digits2_pos m) + e))) as H.
  destruct (shl_align m e (fexp prec emax (Z.pos (digits2_pos m) + e))) as [mz ez].
  destruct H as (Hez & Hv & Hdig).
  apply binary_round_aux_rounds; [lia | |].
  - apply locates_exact. by rewrite Hv.
  - cbn [Zdigits2]. rewrite Hdig. lia.
Qed.

(** Addition rounds the sum. *)
Lemma SFadd_rounds (a b : spec_float) :
  nonneg_finite a = true -> nonneg_finite b = true ->
  rounds (SF2Q a + SF2Q b) (SFadd prec emax a b).
Proof.
  intros Ha Hb.
  destruct (nonneg_finite_cases a Ha) as [(sa & ->) | (ma & ea & -> & Hca & Hea)];
    destruct (nonneg_finite_cases b Hb) as [(sb & ->) | (mb & eb & -> & Hcb & Heb)].
  - cbn [SFadd SF2Q].
    destruct sa, sb; (eapply rounds_ext; [|apply rounds_zero]); ring.
  - cbn [SFadd]. eapply rounds_ext; [|by apply rounds_self].
    cbn [SF2Q]. ring.
  - cbn [SFadd]. eapply rounds_ext; [|by apply rounds_self].
    cbn [SF2Q]. ring.
  - cbn [SFadd SF2Q cond_Zopp].
    pose proof (shl_align_spec ma ea (Z.min ea eb)) as H1.
    pose proof (shl_align_spec mb eb (Z.min ea eb)) as H2.
    destruct (shl_align ma ea (Z.min ea eb)) as [m1 e1].
    destruct (shl_align mb eb (Z.min ea eb)) as [m2 e2].
    destruct H1 as (He1 & Hv1 & _). destruct H2 as (He2 & Hv2 & _).
    cbn [fst]. change (Z.pos m1 + Z.pos m2)%Z with (Z.pos (m1 + m2)).
    cbn [binary_normalize].
    eapply rounds_ext; [|apply binary_round_rounds].
    rewrite Pos2Z.inj_add, inject_Z_plus, <- Hv1, <- Hv2.
    replace e1 with (Z.min ea eb) by lia. replace e2 with (Z.min ea eb) by lia. ring.
Qed.

(** The conversion of a [size_t] rounds it. *)
Lemma d_of_size_rounds (n : N) : rounds (inject_Z (Z.of_N n)) (d_of_size n).
Proof.
  unfold d_of_size. destruct n as [|p]; cbn [Z.of_N binary_normalize].
  - apply rounds_zero.
  - eapply rounds_ext; [|apply binary_round_rounds]. rewrite pow2_0. ring.
Qed.

End Operations.
Section Division.
Local Open Scope Q_scope.

Lemma Qfloor_unique (y : Q) (k : Z) :
  inject_Z k <= y -> y < inject_Z k + 1 -> Qfloor y = k.
Proof.
  intros H1 H2.
  pose proof (Qfloor_le y) as Hf1. pose proof (Qlt_floor y) as Hf2.
  rewrite inject_Z_plus in Hf2. change (inject_Z 1) with 1 in Hf2.
  assert (inject_Z (Qfloor y) < inject_Z (k + 1)) as Ha
      by (rewrite inject_Z_plus; change (inject_Z 1) with 1; lra).
  assert (inject_Z k < inject_Z (Qfloor y + 1)) as Hb
      by (rewrite inject_Z_plus; change (inject_Z 1) with 1; lra).
  rewrite <- Zlt_Qlt in Ha, Hb. lia.
Qed.

(** The place of a remainder: [y] is [q + r / b]. *)
Lemma new_location_locates (y : Q) (q b r : Z) :
  (0 < b)%Z -> (0 <= r < b)%Z ->
  y * inject_Z b == inject_Z q * inject_Z b + inject_Z r ->
  locates y q (new_location b r).
Proof.
  intros Hb Hr Hy.
  assert (0 < inject_Z b) as HB by (by apply inject_Z_pos).
  assert (0 <= inject_Z r) as HR0 by (apply inject_Z_nonneg; lia).
  assert (inject_Z r < inject_Z b) as HR1 by (rewrite <- Zlt_Qlt; lia).
  assert (forall c : comparison, (2 * r ?= b)%Z = c ->
            match c with
            | Lt => 2 * inject_Z r < inject_Z b
            | Eq => 2 * inject_Z r == inject_Z b
            | Gt => inject_Z b < 2 * inject_Z r
            end) as Hcmp.
  { intros c Hc. change 2 with (inject_Z 2). rewrite <- inject_Z_mult.
    destruct c.
    - apply Z.compare_eq_iff in Hc. by rewrite Hc.
    - rewrite <- Zlt_Qlt. by apply Z.compare_lt_iff.
    - rewrite <- Zlt_Qlt. by apply Z.compare_gt_iff. }
  assert (locates y q (if (r =? 0)%Z then loc_Exact else loc_Inexact (2 * r ?= b)%Z))
    as Hloc.
  { destruct (Z.eqb_spec r 0) as [-> | Hne].
    - change (inject_Z 0) with 0 in *. unfold locates.
      revert Hy HB. generalize (inject_Z b) (inject_Z q). clear. intros B Q Hy HB.
      assert (y == Q) as Hq by nra. lra.
    - assert (0 < inject_Z r) as HR by (apply inject_Z_pos; lia).
      specialize (Hcmp (2 * r ?= b)%Z eq_refl).
      unfold locates. revert Hcmp Hy HB HR HR1. generalize (2 * r ?= b)%Z.
      generalize (inject_Z b) (inject_Z q) (inject_Z r). clear.
      intros B Q R c Hcmp Hy HB HR HR1.
      split; [nra |]. split; [nra |]. destruct c; [nra | split; nra | nra]. }
  unfold new_location, new_location_even, new_location_odd.
  destruct (Z.even b) eqn:Hev; [done |].
  destruct (Z.eqb_spec r 0) as [-> | Hne]; [done |].
  assert ((2 * r + 1 ?= b)%Z = Lt /\ (2 * r ?= b)%Z = Lt \/
          (2 * r + 1 ?= b)%Z = Eq /\ (2 * r ?= b)%Z = Lt \/
          (2 * r + 1 ?= b)%Z = Gt /\ (2 * r ?= b)%Z = Gt) as Hodd.
  { destruct (Z.compare_spec (2 * r + 1) b) as [Hc | Hc | Hc].
    - right. left. split; [done |]. apply Z.compare_lt_iff. lia.
    - left. split; [done |]. apply Z.compare_lt_iff. lia.
    - right. right. split; [done |]. apply Z.compare_gt_iff.
      assert (b <> 2 * r)%Z; [|lia]. intros ->.
      rewrite Z.even_mul in Hev. done. }
  destruct Hodd as [(-> & Hc) | [(-> & Hc) | (-> & Hc)]]; by rewrite Hc in Hloc.
Qed.

(** Division rounds the quotient. *)
Lemma SFdiv_rounds (a : spec_float) (mb : positive) (eb : Z) :
  nonneg_finite a = true -> nonneg_finite (S754_finite false mb eb) = true ->
  rounds (SF2Q a / SF2Q (S754_finite false mb eb))
    (SFdiv prec emax a (S754_finite false mb eb)).
Proof.
  intros Ha Hb.
  assert (0 < SF2Q (S754_finite false mb eb)) as Hbpos.
  { cbn [SF2Q cond_Zopp]. apply Qmult_lt_0_compat; [by apply inject_Z_pos | apply pow2_pos]. }
  destruct (nonneg_finite_cases a Ha) as [(sa & ->) | (ma & ea & -> & Hca & Hea)].
  { cbn [SFdiv]. eapply rounds_ext; [|apply rounds_zero].
    revert Hbpos. generalize (SF2Q (S754_finite false mb eb)). intros B HB.
    cbn [SF2Q]. field. lra. }
  cbn [SF2Q cond_Zopp] in *.
  unfold SFdiv, SFdiv_core_binary. cbn [Zdigits2 xorb].
  pose proof (digits2_pos_spec ma) as (Hda1 & Hda2).
  pose proof (digits2_pos_spec mb) as (Hdb1 & Hdb2).
  set (da := Z.pos (digits2_pos ma)) in *. set (db := Z.pos (digits2_pos mb)) in *.
  assert (0 < da)%Z as Hda by (subst da; lia).
  assert (0 < db)%Z as Hdb by (subst db; lia).
  rewrite fexp_spec.
  set (e' := Z.min (Z.max (da + ea - (db + eb) - 53) (-1074)) (ea - eb)).
  set (s := (ea - eb - e')%Z).
  assert (0 <= s)%Z as Hs by (subst s e'; lia).
  assert (match s with
          | 0%Z => Z.pos ma
          | Z.pos _ => Z.shiftl (Z.pos ma) s
          | Z.neg _ => 0%Z
          end = (Z.pos ma * 2 ^ s)%Z) as ->.
  { destruct s as [|p|p] eqn:Hsp; [lia | | lia].
    by rewrite Z.shiftl_mul_pow2. }
  change IntDef.Z.div_eucl with Z.div_eucl.
  pose proof (Z_div_mod (Z.pos ma * 2 ^ s) (Z.pos mb) ltac:(lia)) as Hdiv.
  destruct (Z.div_eucl (Z.pos ma * 2 ^ s) (Z.pos mb)) as [q r].
  destruct Hdiv as (Hqr & Hr).
  assert (0 < 2 ^ s)%Z as Hps by (apply Z.pow_pos_nonneg; lia).
  assert (0 <= q)%Z as Hq by nia.
  apply binary_round_aux_rounds; [done | |].
  - apply new_location_locates; [lia | done |].
    rewrite <- inject_Z_mult, <- inject_Z_plus.
    replace (q * Z.pos mb + r)%Z with (Z.pos ma * 2 ^ s)%Z by lia.
    rewrite inject_Z_mult, <- (pow2_Z s) by done.
    assert (pow2 ea == pow2 s * pow2 e' * pow2 eb) as ->.
    { rewrite <- !pow2_add. by replace (s + e' + eb)%Z with ea by (subst s; lia). }
    pose proof (pow2_pos e'). pose proof (pow2_pos eb). pose proof (pow2_pos s).
    assert (0 < inject_Z (Z.pos mb)) by (by apply inject_Z_pos).
    field. split; [|split]; lra.
  - rewrite fexp_spec.
    assert (q + 1 <= 2 ^ Zdigits2 q)%Z as Hdq.
    { destruct (Z.eq_dec q 0%Z) as [-> | Hne]; [done |].
      destruct (Zdigits2_spec q ltac:(lia)) as ((_ & ?) & _). lia. }
    assert (0 <= Zdigits2 q)%Z as Hdq0.
    { destruct q; cbn [Zdigits2]; lia. }
    assert (da + s <= Zdigits2 q + db)%Z as Hdig.
    { assert (2 ^ (da - 1 + s) < 2 ^ (Zdigits2 q + db))%Z as Hlt.
      { rewrite !Z.pow_add_r by lia.
        assert (2 ^ (da - 1) * 2 ^ s <= Z.pos ma * 2 ^ s)%Z
          by (apply Z.mul_le_mono_nonneg_r; lia).
        assert (Z.pos ma * 2 ^ s < (q + 1) * Z.pos mb)%Z by lia.
        assert ((q + 1) * Z.pos mb < 2 ^ Zdigits2 q * 2 ^ db)%Z.
        { apply Z.le_lt_trans with (2 ^ Zdigits2 q * Z.pos mb)%Z.
          - apply Z.mul_le_mono_nonneg_r; lia.
          - apply Z.mul_lt_mono_pos_l; [|done]. apply Z.pow_pos_nonneg; lia. }
        lia. }
      apply Z.pow_lt_mono_r_iff in Hlt; lia. }
    subst e' s. lia.
Qed.

(** ** The conversion to [size_t] *)

Lemma shiftl_floor (m : positive) (e : Z) :
  Z.shiftl (Z.pos m) e = Qfloor (inject_Z (Z.pos m) * pow2 e).
Proof.
  symmetry. destruct (Z.le_gt_cases 0 e) as [He | He].
  - rewrite Z.shiftl_mul_pow2 by done.
    rewrite (Qfloor_comp _ (inject_Z (Z.pos m * 2 ^ e))), Qfloor_Z; [done |].
    by rewrite inject_Z_mult, pow2_Z.
  - rewrite Z.shiftl_div_pow2 by lia.
    assert (0 < 2 ^ (- e))%Z as Hp by (apply Z.pow_pos_nonneg; lia).
    pose proof (Z.div_mod (Z.pos m) (2 ^ (- e)) ltac:(lia)) as Hdm.
    pose proof (Z.mod_pos_bound (Z.pos m) (2 ^ (- e)) Hp) as Hmod.
    assert (inject_Z (Z.pos m) * pow2 e * inject_Z (2 ^ (- e)) == inject_Z (Z.pos m)) as Hy.
    { rewrite <- pow2_Z by lia. rewrite <- Qmult_assoc, <- pow2_add.
      replace (e + - e)%Z with 0%Z by lia. rewrite pow2_0. ring. }
    assert (inject_Z (Z.pos m `div` 2 ^ (- e)) <= inject_Z (Z.pos m) * pow2 e /\
            inject_Z (Z.pos m) * pow2 e < inject_Z (Z.pos m `div` 2 ^ (- e)) + 1)
      as (H1 & H2); [|by apply Qfloor_unique].
    revert Hy. generalize (inject_Z (Z.pos m) * pow2 e). intros y Hy.
    assert (inject_Z (Z.pos m) ==
            inject_Z (2 ^ (- e)) * inject_Z (Z.pos m `div` 2 ^ (- e)) +
            inject_Z (Z.pos m mod 2 ^ (- e))) as Hm.
    { rewrite <- inject_Z_mult, <- inject_Z_plus, <- Hdm. reflexivity. }
    rewrite Hm in Hy. clear Hm.
    assert (0 < inject_Z (2 ^ (- e))) as HP by (by apply inject_Z_pos).
    assert (0 <= inject_Z (Z.pos m mod 2 ^ (- e))) as HR0 by (apply inject_Z_nonneg; lia).
    assert (inject_Z (Z.pos m mod 2 ^ (- e)) < inject_Z (2 ^ (- e))) as HR1
        by (rewrite <- Zlt_Qlt; lia).
    revert Hy HP HR0 HR1.
    generalize (inject_Z (2 ^ (- e))) (inject_Z (Z.pos m mod 2 ^ (- e)))
      (inject_Z (Z.pos m `div` 2 ^ (- e))).
    clear. intros P R K Hy HP HR0 HR1. split; nra.
Qed.

(** A canonical non-negative number below [2^64] converts to its integer
    part. *)
Lemma d_to_size_value (r : spec_float) :
  nonneg_finite r = true -> SF2Q r < inject_Z (Z.of_N size_modulus) ->
  d_to_size r = Val (Z.to_N (Qfloor (SF2Q r))).
Proof.
  intros Hr Hlt.
  destruct (nonneg_finite_cases r Hr) as [(s & ->) | (m & e & -> & _)]; [done |].
  cbn [d_to_size SF2Q cond_Zopp] in *. rewrite shiftl_floor.
  pose proof (Qfloor_le (inject_Z (Z.pos m) * pow2 e)) as Hf.
  destruct (Z.ltb_spec (Qfloor (inject_Z (Z.pos m) * pow2 e)) (Z.of_N size_modulus))
    as [? | Hge]; [done |].
  rewrite Zle_Qle in Hge. lra.
Qed.

Lemma d_to_size_mono (r1 r2 : spec_float) :
  nonneg_finite r1 = true -> nonneg_finite r2 = true ->
  SF2Q r1 <= SF2Q r2 -> SF2Q r2 < inject_Z (Z.of_N size_modulus) ->
  exists b1 b2 : N,
    d_to_size r1 = Val b1 /\ d_to_size r2 = Val b2 /\ (b1 <= b2)%N.
Proof.
  intros H1 H2 Hle Hlt.
  exists (Z.to_N (Qfloor (SF2Q r1))), (Z.to_N (Qfloor (SF2Q r2))).
  split; [apply d_to_size_value; [done | lra] |].
  split; [by apply d_to_size_value |].
  pose proof (Qfloor_resp_le _ _ Hle). lia.
Qed.

End Division.
Section ErrorBound.
Local Open Scope Q_scope.

(** Rounding adds at most half a unit in the last place. *)
Lemma RNDE_upper (x : Q) (E : Z) :
  has_exp x E -> RNDE x E <= x + x * pow2 (-53) + pow2 (-1075).
Proof.
  intros (Hm & H0 & Hu & Hl). unfold RNDE.
  pose proof (rne_bounds (x / pow2 E)) as (_ & Hr).
  pose proof (pow2_pos E) as HP. pose proof (div_mul x (pow2 E) HP) as Hz.
  assert (pow2 E == 2 * pow2 (E - 1)) as Hhalf.
  { rewrite <- pow2_succ. by replace (E - 1 + 1)%Z with E by lia. }
  assert (pow2 (E - 1) <= x * pow2 (-53) + pow2 (-1075)) as Hulp.
  { pose proof (pow2_pos (-53)). pose proof (pow2_pos (-1075)).
    destruct Hl as [-> | Hl].
    - change (-1074 - 1)%Z with (-1075)%Z. nra.
    - assert (pow2 (E - 1) == pow2 (E + 52) * pow2 (-53)) as ->.
      { rewrite <- pow2_add. by replace (E + 52 + -53)%Z with (E - 1)%Z by lia. }
      nra. }
  revert Hr Hz Hhalf Hulp HP.
  generalize (inject_Z (rne (x / pow2 E))) (x / pow2 E) (pow2 E) (pow2 (E - 1))
    (pow2 (-53)) (pow2 (-1075)).
  intros M z P P' eps eta Hr Hz Hhalf Hulp HP. nra.
Qed.

(** A positive canonical number is at least [2^-1074]. *)
Lemma positive_finite_lower (m : positive) (e : Z) :
  nonneg_finite (S754_finite false m e) = true ->
  pow2 (-1074) <= SF2Q (S754_finite false m e).
Proof.
  intros H. destruct (nonneg_finite_cases _ H) as [(s & Hs) | (m' & e' & Heq & Hc & He)];
    [done |]. injection Heq as <- <-. cbn [SF2Q cond_Zopp].
  assert (1 <= inject_Z (Z.pos m)) as Hm.
  { change 1 with (inject_Z 1). rewrite <- Zle_Qle. lia. }
  assert (pow2 (-1074) <= pow2 e) as Hp by (apply pow2_le; lia).
  pose proof (pow2_pos (-1074)). nra.
Qed.

End ErrorBound.

(** ** The partitioner *)

Lemma alignup_mono (a b m : N) : a <= b -> alignup a m <= alignup b m.
Proof.
  intros Hab. unfold alignup.
  destruct (N.eq_dec m 0) as [-> | Hm].
  - rewrite !N.mod_0_r.
    destruct (N.eqb_spec a 0), (N.eqb_spec b 0); lia.
  - pose proof (N.div_mod a m Hm) as Ha.
    pose proof (N.div_mod b m Hm) as Hb.
    pose proof (N.mod_lt a m Hm) as Hra.
    pose proof (N.mod_lt b m Hm) as Hrb.
    pose proof (N.Div0.div_le_mono a b m Hab) as Hq.
    destruct (N.eqb_spec (a mod m) 0) as [Ea | Ea],
             (N.eqb_spec (b mod m) 0) as [Eb | Eb].
    + done.
    + generalize dependent (b mod m). generalize dependent (m * (b / m)). lia.
    + assert (a / m < b / m) as Hlt.
      { destruct (N.lt_ge_cases (a / m) (b / m)) as [? | Hge]; [done |].
        pose proof (N.mul_le_mono_l _ _ m Hge) as Hx. revert Hx Ha Hb Hab Ea Eb.
        generalize (m * (a / m)) (m * (b / m)) (a mod m) (b mod m). lia. }
      assert (m * (a / m) + m <= m * (b / m)) as Hstep.
      { replace (m * (a / m) + m) with (m * (a / m + 1))
          by (by rewrite N.mul_add_distr_l, N.mul_1_r).
        apply N.mul_le_mono_l. revert Hlt. generalize (a / m) (b / m). lia. }
      revert Hstep Ha Hb Ea Eb.
      generalize (m * (a / m)) (m * (b / m)) (a mod m) (b mod m). lia.
    + pose proof (N.mul_le_mono_l _ _ m Hq) as Hmq.
      revert Hmq Ha Hb Hra Hrb.
      generalize (m * (a / m)) (m * (b / m)) (a mod m) (b mod m). lia.
Qed.

Lemma alignup_ge (n m : N) : m <> 0 -> n <= alignup n m.
Proof.
  intros Hm. unfold alignup.
  pose proof (N.mod_lt n m Hm). pose proof (N.Div0.mod_le n m).
  destruct (N.eqb_spec (n mod m) 0); lia.
Qed.

(** A loop that stores [f d] at index [d + 1] for [d] from [a] to
    [a + m - 1]. *)
Lemma fold_store_lookup (f : nat -> N) (m : nat) :
  forall (a : nat) (l : list N) (i : nat),
    (a + m < length l)%nat ->
    fold_left (fun part d => <[(d + 1)%nat := f d]> part) (seq a m) l !! i =
    if decide (a < i <= a + m)%nat then Some (f (i - 1)%nat) else l !! i.
Proof.
  induction m as [|m IH]; intros a l i Hlen.
  - simpl. case_decide; [lia | done].
  - cbn [seq fold_left]. rewrite IH by (rewrite length_insert; lia).
    destruct (decide (i = a + 1)%nat) as [-> | Hne].
    + rewrite decide_False by lia. rewrite decide_True by lia.
      rewrite list_lookup_insert_eq by lia. do 2 f_equal. lia.
    + rewrite list_lookup_insert_ne by lia.
      repeat case_decide; try lia; done.
Qed.

Lemma fold_store_length (f : nat -> N) (ds : list nat) :
  forall l : list N,
    length (fold_left (fun part d => <[(d + 1)%nat := f d]> part) ds l) = length l.
Proof.
  induction ds as [|d ds IH]; intros l; [done |].
  cbn [fold_left]. by rewrite IH, length_insert.
Qed.

Lemma sorted_intro (l : list N) :
  (forall i a b, l !! i = Some a -> l !! S i = Some b -> a <= b) ->
  sorted l = true.
Proof.
  induction l as [|x [|y l] IH]; intros H; try done.
  cbn [sorted]. apply andb_true_iff. split.
  - apply N.leb_le. by apply (H 0%nat).
  - apply IH. intros i a b Ha Hb. by apply (H (S i)).
Qed.

(** ** The quotient the partitioner converts *)

Section Quotient.
Local Open Scope Q_scope.

Lemma nonneg_finite_is_finite (r : spec_float) :
  nonneg_finite r = true -> is_finite r = true.
Proof.
  unfold nonneg_finite. intros H. apply andb_true_iff in H as (_ & H).
  by destruct r as [| | |[]].
Qed.

(** The [double] of a length is a canonical number, and no larger than
    the [double] of a larger length. *)
Lemma d_of_size_bounded (n : N) :
  (n <= max_partitioned)%N ->
  nonneg_finite (d_of_size n) = true /\
  0 <= SF2Q (d_of_size n) <= inject_Z (Z.of_N max_partitioned).
Proof.
  intros Hn.
  destruct (rounds_mono (inject_Z (Z.of_N n)) (inject_Z (Z.of_N max_partitioned))
              (d_of_size n) (d_of_size max_partitioned)) as (Hfin & Hle).
  - apply d_of_size_rounds.
  - apply d_of_size_rounds.
  - rewrite <- Zle_Qle. lia.
  - reflexivity.
  - split; [done |]. split; [by apply nonneg_finite_value |].
    eapply Qle_trans; [exact Hle |]. by vm_compute.
Qed.

(** [n * c / t] converted to [size_t], for running sums [c1 <= c2 <= t]
    of weights: both conversions are defined, and the one of the smaller
    sum is not the larger. *)
Lemma boundary_defined (n : N) (c1 c2 t : spec_float) :
  (n <= max_partitioned)%N ->
  nonneg_finite c1 = true -> nonneg_finite c2 = true -> nonneg_finite t = true ->
  is_zero t = false ->
  is_finite (d_mul (d_of_size n) t) = true ->
  SF2Q c1 <= SF2Q c2 -> SF2Q c2 <= SF2Q t ->
  exists b1 b2 : N,
    d_to_size (d_div (d_mul (d_of_size n) c1) t) = Val b1 /\
    d_to_size (d_div (d_mul (d_of_size n) c2) t) = Val b2 /\
    (b1 <= b2)%N.
Proof.
  intros Hn Hc1 Hc2 Ht Hnz Hfin H12 H2t.
  destruct (d_of_size_bounded n Hn) as (HN & HN0 & HNB).
  set (Nd := d_of_size n) in *.
  destruct (nonneg_finite_cases t Ht) as [(s & ->) | (mt & et & -> & _)]; [done |].
  set (t := S754_finite false mt et) in *.
  pose proof (positive_finite_lower mt et Ht) as Htlow. fold t in Htlow.
  pose proof (nonneg_finite_value c1 Hc1) as ((Hc10 & _) & _).
  pose proof (SFmul_rounds Nd t HN Ht) as Hyt.
  pose proof (SFmul_rounds Nd c1 HN Hc1) as Hy1.
  pose proof (SFmul_rounds Nd c2 HN Hc2) as Hy2.
  fold (d_mul Nd t) in Hyt. fold (d_mul Nd c1) in Hy1. fold (d_mul Nd c2) in Hy2.
  destruct (rounds_mono _ _ _ _ Hy2 Hyt) as (Hy2f & Hy2t); [nra | done |].
  destruct (rounds_mono _ _ _ _ Hy1 Hy2) as (Hy1f & Hy12);
    [nra | by apply nonneg_finite_is_finite |].
  assert (SF2Q (d_mul Nd t) <=
          SF2Q Nd * SF2Q t + SF2Q Nd * SF2Q t * pow2 (-53) + pow2 (-1075)) as Hyt_up.
  { destruct Hyt as (_ & E & HE & Hv). rewrite Hfin in Hv. rewrite Hv.
    by apply RNDE_upper. }
  pose proof (nonneg_finite_value _ Hy1f) as ((Hy10 & _) & _).
  pose proof (SFdiv_rounds _ mt et Hy1f Ht) as Hx1.
  pose proof (SFdiv_rounds _ mt et Hy2f Ht) as Hx2.
  fold t in Hx1, Hx2. fold (d_div (d_mul Nd c1) t) in Hx1.
  fold (d_div (d_mul Nd c2) t) in Hx2.
  set (top := S754_finite false 9007199254740991 11).
  assert (nonneg_finite top = true) as Htop by reflexivity.
  assert (SF2Q top == 18446744073709549568) as Htopv by (by vm_compute).
  assert (0 < SF2Q t) as Htpos by (pose proof (pow2_pos (-1074)); lra).
  assert (SF2Q (d_mul Nd c2) / SF2Q t <= SF2Q top) as Hq2.
  { apply Qle_shift_div_r; [done |]. rewrite Htopv.
    assert (pow2 (-53) * 9007199254740992 == 1) as Heps by (by vm_compute).
    assert (pow2 (-1075) * 2 == pow2 (-1074)) as Heta by (by vm_compute).
    assert (inject_Z (Z.of_N max_partitioned) == 18446744073709543424) as HB
        by (by vm_compute).
    revert Hy2t Hyt_up HN0 HNB Htlow Htpos Heps Heta HB.
    generalize (SF2Q (d_mul Nd c2)) (SF2Q (d_mul Nd t)) (SF2Q Nd) (SF2Q t)
      (pow2 (-53)) (pow2 (-1075)) (pow2 (-1074)) (inject_Z (Z.of_N max_partitioned)).
    clear. intros y2 yt N T eps eta low B Hy2t Hyt_up HN0 HNB Htlow Htpos Heps Heta HB.
    assert (N * T * eps <= 2048 * T) as H1.
    { assert (N * eps <= 2048) by nra. nra. }
    nra. }
  destruct (rounds_mono _ _ _ _ Hx2 (rounds_self top Htop) Hq2 eq_refl) as (Hx2f & Hx2top).
  assert (SF2Q (d_mul Nd c1) / SF2Q t <= SF2Q (d_mul Nd c2) / SF2Q t) as Hq12.
  { apply Qmult_le_compat_r; [done |]. apply Qlt_le_weak, Qinv_lt_0_compat, Htpos. }
  destruct (rounds_mono _ _ _ _ Hx1 Hx2 Hq12 (nonneg_finite_is_finite _ Hx2f))
    as (Hx1f & Hx12).
  apply d_to_size_mono; try done.
  eapply Qle_lt_trans; [exact Hx2top |]. rewrite Htopv. by vm_compute.
Qed.

End Quotient.

Section PartitionerProofs.

Context (alignment : N) (device_vector_perf : Context -> Device -> spec_float).

Lemma back_snoc (l : list spec_float) (x : spec_float) : back (l ++ [x]) = x.
Proof. unfold back. apply last_last. Qed.

Lemma back_lookup (l : list spec_float) (x : spec_float) :
  l !! (length l - 1)%nat = Some x -> back l = x.
Proof.
  intros Hx. destruct l as [|y l] using rev_ind; [done |].
  rewrite back_snoc. rewrite length_app in Hx. simpl in Hx.
  rewrite lookup_app_r in Hx by lia.
  replace (length l + 1 - 1 - length l)%nat with 0%nat in Hx by lia.
  simpl in Hx. by simplify_eq.
Qed.

(** One step of the running sum: it stays a number that is not
    negative, or positive infinity; when it is finite, so was the sum
    before, which was not larger. *)
Lemma d_add_step (a w : spec_float) :
  nonneg_finite a = true \/ a = S754_infinity false ->
  nonneg_finite w = true ->
  (nonneg_finite (d_add a w) = true \/ d_add a w = S754_infinity false) /\
  (nonneg_finite (d_add a w) = true ->
   nonneg_finite a = true /\ (SF2Q a <= SF2Q (d_add a w))%Q).
Proof.
  intros [Ha | ->] Hw.
  - pose proof (SFadd_rounds a w Ha Hw) as Hr. fold (d_add a w) in Hr.
    split; [by destruct Hr |]. intros Hfin. split; [done |].
    pose proof (nonneg_finite_value w Hw) as ((Hw0 & _) & _).
    apply (rounds_mono (SF2Q a) (SF2Q a + SF2Q w)%Q); try done.
    + by apply rounds_self.
    + lra.
    + by apply nonneg_finite_is_finite.
  - destruct (nonneg_finite_cases w Hw) as [(s & ->) | (m & e & -> & _)];
      (split; [by right | done]).
Qed.

(** The running sums: one more than there are queues, starting at zero;
    when the last is finite, all are numbers that are not negative and
    none is below the one before. *)
Lemma cumsum_chain (queue : list CommandQueue) :
  (forall q, q ∈ queue ->
     nonneg_finite (device_vector_perf (queue_context q) (queue_device q)) = true) ->
  let cumsum := fold_left (push_perf device_vector_perf) queue [d_zero] in
  length cumsum = S (length queue) /\
  cumsum !! 0%nat = Some d_zero /\
  (nonneg_finite (back cumsum) = true \/ back cumsum = S754_infinity false) /\
  (nonneg_finite (back cumsum) = true ->
   (forall i c, cumsum !! i = Some c ->
      nonneg_finite c = true /\ (SF2Q c <= SF2Q (back cumsum))%Q) /\
   (forall i a b, cumsum !! i = Some a -> cumsum !! S i = Some b ->
      (SF2Q a <= SF2Q b)%Q)).
Proof.
  induction queue as [|q queue IH] using rev_ind; intros Hperf cumsum.
  - subst cumsum. cbn. split; [done |]. split; [done |]. split; [by left |].
    intros _. split.
    + intros [|i] c Hc; [|done]. cbn in Hc. simplify_eq. split; [done | apply Qle_refl].
    + by intros [|i] a b.
  - subst cumsum. rewrite fold_left_app. cbn [fold_left].
    destruct IH as (Hlen & H0 & Hext & Hfin).
    { intros q' Hq'. apply Hperf. apply elem_of_app. by left. }
    set (cumsum := fold_left (push_perf device_vector_perf) queue [d_zero]) in *.
    set (w := device_vector_perf (queue_context q) (queue_device q)).
    assert (nonneg_finite w = true) as Hw.
    { apply Hperf. apply elem_of_app. right. by apply list_elem_of_singleton. }
    destruct (d_add_step (back cumsum) w Hext Hw) as (Hnew & Hstep).
    unfold push_perf. fold w. rewrite back_snoc.
    split; [rewrite !length_app; simpl; lia |].
    split; [by rewrite lookup_app_l by lia |].
    split; [done |].
    intros Hlast. destruct (Hstep Hlast) as (Hprev & Hle).
    destruct (Hfin Hprev) as (Hall & Hchain).
    assert (cumsum !! (length cumsum - 1)%nat = Some (back cumsum)) as Hback.
    { destruct (lookup_lt_is_Some_2 cumsum (length cumsum - 1)) as [x Hx]; [lia |].
      by rewrite (back_lookup cumsum x Hx). }
    split.
    + intros i c Hc. destruct (decide (i < length cumsum)%nat) as [Hi | Hi].
      * rewrite lookup_app_l in Hc by done.
        destruct (Hall i c Hc) as (? & ?). split; [done | lra].
      * rewrite lookup_app_r in Hc by lia.
        destruct (i - length cumsum)%nat; [|done]. cbn in Hc. simplify_eq.
        split; [done | lra].
    + intros i a b Ha Hb. destruct (decide (S i < length cumsum)%nat) as [Hi | Hi].
      * rewrite lookup_app_l in Ha by lia. rewrite lookup_app_l in Hb by lia.
        by apply (Hchain i).
      * assert (S i = length cumsum) as Hi'.
        { apply lookup_lt_Some in Hb. rewrite length_app in Hb. simpl in Hb. lia. }
        rewrite lookup_app_l in Ha by lia.
        rewrite lookup_app_r in Hb by lia.
        replace (S i - length cumsum)%nat with 0%nat in Hb by lia.
        cbn in Hb. simplify_eq.
        replace i with (length cumsum - 1)%nat in Ha by lia.
        rewrite Hback in Ha. by simplify_eq.
Qed.

Lemma chain_le (l : list spec_float) (i j : nat) (a b : spec_float) :
  (forall i a b, l !! i = Some a -> l !! S i = Some b -> (SF2Q a <= SF2Q b)%Q) ->
  (i <= j)%nat -> l !! i = Some a -> l !! j = Some b -> (SF2Q a <= SF2Q b)%Q.
Proof.
  intros Hc Hij Ha. revert b. induction Hij as [|j Hij IH]; intros b Hb.
  - simplify_eq. lra.
  - destruct (lookup_lt_is_Some_2 l j) as [c Hc'];
      [apply lookup_lt_Some in Hb; lia |].
    eapply Qle_trans; [by apply IH | by eapply Hc].
Qed.

(** The loop over the devices, when every conversion is defined. *)
Lemma boundaries_run (n : N) (cumsum : list spec_float) (f : nat -> N) (ds : list nat) :
  forall part : list N,
    (forall d, d ∈ ds ->
       exists c b, cumsum !! (d + 1)%nat = Some c /\
         d_to_size (d_div (d_mul (d_of_size n) c) (back cumsum)) = Val b /\
         f d = N.min n (alignup b alignment)) ->
    boundaries alignment n cumsum ds part =
    Val (fold_left (fun part d => <[(d + 1)%nat := f d]> part) ds part).
Proof.
  induction ds as [|d ds IH]; intros part Hds; [done |].
  cbn [boundaries fold_left].
  destruct (Hds d) as (c & b & Hc & Hb & Hf); [by left |].
  unfold set_boundary, at_. rewrite Hc. cbn [bind]. rewrite Hb. cbn [bind].
  rewrite <- Hf. apply IH. intros d' Hd'. apply Hds. by right.
Qed.

(** C1, as amended: for at least one queue and a length [n] that is a
    [size_t], [partition_by_vector_perf] returns a table with one entry
    more than there are queues that starts at 0, ends at [n], has no
    entry above [n] and never decreases, provided that, when there is
    more than one queue, [n] is at most [2^64 - 2^13], the weights are
    finite and not negative, zero included, their sum is not zero, and
    [n] times their sum is finite. *)
Theorem partition_by_vector_perf_table (n : N) (queue : list CommandQueue) :
  (1 <= length queue)%nat ->
  n < size_modulus ->
  ((1 < length queue)%nat ->
   n <= max_partitioned /\ weights_fit device_vector_perf n queue) ->
  exists part : list N,
    partition_by_vector_perf alignment device_vector_perf n queue = Val part /\
    length part = (length queue + 1)%nat /\
    part !! 0%nat = Some 0 /\
    part !! length queue = Some n /\
    Forall (fun p => p <= n) part /\
    sorted part = true /\
    (forall (i j : nat) (a b : N),
       (i <= j)%nat -> part !! i = Some a -> part !! j = Some b -> a <= b).
Proof.
  intros Hk Hsize Hfit. unfold partition_by_vector_perf.
  set (k := length queue) in *.
  set (cumsum := fold_left (push_perf device_vector_perf) queue [d_zero]).
  assert (exists f : nat -> N,
            (if (1 <? k)%nat
             then boundaries alignment n cumsum (seq 0 k) (replicate (k + 1) 0)
             else Val (replicate (k + 1) 0)) =
            Val (if (1 <? k)%nat
                 then fold_left (fun part d => <[(d + 1)%nat := f d]> part) (seq 0 k)
                        (replicate (k + 1) 0)
                 else replicate (k + 1) 0) /\
            (forall d, f d <= n) /\
            (forall d1 d2, (1 < k)%nat -> (d1 <= d2 < k)%nat -> f d1 <= f d2))
    as (f & -> & Hfn & Hfmono).
  { destruct (Nat.ltb_spec 1 k) as [Hk1 | Hk1];
      [|exists (fun _ => 0); split; [done |]; split; [intros; lia | intros; lia]].
    destruct (Hfit Hk1) as (Hn & Hperf & Hnz & Hfin). fold cumsum in Hnz, Hfin.
    destruct (cumsum_chain queue Hperf) as (Hlen & H0 & Hext & Hall).
    fold cumsum in Hlen, H0, Hext, Hall. fold k in Hlen.
    assert (nonneg_finite (back cumsum) = true) as Ht.
    { destruct Hext as [? | Hinf]; [done |]. rewrite Hinf in Hfin.
      destruct (d_of_size_bounded n Hn) as (HN & _).
      destruct (nonneg_finite_cases _ HN) as [(s & Hs) | (m & e & Hs & _)];
        rewrite Hs in Hfin; done. }
    destruct (Hall Ht) as (Hfinite & Hchain).
    set (g := fun d : nat =>
      d_to_size (d_div (d_mul (d_of_size n) (default d_zero (cumsum !! (d + 1)%nat)))
                   (back cumsum))).
    set (f := fun d : nat =>
      match g d with Val b => N.min n (alignup b alignment) | _ => 0 end).
    assert (forall d1 d2, (d1 <= d2 < k)%nat ->
              exists c1 c2 b1 b2,
                cumsum !! (d1 + 1)%nat = Some c1 /\ cumsum !! (d2 + 1)%nat = Some c2 /\
                g d1 = Val b1 /\ g d2 = Val b2 /\ b1 <= b2) as Hg.
    { intros d1 d2 Hd.
      destruct (lookup_lt_is_Some_2 cumsum (d1 + 1)) as [c1 Hc1]; [lia |].
      destruct (lookup_lt_is_Some_2 cumsum (d2 + 1)) as [c2 Hc2]; [lia |].
      destruct (Hfinite _ _ Hc1) as (Hc1f & _).
      destruct (Hfinite _ _ Hc2) as (Hc2f & Hc2t).
      destruct (boundary_defined n c1 c2 (back cumsum) Hn Hc1f Hc2f Ht Hnz Hfin)
        as (b1 & b2 & Hb1 & Hb2 & Hb); [|done |].
      { by apply (chain_le cumsum (d1 + 1) (d2 + 1)); [| lia | |]. }
      exists c1, c2, b1, b2. subst g. cbn beta. rewrite Hc1, Hc2. done. }
    exists f. split; [|split].
    - f_equal. apply boundaries_run. intros d Hd.
      apply list_elem_of_In, in_seq in Hd.
      destruct (Hg d d ltac:(lia)) as (c & _ & b & _ & Hc & _ & Hb & _).
      exists c, b. split; [done |]. subst f g. cbn beta in *.
      rewrite Hc in Hb. cbn [default] in Hb. rewrite Hc. cbn [default].
      by rewrite Hb.
    - intros d. subst f. cbn beta. destruct (g d); lia.
    - intros d1 d2 _ Hd.
      destruct (Hg d1 d2 Hd) as (c1 & c2 & b1 & b2 & _ & _ & Hb1 & Hb2 & Hb).
      subst f. cbn beta. rewrite Hb1, Hb2.
      apply N.min_le_compat_l, alignup_mono, Hb. }
  cbn [bind].
  set (P := if (1 <? k)%nat
            then fold_left (fun part d => <[(d + 1)%nat := f d]> part) (seq 0 k)
                   (replicate (k + 1) 0)
            else replicate (k + 1) 0).
  eexists. split; [reflexivity |].
  assert (length P = (k + 1)%nat) as HlenP.
  { subst P. destruct (1 <? k)%nat.
    - rewrite (fold_store_length f). apply length_replicate.
    - apply length_replicate. }
  assert (forall i, (i <= k)%nat ->
            P !! i = Some (if (1 <? k)%nat && (0 <? i)%nat
                           then f (i - 1)%nat else 0)) as HP.
  { intros i Hi. subst P. destruct (1 <? k)%nat.
    - rewrite (fold_store_lookup f) by (rewrite length_replicate; lia).
      destruct (Nat.ltb_spec 0 i).
      + by rewrite decide_True by lia.
      + rewrite decide_False by lia. apply lookup_replicate_2. lia.
    - apply lookup_replicate_2. lia. }
  rewrite HlenP. replace (k + 1 - 1)%nat with k by lia.
  assert (forall i x, <[k := n]> P !! i = Some x ->
            (i <= k)%nat /\
            x = if decide (i = k) then n
                else if (1 <? k)%nat && (0 <? i)%nat then f (i - 1)%nat else 0)
    as Hfinal.
  { intros i x Hx. assert (i <= k)%nat as Hi.
    { apply lookup_lt_Some in Hx. rewrite length_insert in Hx. lia. }
    split; [done |]. case_decide as Hik.
    - subst i. rewrite list_lookup_insert_eq in Hx by lia. by simplify_eq.
    - rewrite list_lookup_insert_ne in Hx by done. rewrite HP in Hx by done.
      by simplify_eq. }
  assert (forall (i j : nat) (a b : N),
            (i <= j)%nat -> <[k := n]> P !! i = Some a ->
            <[k := n]> P !! j = Some b -> a <= b) as Hmono.
  { intros i j a b Hij Ha Hb.
    apply Hfinal in Ha as [Hi ->]. apply Hfinal in Hb as [Hj ->].
    repeat case_decide; try lia.
    - destruct ((1 <? k)%nat && (0 <? i)%nat); [apply Hfn | lia].
    - destruct (Nat.ltb_spec 1 k), (Nat.ltb_spec 0 i), (Nat.ltb_spec 0 j);
        cbn [andb]; try lia.
      apply Hfmono; lia. }
  split; [by rewrite length_insert |].
  split.
  { rewrite list_lookup_insert_ne by lia. rewrite HP by lia.
    by rewrite andb_false_r. }
  split; [apply list_lookup_insert_eq; lia |].
  split.
  { apply Forall_lookup_2. intros i x Hx. apply Hfinal in Hx as [Hi ->].
    case_decide; [lia |].
    destruct ((1 <? k)%nat && (0 <? i)%nat); [apply Hfn | lia]. }
  split; [|exact Hmono].
  apply sorted_intro. intros i a b. apply Hmono. lia.
Qed.

End PartitionerProofs.

(** ** The kernel cache *)

#[global] Instance is_compiled_dec (w : world) (T : ctype) (E : expr_type)
    (c : cl_context) : Decision (is_compiled w T E c).
Proof. unfold is_compiled. apply _. Defined.

Lemma statics_set_cache_eq (w : world) (T : ctype) (E : expr_type) (x : exdata) :
  statics (set_cache w T E x) T E = x.
Proof. simpl. by rewrite decide_True. Qed.

Lemma statics_set_cache_ne (w : world) (T T' : ctype) (E E' : expr_type) (x : exdata) :
  ~ (T' = T /\ E' = E) -> statics (set_cache w T E x) T' E' = statics w T' E'.
Proof. intros H. simpl. by rewrite decide_False. Qed.

Lemma builds_app (c : cl_context) (l1 l2 : list call) :
  builds c (l1 ++ l2) = (builds c l1 + builds c l2)%nat.
Proof. unfold builds. by rewrite List.filter_app, length_app. Qed.

Lemma forallb_app_true {A : Type} (f : A -> bool) (l1 l2 : list A) :
  forallb f l1 = true -> forallb f l2 = true -> forallb f (l1 ++ l2) = true.
Proof. intros H1 H2. rewrite forallb_app. by rewrite H1, H2. Qed.

(** A read of a cache entry that is present changes nothing. *)
Lemma read_compiled_present (T : ctype) (E : expr_type) (c : cl_context)
    (w : world) (b : bool) :
  compiled (statics w T E) !! c = Some b -> read_compiled T E c w = (Val b, w).
Proof. intros H. unfold read_compiled, mbind, get_exdata. cbn beta iota. by rewrite H. Qed.

Lemma read_kernel_present (T : ctype) (E : expr_type) (c : cl_context)
    (w : world) (k : Kernel) :
  kernel (statics w T E) !! c = Some k -> read_kernel T E c w = (Val k, w).
Proof. intros H. unfold read_kernel, mbind, get_exdata. cbn beta iota. by rewrite H. Qed.

Lemma read_wgsize_present (T : ctype) (E : expr_type) (c : cl_context)
    (w : world) (n : N) :
  wgsize (statics w T E) !! c = Some n -> read_wgsize T E c w = (Val n, w).
Proof. intros H. unfold read_wgsize, mbind, get_exdata. cbn beta iota. by rewrite H. Qed.

Ltac cache_simpl :=
  repeat first
    [ progress cbn [statics mem calls next_event set_cache add_call compiled kernel
                    wgsize fst snd]
    | rewrite decide_True by done
    | rewrite lookup_insert_eq
    | rewrite lookup_insert_ne by done ].

Ltac builds_tac :=
  intros; unfold builds; cbn [List.filter is_build length];
  rewrite ?bool_decide_eq_true_2 by done;
  rewrite ?bool_decide_eq_false_2 by congruence;
  cbn [List.filter is_build length]; try done; try lia.

Ltac frame_tac :=
  split_and!;
  first
    [ done
    | by right
    | by left
    | builds_tac; fail
    | intros; rewrite !decide_False by done; done
    | intros; rewrite !lookup_insert_ne by done; done
    | intros; split; [builds_tac | by eexists _, _, _, _]
    | intros; split; [done | by eexists _, _]
    | intros; discriminate
    | idtac ].

(** What one run of the compilation block does, whatever its outcome. *)
Lemma compile_spec (api : DeviceAPI) (T : ctype) (e : expr) (ctx : Context)
    (w w' : world) (r : result unit) :
  compile api T e ctx w = (r, w') ->
  exists new : list call,
    mem w' = mem w /\ next_event w' = next_event w /\
    calls w' = calls w ++ new /\ forallb is_compile_call new = true /\
    (forall c', c' <> context_id ctx -> builds c' new = 0%nat) /\
    (builds (context_id ctx) new <= 1)%nat /\
    (forall T' E', ~ (T' = T /\ E' = type_of e) -> statics w' T' E' = statics w T' E') /\
    (forall c', c' <> context_id ctx ->
       compiled (statics w' T (type_of e)) !! c' = compiled (statics w T (type_of e)) !! c' /\
       kernel (statics w' T (type_of e)) !! c' = kernel (statics w T (type_of e)) !! c' /\
       wgsize (statics w' T (type_of e)) !! c' = wgsize (statics w T (type_of e)) !! c') /\
    (compiled (statics w' T (type_of e)) !! context_id ctx = Some true \/
     statics w' T (type_of e) = statics w T (type_of e)) /\
    (compiled (statics w' T (type_of e)) !! context_id ctx = Some true ->
     compiled (statics w T (type_of e)) !! context_id ctx <> Some true ->
     builds (context_id ctx) new = 1%nat /\
     exists (device0 : Device) (name : string) (p : Program) (k : Kernel),
       context_devices ctx !! 0%nat = Some device0 /\
       kernel_name e = Val name /\
       build_sources api ctx
         (kernel_source api T e name (device_type device0 =? CL_DEVICE_TYPE_CPU)) = Val p /\
       create_kernel api p name = Val k /\
       kernel (statics w' T (type_of e)) !! context_id ctx = Some k) /\
    (r = Val tt ->
     compiled (statics w' T (type_of e)) !! context_id ctx = Some true /\
     exists (k : Kernel) (wg : N),
       kernel (statics w' T (type_of e)) !! context_id ctx = Some k /\
       wgsize (statics w' T (type_of e)) !! context_id ctx = Some wg).
Proof.
  unfold compile, mbind, lift, at_, record_call, write_kernel, write_compiled,
    write_wgsize, read_kernel, get_exdata, put_exdata, mret.
  destruct (context_devices ctx !! 0%nat) as [device0|] eqn:Hdev.
  2:{ intros [= <- <-]. exists []. rewrite app_nil_r.
      split_and!; try done; try (by right); try (cbn; lia). }
  destruct (kernel_name e) as [name | what |] eqn:Hname.
  2,3: intros [= <- <-]; exists []; rewrite app_nil_r;
       split_and!; try done; try (by right); try (cbn; lia).
  destruct (build_sources api ctx _) as [p | what |] eqn:Hbuild.
  2,3: intros [= <- <-]; eexists [_]; frame_tac.
  destruct (create_kernel api p name) as [k | what |] eqn:Hkernel.
  2,3: intros [= <- <-]; eexists [_; _]; cbn [add_call calls];
       rewrite <- app_assoc; frame_tac.
  cbv beta iota zeta delta [mbind]. cache_simpl.
  destruct (kernel_workgroup_size api k (context_devices ctx)) as [wg | what |]
    eqn:Hwg.
  all: intros [= <- <-]; eexists [_; _; _]; cache_simpl;
       rewrite <- !app_assoc; frame_tac.
Qed.

Lemma built_for_intro (api : DeviceAPI) (T : ctype) (e : expr) (q : CommandQueue)
    (device0 : Device) (name : string) (p : Program) (k : Kernel) :
  context_devices (queue_context q) !! 0%nat = Some device0 ->
  kernel_name e = Val name ->
  build_sources api (queue_context q)
    (kernel_source api T e name (device_type device0 =? CL_DEVICE_TYPE_CPU)) = Val p ->
  create_kernel api p name = Val k ->
  built_for api T e q k.
Proof.
  intros Hd Hn Hb Hk. unfold built_for, source_for. rewrite Hd, Hn.
  by eexists name, _, p.
Qed.

(** What the first loop does for one queue. *)
Lemma compile_for_queue_spec (api : DeviceAPI) (T : ctype) (e : expr)
    (q : CommandQueue) (w w' : world) (r : result unit) :
  compile_for_queue api T e q w = (r, w') ->
  let c := context_id (queue_context q) in
  let E := type_of e in
  exists new : list call,
    (mem w' = mem w /\ next_event w' = next_event w /\
     calls w' = calls w ++ new /\ forallb is_compile_call new = true) /\
    (forall T' E', ~ (T' = T /\ E' = E) -> statics w' T' E' = statics w T' E') /\
    (forall c', c' <> c ->
       compiled (statics w' T E) !! c' = compiled (statics w T E) !! c' /\
       kernel (statics w' T E) !! c' = kernel (statics w T E) !! c' /\
       wgsize (statics w' T E) !! c' = wgsize (statics w T E) !! c' /\
       builds c' new = 0%nat) /\
    (is_compiled w T E c -> r = Val tt /\ w' = w /\ new = []) /\
    (~ is_compiled w T E c ->
     (builds c new <= 1)%nat /\
     (is_compiled w' T E c ->
      builds c new = 1%nat /\
      exists k, built_for api T e q k /\ kernel (statics w' T E) !! c = Some k) /\
     (r = Val tt ->
      is_compiled w' T E c /\
      exists k wg, kernel (statics w' T E) !! c = Some k /\
                   wgsize (statics w' T E) !! c = Some wg)).
Proof.
  intros Hrun c E. unfold compile_for_queue, mbind in Hrun.
  cbv zeta in Hrun. fold c E in Hrun. unfold is_compiled.
  destruct (compiled (statics w T E) !! c) as [[] |] eqn:Hflag.
  - rewrite (read_compiled_present _ _ _ _ true Hflag) in Hrun.
    unfold mret in Hrun. simplify_eq.
    exists []. rewrite app_nil_r. split_and!; done.
  - rewrite (read_compiled_present _ _ _ _ false Hflag) in Hrun.
    destruct (compile_spec api T e (queue_context q) w w' r Hrun)
      as (new & Hmem & Hnext & Hcalls & Hall & Hb0 & Hb1 & Hkeys & Hctx
          & Hflag' & Hbuilt & Hok).
    fold c E in Hb0, Hb1, Hkeys, Hctx, Hflag', Hbuilt, Hok.
    exists new. split; [done |]. split; [done |]. split; [|split; [done |]].
    + intros c' Hc'. destruct (Hctx c' Hc') as (? & ? & ?).
      split_and!; try done. by apply Hb0.
    + intros _. split; [done |]. split; [|done].
      intros Ht. destruct Hbuilt as (Hb & d0 & name & p & k & ? & ? & ? & ? & ?);
        [done | by rewrite Hflag |].
      split; [done |]. exists k. split; [|done]. by eapply built_for_intro.
  - unfold read_compiled, mbind, get_exdata, put_exdata, mret in Hrun.
    cbn beta iota in Hrun. rewrite Hflag in Hrun.
    set (w0 := set_cache w T E _) in Hrun.
    destruct (compile_spec api T e (queue_context q) w0 w' r Hrun)
      as (new & Hmem & Hnext & Hcalls & Hall & Hb0 & Hb1 & Hkeys & Hctx
          & Hflag' & Hbuilt & Hok).
    fold c E in Hb0, Hb1, Hkeys, Hctx, Hflag', Hbuilt, Hok.
    assert (statics w0 T E =
            MkExdata (<[c := false]> (compiled (statics w T E)))
              (kernel (statics w T E)) (wgsize (statics w T E))) as Hw0
        by apply statics_set_cache_eq.
    exists new. split; [done |]. split; [|split; [|split; [done |]]].
    + intros T' E' Hne. rewrite Hkeys by done. by apply statics_set_cache_ne.
    + intros c' Hc'. destruct (Hctx c' Hc') as (H1 & H2 & H3).
      rewrite H1, H2, H3, Hw0. simpl. rewrite lookup_insert_ne by done.
      split_and!; try done. by apply Hb0.
    + intros _. split; [done |]. split; [|done].
      intros Ht. destruct Hbuilt as (Hb & d0 & name & p & k & ? & ? & ? & ? & ?);
        [done | rewrite Hw0; simpl; by rewrite lookup_insert_eq |].
      split; [done |]. exists k. split; [|done]. by eapply built_for_intro.
Qed.

(** The first loop of the assignment over the queues [qs]: it builds at
    most once for a context, only for contexts whose flag is not set, and
    the flag of a context is set on the way only by a successful build and
    kernel construction. *)
Lemma compile_loop_spec (api : DeviceAPI) (T : ctype) (e : expr)
    (qs : list CommandQueue) :
  forall (w w' : world) (r : result unit),
    for_each qs (compile_for_queue api T e) w = (r, w') ->
    let E := type_of e in
    exists new : list call,
      (mem w' = mem w /\ next_event w' = next_event w /\
       calls w' = calls w ++ new /\ forallb is_compile_call new = true) /\
      (forall T' E', ~ (T' = T /\ E' = E) -> statics w' T' E' = statics w T' E') /\
      (forall c, (forall q, q ∈ qs -> context_id (queue_context q) <> c) ->
         compiled (statics w' T E) !! c = compiled (statics w T E) !! c /\
         kernel (statics w' T E) !! c = kernel (statics w T E) !! c /\
         wgsize (statics w' T E) !! c = wgsize (statics w T E) !! c /\
         builds c new = 0%nat) /\
      (forall c, is_compiled w T E c ->
         is_compiled w' T E c /\
         kernel (statics w' T E) !! c = kernel (statics w T E) !! c /\
         wgsize (statics w' T E) !! c = wgsize (statics w T E) !! c /\
         builds c new = 0%nat) /\
      (forall c, ~ is_compiled w T E c ->
         (builds c new <= 1)%nat /\
         (is_compiled w' T E c ->
          builds c new = 1%nat /\
          exists q k, q ∈ qs /\ context_id (queue_context q) = c /\
                      built_for api T e q k /\
                      kernel (statics w' T E) !! c = Some k)) /\
      (r = Val tt ->
       forall q, q ∈ qs ->
         is_compiled w' T E (context_id (queue_context q)) /\
         (~ is_compiled w T E (context_id (queue_context q)) ->
          exists k wg,
            kernel (statics w' T E) !! context_id (queue_context q) = Some k /\
            wgsize (statics w' T E) !! context_id (queue_context q) = Some wg)).
Proof.
  induction qs as [|q qs IH]; intros w w' r Hrun E.
  - simpl in Hrun. unfold mret in Hrun. simplify_eq.
    exists []. rewrite app_nil_r.
    split; [done |]. split; [done |]. split; [done |]. split; [done |].
    split; [by intros c Hc; split; [cbn; lia |] |].
    intros _ q Hq. by apply elem_of_nil in Hq.
  - cbn [for_each] in Hrun. unfold mbind in Hrun.
    destruct (compile_for_queue api T e q w) as [r1 w1] eqn:Hstep.
    destruct (compile_for_queue_spec api T e q w w1 r1 Hstep)
      as (new1 & (Hmem1 & Hnext1 & Hcalls1 & Hall1) & Hkeys1 & Hctx1 & Hdone1 & Hnew1).
    fold E in Hkeys1, Hctx1, Hdone1, Hnew1.
    set (c0 := context_id (queue_context q)) in *.
    assert (r1 <> Val tt -> r = r1 /\ w' = w1) as Hstop.
    { intros Hr1. destruct r1 as [[] | |]; by simplify_eq. }
    assert (r1 = Val tt \/ r1 <> Val tt) as [-> | Hfail]
        by (destruct r1 as [[] | |]; [by left | by right..]).
    + destruct (IH w1 w' r Hrun)
        as (new2 & (Hmem2 & Hnext2 & Hcalls2 & Hall2) & Hkeys2 & Hout2 & Hdone2
            & Hnew2 & Hok2).
      fold E in Hkeys2, Hout2, Hdone2, Hnew2, Hok2.
      assert (is_compiled w1 T E c0) as Hc0.
      { destruct (decide (is_compiled w T E c0)) as [Hy | Hn].
        - by destruct (Hdone1 Hy) as (_ & -> & _).
        - by destruct (Hnew1 Hn) as (_ & _ & [? _]). }
      exists (new1 ++ new2). split; [|split; [|split; [|split; [|split]]]].
      * split_and!; try congruence.
        -- by rewrite Hcalls2, Hcalls1, app_assoc.
        -- by apply forallb_app_true.
      * intros T' E' Hne. by rewrite Hkeys2, Hkeys1.
      * intros c Hc.
        destruct (Hctx1 c) as (H1 & H2 & H3 & H4);
          [intros Heq; apply (Hc q); [left | by rewrite Heq] |].
        destruct (Hout2 c) as (H1' & H2' & H3' & H4');
          [intros q' Hq'; apply Hc; by right |].
        rewrite builds_app, H4, H4'. split_and!; first [done | lia | congruence].
      * intros c Hc.
        assert (is_compiled w1 T E c /\
                kernel (statics w1 T E) !! c = kernel (statics w T E) !! c /\
                wgsize (statics w1 T E) !! c = wgsize (statics w T E) !! c /\
                builds c new1 = 0%nat) as (Hc1 & Hk1 & Hw1 & Hb1).
        { destruct (decide (c = c0)) as [-> | Hne].
          - by destruct (Hdone1 Hc) as (_ & -> & ->).
          - destruct (Hctx1 c Hne) as (H1 & H2 & H3 & H4).
            unfold is_compiled in *. split_and!; first [done | lia | congruence]. }
        destruct (Hdone2 c Hc1) as (Hc2 & Hk2 & Hw2 & Hb2).
        rewrite builds_app, Hb1, Hb2. split_and!; first [done | lia | congruence].
      * intros c Hc. destruct (decide (c = c0)) as [-> | Hne].
        -- destruct (Hnew1 Hc) as (Hle & Hbuilt & _).
           destruct (Hbuilt Hc0) as (Hb1 & k & Hk & Hkern).
           destruct (Hdone2 c0 Hc0) as (Hc2 & Hk2 & Hw2 & Hb2).
           rewrite builds_app, Hb1, Hb2. split; [lia |]. intros _.
           split; [lia |]. exists q, k. split_and!; try done; [left | congruence].
        -- destruct (Hctx1 c Hne) as (H1 & H2 & H3 & H4).
           assert (~ is_compiled w1 T E c) as Hn1
               by (unfold is_compiled in *; congruence).
           destruct (Hnew2 c Hn1) as (Hle & Hbuilt).
           rewrite builds_app, H4. split; [lia |]. intros Hc'.
           destruct (Hbuilt Hc') as (Hb & q' & k & Hq' & Hcq' & Hk & Hkern).
           split; [lia |]. exists q', k. split_and!; try done. by right.
      * intros Hr q' Hq'. set (c := context_id (queue_context q')).
        assert (is_compiled w' T E c) as Hc'.
        { apply elem_of_cons in Hq' as [-> | Hq'].
          - by destruct (Hdone2 c0 Hc0).
          - by destruct (Hok2 Hr q' Hq'). }
        split; [done |]. intros Hn.
        destruct (decide (is_compiled w1 T E c)) as [Hy1 | Hn1].
        -- assert (c = c0) as Hcc.
           { destruct (decide (c = c0)) as [? | Hne]; [done |].
             destruct (Hctx1 c Hne) as (H1 & _).
             unfold is_compiled in *. congruence. }
           destruct (Hnew1 ltac:(by rewrite <- Hcc)) as (_ & _ & Hok1).
           destruct (Hok1 eq_refl) as (_ & k & wg & Hk & Hwg).
           destruct (Hdone2 c Hy1) as (_ & Hk2 & Hw2 & _).
           exists k, wg. rewrite Hk2, Hw2, Hcc. done.
        -- apply elem_of_cons in Hq' as [-> | Hq']; [done |].
           by destruct (Hok2 Hr q' Hq') as (_ & Hpres); apply Hpres.
    + destruct (Hstop Hfail) as [-> ->].
      exists new1. split; [done |]. split; [done |]. split; [|split; [|split]].
      * intros c Hc. apply Hctx1. intros Heq. apply (Hc q); [left | by rewrite Heq].
      * intros c Hc. destruct (decide (c = c0)) as [-> | Hne].
        -- by destruct (Hdone1 Hc) as (_ & -> & ->).
        -- destruct (Hctx1 c Hne) as (H1 & H2 & H3 & H4).
           unfold is_compiled in *. split_and!; first [done | lia | congruence].
      * intros c Hc. destruct (decide (c = c0)) as [-> | Hne].
        -- destruct (Hnew1 Hc) as (Hle & Hbuilt & _). split; [done |].
           intros Hc'. destruct (Hbuilt Hc') as (Hb & k & Hk & Hkern).
           split; [done |]. exists q, k. split_and!; try done. left.
        -- destruct (Hctx1 c Hne) as (H1 & H2 & H3 & H4).
           split; [lia |]. unfold is_compiled in *. intros Hc'. congruence.
      * intros Hr. done.
Qed.

(** ** Launches *)

#[global] Instance launch_frame_preorder : PreOrder launch_frame.
Proof.
  split.
  - intros w. unfold launch_frame. split_and!; try done.
    exists []. by rewrite app_nil_r.
  - intros w1 w2 w3 (Hm & Hn & Hc & Hk & Hw & new & Hcalls & Hall)
                    (Hm' & Hn' & Hc' & Hk' & Hw' & new' & Hcalls' & Hall').
    unfold launch_frame.
    split; [congruence |]. split; [congruence |].
    split; [|split; [|split]].
    + intros T E. by rewrite Hc', Hc.
    + intros T E c k H. by apply Hk', Hk.
    + intros T E c n H. by apply Hw', Hw.
    + exists (new ++ new'). split; [by rewrite Hcalls', Hcalls, app_assoc |].
      by apply forallb_app_true.
Qed.

Lemma preserves_bind {A B : Type} (R : world -> world -> Prop) `{!PreOrder R}
    (m : M A) (k : A -> M B) :
  preserves R m -> (forall a, preserves R (k a)) -> preserves R (mbind m k).
Proof.
  intros Hm Hk w w' r H. unfold mbind in H.
  destruct (m w) as [r1 w1] eqn:E. specialize (Hm _ _ _ E).
  destruct r1; [|by simplify_eq..].
  etrans; [exact Hm | by eapply Hk].
Qed.

Lemma preserves_lift {A : Type} (R : world -> world -> Prop) `{!PreOrder R}
    (r : result A) : preserves R (lift r).
Proof. intros w w' r' [= <- <-]. reflexivity. Qed.

Lemma preserves_mret {A : Type} (R : world -> world -> Prop) `{!PreOrder R}
    (a : A) : preserves R (mret a).
Proof. intros w w' r' [= <- <-]. reflexivity. Qed.

Lemma preserves_for {S : Type} (R : world -> world -> Prop) `{!PreOrder R}
    (body : nat -> S -> M S) (ds : list nat) :
  (forall d s, preserves R (body d s)) -> forall s, preserves R (for_ ds body s).
Proof.
  intros Hbody. induction ds as [|d ds IH]; intros s; cbn [for_].
  - by apply preserves_mret.
  - apply preserves_bind; [done | apply Hbody | apply IH].
Qed.

Lemma launch_frame_set_cache (w : world) (T : ctype) (E : expr_type) (x : exdata) :
  compiled x = compiled (statics w T E) ->
  (forall c k, kernel (statics w T E) !! c = Some k -> kernel x !! c = Some k) ->
  (forall c n, wgsize (statics w T E) !! c = Some n -> wgsize x !! c = Some n) ->
  launch_frame w (set_cache w T E x).
Proof.
  intros Hc Hk Hw. unfold launch_frame.
  split; [done |]. split; [done |]. split; [|split; [|split]].
  - intros T' E'. simpl. case_decide as H; [|done]. by destruct H as [-> ->].
  - intros T' E' c k. simpl. case_decide as H; [|done]. destruct H as [-> ->].
    apply Hk.
  - intros T' E' c n. simpl. case_decide as H; [|done]. destruct H as [-> ->].
    apply Hw.
  - exists []. by rewrite app_nil_r.
Qed.

Lemma preserves_read_kernel (T : ctype) (E : expr_type) (c : cl_context) :
  preserves launch_frame (read_kernel T E c).
Proof.
  intros w w' r H. unfold read_kernel, mbind, get_exdata, put_exdata, mret in H.
  cbn beta iota in H.
  destruct (kernel (statics w T E) !! c) as [k|] eqn:Hk; simplify_eq.
  - reflexivity.
  - apply launch_frame_set_cache; try done. intros c' k Hk'. simpl.
    rewrite lookup_insert_ne; [done |]. intros <-. congruence.
Qed.

Lemma preserves_read_wgsize (T : ctype) (E : expr_type) (c : cl_context) :
  preserves launch_frame (read_wgsize T E c).
Proof.
  intros w w' r H. unfold read_wgsize, mbind, get_exdata, put_exdata, mret in H.
  cbn beta iota in H.
  destruct (wgsize (statics w T E) !! c) as [k|] eqn:Hk; simplify_eq.
  - reflexivity.
  - apply launch_frame_set_cache; try done. intros c' k Hk'. simpl.
    rewrite lookup_insert_ne; [done |]. intros <-. congruence.
Qed.

Lemma preserves_record_call (x : call) :
  is_compile_call x = false -> preserves launch_frame (record_call x).
Proof.
  intros Hx w w' r [= <- <-]. unfold launch_frame. split_and!; try done.
  exists [x]. split; [done |]. simpl. by rewrite Hx.
Qed.

Lemma preserves_set_args (k : Kernel) (args : list kernel_arg) :
  forall pos, preserves launch_frame (set_args k pos args).
Proof.
  induction args as [|a args IH]; intros pos; cbn [set_args].
  - apply preserves_mret. apply _.
  - apply preserves_bind; [apply _ | by apply preserves_record_call | intros _; apply IH].
Qed.

(** A launch, whatever its outcome, stays within [launch_frame]. *)
Lemma preserves_launch_shard (e : expr) (d : nat) (this : vector) :
  preserves launch_frame (launch_shard e d this).
Proof.
  unfold launch_shard.
  repeat first
    [ apply preserves_read_kernel
    | apply preserves_read_wgsize
    | apply preserves_set_args
    | by apply preserves_record_call
    | apply preserves_lift; apply _
    | apply preserves_mret; apply _
    | match goal with |- preserves _ (if ?b then _ else _) => destruct b end
    | apply preserves_bind; [apply _ | | intros ?]
    | progress cbv zeta ].
Qed.

Lemma add_calls_nil (w : world) : add_calls w [] = w.
Proof. destruct w. unfold add_calls. simpl. by rewrite app_nil_r. Qed.

Lemma add_calls_app (w : world) (l1 l2 : list call) :
  add_calls (add_calls w l1) l2 = add_calls w (l1 ++ l2).
Proof. unfold add_calls. simpl. by rewrite app_assoc. Qed.

Lemma set_args_spec (k : Kernel) (args : list kernel_arg) :
  forall (pos : N) (w : world),
    set_args k pos args w =
    (Val (pos + N.of_nat (length args)), add_calls w (setarg_calls k pos args)).
Proof.
  induction args as [|a args IH]; intros pos w; cbn [set_args setarg_calls length].
  - by rewrite add_calls_nil, N.add_0_r.
  - unfold mbind, record_call. rewrite IH.
    change (add_call w (SetArg k pos a)) with (add_calls w [SetArg k pos a]).
    rewrite add_calls_app. do 2 f_equal. lia.
Qed.

Lemma uses_cache_setargs (w : world) (T : ctype) (E : expr_type)
    (qs : list CommandQueue) (q : CommandQueue) (k : Kernel)
    (args : list kernel_arg) :
  q ∈ qs -> kernel (statics w T E) !! context_id (queue_context q) = Some k ->
  forall pos, Forall (uses_cache w T E qs) (setarg_calls k pos args).
Proof.
  intros Hq Hk. induction args as [|a args IH]; intros pos; cbn [setarg_calls].
  - constructor.
  - constructor; [by exists q | apply IH].
Qed.

(** A launch on a ready cache reads it without changing it, and every
    call it makes uses the kernel and the work-group size cached for the
    shard's context. *)
Lemma launch_shard_ready (e : expr) (d : nat) (this : vector) (w : world) :
  cache_ready w (elem this) (type_of e) (queue this) ->
  exists (new : list call) (r : result vector),
    launch_shard e d this w = (r, add_calls w new) /\
    Forall (uses_cache w (elem this) (type_of e) (queue this)) new /\
    (forall v, r = Val v -> v = this).
Proof.
  intros Hready. unfold launch_shard. cbv zeta. unfold mbind at 1, lift at 1.
  destruct (at_ (part this) (d + 1)) as [hi | what |];
    [| exists [], (Exn what); by rewrite add_calls_nil
     | exists [], UB; by rewrite add_calls_nil].
  unfold mbind at 1, lift at 1.
  destruct (at_ (part this) d) as [lo | what |];
    [| exists [], (Exn what); by rewrite add_calls_nil
     | exists [], UB; by rewrite add_calls_nil].
  destruct (size_sub hi lo =? 0).
  { exists [], (Val this). rewrite add_calls_nil. split_and!; try done.
    by intros v [= <-]. }
  unfold mbind at 1, lift at 1, at_ at 1.
  destruct (queue this !! d) as [q|] eqn:Hq;
    [| exists [], UB; by rewrite add_calls_nil].
  assert (q ∈ queue this) as Hin by (by eapply list_elem_of_lookup_2).
  destruct (Hready q Hin) as (_ & k & wg & Hk & Hwg).
  unfold mbind at 1. rewrite (read_wgsize_present _ _ _ _ _ Hwg).
  unfold mbind at 1. rewrite (read_kernel_present _ _ _ _ _ Hk).
  unfold mbind at 1. rewrite set_args_spec.
  unfold mbind at 1.
  rewrite (read_kernel_present _ _ _ (add_calls w _) k) by exact Hk.
  unfold mbind at 1, lift at 1.
  destruct (at_ (buf this) d) as [b | what |];
    [| eexists _, (Exn what); split; [done |]; split; [|done];
       by apply uses_cache_setargs with q
     | eexists _, UB; split; [done |]; split; [|done];
       by apply uses_cache_setargs with q].
  unfold mbind at 1. rewrite set_args_spec, add_calls_app.
  unfold mbind at 1.
  rewrite (read_kernel_present _ _ _ (add_calls w _) k) by exact Hk.
  unfold mbind at 1, lift at 1.
  destruct (kernel_args e d) as [args | what |];
    [| eexists _, (Exn what); split; [done |]; split; [|done];
       apply Forall_app; split; by apply uses_cache_setargs with q
     | eexists _, UB; split; [done |]; split; [|done];
       apply Forall_app; split; by apply uses_cache_setargs with q].
  unfold mbind at 1. rewrite set_args_spec, add_calls_app.
  unfold mbind at 1.
  rewrite (read_kernel_present _ _ _ (add_calls w _) k) by exact Hk.
  unfold mbind at 1.
  rewrite (read_wgsize_present _ _ _ (add_calls w _) wg) by exact Hwg.
  unfold mbind, record_call, mret.
  match goal with
  | |- context [add_call (add_calls w ?l) ?x] =>
      change (add_call (add_calls w l) x) with (add_calls (add_calls w l) [x])
  end.
  rewrite add_calls_app.
  eexists _, (Val this). split; [done |]. split; [|by intros v [= <-]].
  repeat (apply Forall_app; split); try (by apply uses_cache_setargs with q).
  constructor; [|constructor]. by exists q.
Qed.

Lemma uses_cache_same (w w' : world) (T : ctype) (E : expr_type)
    (qs : list CommandQueue) (x : call) :
  statics w' = statics w -> uses_cache w T E qs x -> uses_cache w' T E qs x.
Proof. intros H. unfold uses_cache. by rewrite H. Qed.

(** The second loop of the assignment on a ready cache. *)
Lemma launch_loop_ready (e : expr) (this : vector) (ds : list nat) :
  forall w : world,
    cache_ready w (elem this) (type_of e) (queue this) ->
    exists (new : list call) (r : result vector),
      for_ ds (launch_shard e) this w = (r, add_calls w new) /\
      Forall (uses_cache w (elem this) (type_of e) (queue this)) new.
Proof.
  induction ds as [|d ds IH]; intros w Hready; cbn [for_].
  - exists [], (Val this). by rewrite add_calls_nil.
  - destruct (launch_shard_ready e d this w Hready) as (new1 & r1 & Hstep & Hall1 & Hv).
    unfold mbind. rewrite Hstep.
    destruct r1 as [v | what |]; [| by exists new1, (Exn what) | by exists new1, UB].
    rewrite (Hv v eq_refl).
    destruct (IH (add_calls w new1)) as (new2 & r2 & Hrest & Hall2); [done |].
    exists (new1 ++ new2), r2. rewrite Hrest, add_calls_app. split; [done |].
    apply Forall_app. split; [done |].
    eapply Forall_impl; [exact Hall2 |]. intros x. by apply uses_cache_same.
Qed.

(** ** Assignment of an expression *)

Lemma builds_no_compile_calls (c : cl_context) (l : list call) :
  forallb (fun x => negb (is_compile_call x)) l = true -> builds c l = 0%nat.
Proof.
  unfold builds. induction l as [|x l IH]; [done |]. cbn [forallb List.filter].
  intros [Hx Hl]%andb_true_iff. destruct x; try done; by apply IH.
Qed.

(** An assignment is the first loop and, when that returns, the second. *)
Lemma assign_expr_run (api : DeviceAPI) (this : vector) (e : expr)
    (w w' : world) (r : result vector) :
  assign_expr api this e w = (r, w') ->
  exists (r1 : result unit) (w1 : world),
    for_each (queue this) (compile_for_queue api (elem this) e) w = (r1, w1) /\
    ((r1 = Val tt /\
      for_ (seq 0 (length (queue this))) (launch_shard e) this w1 = (r, w')) \/
     (r1 <> Val tt /\ w' = w1 /\ forall v, r <> Val v)).
Proof.
  unfold assign_expr, mbind. intros H.
  destruct (for_each (queue this) _ w) as [r1 w1]. exists r1, w1.
  split; [done |]. destruct r1 as [[] | what |].
  - by left.
  - right. by simplify_eq.
  - right. by simplify_eq.
Qed.

(** What an assignment does to the cache of its key, whatever its
    outcome. *)
Lemma assign_expr_cache (api : DeviceAPI) (this : vector) (e : expr)
    (w w' : world) (r : result vector) :
  assign_expr api this e w = (r, w') ->
  exists new : list call,
    calls w' = calls w ++ new /\
    (forall c, is_compiled w (elem this) (type_of e) c ->
       is_compiled w' (elem this) (type_of e) c /\ builds c new = 0%nat) /\
    (forall c, ~ is_compiled w (elem this) (type_of e) c ->
       (builds c new <= 1)%nat /\
       (is_compiled w' (elem this) (type_of e) c ->
        builds c new = 1%nat /\
        exists q k, q ∈ queue this /\ context_id (queue_context q) = c /\
                    built_for api (elem this) e q k /\
                    kernel (statics w' (elem this) (type_of e)) !! c = Some k)) /\
    (forall v, r = Val v ->
       forall q, q ∈ queue this ->
         is_compiled w' (elem this) (type_of e) (context_id (queue_context q)) /\
         (~ is_compiled w (elem this) (type_of e) (context_id (queue_context q)) ->
          exists k wg,
            kernel (statics w' (elem this) (type_of e))
              !! context_id (queue_context q) = Some k /\
            wgsize (statics w' (elem this) (type_of e))
              !! context_id (queue_context q) = Some wg)).
Proof.
  intros Hrun.
  destruct (assign_expr_run api this e w w' r Hrun) as (r1 & w1 & Hloop & Hrest).
  destruct (compile_loop_spec api (elem this) e (queue this) w w1 r1 Hloop)
    as (new1 & (Hmem1 & Hnext1 & Hcalls1 & Hall1) & Hkeys1 & Hout1 & Hdone1
        & Hnew1 & Hok1).
  destruct Hrest as [[-> Hlaunch] | (Hfail & -> & Hr)].
  - pose proof (preserves_for launch_frame (launch_shard e) _
                  (preserves_launch_shard e) this w1 w' r Hlaunch)
      as (Hmem2 & Hnext2 & Hflags & Hkern & Hwg & new2 & Hcalls2 & Hall2).
    assert (forall c, builds c new2 = 0%nat) as Hb2
        by (intros c; by apply builds_no_compile_calls).
    assert (forall c, is_compiled w' (elem this) (type_of e) c <->
                      is_compiled w1 (elem this) (type_of e) c) as Hsame
        by (intros c; unfold is_compiled; by rewrite Hflags).
    exists (new1 ++ new2). split; [by rewrite Hcalls2, Hcalls1, app_assoc |].
    split; [|split].
    + intros c Hc. destruct (Hdone1 c Hc) as (Hc1 & _ & _ & Hb1).
      rewrite builds_app, Hb1, Hb2. split; [by apply Hsame | done].
    + intros c Hc. destruct (Hnew1 c Hc) as (Hle & Hbuilt).
      rewrite builds_app, Hb2. split; [lia |]. intros Hc'%Hsame.
      destruct (Hbuilt Hc') as (Hb & q & k & Hq & Hcq & Hk & Hkernel).
      split; [lia |]. exists q, k. split_and!; try done. by apply Hkern.
    + intros v Hv q Hq. destruct (Hok1 eq_refl q Hq) as (Hc1 & Hpres).
      split; [by apply Hsame |]. intros Hn.
      destruct (Hpres Hn) as (k & wg & Hk & Hwg'). exists k, wg.
      split; [by apply Hkern | by apply Hwg].
  - exists new1. split; [done |]. split; [|split].
    + intros c Hc. by destruct (Hdone1 c Hc) as (Hc1 & _ & _ & Hb1).
    + intros c Hc. by apply Hnew1.
    + intros v Hv. by destruct (Hr v).
Qed.

(** On a ready cache the first loop does nothing. *)
Lemma compile_loop_ready (api : DeviceAPI) (T : ctype) (e : expr)
    (qs : list CommandQueue) (w : world) :
  (forall q, q ∈ qs -> is_compiled w T (type_of e) (context_id (queue_context q))) ->
  for_each qs (compile_for_queue api T e) w = (Val tt, w).
Proof.
  induction qs as [|q qs IH]; intros Hready; cbn [for_each]; [done |].
  unfold mbind.
  destruct (compile_for_queue api T e q w) as [r1 w1] eqn:Hstep.
  destruct (compile_for_queue_spec api T e q w w1 r1 Hstep)
    as (new1 & _ & _ & _ & Hdone1 & _).
  destruct Hdone1 as (-> & -> & _); [apply Hready; left |].
  apply IH. intros q' Hq'. apply Hready. by right.
Qed.

Lemma statics_add_calls (w : world) (new : list call) :
  statics (add_calls w new) = statics w.
Proof. reflexivity. Qed.

(** C7: a context whose build or kernel construction fails stays
    not compiled.  Let the cache of the key (element type of the
    destination, expression type) hold no compiled kernel for context [c],
    and let the build and kernel construction fail for every queue of the
    destination in that context.  Then after the assignment the flag of
    [c] is still unset and, when the destination has a queue in [c], the
    assignment has not returned a value.  A later assignment with the same
    key finds the flag unset: when it sets it, it has built the source for
    [c] once more and constructed the kernel, and when it returns a value
    with a queue in [c] it has done both. *)
Theorem failed_build_leaves_not_compiled (api1 api2 : DeviceAPI)
    (this1 this2 : vector) (e1 e2 : expr) (w w1 w2 : world)
    (r1 r2 : result vector) (c : cl_context) :
  ~ is_compiled w (elem this1) (type_of e1) c ->
  (forall q k, q ∈ queue this1 -> context_id (queue_context q) = c ->
               ~ built_for api1 (elem this1) e1 q k) ->
  assign_expr api1 this1 e1 w = (r1, w1) ->
  elem this2 = elem this1 ->
  type_of e2 = type_of e1 ->
  assign_expr api2 this2 e2 w1 = (r2, w2) ->
  ~ is_compiled w1 (elem this1) (type_of e1) c /\
  (forall q, q ∈ queue this1 -> context_id (queue_context q) = c ->
             forall v, r1 <> Val v) /\
  (is_compiled w2 (elem this1) (type_of e1) c ->
   builds c (calls w2) = S (builds c (calls w1)) /\
   exists q k, q ∈ queue this2 /\ context_id (queue_context q) = c /\
               built_for api2 (elem this2) e2 q k /\
               kernel (statics w2 (elem this1) (type_of e1)) !! c = Some k) /\
  (forall q v, q ∈ queue this2 -> context_id (queue_context q) = c ->
               r2 = Val v ->
               is_compiled w2 (elem this1) (type_of e1) c /\
               builds c (calls w2) = S (builds c (calls w1))).
Proof.
  intros Hnot Hfail Hrun1 HT HE Hrun2.
  destruct (assign_expr_cache api1 this1 e1 w w1 r1 Hrun1)
    as (new1 & Hcalls1 & _ & Hnew1 & Hok1).
  assert (~ is_compiled w1 (elem this1) (type_of e1) c) as Hnot1.
  { intros Hc. destruct (Hnew1 c Hnot) as (_ & Hbuilt).
    destruct (Hbuilt Hc) as (_ & q & k & Hq & Hcq & Hk & _).
    exact (Hfail q k Hq Hcq Hk). }
  destruct (assign_expr_cache api2 this2 e2 w1 w2 r2 Hrun2)
    as (new2 & Hcalls2 & _ & Hnew2 & Hok2).
  rewrite HT, HE in Hnew2, Hok2.
  destruct (Hnew2 c Hnot1) as (_ & Hbuilt2).
  assert (is_compiled w2 (elem this1) (type_of e1) c ->
          builds c (calls w2) = S (builds c (calls w1)) /\
          exists q k, q ∈ queue this2 /\ context_id (queue_context q) = c /\
                      built_for api2 (elem this2) e2 q k /\
                      kernel (statics w2 (elem this1) (type_of e1)) !! c = Some k)
    as Hagain.
  { intros Hc. destruct (Hbuilt2 Hc) as (Hb & q & k & Hq & Hcq & Hk & Hkernel).
    split; [rewrite Hcalls2, builds_app, Hb; lia |].
    exists q, k. rewrite HT. by split_and!. }
  split; [exact Hnot1 |]. split; [|split; [exact Hagain |]].
  - intros q Hq Hcq v Hv. destruct (Hok1 v Hv q Hq) as (Hc & _).
    rewrite Hcq in Hc. by apply Hnot1.
  - intros q v Hq Hcq Hv. destruct (Hok2 v Hv q Hq) as (Hc & _).
    rewrite Hcq in Hc. split; [exact Hc |]. by apply Hagain.
Qed.

(** C4, as amended: the cache is keyed by the element type of the
    destination together with the expression type and the context.  A
    first assignment that finds no compiled kernel for the contexts of its
    queues and returns builds the source once for each of these contexts
    and stores the flag, the kernel it constructed and a work-group size.
    Every later assignment with the same destination element type and the
    same expression type over contexts among these, from whatever
    destination vector, leaves the cache as it is and only appends calls
    that set arguments of, or launch, the cached kernels: it builds
    nothing. *)
Theorem compiled_once_per_key (api api' : DeviceAPI) (dst dst' : vector)
    (e e' : expr) (w w1 w2 : world) (v1 : vector) (r2 : result vector) :
  (forall q, q ∈ queue dst ->
     ~ is_compiled w (elem dst) (type_of e) (context_id (queue_context q))) ->
  assign_expr api dst e w = (Val v1, w1) ->
  elem dst' = elem dst ->
  type_of e' = type_of e ->
  (forall q', q' ∈ queue dst' ->
     exists q, q ∈ queue dst /\
               context_id (queue_context q') = context_id (queue_context q)) ->
  assign_expr api' dst' e' w1 = (r2, w2) ->
  (forall q, q ∈ queue dst ->
     builds (context_id (queue_context q)) (calls w1)
       = S (builds (context_id (queue_context q)) (calls w)) /\
     is_compiled w1 (elem dst) (type_of e) (context_id (queue_context q)) /\
     exists q0 k wg,
       q0 ∈ queue dst /\
       context_id (queue_context q0) = context_id (queue_context q) /\
       built_for api (elem dst) e q0 k /\
       kernel (statics w1 (elem dst) (type_of e))
         !! context_id (queue_context q) = Some k /\
       wgsize (statics w1 (elem dst) (type_of e))
         !! context_id (queue_context q) = Some wg) /\
  exists new : list call,
    w2 = add_calls w1 new /\
    Forall (uses_cache w1 (elem dst) (type_of e) (queue dst')) new /\
    forall c, builds c (calls w2) = builds c (calls w1).
Proof.
  intros Hnot Hrun1 HT HE Hsub Hrun2.
  destruct (assign_expr_cache api dst e w w1 (Val v1) Hrun1)
    as (new1 & Hcalls1 & _ & Hnew1 & Hok1).
  assert (forall q, q ∈ queue dst ->
     builds (context_id (queue_context q)) (calls w1)
       = S (builds (context_id (queue_context q)) (calls w)) /\
     is_compiled w1 (elem dst) (type_of e) (context_id (queue_context q)) /\
     exists q0 k wg,
       q0 ∈ queue dst /\
       context_id (queue_context q0) = context_id (queue_context q) /\
       built_for api (elem dst) e q0 k /\
       kernel (statics w1 (elem dst) (type_of e))
         !! context_id (queue_context q) = Some k /\
       wgsize (statics w1 (elem dst) (type_of e))
         !! context_id (queue_context q) = Some wg) as Hfirst.
  { intros q Hq. destruct (Hok1 v1 eq_refl q Hq) as (Hc & Hpres).
    destruct (Hnew1 _ (Hnot q Hq)) as (_ & Hbuilt).
    destruct (Hbuilt Hc) as (Hb & q0 & k & Hq0 & Hcq0 & Hk & Hkernel).
    destruct (Hpres (Hnot q Hq)) as (k' & wg & Hkernel' & Hwg).
    split; [rewrite Hcalls1, builds_app, Hb; lia |]. split; [exact Hc |].
    exists q0, k, wg. by split_and!. }
  split; [exact Hfirst |].
  assert (cache_ready w1 (elem dst') (type_of e') (queue dst')) as Hready.
  { rewrite HT, HE. intros q' Hq'. destruct (Hsub q' Hq') as (q & Hq & ->).
    destruct (Hfirst q Hq) as (_ & Hc & q0 & k & wg & _ & _ & _ & Hk & Hwg).
    split; [exact Hc |]. by exists k, wg. }
  unfold assign_expr, mbind in Hrun2.
  rewrite compile_loop_ready in Hrun2
    by (intros q' Hq'; by destruct (Hready q' Hq')).
  destruct (launch_loop_ready e' dst' (seq 0 (length (queue dst'))) w1 Hready)
    as (new & r & Hloop & Hall).
  rewrite Hloop in Hrun2. simplify_eq. exists new.
  split; [done |]. split; [by rewrite <- HT, <- HE |].
  intros c. cbn [add_calls calls]. rewrite builds_app.
  assert (builds c new = 0%nat) as ->; [|lia].
  apply builds_no_compile_calls, forallb_forall. intros x Hx.
  apply list_elem_of_In in Hx.
  pose proof (proj1 (Forall_forall _ _) Hall x Hx) as Hu.
  by destruct x.
Qed.

(** C5: each accumulation operator is the assignment of the matching
    binary expression over the destination itself: [dst += e] is
    [dst = dst + e], and likewise for [-=], [*=] and [/=].  They run the
    same synthesis path: the cache key is the type of that binary
    expression and the kernel is named after it. *)
Theorem accumulation_is_assignment (api : DeviceAPI) (dst : vector) (e : expr) :
  (operator_plus_assign api dst e = accumulate_spec api "+" dst e /\
   operator_minus_assign api dst e = accumulate_spec api "-" dst e /\
   operator_times_assign api dst e = accumulate_spec api "*" dst e /\
   operator_divide_assign api dst e = accumulate_spec api "/" dst e) /\
  (forall OP, accumulate_spec api OP dst e = assign_expr api dst (EBin OP (EVec dst) e)) /\
  (forall OP, type_of (EBin OP (EVec dst) e) = TBin OP (TVec (elem dst)) (type_of e)) /\
  (forall n, kernel_name e = Val n ->
     kernel_name (operator_plus (EVec dst) e) = Val ("pv" +:+ n) /\
     kernel_name (operator_minus (EVec dst) e) = Val ("mv" +:+ n) /\
     kernel_name (operator_times (EVec dst) e) = Val ("tv" +:+ n) /\
     kernel_name (operator_divide (EVec dst) e) = Val ("dv" +:+ n)).
Proof.
  split; [by split_and! |]. split; [done |]. split; [done |].
  intros n Hn. unfold operator_plus, operator_minus, operator_times, operator_divide.
  cbn [kernel_name]. rewrite Hn. by split_and!.
Qed.


(** * The theorems on the sample platform *)

Lemma units_perf_fit : weights_fit units_perf 100 sample_queues.
Proof.
  split; [|split; by vm_compute].
  intros q Hq. apply list_elem_of_In in Hq. simpl in Hq.
  by destruct Hq as [<- | [<- | [<- | []]]].
Qed.

Lemma world0_not_compiled (T : ctype) (E : expr_type) (c : cl_context) :
  ~ is_compiled world0 T E c.
Proof. unfold is_compiled. cbn. by rewrite lookup_empty. Qed.

Lemma partition_by_vector_perf_table_witness :
  exists part : list N,
    partition_by_vector_perf 16 units_perf 100 sample_queues = Val part /\
    length part = 4%nat /\
    part !! 0%nat = Some 0 /\
    part !! 3%nat = Some 100 /\
    Forall (fun p => p <= 100) part /\
    sorted part = true /\
    (forall (i j : nat) (a b : N),
       (i <= j)%nat -> part !! i = Some a -> part !! j = Some b -> a <= b).
Proof.
  apply (partition_by_vector_perf_table 16 units_perf 100 sample_queues).
  - simpl. lia.
  - by vm_compute.
  - intros _. split; [by vm_compute | apply units_perf_fit].
Defined.

Lemma write_read_round_trip_witness :
  exists (v1 v2 : vector) (w1 w2 : world),
    write_data vec_a 0 5 sample_host false world0 = (Val v1, w1) /\
    read_data v1 0 5 sample_out true w1 = (Val (v2, sample_host), w2).
Proof.
  destruct (write_read_round_trip vec_a sample_host sample_out false world0)
    as (v1 & v2 & w1 & w2 & Hw & Hr & _); [by vm_compute.. |].
  by exists v1, v2, w1, w2.
Defined.

Lemma kernel_name_injective_on_shapes_witness :
  returns (kernel_name sum_b) /\
  (kernel_name sum_b = kernel_name sum_a <-> shape_of sum_b = shape_of sum_a) /\
  kernel_name (operator_plus (EVec vec_a) (operator_plus (EVec vec_b) two)) <>
  kernel_name (operator_plus (operator_plus (EVec vec_a) (EVec vec_b)) two).
Proof.
  apply (kernel_name_injective_on_shapes sum_b sum_a (EVec vec_a) (EVec vec_b) two);
    reflexivity.
Defined.

Lemma compiled_once_per_key_witness :
  builds 7 (calls world1) = 1%nat /\
  builds 7 (calls world2) = 1%nat /\
  statics world2 = statics world1.
Proof.
  destruct (compiled_once_per_key api_ok api_ok vec_a vec_c sum_b sum_a
              world0 world1 world2 vec_a
              (fst (assign_expr api_ok vec_c sum_a world1)))
    as (Hfirst & new & Hw2 & _ & Hbuilds).
  - intros q _. apply world0_not_compiled.
  - by vm_compute.
  - reflexivity.
  - reflexivity.
  - intros q' Hq'. by exists q'.
  - unfold world2. apply surjective_pairing.
  - destruct (Hfirst q0) as (Hb & _); [by left |].
    split; [exact Hb |]. split; [rewrite Hbuilds; exact Hb |].
    rewrite Hw2. apply statics_add_calls.
Defined.

Lemma part_size_by_node_witness :
  part_size sum_b 2 = Val (N.max 3 0) /\
  (exists lo hi : N,
     part vec_b !! 2%nat = Some lo /\ part vec_b !! 3%nat = Some hi /\
     part_size (EVec vec_b) 2 = Val (hi - lo) /\
     shard_search 4 vec_b 3 0 = Done (Val 2%nat)) /\
  part_size two 2 = Val 0.
Proof.
  destruct (part_size_by_node "+" (EVec vec_b) two vec_b float1 2 2)
    as (Hbin & Hvec & Hscalar).
  split; [by apply Hbin |]. split; [|exact Hscalar].
  destruct Hvec as (lo & hi & Hlo & Hhi & Hsize & Hown); [reflexivity | vm_compute; lia |].
  exists lo, hi. split; [exact Hlo |]. split; [exact Hhi |]. split; [exact Hsize |].
  apply Hown. vm_compute in Hlo, Hhi. simplify_eq. lia.
Defined.

Lemma failed_build_leaves_not_compiled_witness :
  ~ is_compiled world_failed float1 (type_of sum_b) 7 /\
  is_compiled world_retried float1 (type_of sum_b) 7 /\
  builds 7 (calls world_retried) = 2%nat.
Proof.
  destruct (failed_build_leaves_not_compiled api_fail api_ok vec_a vec_a sum_b sum_b
              world0 world_failed world_retried
              (fst (assign_expr api_fail vec_a sum_b world0))
              (fst (assign_expr api_ok vec_a sum_b world_failed)) 7)
    as (Hnot & _ & _ & Hagain).
  - apply world0_not_compiled.
  - intros q k _ _ (name & source & p & _ & Hbuild & _). discriminate Hbuild.
  - unfold world_failed. apply surjective_pairing.
  - reflexivity.
  - reflexivity.
  - unfold world_retried. apply surjective_pairing.
  - destruct (Hagain q0 vec_a) as (Hc & Hb); [by left | reflexivity | by vm_compute |].
    split; [exact Hnot |]. split; [exact Hc |]. rewrite Hb. by vm_compute.
Defined.

Lemma copy_assign_frame_witness :
  copy_assign sample_heap 1 1 world0 = (Val vec_a, world0) /\
  exists (w' : world) (copies : list call),
    copy_assign sample_heap 1 2 world0 = (Val vec_a, w') /\
    calls w' = copies /\ length copies = 2%nat /\
    mem w' !! 100 = Some [7; 8]%Z /\ mem w' !! 102 = Some [9; 10; 11]%Z /\
    mem w' !! 110 = Some [7; 8]%Z.
Proof.
  split.
  - by apply (copy_assign_frame sample_heap 1 1 vec_a vec_a world0).
  - destruct (copy_assign_frame sample_heap 1 2 vec_a vec_b world0) as (_ & Hcopy);
      [reflexivity.. |].
    destruct Hcopy as (w' & copies & Hrun & _ & _ & Hcalls & Hcopies & Hdata & Hframe);
      [done | by vm_compute.. | |by vm_compute | by vm_compute |].
    + intros b Ha Hb. vm_compute in Ha, Hb.
      apply list_elem_of_In in Ha, Hb. simpl in Ha, Hb. lia.
    + exists w', copies. split; [exact Hrun |]. split; [exact Hcalls |].
      split; [by rewrite <- (Forall2_length _ _ _ Hcopies) |].
      split; [by apply (Hdata 0%nat 110 100); [vm_compute; lia |..] |].
      split; [by apply (Hdata 2%nat 112 102); [vm_compute; lia |..] |].
      rewrite Hframe; [reflexivity |].
      intros Hb. vm_compute in Hb. apply list_elem_of_In in Hb. simpl in Hb. lia.
Defined.

Lemma operator_index_selects_owner_witness :
  (exists r, operator_index 4 vec_a 3 = Done r) /\
  (exists (d : nat) (q : CommandQueue) (b : Buffer) (lo : N),
     operator_index 4 vec_a 3 = Done (Val (d, MkElement q b (3 - lo))) /\
     queue vec_a !! d = Some q /\ buf vec_a !! d = Some b /\ part vec_a !! d = Some lo) /\
  operator_index 4 vec_a 7 = Done UB.
Proof.
  destruct (operator_index_selects_owner vec_a 3) as (Hr & Hin & _); [reflexivity |].
  destruct (operator_index_selects_owner vec_a 7) as (_ & _ & Hout); [reflexivity |].
  split; [exact Hr |]. split.
  - destruct Hin as (d & q & b & lo & hi & Hrun & Hq & Hb & Hlo & _); [by vm_compute |].
    exists d, q, b, lo. split; [apply Hrun; vm_compute; lia | done].
  - apply Hout. by vm_compute.
Defined.

(** C1, the claim as worded fails: for the largest [size_t] and three
    devices of weights 1, 1 and 0, the [double] of [n] is [2^64], the
    quotient for the second device is [2^64] again, and its conversion
    to [size_t] is undefined; and when every weight is zero the quotient
    is a NaN, whose conversion is undefined too. *)
Lemma partition_by_vector_perf_undefined :
  size_modulus - 1 < size_modulus /\
  d_of_size (size_modulus - 1) = S754_finite false 4503599627370496 12 /\
  map (fun q => tail_zero_perf (queue_context q) (queue_device q)) sample_queues
  = [d_of_size 1; d_of_size 1; d_zero] /\
  partition_by_vector_perf 16 tail_zero_perf (size_modulus - 1) sample_queues = UB /\
  d_div (d_mul (d_of_size 100) d_zero) d_zero = S754_nan /\
  partition_by_vector_perf 16 zero_perf 100 sample_queues = UB.
Proof. repeat split; by vm_compute. Qed.

(** C8, the claim as worded fails: a sum, whose operator is one of the
    four, throws when an operand is a node of an operator outside them. *)
Lemma supported_operator_throws :
  supported "+" = true /\
  kernel_name (EBin "+" rem_b (EVec vec_b)) = Exn "unknown operation".
Proof. split; reflexivity. Qed.

(** C4, the claim as worded fails: the scalar expression [2.0f] is
    assigned to a [vector<float>] and then, in the same context, to a
    [vector<double>]; the expression type is the same, and the source is
    built twice for the context. *)
Lemma other_element_type_builds_again :
  exists (v1 v2 : vector) (w1 w2 : world),
    assign_expr api_ok vec_a two world0 = (Val v1, w1) /\
    assign_expr api_ok vec_d two w1 = (Val v2, w2) /\
    map queue_context (queue vec_d) = map queue_context (queue vec_a) /\
    builds 7 (calls w1) = 1%nat /\
    builds 7 (calls w2) = 2%nat.
Proof.
  exists vec_a, vec_d, (snd (assign_expr api_ok vec_a two world0)),
    (snd (assign_expr api_ok vec_d two (snd (assign_expr api_ok vec_a two world0)))).
  split; [by vm_compute |]. split; [by vm_compute |]. by vm_compute.
Qed.


(** * The rest of the vector interface: theorems *)

(** ** The contents of a vector *)

Lemma shard_data_nonempty (v : vector) (w : world) (d : nat) (lo hi : N)
    (b : Buffer) (data : list value) :
  part v !! d = Some lo -> part v !! S d = Some hi -> lo < hi ->
  buf v !! d = Some b -> mem w !! b = Some data ->
  shard_data v w d = data.
Proof.
  intros Hlo Hhi Hlt Hb Hm. unfold shard_data.
  rewrite (shard_nonempty_iff v d lo hi Hlo Hhi).
  destruct (N.ltb_spec lo hi); [|lia]. by rewrite Hb, Hm.
Qed.

Lemma shard_data_empty (v : vector) (w : world) (d : nat) (lo hi : N) :
  part v !! d = Some lo -> part v !! S d = Some hi -> hi <= lo ->
  shard_data v w d = [].
Proof.
  intros Hlo Hhi Hle. unfold shard_data.
  rewrite (shard_nonempty_iff v d lo hi Hlo Hhi).
  by destruct (N.ltb_spec lo hi); [lia |].
Qed.

Lemma shard_data_length (v : vector) (w : world) (d : nat) (lo hi : N) :
  wf_vector v = true -> allocated v w = true -> (d < nparts v)%nat ->
  part v !! d = Some lo -> part v !! S d = Some hi ->
  length (shard_data v w d) = N.to_nat (hi - lo).
Proof.
  intros Hwf Ha Hd Hlo Hhi.
  destruct (wf_shard v Hwf d Hd) as (lo' & hi' & q & b & ev & ? & ? & Hle & _ & Hb & _).
  simplify_eq. destruct (N.ltb_spec lo hi) as [Hlt | Hge].
  - destruct (allocated_shard v w d lo hi b Ha Hd Hlo Hhi Hb Hlt) as (old & Hm & Hlen).
    rewrite (shard_data_nonempty v w d lo hi b old); try done. lia.
  - rewrite (shard_data_empty v w d lo hi); try done. simpl. lia.
Qed.

Lemma contents_prefix_length (v : vector) (w : world) :
  wf_vector v = true -> allocated v w = true ->
  forall (d : nat) (p : N),
    (d <= nparts v)%nat -> part v !! d = Some p ->
    length (concat (map (shard_data v w) (seq 0 d))) = N.to_nat p.
Proof.
  intros Hwf Ha. induction d as [|d IH]; intros p Hd Hp.
  - destruct (wf_fields v Hwf) as (_ & _ & _ & H0 & _). by simplify_eq.
  - destruct (wf_shard v Hwf d) as (lo & hi & _ & _ & _ & Hlo & Hhi & Hle & _); [lia |].
    simplify_eq. rewrite seq_S, map_app, concat_app, length_app. simpl.
    rewrite app_nil_r, (IH lo) by (done || lia).
    rewrite (shard_data_length v w d lo p) by (done || lia). lia.
Qed.

Lemma contents_length (v : vector) (w : world) :
  wf_vector v = true -> allocated v w = true ->
  length (contents v w) = N.to_nat (size v).
Proof.
  intros Hwf Ha. apply contents_prefix_length; try done.
  apply (wf_size_lookup v Hwf).
Qed.

(** The element at index [i] of shard [d] is element [i - part[d]] of the
    shard's buffer. *)
Lemma contents_lookup (v : vector) (w : world) (d : nat) (lo hi i : N)
    (b : Buffer) (data : list value) :
  wf_vector v = true -> allocated v w = true -> (d < nparts v)%nat ->
  part v !! d = Some lo -> part v !! S d = Some hi -> lo <= i < hi ->
  buf v !! d = Some b -> mem w !! b = Some data ->
  contents v w !! N.to_nat i = data !! N.to_nat (i - lo).
Proof.
  intros Hwf Ha Hd Hlo Hhi Hi Hb Hm. unfold contents.
  replace (nparts v) with (d + S (nparts v - S d))%nat by lia.
  rewrite seq_app, map_app, concat_app. cbn [seq map concat]. simpl.
  pose proof (contents_prefix_length v w Hwf Ha d lo ltac:(lia) Hlo) as Hpre.
  pose proof (shard_data_length v w d lo hi Hwf Ha Hd Hlo Hhi) as Hlen.
  rewrite (shard_data_nonempty v w d lo hi b data) in * by (done || lia).
  rewrite lookup_app_r by lia. rewrite lookup_app_l by lia.
  f_equal. lia.
Qed.

(** Every index below the size has its shard. *)
Lemma owner_exists (v : vector) (i : N) :
  wf_vector v = true -> i < size v ->
  exists (d : nat) (lo hi : N) (q : CommandQueue) (b : Buffer),
    (d < nparts v)%nat /\ part v !! d = Some lo /\ part v !! S d = Some hi /\
    lo <= i < hi /\ queue v !! d = Some q /\ buf v !! d = Some b /\
    shard_search (S (nparts v)) v i 0 = Done (Val d).
Proof.
  intros Hwf Hi. destruct (wf_fields v Hwf) as (_ & _ & _ & H0 & _).
  destruct (shard_search_in_range v i Hwf Hi (nparts v) 0 0)
    as (d & lo & hi & Hrun & Hd & Hlo & Hhi & Hin); [lia | done | lia |].
  destruct (wf_shard v Hwf d Hd) as (lo' & hi' & q & b & ev & ? & ? & _ & Hq & Hb & _).
  simplify_eq. by exists d, lo, hi, q, b.
Qed.

(** The shard of an index is unique. *)
Lemma owner_unique (v : vector) (i : N) (d1 d2 : nat) (lo1 hi1 lo2 hi2 : N) :
  wf_vector v = true ->
  part v !! d1 = Some lo1 -> part v !! S d1 = Some hi1 -> lo1 <= i < hi1 ->
  part v !! d2 = Some lo2 -> part v !! S d2 = Some hi2 -> lo2 <= i < hi2 ->
  d1 = d2.
Proof.
  intros Hwf Hlo1 Hhi1 H1 Hlo2 Hhi2 H2.
  destruct (wf_fields v Hwf) as (_ & _ & _ & _ & Hs & _).
  destruct (Nat.lt_trichotomy d1 d2) as [Hlt | [Heq | Hgt]]; [|done|].
  - pose proof (sorted_lookup_le _ (S d1) d2 hi1 lo2 Hs ltac:(lia) Hhi1 Hlo2). lia.
  - pose proof (sorted_lookup_le _ (S d2) d1 hi2 lo1 Hs ltac:(lia) Hhi2 Hlo1). lia.
Qed.

(** ** Single elements *)

Lemma lookup_total_take_drop (l : list value) (i : nat) (x : value) :
  l !! i = Some x -> take 1 (drop i l) = [x].
Proof.
  intros H. revert i H.
  induction l as [|y l IH]; intros [|i] H; simplify_eq/=; try done.
  by apply IH.
Qed.

Lemma splice_one (old : list value) (i : nat) (x y : value) :
  old !! i = Some y -> splice old i [x] = <[i := x]> old.
Proof.
  intros H. unfold splice. simpl.
  revert i H.
  induction old as [|z old IH]; intros [|i] H; simplify_eq/=; try done.
  f_equal. by apply IH.
Qed.

Section Element.

Context (v : vector) (Hwf : wf_vector v = true).
Context (w : world) (Halloc : allocated v w = true).
Context (d : nat) (lo hi : N) (q : CommandQueue) (b : Buffer) (old : list value).
Context (Hd : (d < nparts v)%nat).
Context (Hlo : part v !! d = Some lo) (Hhi : part v !! S d = Some hi).
Context (Hq : queue v !! d = Some q) (Hb : buf v !! d = Some b).
Context (Hm : mem w !! b = Some old).
Context (i : N) (Hi : lo <= i < hi).

Lemma element_bytes :
  N.of_nat (length old) = hi - lo /\
  size_mul (i - lo) (sizeof (elem v)) = sizeof (elem v) * (i - lo) /\
  sizeof (elem v) * (i - lo) + sizeof (elem v) <= sizeof (elem v) * N.of_nat (length old).
Proof using Hwf Halloc Hd Hlo Hhi Hb Hm Hi.
  destruct (allocated_shard v w d lo hi b Halloc Hd Hlo Hhi Hb) as (old' & ? & Hlen);
    [lia |]. simplify_eq.
  destruct (shard_bytes v Hwf d lo hi Hlo Hhi) as (_ & _ & Hbytes).
  pose proof (sizeof_pos (elem v)) as Hpos.
  assert (sizeof (elem v) * (i - lo) + sizeof (elem v) <= sizeof (elem v) * (hi - lo)) as Hfit.
  { replace (sizeof (elem v) * (i - lo) + sizeof (elem v))
      with (sizeof (elem v) * (i - lo + 1)) by lia.
    apply N.mul_le_mono_l. lia. }
  split; [done |]. split; [|by rewrite Hlen].
  rewrite N.mul_comm. apply size_mul_small. lia.
Qed.

(** [T(v[i])]: one blocking read of [sizeof(T)] bytes that returns the
    element and leaves the memory as it is. *)
Lemma element_read_ok (x : value) :
  old !! N.to_nat (i - lo) = Some x ->
  element_read (elem v) (MkElement q b (i - lo)) w =
  (Val x,
   MkWorld (mem w)
     (calls w ++ [ReadBuffer (queue_id q) b true
                    (sizeof (elem v) * (i - lo)) (sizeof (elem v)) (next_event w)])
     (next_event w + 1) (statics w)).
Proof using Hwf Halloc Hd Hlo Hhi Hb Hm Hi.
  intros Hx. destruct element_bytes as (Hlen & Hmul & Hfit).
  pose proof (sizeof_pos (elem v)) as Hpos.
  unfold element_read, mbind. cbn [element_queue element_buf element_index].
  rewrite Hmul.
  rewrite (enqueueReadBuffer_ok _ _ _ _ _ _ _ old); [| done | done |].
  - cbn [snd]. rewrite sizeof_div, N.div_same by lia.
    change (N.to_nat 1) with 1%nat.
    rewrite (lookup_total_take_drop old _ x Hx).
    unfold splice, lift, at_. by rewrite take_0.
  - rewrite N.div_same by lia. simpl. lia.
Qed.

(** [v[i] = val]: one blocking write of [sizeof(T)] bytes that replaces
    the element in the buffer of its shard. *)
Lemma element_write_ok (val : value) :
  element_write (elem v) (MkElement q b (i - lo)) val w =
  (Val val,
   MkWorld (<[b := <[N.to_nat (i - lo) := val]> old]> (mem w))
     (calls w ++ [WriteBuffer (queue_id q) b true
                    (sizeof (elem v) * (i - lo)) (sizeof (elem v)) (next_event w)])
     (next_event w + 1) (statics w)).
Proof using Hwf Halloc Hd Hlo Hhi Hb Hm Hi.
  destruct element_bytes as (Hlen & Hmul & Hfit).
  pose proof (sizeof_pos (elem v)) as Hpos.
  destruct (lookup_lt_is_Some_2 old (N.to_nat (i - lo))) as [y Hy]; [lia |].
  unfold element_write, mbind. cbn [element_queue element_buf element_index].
  rewrite Hmul.
  rewrite (enqueueWriteBuffer_ok _ _ _ _ _ _ _ old); [| done | done |].
  - rewrite sizeof_div, N.div_same by lia.
    change (N.to_nat 1) with 1%nat. cbn [take].
    by rewrite (splice_one old _ val y Hy).
  - rewrite N.div_same by lia. simpl. lia.
Qed.

End Element.

(** The contents after the buffer of one shard has been overwritten at
    one place. *)
Lemma contents_store (v : vector) (w w' : world) (d : nat) (lo hi i : N)
    (b : Buffer) (old : list value) (val : value) :
  wf_vector v = true -> allocated v w = true -> (d < nparts v)%nat ->
  part v !! d = Some lo -> part v !! S d = Some hi -> lo <= i < hi ->
  buf v !! d = Some b -> mem w !! b = Some old ->
  mem w' = <[b := <[N.to_nat (i - lo) := val]> old]> (mem w) ->
  allocated v w' = true /\
  contents v w' = <[N.to_nat i := val]> (contents v w).
Proof.
  intros Hwf Ha Hd Hlo Hhi Hi Hb Hm Hw'.
  assert (allocated v w' = true) as Ha'.
  { rewrite <- (allocated_store v w b old (<[N.to_nat (i - lo) := val]> old)
                  (calls w') (next_event w') Ha Hm) by apply length_insert.
    by apply allocated_same_mem. }
  split; [done |].
  destruct (allocated_shard v w d lo hi b Ha Hd Hlo Hhi Hb) as (old' & ? & Hlen);
    [lia |]. simplify_eq.
  apply list_eq. intros j.
  destruct (decide (j < N.to_nat (size v))%nat) as [Hj | Hj].
  - destruct (owner_exists v (N.of_nat j) Hwf ltac:(lia))
      as (d' & lo' & hi' & q' & b' & Hd' & Hlo' & Hhi' & Hin' & _ & Hb' & _).
    destruct (allocated_shard v w d' lo' hi' b' Ha Hd' Hlo' Hhi' Hb') as (old' & Hm' & Hlen');
      [lia |].
    pose proof (contents_lookup v w d' lo' hi' (N.of_nat j) b' old' Hwf Ha Hd' Hlo' Hhi'
                  Hin' Hb' Hm') as Hbefore.
    rewrite Nat2N.id in Hbefore.
    destruct (decide (d' = d)) as [-> | Hdd].
    + simplify_eq.
      pose proof (contents_lookup v w' d lo hi (N.of_nat j) b
                    (<[N.to_nat (i - lo) := val]> old) Hwf Ha' Hd Hlo Hhi Hin' Hb) as Hafter.
      rewrite Nat2N.id, Hw', lookup_insert_eq in Hafter. rewrite Hafter by done.
      destruct (decide (N.of_nat j = i)) as [<- | Hji].
      * rewrite Nat2N.id.
        rewrite list_lookup_insert_eq by lia.
        rewrite list_lookup_insert_eq; [done |].
        rewrite contents_length by done. lia.
      * rewrite !list_lookup_insert_ne by lia. by rewrite Hbefore.
    + assert (b' <> b) as Hbb.
      { intros ->. apply Hdd.
        apply (allocated_distinct v w d' d b); try done.
        - rewrite (shard_nonempty_iff v d' lo' hi' Hlo' Hhi'). apply N.ltb_lt. lia.
        - rewrite (shard_nonempty_iff v d lo hi Hlo Hhi). apply N.ltb_lt. lia. }
      pose proof (contents_lookup v w' d' lo' hi' (N.of_nat j) b' old' Hwf Ha' Hd' Hlo' Hhi'
                    Hin' Hb') as Hafter.
      rewrite Nat2N.id, Hw', lookup_insert_ne in Hafter by done.
      rewrite Hafter by done. rewrite list_lookup_insert_ne; [by rewrite Hbefore |].
      intros Hij. apply Hdd.
      apply (owner_unique v i d' d lo' hi' lo hi); try done. lia.
  - rewrite !lookup_ge_None_2; try done.
    + rewrite length_insert, contents_length by done. lia.
    + rewrite contents_length by done. lia.
Qed.

(** [operator[]] at an index below the size. *)
Lemma operator_index_ok (v : vector) (index : N) :
  wf_vector v = true -> index < size v ->
  exists (d : nat) (lo hi : N) (q : CommandQueue) (b : Buffer),
    (d < nparts v)%nat /\ part v !! d = Some lo /\ part v !! S d = Some hi /\
    lo <= index < hi /\ queue v !! d = Some q /\ buf v !! d = Some b /\
    forall fuel, (S (nparts v) <= fuel)%nat ->
      operator_index fuel v index = Done (Val (d, MkElement q b (index - lo))).
Proof.
  intros Hwf Hi.
  destruct (owner_exists v index Hwf Hi)
    as (d & lo & hi & q & b & Hd & Hlo & Hhi & Hin & Hq & Hb & Hrun).
  exists d, lo, hi, q, b. repeat (split; [done || lia |]).
  intros fuel Hfuel. unfold operator_index.
  rewrite (shard_search_fuel _ _ _ _ _ Hrun fuel Hfuel).
  unfold at_. simpl. rewrite Hq, Hb, Hlo. simpl.
  rewrite size_sub_le by lia. done.
Qed.

(** X1: reading [v[index]] for an index below [size()] returns the
    element of the vector at that index, by one blocking read of
    [sizeof(T)] bytes on the queue of the shard that holds the index; the
    device memory, the events and the kernel cache stay as they are. *)
Theorem element_read_returns_contents (v : vector) (w : world) (index : N) :
  wf_vector v = true -> allocated v w = true -> index < size v ->
  exists (d : nat) (e : element) (x : value),
    (forall fuel, (S (nparts v) <= fuel)%nat ->
       operator_index fuel v index = Done (Val (d, e))) /\
    contents v w !! N.to_nat index = Some x /\
    element_read (elem v) e w =
    (Val x,
     MkWorld (mem w)
       (calls w ++ [ReadBuffer (queue_id (element_queue e)) (element_buf e) true
                      (sizeof (elem v) * element_index e) (sizeof (elem v))
                      (next_event w)])
       (next_event w + 1) (statics w)).
Proof.
  intros Hwf Ha Hi.
  destruct (operator_index_ok v index Hwf Hi)
    as (d & lo & hi & q & b & Hd & Hlo & Hhi & Hin & Hq & Hb & Hrun).
  destruct (allocated_shard v w d lo hi b Ha Hd Hlo Hhi Hb) as (old & Hm & Hlen);
    [lia |].
  destruct (lookup_lt_is_Some_2 old (N.to_nat (index - lo))) as [x Hx]; [lia |].
  exists d, (MkElement q b (index - lo)), x.
  split; [exact Hrun |]. split.
  - by rewrite (contents_lookup v w d lo hi index b old).
  - by apply (element_read_ok v Hwf w Ha d lo hi q b old).
Qed.

(** X2: writing [v[index] = val] for an index below [size()] replaces
    the element at that index and no other, by one blocking write of
    [sizeof(T)] bytes; afterwards reading [v[j]] returns [val] for
    [j = index] and the element that was there before for any other
    [j]. *)
Theorem element_write_updates_contents (v : vector) (w : world) (index : N)
    (val : value) :
  wf_vector v = true -> allocated v w = true -> index < size v ->
  exists (d : nat) (e : element) (w1 : world),
    (forall fuel, (S (nparts v) <= fuel)%nat ->
       operator_index fuel v index = Done (Val (d, e))) /\
    element_write (elem v) e val w = (Val val, w1) /\
    allocated v w1 = true /\
    contents v w1 = <[N.to_nat index := val]> (contents v w) /\
    calls w1 = calls w ++ [WriteBuffer (queue_id (element_queue e)) (element_buf e) true
                             (sizeof (elem v) * element_index e) (sizeof (elem v))
                             (next_event w)] /\
    statics w1 = statics w /\
    (forall j : N, j < size v ->
       exists (dj : nat) (ej : element) (x : value) (w2 : world),
         operator_index (S (nparts v)) v j = Done (Val (dj, ej)) /\
         element_read (elem v) ej w1 = (Val x, w2) /\
         mem w2 = mem w1 /\
         Some x = if decide (j = index) then Some val
                  else contents v w !! N.to_nat j).
Proof.
  intros Hwf Ha Hi.
  destruct (operator_index_ok v index Hwf Hi)
    as (d & lo & hi & q & b & Hd & Hlo & Hhi & Hin & Hq & Hb & Hrun).
  destruct (allocated_shard v w d lo hi b Ha Hd Hlo Hhi Hb) as (old & Hm & Hlen);
    [lia |].
  pose proof (element_write_ok v Hwf w Ha d lo hi q b old Hd Hlo Hhi Hb Hm index Hin val)
    as Hwrite.
  set (w1 := MkWorld (<[b := <[N.to_nat (index - lo) := val]> old]> (mem w)) _ _ _)
    in Hwrite.
  destruct (contents_store v w w1 d lo hi index b old val) as (Ha1 & Hc1); try done.
  exists d, (MkElement q b (index - lo)), w1.
  split; [exact Hrun |]. split; [exact Hwrite |]. split; [exact Ha1 |].
  split; [exact Hc1 |]. split; [done |]. split; [done |].
  intros j Hj.
  destruct (operator_index_ok v j Hwf Hj)
    as (dj & loj & hij & qj & bj & Hdj & Hloj & Hhij & Hinj & Hqj & Hbj & Hrunj).
  destruct (allocated_shard v w1 dj loj hij bj Ha1 Hdj Hloj Hhij Hbj) as (oldj & Hmj & Hlenj);
    [lia |].
  destruct (lookup_lt_is_Some_2 oldj (N.to_nat (j - loj))) as [x Hx]; [lia |].
  exists dj, (MkElement qj bj (j - loj)), x. eexists.
  split; [by apply Hrunj |].
  split; [by apply (element_read_ok v Hwf w1 Ha1 dj loj hij qj bj oldj) |].
  split; [done |].
  rewrite <- Hx, <- (contents_lookup v w1 dj loj hij j bj oldj) by done.
  rewrite Hc1. destruct (decide (j = index)) as [-> | Hne].
  - apply list_lookup_insert_eq. rewrite contents_length by done. lia.
  - apply list_lookup_insert_ne. lia.
Qed.

(** ** Iterators *)

(** The loop of the iterator is the loop of [operator[]]: given more
    units of fuel than the table has entries left, the latter ends with
    the result of the former. *)
Lemma advance_on_search (vec : vector) (pos : N) :
  forall (table : list N) (d fuel : nat),
    drop (d + 1) (part vec) = table -> (length table < fuel)%nat ->
    shard_search fuel vec pos d = Done (advance_on (nparts vec) pos d table).
Proof.
  induction table as [|p table IH]; intros d fuel Hdrop Hfuel.
  - destruct fuel as [|fuel]; [simpl in Hfuel; lia |].
    apply shard_search_off_table. apply drop_nil_inv in Hdrop.
    apply lookup_ge_None_2. lia.
  - destruct fuel as [|fuel]; [simpl in Hfuel; lia |].
    assert (part vec !! S d = Some p) as Hp.
    { rewrite <- (Nat.add_0_r (S d)), <- Nat.add_1_r, <- lookup_drop. by rewrite Hdrop. }
    rewrite (shard_search_step vec pos fuel d p Hp). cbn [advance_on].
    destruct ((p <=? pos) && (d <? nparts vec)%nat); [|done].
    rewrite <- Nat.add_1_r. apply IH; [|simpl in Hfuel; lia].
    rewrite Nat.add_1_r in Hdrop. rewrite (drop_S _ p _ Hp) in Hdrop.
    replace (d + 1 + 1)%nat with (S (S d)) by lia. by injection Hdrop.
Qed.

Lemma advance_search (vec : vector) (pos : N) (d fuel : nat) :
  (length (part vec) - d <= fuel)%nat ->
  (1 <= fuel)%nat ->
  shard_search fuel vec pos d = Done (advance vec pos d).
Proof.
  intros Hfuel H1. apply advance_on_search; [done |].
  rewrite length_drop. lia.
Qed.

Lemma advance_in_range (v : vector) (pos : N) (d : nat) (lo : N) :
  wf_vector v = true -> pos < size v ->
  (d <= nparts v)%nat -> part v !! d = Some lo -> lo <= pos ->
  exists (d' : nat) (lo' hi' : N) (q : CommandQueue) (b : Buffer),
    advance v pos d = Val d' /\ (d' < nparts v)%nat /\
    part v !! d' = Some lo' /\ part v !! S d' = Some hi' /\ lo' <= pos < hi' /\
    queue v !! d' = Some q /\ buf v !! d' = Some b.
Proof.
  intros Hwf Hpos Hd Hlo Hle.
  destruct (wf_fields v Hwf) as (Hl & _).
  destruct (shard_search_in_range v pos Hwf Hpos (nparts v - d) d lo)
    as (d' & lo' & hi' & Hrun & Hd' & Hlo' & Hhi' & Hin); [lia | done | done |].
  rewrite (advance_search v pos d) in Hrun by lia.
  destruct (wf_shard v Hwf d' Hd') as (? & ? & q & b & ? & ? & ? & _ & Hq & Hb & _).
  simplify_eq. by exists d', lo', hi', q, b.
Qed.

Lemma advance_out_of_range (v : vector) (pos : N) (d : nat) :
  wf_vector v = true -> size v <= pos -> (d <= nparts v)%nat ->
  advance v pos d = UB.
Proof.
  intros Hwf Hpos Hd. destruct (wf_fields v Hwf) as (Hl & _).
  pose proof (shard_search_out_of_range v pos Hwf Hpos (nparts v - d) d ltac:(lia)) as Hrun.
  rewrite (advance_search v pos d) in Hrun by lia. by simplify_eq.
Qed.

Lemma wf_part_nonempty (v : vector) : wf_vector v = true -> part v <> [].
Proof.
  intros Hwf Hnil. destruct (wf_fields v Hwf) as (Hl & _).
  rewrite Hnil in Hl. done.
Qed.

Lemma iterator_new_in_range (v : vector) (pos : N) :
  wf_vector v = true -> pos < size v ->
  exists (d : nat) (lo hi : N) (q : CommandQueue) (b : Buffer),
    iterator_new v pos = Val (iterator_type.Mk pos d) /\ (d < nparts v)%nat /\
    part v !! d = Some lo /\ part v !! S d = Some hi /\ lo <= pos < hi /\
    queue v !! d = Some q /\ buf v !! d = Some b.
Proof.
  intros Hwf Hpos. destruct (wf_fields v Hwf) as (_ & _ & _ & H0 & _).
  destruct (advance_in_range v pos 0 0 Hwf Hpos ltac:(lia) H0 ltac:(lia))
    as (d & lo & hi & q & b & Hrun & Hrest).
  exists d, lo, hi, q, b. split; [|done].
  unfold iterator_new.
  rewrite bool_decide_eq_false_2 by (by apply wf_part_nonempty).
  by rewrite Hrun.
Qed.

(** X3: an iterator made for a position below [size()] holds the shard
    of that position, and dereferencing it gives the element that
    [operator[]] gives at the position: the queue and the buffer of the
    shard and the offset of the position in the shard. *)
Theorem iterator_agrees_with_operator_index (v : vector) (pos : N) :
  wf_vector v = true -> pos < size v ->
  exists (it : iterator_type.t) (e : element) (lo hi : N),
    iterator_new v pos = Val it /\
    iterator_type.pos it = pos /\
    part v !! iterator_type.part it = Some lo /\
    part v !! S (iterator_type.part it) = Some hi /\
    lo <= pos < hi /\
    iterator_deref v it = Val e /\
    element_index e = pos - lo /\
    forall fuel, (S (nparts v) <= fuel)%nat ->
      operator_index fuel v pos = Done (Val (iterator_type.part it, e)).
Proof.
  intros Hwf Hpos.
  destruct (iterator_new_in_range v pos Hwf Hpos)
    as (d & lo & hi & q & b & Hnew & Hd & Hlo & Hhi & Hin & Hq & Hb).
  exists (iterator_type.Mk pos d), (MkElement q b (pos - lo)), lo, hi.
  split; [done |]. split; [done |]. split; [done |]. split; [done |].
  split; [done |]. split.
  - unfold iterator_deref, at_. simpl. rewrite Hq, Hb, Hlo. simpl.
    by rewrite size_sub_le by lia.
  - split; [done |]. intros fuel Hfuel.
    destruct (operator_index_ok v pos Hwf Hpos)
      as (d' & lo' & hi' & q' & b' & Hd' & Hlo' & Hhi' & Hin' & Hq' & Hb' & Hrun).
    assert (d' = d) as ->
        by (by apply (owner_unique v pos d' d lo' hi' lo hi)).
    simplify_eq. by apply Hrun.
Qed.

(** One increment of an iterator that holds the shard of its position. *)
Lemma iterator_incr_step (v : vector) (pos : N) (d : nat) (lo : N) :
  wf_vector v = true -> pos + 1 < size v ->
  part v !! d = Some lo -> lo <= pos -> (d <= nparts v)%nat ->
  iterator_incr v (iterator_type.Mk pos d) = iterator_new v (pos + 1).
Proof.
  intros Hwf Hpos Hlo Hle Hd.
  pose proof (wf_size_bound v Hwf) as Hbound.
  destruct (iterator_new_in_range v (pos + 1) Hwf Hpos)
    as (d1 & lo1 & hi1 & q1 & b1 & Hnew & Hd1 & Hlo1 & Hhi1 & Hin1 & _).
  destruct (advance_in_range v (pos + 1) d lo Hwf Hpos Hd Hlo ltac:(lia))
    as (d2 & lo2 & hi2 & q2 & b2 & Hrun & Hd2 & Hlo2 & Hhi2 & Hin2 & _).
  assert (d2 = d1) as ->
      by (by apply (owner_unique v (pos + 1) d2 d1 lo2 hi2 lo1 hi1)).
  unfold iterator_incr. cbn [iterator_type.pos iterator_type.part].
  rewrite size_add_small by lia. by rewrite Hrun, Hnew.
Qed.

(** X4: incrementing the iterator [begin()] [k] times gives the iterator
    that the constructor makes for position [k], as long as that
    position is below [size()]: [++] keeps the shard number in step with
    the position. *)
Theorem iterator_increment_agrees_with_constructor (v : vector) (k : nat) :
  wf_vector v = true -> N.of_nat k < size v ->
  exists d : nat,
    incremented v k (vector_begin v) = Val (iterator_type.Mk (N.of_nat k) d) /\
    iterator_new v (N.of_nat k) = Val (iterator_type.Mk (N.of_nat k) d).
Proof.
  intros Hwf. induction k as [|k IH]; intros Hk.
  - destruct (iterator_new_in_range v 0 Hwf Hk) as (d & lo & hi & q & b & Hnew & _).
    exists d. by split.
  - destruct IH as (d & Hrun & Hnew); [lia |].
    destruct (iterator_new_in_range v (N.of_nat k) Hwf ltac:(lia))
      as (d' & lo & hi & q & b & Hnew' & Hd & Hlo & _ & Hin & _).
    rewrite Hnew in Hnew'. simplify_eq.
    destruct (iterator_new_in_range v (N.of_nat (S k)) Hwf Hk)
      as (d1 & lo1 & hi1 & q1 & b1 & Hnew1 & _).
    exists d1. split; [|done].
    unfold incremented in *. rewrite Nat.iter_succ, Hrun. cbn [bind].
    rewrite (iterator_incr_step v (N.of_nat k) d' lo); try done; try lia.
    by replace (N.of_nat k + 1) with (N.of_nat (S k)) by lia.
Qed.

(** X5: for a position at or past [size()] the loop of the iterator reads
    the partition table one entry past its end.  So [end()] is undefined
    for every vector with a partition table, [begin()] is undefined for
    a vector of size 0, and so is [++] on an iterator at the last
    element.  Only for a vector without a partition table, as the empty
    constructor leaves it, the loop is skipped. *)
Theorem iterator_at_end_reads_past_table (v : vector) (pos : N)
    (it : iterator_type.t) :
  (wf_vector v = true ->
   (size v <= pos -> iterator_new v pos = UB) /\
   vector_end v = UB /\
   (size v = 0 -> vector_begin v = UB) /\
   (iterator_type.pos it + 1 = size v ->
    (iterator_type.part it <= nparts v)%nat -> iterator_incr v it = UB)) /\
  (part v = [] ->
   vector_begin v = Val (iterator_type.Mk 0 0) /\
   vector_end v = Val (iterator_type.Mk 0 0)).
Proof.
  split.
  - intros Hwf.
    assert (forall p, size v <= p -> iterator_new v p = UB) as Hnew.
    { intros p Hp. unfold iterator_new.
      rewrite bool_decide_eq_false_2 by (by apply wf_part_nonempty).
      by rewrite advance_out_of_range by (done || lia). }
    split; [apply Hnew |]. split; [apply Hnew; lia |].
    split; [intros Hz; apply Hnew; lia |].
    intros Hlast Hpart. pose proof (wf_size_bound v Hwf) as Hbound.
    unfold iterator_incr. rewrite size_add_small by lia.
    by rewrite advance_out_of_range by (done || lia).
  - intros Hnil. unfold vector_begin, vector_end, iterator_new, size.
    rewrite bool_decide_eq_true_2 by done. by rewrite Hnil.
Qed.

(** ** Iterator arithmetic *)

Lemma size_modulus_value : size_modulus = 18446744073709551616.
Proof. reflexivity. Qed.

Lemma mod_once (x : N) :
  size_modulus <= x < 2 * size_modulus -> x mod size_modulus = x - size_modulus.
Proof.
  intros H. symmetry. apply (N.mod_unique x size_modulus 1); [|lia].
  rewrite size_modulus_value in *. lia.
Qed.

Lemma to_size_bound (d : Z) : to_size d < size_modulus.
Proof.
  unfold to_size. rewrite size_modulus_value.
  pose proof (Z.mod_pos_bound d 18446744073709551616 ltac:(lia)). simpl. lia.
Qed.

Lemma to_ptrdiff_to_size (d : Z) :
  (- 9223372036854775808 <= d < 9223372036854775808)%Z ->
  to_ptrdiff (to_size d) = d.
Proof.
  intros Hd. unfold to_ptrdiff, to_size. rewrite size_modulus_value.
  change (Z.of_N 18446744073709551616) with 18446744073709551616%Z.
  change (18446744073709551616 / 2) with 9223372036854775808.
  destruct (Z.neg_nonneg_cases d) as [Hneg | Hpos].
  - assert (d mod 18446744073709551616 = d + 18446744073709551616)%Z as ->.
    { symmetry. apply (Z.mod_unique d _ (-1)); lia. }
    destruct (N.ltb_spec (Z.to_N (d + 18446744073709551616)) 9223372036854775808); lia.
  - rewrite Z.mod_small by lia.
    destruct (N.ltb_spec (Z.to_N d) 9223372036854775808); lia.
Qed.

Lemma to_size_to_ptrdiff (n : N) : n < size_modulus -> to_size (to_ptrdiff n) = n.
Proof.
  intros Hn. unfold to_ptrdiff, to_size. rewrite size_modulus_value in *.
  change (Z.of_N 18446744073709551616) with 18446744073709551616%Z.
  change (18446744073709551616 / 2) with 9223372036854775808.
  destruct (N.ltb_spec n 9223372036854775808).
  - rewrite Z.mod_small by lia. lia.
  - assert ((Z.of_N n - 18446744073709551616) mod 18446744073709551616 = Z.of_N n)%Z as ->.
    { symmetry. apply (Z.mod_unique _ _ (-1)); lia. }
    lia.
Qed.

Lemma size_sub_add (a b : N) :
  a < size_modulus -> b < size_modulus -> size_sub (size_add a b) a = b.
Proof.
  intros Ha Hb. unfold size_sub, size_add.
  destruct (N.lt_ge_cases (a + b) size_modulus) as [Hsmall | Hbig].
  - rewrite N.mod_small by done. destruct (N.leb_spec a (a + b)); lia.
  - rewrite mod_once by lia. destruct (N.leb_spec a (a + b - size_modulus)); lia.
Qed.

Lemma size_add_sub (a b : N) :
  a < size_modulus -> b < size_modulus -> size_add a (size_sub b a) = b.
Proof.
  intros Ha Hb. unfold size_sub, size_add.
  destruct (N.leb_spec a b).
  - replace (a + (b - a)) with b by lia. by apply N.mod_small.
  - rewrite mod_once by lia. lia.
Qed.

Lemma size_sub_bound (a b : N) :
  a < size_modulus -> b < size_modulus -> size_sub a b < size_modulus.
Proof. intros Ha Hb. unfold size_sub. destruct (N.leb_spec b a); lia. Qed.

Lemma iterator_new_pos (v : vector) (pos : N) (it : iterator_type.t) :
  iterator_new v pos = Val it -> iterator_type.pos it = pos.
Proof.
  unfold iterator_new. destruct (bool_decide (part v = [])); [by intros [= <-] |].
  destruct (advance v pos 0); simpl; [by intros [= <-] | done..].
Qed.

(** X6: the difference of two iterators undoes the sum, in [size_t] and
    [ptrdiff_t] arithmetic with its wrap-around: if [it + n] is made,
    then [(it + n) - it] is [n] and the two compare equal exactly when
    [n] is 0; and for any two iterators of a vector [it + (this - it)] is
    made for the position of [this]. *)
Theorem iterator_difference_undoes_sum (v : vector) (this it jt : iterator_type.t)
    (n : Z) :
  iterator_type.pos it < size_modulus ->
  iterator_type.pos this < size_modulus ->
  (- 9223372036854775808 <= n < 9223372036854775808)%Z ->
  (iterator_plus v it n = Val jt ->
   iterator_minus jt it = n /\
   iterator_eq jt it = (n =? 0)%Z /\
   iterator_ne jt it = negb (n =? 0)%Z) /\
  iterator_plus v it (iterator_minus this it) = iterator_new v (iterator_type.pos this) /\
  (- 9223372036854775808 <= iterator_minus this it < 9223372036854775808)%Z.
Proof.
  intros Hit Hthis Hn. split; [|split].
  - intros Hplus. apply iterator_new_pos in Hplus.
    assert (iterator_minus jt it = n) as Hminus.
    { unfold iterator_minus. rewrite Hplus.
      rewrite size_sub_add by (done || apply to_size_bound).
      by apply to_ptrdiff_to_size. }
    split; [done |].
    assert (iterator_eq jt it = (n =? 0)%Z) as Heq.
    { unfold iterator_eq. rewrite Hplus.
      pose proof (to_size_bound n) as Hb.
      destruct (Z.eqb_spec n 0) as [-> | Hne].
      - change (to_size 0) with 0. unfold size_add. rewrite N.add_0_r.
        rewrite N.mod_small by done. apply N.eqb_refl.
      - apply N.eqb_neq. intros Heq. apply Hne.
        rewrite <- Hminus. unfold iterator_minus. rewrite Hplus, Heq.
        unfold size_sub. rewrite N.leb_refl, N.sub_diag. done. }
    split; [done |]. unfold iterator_ne. fold (iterator_eq jt it). by rewrite Heq.
  - unfold iterator_plus, iterator_minus.
    rewrite to_size_to_ptrdiff by (by apply size_sub_bound).
    by rewrite size_add_sub.
  - unfold iterator_minus, to_ptrdiff.
    pose proof (size_sub_bound _ _ Hthis Hit) as Hb.
    rewrite size_modulus_value in *.
    change (18446744073709551616 / 2) with 9223372036854775808.
    change (Z.of_N 18446744073709551616) with 18446744073709551616%Z.
    destruct (N.ltb_spec (size_sub (iterator_type.pos this) (iterator_type.pos it))
                9223372036854775808); lia.
Qed.

(** ** Transfers of a range *)

Lemma lookup_splice (old data : list value) (off j : nat) :
  (off + length data <= length old)%nat ->
  splice old off data !! j =
  if decide (off <= j < off + length data)%nat then data !! (j - off)%nat
  else old !! j.
Proof.
  intros Hfit. unfold splice.
  destruct (decide (off <= j < off + length data)%nat) as [Hin | Hout].
  - rewrite lookup_app_r by (rewrite length_take; lia).
    rewrite length_take, lookup_app_l by lia. f_equal. lia.
  - destruct (decide (j < off)%nat).
    + rewrite lookup_app_l by (rewrite length_take; lia).
      by apply lookup_take_lt.
    + rewrite lookup_app_r by (rewrite length_take; lia).
      rewrite length_take, lookup_app_r by lia.
      rewrite lookup_drop. f_equal. lia.
Qed.

Lemma splice_length (old data : list value) (off : nat) :
  (off + length data <= length old)%nat ->
  length (splice old off data) = length old.
Proof.
  intros H. unfold splice. rewrite !length_app, length_take, length_drop. lia.
Qed.

Lemma for_step {S : Type} (d : nat) (ds : list nat) (body : nat -> S -> M S)
    (s s' : S) (w w' : world) :
  body d s w = (Val s', w') ->
  for_ (d :: ds) body s w = for_ ds body s' w'.
Proof. intros H. cbn [for_]. unfold mbind. by rewrite H. Qed.

(** The contents after a range of the buffer of one shard has been
    overwritten. *)
Lemma contents_splice (v : vector) (w w' : world) (d : nat) (lo hi : N)
    (b : Buffer) (old data : list value) (off : nat) :
  wf_vector v = true -> allocated v w = true -> (d < nparts v)%nat ->
  part v !! d = Some lo -> part v !! S d = Some hi -> lo < hi ->
  buf v !! d = Some b -> mem w !! b = Some old ->
  (off + length data <= length old)%nat ->
  mem w' = <[b := splice old off data]> (mem w) ->
  allocated v w' = true /\
  forall j : nat,
    contents v w' !! j =
    if decide (N.to_nat lo + off <= j < N.to_nat lo + off + length data)%nat
    then data !! (j - N.to_nat lo - off)%nat
    else contents v w !! j.
Proof.
  intros Hwf Ha Hd Hlo Hhi Hlt Hb Hm Hfit Hw'.
  assert (allocated v w' = true) as Ha'.
  { rewrite <- (allocated_store v w b old (splice old off data)
                  (calls w') (next_event w') Ha Hm) by (by apply splice_length).
    by apply allocated_same_mem. }
  split; [done |].
  destruct (allocated_shard v w d lo hi b Ha Hd Hlo Hhi Hb Hlt) as (old' & ? & Hlen).
  simplify_eq.
  destruct (shard_bytes v Hwf d lo hi Hlo Hhi) as (_ & Hhi_le & _).
  intros j. destruct (decide (j < N.to_nat (size v))%nat) as [Hj | Hj].
  - destruct (owner_exists v (N.of_nat j) Hwf ltac:(lia))
      as (d' & lo' & hi' & q' & b' & Hd' & Hlo' & Hhi' & Hin' & _ & Hb' & _).
    destruct (allocated_shard v w d' lo' hi' b' Ha Hd' Hlo' Hhi' Hb') as (old' & Hm' & Hlen');
      [lia |].
    pose proof (contents_lookup v w d' lo' hi' (N.of_nat j) b' old' Hwf Ha Hd' Hlo' Hhi'
                  Hin' Hb' Hm') as Hbefore.
    rewrite Nat2N.id in Hbefore.
    destruct (decide (d' = d)) as [-> | Hdd].
    + simplify_eq.
      pose proof (contents_lookup v w' d lo hi (N.of_nat j) b (splice old off data)
                    Hwf Ha' Hd Hlo Hhi Hin' Hb) as Hafter.
      rewrite Nat2N.id, Hw', lookup_insert_eq in Hafter. rewrite Hafter by done.
      rewrite lookup_splice by done. rewrite Hbefore.
      destruct (decide (off <= N.to_nat (N.of_nat j - lo) < off + length data)%nat);
        destruct (decide (N.to_nat lo + off <= j < N.to_nat lo + off + length data)%nat);
        try lia; try done.
      f_equal. lia.
    + assert (b' <> b) as Hbb.
      { intros ->. apply Hdd.
        apply (allocated_distinct v w d' d b); try done.
        - rewrite (shard_nonempty_iff v d' lo' hi' Hlo' Hhi'). apply N.ltb_lt. lia.
        - rewrite (shard_nonempty_iff v d lo hi Hlo Hhi). by apply N.ltb_lt. }
      pose proof (contents_lookup v w' d' lo' hi' (N.of_nat j) b' old' Hwf Ha' Hd' Hlo' Hhi'
                    Hin' Hb') as Hafter.
      rewrite Nat2N.id, Hw', lookup_insert_ne in Hafter by done.
      rewrite Hafter by done. rewrite Hbefore.
      rewrite decide_False; [done |]. intros Hin. apply Hdd.
      apply (owner_unique v (N.of_nat j) d' d lo' hi' lo hi); try done. lia.
  - rewrite decide_False by lia.
    rewrite !lookup_ge_None_2; try done; rewrite contents_length by done; lia.
Qed.

Lemma shard_data_same_mem (v : vector) (w w' : world) (d : nat) :
  mem w' = mem w -> shard_data v w' d = shard_data v w d.
Proof. intros Hm. unfold shard_data. by rewrite Hm. Qed.

Lemma contents_same_mem (v : vector) (w w' : world) :
  mem w' = mem w -> contents v w' = contents v w.
Proof.
  intros Hm. unfold contents. f_equal. apply map_ext. intros d.
  by apply shard_data_same_mem.
Qed.

Section RangeTransfer.

Context (v : vector) (Hwf : wf_vector v = true).
Context (offset length_ : N) (Hrange : offset + length_ < size_modulus).

Lemma shard_range_ok (evs : list Event) (d : nat) (lo hi : N) :
  part v !! d = Some lo -> part v !! S d = Some hi ->
  shard_range (with_events v evs) offset length_ d =
  Val (N.max offset lo, N.min (offset + length_) hi, lo).
Proof using Hrange.
  intros Hlo Hhi. unfold shard_range, at_. simpl.
  rewrite Hlo. simpl. rewrite Nat.add_1_r, Hhi. simpl.
  by rewrite size_add_small.
Qed.

Lemma intersects_ok (d : nat) (lo hi : N) :
  part v !! d = Some lo -> part v !! S d = Some hi ->
  intersects v offset length_ d = (N.max offset lo <? N.min (offset + length_) hi).
Proof. intros Hlo Hhi. unfold intersects. by rewrite Hlo, Hhi. Qed.

(** The byte counts of the part of the range in a shard. *)
Lemma range_bytes (d : nat) (lo hi : N) :
  part v !! d = Some lo -> part v !! S d = Some hi ->
  N.max offset lo < N.min (offset + length_) hi ->
  let start := N.max offset lo in
  let stop := N.min (offset + length_) hi in
  size_mul (sizeof (elem v)) (size_sub start lo) = sizeof (elem v) * (start - lo) /\
  size_mul (sizeof (elem v)) (size_sub stop start) = sizeof (elem v) * (stop - start) /\
  size_sub start offset = start - offset /\
  sizeof (elem v) * (start - lo) + sizeof (elem v) * (stop - start)
  <= sizeof (elem v) * (hi - lo).
Proof using Hwf Hrange.
  intros Hlo Hhi Hhit start stop.
  destruct (shard_bytes v Hwf d lo hi Hlo Hhi) as (Hle & Hhi_le & Hbytes).
  pose proof (sizeof_pos (elem v)) as Hpos.
  assert (forall n, n <= hi - lo -> sizeof (elem v) * n < size_modulus) as Hsmall.
  { intros n Hn. eapply N.le_lt_trans; [|exact Hbytes]. by apply N.mul_le_mono_l. }
  rewrite !size_sub_le by (subst start stop; lia).
  rewrite !size_mul_small by (apply Hsmall; subst start stop; lia).
  repeat split; try done.
  rewrite <- N.mul_add_distr_l. apply N.mul_le_mono_l. subst start stop. lia.
Qed.

(** One iteration of the loop of [write_data]. *)
Lemma write_shard_range (host : list value) (evs : list Event) (w : world)
    (d : nat) (lo hi : N) (q : CommandQueue) (b : Buffer) (ev0 : Event)
    (old : list value) :
  part v !! d = Some lo -> part v !! S d = Some hi ->
  queue v !! d = Some q -> buf v !! d = Some b -> evs !! d = Some ev0 ->
  (N.max offset lo < N.min (offset + length_) hi ->
   mem w !! b = Some old /\ N.of_nat (length old) = hi - lo /\
   N.min (offset + length_) hi - offset <= N.of_nat (length host)) ->
  write_shard offset length_ host d (with_events v evs) w =
  if N.max offset lo <? N.min (offset + length_) hi then
    (Val (with_events v (<[d := next_event w]> evs)),
     MkWorld
       (<[b := splice old (N.to_nat (N.max offset lo - lo))
                 (take (N.to_nat (N.min (offset + length_) hi - N.max offset lo))
                    (drop (N.to_nat (N.max offset lo - offset)) host))]> (mem w))
       (calls w ++ [WriteBuffer (queue_id q) b false
                      (sizeof (elem v) * (N.max offset lo - lo))
                      (sizeof (elem v) * (N.min (offset + length_) hi - N.max offset lo))
                      (next_event w)])
       (next_event w + 1) (statics w))
  else (Val (with_events v evs), w).
Proof using Hwf Hrange.
  intros Hlo Hhi Hq Hb Hev Hold.
  unfold write_shard, mbind, lift.
  rewrite (shard_range_ok evs d lo hi Hlo Hhi).
  destruct (N.ltb_spec (N.max offset lo) (N.min (offset + length_) hi)) as [Hhit | Hmiss].
  - destruct (N.leb_spec (N.min (offset + length_) hi) (N.max offset lo)); [lia |].
    destruct (Hold Hhit) as (Hmem & Hlen & Hhost).
    destruct (range_bytes d lo hi Hlo Hhi Hhit) as (Hb1 & Hb2 & Hb3 & Hfit).
    unfold at_. simpl. rewrite Hq, Hb, Hev. cbn [elem with_events].
    rewrite Hb1, Hb2, Hb3.
    rewrite (enqueueWriteBuffer_ok _ _ _ _ _ _ _ old); [| done | lia |].
    + by rewrite !sizeof_div.
    + rewrite sizeof_div, length_drop. lia.
  - by destruct (N.leb_spec (N.min (offset + length_) hi) (N.max offset lo)); [|lia].
Qed.

(** One iteration of the loop of [read_data]. *)
Lemma read_shard_range (evs : list Event) (out : list value) (w : world)
    (d : nat) (lo hi : N) (q : CommandQueue) (b : Buffer) (ev0 : Event)
    (old : list value) :
  part v !! d = Some lo -> part v !! S d = Some hi ->
  queue v !! d = Some q -> buf v !! d = Some b -> evs !! d = Some ev0 ->
  (N.max offset lo < N.min (offset + length_) hi ->
   mem w !! b = Some old /\ N.of_nat (length old) = hi - lo /\
   N.min (offset + length_) hi - offset <= N.of_nat (length out)) ->
  read_shard offset length_ d (with_events v evs, out) w =
  if N.max offset lo <? N.min (offset + length_) hi then
    (Val (with_events v (<[d := next_event w]> evs),
          splice out (N.to_nat (N.max offset lo - offset))
            (take (N.to_nat (N.min (offset + length_) hi - N.max offset lo))
               (drop (N.to_nat (N.max offset lo - lo)) old))),
     MkWorld (mem w)
       (calls w ++ [ReadBuffer (queue_id q) b false
                      (sizeof (elem v) * (N.max offset lo - lo))
                      (sizeof (elem v) * (N.min (offset + length_) hi - N.max offset lo))
                      (next_event w)])
       (next_event w + 1) (statics w))
  else (Val (with_events v evs, out), w).
Proof using Hwf Hrange.
  intros Hlo Hhi Hq Hb Hev Hold.
  unfold read_shard, mbind, lift. cbn [fst snd].
  rewrite (shard_range_ok evs d lo hi Hlo Hhi).
  destruct (N.ltb_spec (N.max offset lo) (N.min (offset + length_) hi)) as [Hhit | Hmiss].
  - destruct (N.leb_spec (N.min (offset + length_) hi) (N.max offset lo)); [lia |].
    destruct (Hold Hhit) as (Hmem & Hlen & Hhost).
    destruct (range_bytes d lo hi Hlo Hhi Hhit) as (Hb1 & Hb2 & Hb3 & Hfit).
    unfold at_. simpl. rewrite Hq, Hb, Hev. cbn [elem with_events].
    rewrite Hb1, Hb2, Hb3.
    rewrite (enqueueReadBuffer_ok _ _ _ _ _ _ _ old); [| done | lia |].
    + by rewrite !sizeof_div.
    + rewrite sizeof_div. lia.
  - by destruct (N.leb_spec (N.min (offset + length_) hi) (N.max offset lo)); [|lia].
Qed.

(** The loop of [write_data] from shard [a] on: it issues the transfers
    of the shards that meet the range and replaces the elements of the
    range by those of the host array. *)
Lemma write_loop_range (host : list value)
    (Hhost : moved v offset length_ <= N.of_nat (length host)) (m : nat) :
  forall (a : nat) (evs : list Event) (w : world) (pa : N),
    (a + m = nparts v)%nat -> length evs = nparts v ->
    allocated v w = true -> next_event w <> 0 -> part v !! a = Some pa ->
    exists (evs' : list Event) (w' : world) (new : list call),
      for_ (seq a m) (write_shard offset length_ host) (with_events v evs) w =
      (Val (with_events v evs'), w') /\
      length evs' = nparts v /\ allocated v w' = true /\ next_event w' <> 0 /\
      statics w' = statics w /\
      calls w' = calls w ++ new /\
      Forall2 (transfer_of WriteBuffer v offset length_ evs')
        (filter (fun d => Is_true (intersects v offset length_ d)) (seq a m)) new /\
      (forall d, (d < a)%nat -> evs' !! d = evs !! d) /\
      (forall j : nat,
         contents v w' !! j =
         if decide (N.max offset pa <= N.of_nat j < N.min (offset + length_) (size v))
         then host !! (j - N.to_nat offset)%nat
         else contents v w !! j).
Proof using Hwf Hrange.
  unfold moved in Hhost.
  induction m as [|m IH]; intros a evs w pa Ha Hevs Halloc Hne Hpa.
  - exists evs, w, []. rewrite app_nil_r. repeat split; try done.
    intros j. rewrite Nat.add_0_r in Ha. subst a.
    rewrite (wf_size_lookup v Hwf) in Hpa. simplify_eq.
    by rewrite decide_False by lia.
  - destruct (wf_shard v Hwf a) as (lo & hi & q & b & ev0 & Hlo & Hhi & Hle & Hq & Hb & _);
      [lia |].
    assert (pa = lo) as -> by congruence. clear Hpa.
    destruct (lookup_lt_is_Some_2 evs a) as [e0 He0]; [lia |].
    pose proof (intersects_ok a lo hi Hlo Hhi) as Hint.
    cbn [seq]. rewrite filter_cons.
    destruct (N.ltb_spec (N.max offset lo) (N.min (offset + length_) hi)) as [Hhit | Hmiss].
    + destruct (allocated_shard v w a lo hi b Halloc ltac:(lia) Hlo Hhi Hb ltac:(lia))
        as (old & Hmem & Hlen).
      assert (N.min (offset + length_) hi - offset <= N.of_nat (length host)) as Hfits
          by lia.
      pose proof (write_shard_range host evs w a lo hi q b e0 old Hlo Hhi Hq Hb He0
                    (fun _ => conj Hmem (conj Hlen Hfits))) as Hstep.
      assert ((N.max offset lo <? N.min (offset + length_) hi) = true) as Hhit'
          by (by apply N.ltb_lt).
      rewrite Hhit' in Hstep.
      set (data := take (N.to_nat (N.min (offset + length_) hi - N.max offset lo))
                     (drop (N.to_nat (N.max offset lo - offset)) host)) in *.
      assert (length data = N.to_nat (N.min (offset + length_) hi - N.max offset lo))
        as Hdata by (subst data; rewrite length_take, length_drop; lia).
      set (w1 := MkWorld _ _ _ _) in Hstep.
      destruct (contents_splice v w w1 a lo hi b old data (N.to_nat (N.max offset lo - lo)))
        as (Halloc1 & Hc1); try done; try lia.
      destruct (IH (S a) (<[a := next_event w]> evs) w1 hi)
        as (evs' & w' & new & Hrun & Hlen' & Halloc' & Hne' & Hst & Hcalls
            & Hnew & Hframe & Hc); try done.
      * lia.
      * by rewrite length_insert.
      * simpl. lia.
      * exists evs', w', (WriteBuffer (queue_id q) b false
                            (sizeof (elem v) * (N.max offset lo - lo))
                            (sizeof (elem v) * (N.min (offset + length_) hi - N.max offset lo))
                            (next_event w) :: new).
        split; [by rewrite (for_step _ _ _ _ _ _ _ Hstep) |].
        split; [done |]. split; [done |]. split; [done |].
        split; [by rewrite Hst |].
        split; [rewrite Hcalls; simpl; by rewrite <- app_assoc |].
        split.
        { rewrite decide_True by (rewrite Hint; exact I).
          apply Forall2_cons. split; [|done].
          exists q, b, lo, hi, (next_event w). repeat split; try done.
          rewrite Hframe by lia. apply list_lookup_insert_eq. lia. }
        split.
        { intros d Hd. rewrite Hframe by lia. apply list_lookup_insert_ne. lia. }
        intros j. rewrite Hc, Hc1.
        destruct (decide (N.max offset hi <= N.of_nat j < N.min (offset + length_) (size v)));
          destruct (decide (N.max offset lo <= N.of_nat j < N.min (offset + length_) (size v)));
          try lia; try done.
        -- rewrite decide_True by lia. subst data.
           rewrite lookup_take_lt by lia. rewrite lookup_drop. f_equal. lia.
        -- by rewrite decide_False by lia.
    + pose proof (write_shard_range host evs w a lo hi q b e0 [] Hlo Hhi Hq Hb He0)
        as Hstep.
      assert ((N.max offset lo <? N.min (offset + length_) hi) = false) as Hmiss'
          by (by apply N.ltb_ge).
      rewrite Hmiss' in Hstep.
      specialize (Hstep ltac:(lia)).
      destruct (IH (S a) evs w hi)
        as (evs' & w' & new & Hrun & Hlen' & Halloc' & Hne' & Hst & Hcalls
            & Hnew & Hframe & Hc); try done; [lia |].
      exists evs', w', new.
      split; [by rewrite (for_step _ _ _ _ _ _ _ Hstep) |].
      repeat (split; [done |]).
      split; [rewrite decide_False by (rewrite Hint; exact id); done |].
      split; [intros d Hd; apply Hframe; lia |].
      intros j. rewrite Hc.
      destruct (decide (N.max offset hi <= N.of_nat j < N.min (offset + length_) (size v)));
        destruct (decide (N.max offset lo <= N.of_nat j < N.min (offset + length_) (size v)));
        try lia; done.
Qed.

(** The loop of [read_data] from shard [a] on: it issues the transfers of
    the shards that meet the range and copies the elements of the range
    to the host array; the device memory stays as it is. *)
Lemma read_loop_range (m : nat) :
  forall (a : nat) (evs : list Event) (out : list value) (w : world) (pa : N),
    (a + m = nparts v)%nat -> length evs = nparts v ->
    allocated v w = true -> next_event w <> 0 ->
    moved v offset length_ <= N.of_nat (length out) ->
    part v !! a = Some pa ->
    exists (evs' : list Event) (out' : list value) (w' : world) (new : list call),
      for_ (seq a m) (read_shard offset length_) (with_events v evs, out) w =
      (Val (with_events v evs', out'), w') /\
      length evs' = nparts v /\ mem w' = mem w /\ next_event w' <> 0 /\
      statics w' = statics w /\
      calls w' = calls w ++ new /\
      Forall2 (transfer_of ReadBuffer v offset length_ evs')
        (filter (fun d => Is_true (intersects v offset length_ d)) (seq a m)) new /\
      (forall d, (d < a)%nat -> evs' !! d = evs !! d) /\
      length out' = length out /\
      (forall j : nat,
         out' !! j =
         if decide (N.max offset pa <= offset + N.of_nat j
                    < N.min (offset + length_) (size v))
         then contents v w !! (N.to_nat offset + j)%nat
         else out !! j).
Proof using Hwf Hrange.
  unfold moved.
  induction m as [|m IH]; intros a evs out w pa Ha Hevs Halloc Hne Hout Hpa.
  - exists evs, out, w, []. rewrite app_nil_r. repeat split; try done.
    intros j. rewrite Nat.add_0_r in Ha. subst a.
    rewrite (wf_size_lookup v Hwf) in Hpa. simplify_eq.
    by rewrite decide_False by lia.
  - destruct (wf_shard v Hwf a) as (lo & hi & q & b & ev0 & Hlo & Hhi & Hle & Hq & Hb & _);
      [lia |].
    assert (pa = lo) as -> by congruence. clear Hpa.
    destruct (lookup_lt_is_Some_2 evs a) as [e0 He0]; [lia |].
    pose proof (intersects_ok a lo hi Hlo Hhi) as Hint.
    cbn [seq]. rewrite filter_cons.
    destruct (N.ltb_spec (N.max offset lo) (N.min (offset + length_) hi)) as [Hhit | Hmiss].
    + destruct (allocated_shard v w a lo hi b Halloc ltac:(lia) Hlo Hhi Hb ltac:(lia))
        as (old & Hmem & Hlen).
      assert (N.min (offset + length_) hi - offset <= N.of_nat (length out)) as Hfits
          by lia.
      pose proof (read_shard_range evs out w a lo hi q b e0 old Hlo Hhi Hq Hb He0
                    (fun _ => conj Hmem (conj Hlen Hfits))) as Hstep.
      assert ((N.max offset lo <? N.min (offset + length_) hi) = true) as Hhit'
          by (by apply N.ltb_lt).
      rewrite Hhit' in Hstep.
      set (data := take (N.to_nat (N.min (offset + length_) hi - N.max offset lo))
                     (drop (N.to_nat (N.max offset lo - lo)) old)) in *.
      assert (length data = N.to_nat (N.min (offset + length_) hi - N.max offset lo))
        as Hdata by (subst data; rewrite length_take, length_drop; lia).
      set (w1 := MkWorld _ _ _ _) in Hstep.
      destruct (IH (S a) (<[a := next_event w]> evs)
                  (splice out (N.to_nat (N.max offset lo - offset)) data) w1 hi)
        as (evs' & out' & w' & new & Hrun & Hlen' & Hmem' & Hne' & Hst & Hcalls
            & Hnew & Hframe & Hlout & Hc); try done.
      * lia.
      * by rewrite length_insert.
      * simpl. lia.
      * rewrite splice_length; lia.
      * exists evs', out', w', (ReadBuffer (queue_id q) b false
                            (sizeof (elem v) * (N.max offset lo - lo))
                            (sizeof (elem v) * (N.min (offset + length_) hi - N.max offset lo))
                            (next_event w) :: new).
        split; [by rewrite (for_step _ _ _ _ _ _ _ Hstep) |].
        split; [done |]. split; [done |]. split; [done |].
        split; [by rewrite Hst |].
        split; [rewrite Hcalls; simpl; by rewrite <- app_assoc |].
        split.
        { rewrite decide_True by (rewrite Hint; exact I).
          apply Forall2_cons. split; [|done].
          exists q, b, lo, hi, (next_event w). repeat split; try done.
          rewrite Hframe by lia. apply list_lookup_insert_eq. lia. }
        split.
        { intros d Hd. rewrite Hframe by lia. apply list_lookup_insert_ne. lia. }
        split; [rewrite Hlout, splice_length; lia |].
        intros j. rewrite Hc. rewrite (contents_same_mem v w w1) by done.
        rewrite lookup_splice by lia.
        destruct (decide (N.max offset hi <= offset + N.of_nat j
                          < N.min (offset + length_) (size v)));
          destruct (decide (N.max offset lo <= offset + N.of_nat j
                            < N.min (offset + length_) (size v)));
          try lia; try done.
        -- rewrite decide_True by lia. subst data.
           rewrite lookup_take_lt by lia. rewrite lookup_drop.
           replace (N.to_nat offset + j)%nat with (N.to_nat (offset + N.of_nat j)) by lia.
           rewrite (contents_lookup v w a lo hi (offset + N.of_nat j) b old)
             by (done || lia).
           f_equal. lia.
        -- by rewrite decide_False by lia.
    + pose proof (read_shard_range evs out w a lo hi q b e0 [] Hlo Hhi Hq Hb He0)
        as Hstep.
      assert ((N.max offset lo <? N.min (offset + length_) hi) = false) as Hmiss'
          by (by apply N.ltb_ge).
      rewrite Hmiss' in Hstep.
      specialize (Hstep ltac:(lia)).
      destruct (IH (S a) evs out w hi)
        as (evs' & out' & w' & new & Hrun & Hlen' & Hmem' & Hne' & Hst & Hcalls
            & Hnew & Hframe & Hlout & Hc); try done; [lia |].
      exists evs', out', w', new.
      split; [by rewrite (for_step _ _ _ _ _ _ _ Hstep) |].
      repeat (split; [done |]).
      split; [rewrite decide_False by (rewrite Hint; exact id); done |].
      split; [intros d Hd; apply Hframe; lia |].
      split; [done |].
      intros j. rewrite Hc.
      destruct (decide (N.max offset hi <= offset + N.of_nat j
                        < N.min (offset + length_) (size v)));
        destruct (decide (N.max offset lo <= offset + N.of_nat j
                          < N.min (offset + length_) (size v)));
        try lia; done.
Qed.

(** The loop that waits for the events of a blocking transfer. *)
Lemma wait_loop_range (mk : N -> Buffer -> bool -> N -> N -> Event -> call)
    (Hmk : forall q b bl o c e, call_event (mk q b bl o c e) = e) (m : nat) :
  forall (a : nat) (evs : list Event) (w : world) (transfers : list call),
    (a + m = nparts v)%nat ->
    Forall2 (transfer_of mk v offset length_ evs)
      (filter (fun d => Is_true (intersects v offset length_ d)) (seq a m)) transfers ->
    for_ (seq a m) (wait_shard offset length_) (with_events v evs) w =
    (Val (with_events v evs),
     MkWorld (mem w)
       (calls w ++ map (fun c => EventWait (call_event c)) transfers)
       (next_event w) (statics w)).
Proof using Hwf Hrange.
  induction m as [|m IH]; intros a evs w transfers Ha Htr.
  - simpl in Htr. apply Forall2_nil_inv_l in Htr as ->.
    simpl. rewrite app_nil_r. by destruct w.
  - destruct (wf_shard v Hwf a) as (lo & hi & q & b & ev0 & Hlo & Hhi & Hle & _);
      [lia |].
    pose proof (intersects_ok a lo hi Hlo Hhi) as Hint.
    cbn [seq] in Htr |- *. rewrite filter_cons in Htr.
    assert (wait_shard offset length_ a (with_events v evs) w =
            if N.max offset lo <? N.min (offset + length_) hi then
              (do! ev := lift (at_ evs a) in
               do! _ := wait ev in mret (with_events v evs)) w
            else (Val (with_events v evs), w)) as Hstep.
    { unfold wait_shard, mbind at 1, lift at 1.
      rewrite (shard_range_ok evs a lo hi Hlo Hhi).
      by destruct (N.max offset lo <? N.min (offset + length_) hi). }
    destruct (N.max offset lo <? N.min (offset + length_) hi) eqn:Hhit.
    + rewrite decide_True in Htr by (rewrite Hint; exact I).
      apply Forall2_cons_inv_l in Htr as (c & ts & Hc & Hts & ->).
      destruct Hc as (q' & b' & lo' & hi' & ev & _ & _ & _ & _ & Hev & Hev0 & ->).
      assert (wait_shard offset length_ a (with_events v evs) w =
              (Val (with_events v evs),
               MkWorld (mem w) (calls w ++ [EventWait ev]) (next_event w) (statics w)))
        as Hstep'.
      { rewrite Hstep. unfold mbind, lift, at_, wait. rewrite Hev.
        destruct (N.eqb_spec ev 0); done. }
      rewrite (for_step _ _ _ _ _ _ _ Hstep').
      rewrite (IH (S a) evs _ ts); [| lia | done].
      simpl. rewrite Hmk. by rewrite <- app_assoc.
    + rewrite decide_False in Htr by (rewrite Hint; exact id).
      rewrite (for_step _ _ _ _ _ _ _ Hstep).
      apply IH; [lia | done].
Qed.

End RangeTransfer.

Lemma touched_none (v : vector) (offset : N) : touched v offset 0 = [].
Proof.
  unfold touched. induction (seq 0 (nparts v)) as [|d l IH]; [done |].
  rewrite filter_cons, IH, decide_False; [done |].
  unfold intersects. destruct (part v !! d) as [lo|]; [|exact id].
  destruct (part v !! S d) as [hi|]; [|exact id].
  destruct (N.ltb_spec (N.max offset lo) (N.min (offset + 0) hi)); [lia | exact id].
Qed.

(** [write_data] over a range that does not wrap around. *)
Lemma write_data_range_ok (v : vector) (offset length_ : N) (host : list value)
    (blocking : bool) (w : world) :
  wf_vector v = true -> allocated v w = true -> next_event w <> 0 ->
  offset + length_ < size_modulus ->
  moved v offset length_ <= N.of_nat (length host) ->
  exists (evs1 : list Event) (w1 : world),
    write_data v offset length_ host blocking w = (Val (with_events v evs1), w1) /\
    length evs1 = nparts v /\ allocated v w1 = true /\ next_event w1 <> 0 /\
    statics w1 = statics w /\
    issued WriteBuffer v offset length_ blocking evs1 (calls w) (calls w1) /\
    (forall j : nat,
       contents v w1 !! j =
       if decide (offset <= N.of_nat j < N.min (offset + length_) (size v))
       then host !! (j - N.to_nat offset)%nat
       else contents v w !! j).
Proof.
  intros Hwf Halloc Hne Hrange Hhost.
  destruct (wf_fields v Hwf) as (Hl & _ & Hel & H0 & _).
  unfold write_data. destruct (N.eqb_spec length_ 0) as [-> | Hnz].
  - exists (event v), w. rewrite with_events_id. unfold issued.
    rewrite touched_none. repeat split; try done.
    + exists []. split; [constructor | by destruct blocking; rewrite !app_nil_r].
    + intros j. by rewrite decide_False by lia.
  - destruct (write_loop_range v Hwf offset length_ Hrange host Hhost (nparts v) 0
                (event v) w 0)
      as (evs1 & w1 & tw & Hrun1 & Hlen1 & Halloc1 & Hne1 & Hst1 & Hcalls1
          & Htw & _ & Hc1); try done.
    rewrite with_events_id in Hrun1.
    assert (forall j : nat,
       contents v w1 !! j =
       if decide (offset <= N.of_nat j < N.min (offset + length_) (size v))
       then host !! (j - N.to_nat offset)%nat
       else contents v w !! j) as Hc.
    { intros j. rewrite Hc1.
      destruct (decide (N.max offset 0 <= N.of_nat j < N.min (offset + length_) (size v)));
        destruct (decide (offset <= N.of_nat j < N.min (offset + length_) (size v)));
        try lia; done. }
    unfold mbind. fold (nparts v). rewrite Hrun1. destruct blocking.
    + cbn [queue with_events]. fold (nparts v).
      rewrite (wait_loop_range v Hwf offset length_ Hrange WriteBuffer call_event_write
                 (nparts v) 0 evs1 w1 tw); [| done | done].
      eexists evs1, _. split; [done |]. repeat (split; [done |]).
      split; [|exact Hc || (intros j; rewrite <- Hc; done)].
      exists tw. split; [exact Htw |]. simpl. by rewrite Hcalls1, app_assoc.
    + exists evs1, w1. repeat (split; [done |]).
      split; [|exact Hc].
      exists tw. split; [exact Htw |]. by rewrite app_nil_r.
Qed.

(** [read_data] over a range that does not wrap around. *)
Lemma read_data_range_ok (v : vector) (offset length_ : N) (out : list value)
    (blocking : bool) (w : world) :
  wf_vector v = true -> allocated v w = true -> next_event w <> 0 ->
  offset + length_ < size_modulus ->
  moved v offset length_ <= N.of_nat (length out) ->
  exists (evs1 : list Event) (out1 : list value) (w1 : world),
    read_data v offset length_ out blocking w = (Val (with_events v evs1, out1), w1) /\
    length evs1 = nparts v /\ mem w1 = mem w /\ next_event w1 <> 0 /\
    statics w1 = statics w /\
    issued ReadBuffer v offset length_ blocking evs1 (calls w) (calls w1) /\
    length out1 = length out /\
    (forall j : nat,
       out1 !! j =
       if decide (offset <= offset + N.of_nat j < N.min (offset + length_) (size v))
       then contents v w !! (N.to_nat offset + j)%nat
       else out !! j).
Proof.
  intros Hwf Halloc Hne Hrange Hout.
  destruct (wf_fields v Hwf) as (Hl & _ & Hel & H0 & _).
  unfold read_data. destruct (N.eqb_spec length_ 0) as [-> | Hnz].
  - exists (event v), out, w. rewrite with_events_id. unfold issued.
    rewrite touched_none. repeat split; try done.
    + exists []. split; [constructor | by destruct blocking; rewrite !app_nil_r].
    + intros j. by rewrite decide_False by lia.
  - destruct (read_loop_range v Hwf offset length_ Hrange (nparts v) 0 (event v) out w 0)
      as (evs1 & out1 & w1 & tr & Hrun1 & Hlen1 & Hmem1 & Hne1 & Hst1 & Hcalls1
          & Htr & _ & Hlout & Hc1); try done.
    rewrite with_events_id in Hrun1.
    assert (forall j : nat,
       out1 !! j =
       if decide (offset <= offset + N.of_nat j < N.min (offset + length_) (size v))
       then contents v w !! (N.to_nat offset + j)%nat
       else out !! j) as Hc.
    { intros j. rewrite Hc1.
      destruct (decide (N.max offset 0 <= offset + N.of_nat j
                        < N.min (offset + length_) (size v)));
        destruct (decide (offset <= offset + N.of_nat j
                          < N.min (offset + length_) (size v)));
        try lia; done. }
    unfold mbind. fold (nparts v). rewrite Hrun1. destruct blocking.
    + cbn [fst snd queue with_events]. fold (nparts v).
      rewrite (wait_loop_range v Hwf offset length_ Hrange ReadBuffer call_event_read
                 (nparts v) 0 evs1 w1 tr); [| done | done].
      eexists evs1, out1, _. split; [done |]. repeat (split; [done |]).
      split; [|by split].
      exists tr. split; [exact Htr |]. simpl. by rewrite Hcalls1, app_assoc.
    + exists evs1, out1, w1. repeat (split; [done |]).
      split; [|by split].
      exists tr. split; [exact Htr |]. by rewrite app_nil_r.
Qed.

(** A list given element by element is a splice. *)
Lemma splice_pointwise (c host c' : list value) (o n : nat) :
  length c' = length c -> (n <= length host)%nat ->
  (n = 0 \/ o + n <= length c)%nat ->
  (forall j : nat,
     c' !! j = if decide (o <= j < o + n)%nat then host !! (j - o)%nat else c !! j) ->
  c' = splice c o (take n host).
Proof.
  intros Hlen Hn Hfit Hc. destruct (decide (n = 0%nat)) as [-> | Hnz].
  - unfold splice. rewrite take_0. simpl. rewrite Nat.add_0_r, take_drop.
    apply list_eq. intros j. rewrite Hc. by rewrite decide_False by lia.
  - apply list_eq. intros j. rewrite Hc.
    rewrite lookup_splice by (rewrite length_take; lia).
    rewrite length_take_le by lia.
    destruct (decide (o <= j < o + n)%nat); [|done].
    by rewrite lookup_take_lt by lia.
Qed.

(** X7: [write_data(offset, length, host, blocking)] on a range that
    does not wrap around replaces the elements [offset] to
    [min(offset + length, size()) - 1] of the vector by the first
    elements of the host array and leaves every other element as it is:
    a range that reaches past the end of the vector is cut at the end
    without an error.  It issues one non-blocking write for every shard
    the range meets, in shard order, and when blocking then waits on the
    event of each. *)
Theorem write_data_stores_range (v : vector) (offset length_ : N)
    (host : list value) (blocking : bool) (w : world) :
  wf_vector v = true -> allocated v w = true -> next_event w <> 0 ->
  offset + length_ < size_modulus ->
  moved v offset length_ <= N.of_nat (length host) ->
  exists (v1 : vector) (w1 : world),
    write_data v offset length_ host blocking w = (Val v1, w1) /\
    contents v w1 =
      splice (contents v w) (N.to_nat offset)
        (take (N.to_nat (moved v offset length_)) host) /\
    allocated v w1 = true /\ statics w1 = statics w /\
    v1 = with_events v (event v1) /\
    issued WriteBuffer v offset length_ blocking (event v1) (calls w) (calls w1).
Proof.
  intros Hwf Halloc Hne Hrange Hhost.
  destruct (write_data_range_ok v offset length_ host blocking w Hwf Halloc Hne Hrange Hhost)
    as (evs1 & w1 & Hrun & Hlen & Halloc1 & _ & Hst & Hissued & Hc).
  exists (with_events v evs1), w1.
  split; [done |]. split; [|done].
  apply splice_pointwise.
  - by rewrite !contents_length.
  - lia.
  - rewrite contents_length by done. unfold moved. lia.
  - intros j. rewrite Hc. unfold moved.
    destruct (decide (offset <= N.of_nat j < N.min (offset + length_) (size v)));
      destruct (decide (N.to_nat offset <= j
                        < N.to_nat offset
                          + N.to_nat (N.min (offset + length_) (size v) - offset))%nat);
      try lia; done.
Qed.

(** X8: [read_data(offset, length, host, blocking)] on a range that does
    not wrap around copies the elements [offset] to
    [min(offset + length, size()) - 1] of the vector to the front of the
    host array and leaves the rest of the host array and the device
    memory as they are.  It issues one non-blocking read for every shard
    the range meets, in shard order, and when blocking then waits on the
    event of each. *)
Theorem read_data_returns_range (v : vector) (offset length_ : N)
    (out : list value) (blocking : bool) (w : world) :
  wf_vector v = true -> allocated v w = true -> next_event w <> 0 ->
  offset + length_ < size_modulus ->
  moved v offset length_ <= N.of_nat (length out) ->
  exists (v1 : vector) (w1 : world),
    read_data v offset length_ out blocking w =
    (Val (v1, splice out 0
                (take (N.to_nat (moved v offset length_))
                   (drop (N.to_nat offset) (contents v w)))), w1) /\
    mem w1 = mem w /\ statics w1 = statics w /\
    v1 = with_events v (event v1) /\
    issued ReadBuffer v offset length_ blocking (event v1) (calls w) (calls w1).
Proof.
  intros Hwf Halloc Hne Hrange Hout.
  destruct (read_data_range_ok v offset length_ out blocking w Hwf Halloc Hne Hrange Hout)
    as (evs1 & out1 & w1 & Hrun & Hlen & Hmem & _ & Hst & Hissued & Hlout & Hc).
  exists (with_events v evs1), w1.
  split; [|done]. rewrite Hrun. do 3 f_equal.
  apply splice_pointwise.
  - done.
  - rewrite length_drop, contents_length by done. unfold moved. lia.
  - lia.
  - intros j. rewrite Hc, lookup_drop. unfold moved.
    destruct (decide (offset <= offset + N.of_nat j < N.min (offset + length_) (size v)));
      destruct (decide (0 <= j
                        < 0 + N.to_nat (N.min (offset + length_) (size v) - offset))%nat);
      try lia; try done.
    by rewrite Nat.sub_0_r.
Qed.

Lemma for_skip {S : Type} (body : nat -> S -> M S) (s : S) (w : world)
    (ds : list nat) :
  (forall d, d ∈ ds -> body d s w = (Val s, w)) ->
  for_ ds body s w = (Val s, w).
Proof.
  induction ds as [|d ds IH]; intros Hskip; [done |].
  rewrite (for_step d ds body s s w w) by (apply Hskip; left).
  apply IH. intros d' Hd'. apply Hskip. by right.
Qed.

(** The part of a range that wraps around in a shard is empty. *)
Lemma shard_range_wrapped (v : vector) (offset length_ : N) (d : nat) :
  wf_vector v = true -> (d < nparts v)%nat ->
  offset < size_modulus -> length_ < size_modulus ->
  size_modulus <= offset + length_ ->
  exists start stop lo : N,
    shard_range v offset length_ d = Val (start, stop, lo) /\ stop <= start.
Proof.
  intros Hwf Hd Ho Hl Hwrap.
  destruct (wf_shard v Hwf d Hd) as (lo & hi & _ & _ & _ & Hlo & Hhi & _).
  exists (N.max offset lo), (N.min (size_add offset length_) hi), lo.
  split.
  - unfold shard_range, at_. rewrite Hlo. simpl. by rewrite Nat.add_1_r, Hhi.
  - unfold size_add. rewrite mod_once by lia. lia.
Qed.

Lemma wait_loop_wrapped (v : vector) (offset length_ : N) (w : world) :
  wf_vector v = true ->
  offset < size_modulus -> length_ < size_modulus ->
  size_modulus <= offset + length_ ->
  for_ (seq 0 (length (queue v))) (wait_shard offset length_) v w = (Val v, w).
Proof.
  intros Hwf Ho Hl Hwrap. apply for_skip. intros d Hd%elem_of_seq.
  destruct (shard_range_wrapped v offset length_ d Hwf ltac:(unfold nparts; lia) Ho Hl Hwrap)
    as (start & stop & lo & Hr & Hle).
  unfold wait_shard, mbind, lift. rewrite Hr.
  by destruct (N.ltb_spec start stop); [lia |].
Qed.

Lemma write_data_wrapped (v : vector) (offset length_ : N) (host : list value)
    (blocking : bool) (w : world) :
  wf_vector v = true ->
  offset < size_modulus -> length_ < size_modulus ->
  size_modulus <= offset + length_ ->
  write_data v offset length_ host blocking w = (Val v, w).
Proof.
  intros Hwf Ho Hl Hwrap.
  assert (length_ <> 0) as Hnz by (rewrite size_modulus_value in *; lia).
  unfold write_data. destruct (N.eqb_spec length_ 0); [done |].
  unfold mbind. rewrite for_skip.
  - destruct blocking; [|done]. by apply wait_loop_wrapped.
  - intros d Hd%elem_of_seq.
    destruct (shard_range_wrapped v offset length_ d Hwf ltac:(unfold nparts; lia) Ho Hl Hwrap)
      as (start & stop & lo & Hr & Hle).
    unfold write_shard, mbind, lift. rewrite Hr.
    by destruct (N.leb_spec stop start); [|lia].
Qed.

Lemma read_data_wrapped (v : vector) (offset length_ : N) (out : list value)
    (blocking : bool) (w : world) :
  wf_vector v = true ->
  offset < size_modulus -> length_ < size_modulus ->
  size_modulus <= offset + length_ ->
  read_data v offset length_ out blocking w = (Val (v, out), w).
Proof.
  intros Hwf Ho Hl Hwrap.
  assert (length_ <> 0) as Hnz by (rewrite size_modulus_value in *; lia).
  unfold read_data. destruct (N.eqb_spec length_ 0); [done |].
  unfold mbind. rewrite for_skip.
  - destruct blocking; [|done]. cbn [fst snd].
    by rewrite wait_loop_wrapped.
  - intros d Hd%elem_of_seq.
    destruct (shard_range_wrapped v offset length_ d Hwf ltac:(unfold nparts; lia) Ho Hl Hwrap)
      as (start & stop & lo & Hr & Hle).
    unfold read_shard, mbind, lift. cbn [fst snd]. rewrite Hr.
    by destruct (N.leb_spec stop start); [|lia].
Qed.

(** X9: a range whose end [offset + length] wraps around in [size_t]
    meets no shard: [write_data] and [read_data] transfer nothing, wait
    on nothing and leave the vector, the host array and the device as
    they are, whatever the blocking flag.  This is the case of
    [copy(first, last, result)] with [last] before [first]. *)
Theorem wrapped_range_transfers_nothing (v : vector) (offset length_ : N)
    (host out : list value) (blocking : bool) (w : world) :
  wf_vector v = true ->
  offset < size_modulus -> length_ < size_modulus ->
  size_modulus <= offset + length_ ->
  write_data v offset length_ host blocking w = (Val v, w) /\
  read_data v offset length_ out blocking w = (Val (v, out), w).
Proof.
  intros Hwf Ho Hl Hwrap. split.
  - by apply write_data_wrapped.
  - by apply read_data_wrapped.
Qed.

Lemma iterator_new_with_events (v : vector) (evs : list Event) (pos : N) :
  iterator_new (with_events v evs) pos = iterator_new v pos.
Proof. reflexivity. Qed.

Lemma to_size_nonneg (n : Z) :
  (0 <= n < Z.of_N size_modulus)%Z -> to_size n = Z.to_N n.
Proof. intros Hn. unfold to_size. by rewrite Z.mod_small. Qed.

(** X10: [copy(first, last, result, blocking)] from a device vector to
    the host, for iterators with [first] not after [last], copies the
    elements from the position of [first] up to the position of [last],
    cut at the end of the vector, to the front of [result] and returns
    the distance [last - first]; with [last] before [first] it transfers
    nothing and returns the negative distance. *)
Theorem copy_range_to_host_copies_range (v : vector)
    (first last : iterator_type.t) (result : list value) (blocking : bool)
    (w : world) :
  wf_vector v = true -> allocated v w = true -> next_event w <> 0 ->
  iterator_type.pos first < size_modulus ->
  iterator_type.pos last < size_modulus ->
  (iterator_type.pos first <= iterator_type.pos last ->
   moved v (iterator_type.pos first) (iterator_type.pos last - iterator_type.pos first)
   <= N.of_nat (length result) ->
   exists (v1 : vector) (w1 : world),
     copy_range_to_host v first last result blocking w =
     (Val (v1,
           splice result 0
             (take (N.to_nat (moved v (iterator_type.pos first)
                                (iterator_type.pos last - iterator_type.pos first)))
                (drop (N.to_nat (iterator_type.pos first)) (contents v w))),
           to_ptrdiff (iterator_type.pos last - iterator_type.pos first)), w1) /\
     mem w1 = mem w /\ v1 = with_events v (event v1)) /\
  (iterator_type.pos last < iterator_type.pos first ->
   copy_range_to_host v first last result blocking w =
   (Val (v, result, iterator_minus last first), w) /\
   (iterator_type.pos first - iterator_type.pos last <= size_modulus / 2 ->
    iterator_minus last first
    = (- Z.of_N (iterator_type.pos first - iterator_type.pos last))%Z)).
Proof.
  intros Hwf Halloc Hne Hfirst Hlast.
  unfold copy_range_to_host, iterator_minus.
  rewrite to_size_to_ptrdiff by (by apply size_sub_bound).
  split.
  - intros Hle Hout. rewrite size_sub_le by done.
    set (n := iterator_type.pos last - iterator_type.pos first) in *.
    destruct (read_data_range_ok v (iterator_type.pos first) n result blocking w
                Hwf Halloc Hne ltac:(subst n; lia) Hout)
      as (evs1 & out1 & w1 & Hrun & Hlen & Hmem & _ & Hst & Hissued & Hlout & Hc).
    exists (with_events v evs1), w1. split; [|done].
    unfold mbind. rewrite Hrun. unfold mret. do 4 f_equal.
    apply splice_pointwise.
    + done.
    + rewrite length_drop, contents_length by done. unfold moved. lia.
    + lia.
    + intros j. rewrite Hc, lookup_drop. unfold moved.
      destruct (decide (iterator_type.pos first <= iterator_type.pos first + N.of_nat j
                        < N.min (iterator_type.pos first + n) (size v)));
        destruct (decide (0 <= j
                          < 0 + N.to_nat (N.min (iterator_type.pos first + n) (size v)
                                          - iterator_type.pos first))%nat);
        try lia; try done.
      by rewrite Nat.sub_0_r.
  - intros Hlt.
    assert (size_sub (iterator_type.pos last) (iterator_type.pos first)
            = size_modulus - (iterator_type.pos first - iterator_type.pos last)) as Hsub.
    { unfold size_sub.
      by destruct (N.leb_spec (iterator_type.pos first) (iterator_type.pos last)); [lia |]. }
    split.
    + unfold mbind. rewrite read_data_wrapped; try done; rewrite Hsub; lia.
    + intros Hhalf. rewrite Hsub. unfold to_ptrdiff.
      rewrite size_modulus_value in *.
      change (18446744073709551616 / 2) with 9223372036854775808 in *.
      change (Z.of_N 18446744073709551616) with 18446744073709551616%Z.
      destruct (N.ltb_spec (18446744073709551616
                            - (iterator_type.pos first - iterator_type.pos last))
                  9223372036854775808); lia.
Qed.

(** X11: [copy(first, last, result, blocking)] from the host to a device
    vector stores the [last - first] host elements from the position of
    [result] on.  When the range ends before the end of the vector it
    returns the iterator for the position after the range; when the
    range ends at the end of the vector the elements are stored, and
    making the iterator to return then reads the partition table past
    its end. *)
Theorem copy_range_to_device_stores_range (first : list value) (n : Z)
    (v : vector) (result : iterator_type.t) (blocking : bool) (w : world) :
  wf_vector v = true -> allocated v w = true -> next_event w <> 0 ->
  (0 <= n <= Z.of_nat (length first))%Z ->
  (Z.of_N (iterator_type.pos result) + n <= Z.of_N (size v))%Z ->
  exists (v1 : vector) (w1 : world),
    write_data v (iterator_type.pos result) (Z.to_N n) first blocking w = (Val v1, w1) /\
    contents v w1 =
      splice (contents v w) (N.to_nat (iterator_type.pos result))
        (take (Z.to_nat n) first) /\
    allocated v w1 = true /\
    ((Z.of_N (iterator_type.pos result) + n < Z.of_N (size v))%Z ->
     exists d : nat,
       copy_range_to_device first n v result blocking w =
       (Val (v1, iterator_type.Mk (iterator_type.pos result + Z.to_N n) d), w1)) /\
    ((Z.of_N (iterator_type.pos result) + n = Z.of_N (size v))%Z ->
     copy_range_to_device first n v result blocking w = (UB, w1)).
Proof.
  intros Hwf Halloc Hne Hn Hfit.
  pose proof (wf_size_bound v Hwf) as Hbound.
  assert (moved v (iterator_type.pos result) (Z.to_N n) = Z.to_N n) as Hmoved
      by (unfold moved; lia).
  destruct (write_data_range_ok v (iterator_type.pos result) (Z.to_N n) first blocking w
              Hwf Halloc Hne ltac:(lia) ltac:(lia))
    as (evs1 & w1 & Hrun & Hlen & Halloc1 & _ & Hst & Hissued & Hc).
  assert (to_size n = Z.to_N n) as Hsize by (apply to_size_nonneg; lia).
  assert (size_add (iterator_type.pos result) (Z.to_N n)
          = iterator_type.pos result + Z.to_N n) as Hadd
      by (apply size_add_small; lia).
  exists (with_events v evs1), w1.
  split; [done |]. split; [|split; [done |]].
  - replace (Z.to_nat n) with (N.to_nat (Z.to_N n)) by lia.
    apply splice_pointwise.
    + by rewrite !contents_length.
    + lia.
    + rewrite contents_length by done. lia.
    + intros j. rewrite Hc.
      destruct (decide (iterator_type.pos result <= N.of_nat j
                        < N.min (iterator_type.pos result + Z.to_N n) (size v)));
        destruct (decide (N.to_nat (iterator_type.pos result) <= j
                          < N.to_nat (iterator_type.pos result)
                            + N.to_nat (Z.to_N n))%nat);
        try lia; done.
  - unfold copy_range_to_device, mbind, lift, iterator_plus.
    rewrite Hsize, Hrun, iterator_new_with_events, Hadd. split.
    + intros Hlt.
      destruct (iterator_new_in_range v (iterator_type.pos result + Z.to_N n) Hwf
                  ltac:(lia)) as (d & lo & hi & q & b & Hnew & _).
      exists d. by rewrite Hnew.
    + intros Heq. unfold iterator_new.
      rewrite bool_decide_eq_false_2 by (by apply wf_part_nonempty).
      by rewrite advance_out_of_range by (done || lia).
Qed.

(** ** Kernel parameters and arguments *)

Lemma string_app_inv_head (a b c : string) : a +:+ b = a +:+ c -> b = c.
Proof.
  induction a as [|x a IH]; [done |].
  rewrite !string_app_cons. intros [= H]. by apply IH.
Qed.

Lemma concat_strings_app (l1 l2 : list string) :
  concat_strings (l1 ++ l2) = concat_strings l1 +:+ concat_strings l2.
Proof.
  unfold concat_strings. induction l1 as [|s l1 IH]; [done |].
  simpl. by rewrite IH, string_app_assoc.
Qed.

Lemma string_app_nil_r (s : string) : s +:+ "" = s.
Proof. induction s as [|c s IH]; [done |]. rewrite string_app_cons. by f_equal. Qed.

Lemma collect_app {A : Type} (l1 l2 : list (result A)) :
  collect (l1 ++ l2) =
  let! a := collect l1 in let! b := collect l2 in Val (a ++ b).
Proof.
  induction l1 as [|r l1 IH]; simpl.
  - by destruct (collect l2).
  - destruct r as [a | what |]; simpl; try done.
    rewrite IH. destruct (collect l1); simpl; try done.
    by destruct (collect l2).
Qed.

(** Every terminal is named by the name of the root followed by its path. *)
Lemma terminals_prefix (e : expr) :
  forall (name : string) (x : string * terminal),
    x ∈ terminals e name -> exists s, fst x = name +:+ s.
Proof.
  induction e as [v | T bits | OP l IHl r IHr]; intros name x Hx; simpl in Hx.
  - apply list_elem_of_singleton in Hx as ->. exists "". by rewrite string_app_nil_r.
  - apply list_elem_of_singleton in Hx as ->. exists "". by rewrite string_app_nil_r.
  - apply elem_of_app in Hx as [Hx | Hx].
    + destruct (IHl _ _ Hx) as [s ->]. exists ("l" +:+ s). by rewrite string_app_assoc.
    + destruct (IHr _ _ Hx) as [s ->]. exists ("r" +:+ s). by rewrite string_app_assoc.
Qed.

Lemma terminals_names_NoDup (e : expr) :
  forall name : string, NoDup (map fst (terminals e name)).
Proof.
  induction e as [v | T bits | OP l IHl r IHr]; intros name; simpl.
  - apply NoDup_singleton.
  - apply NoDup_singleton.
  - rewrite map_app. apply NoDup_app. split; [apply IHl |]. split; [|apply IHr].
    intros n Hl Hr.
    apply list_elem_of_fmap in Hl as (x & -> & Hx), Hr as (y & Heq & Hy).
    destruct (terminals_prefix l _ _ Hx) as [s Hs].
    destruct (terminals_prefix r _ _ Hy) as [t Ht].
    rewrite Hs, Ht, !string_app_assoc in Heq.
    apply string_app_inv_head in Heq. discriminate Heq.
Qed.

(** X12: the kernel source declares its parameters and the launch binds
    its arguments in one and the same order, that of the terminals of
    the expression from left to right: a global pointer parameter for a
    vector with the vector's buffer on the device as argument, a value
    parameter for a scalar with the scalar as argument.  No two
    parameters have the same name, the body refers to the terminals by
    these names, and vectors, scalars and binary nodes emit no
    preamble. *)
Theorem kernel_parameters_match_arguments (e : expr) (name : string) (devnum : nat) :
  kernel_prm e name = concat_strings (map terminal_prm (terminals e name)) /\
  kernel_args e devnum = collect (map (terminal_arg devnum) (terminals e name)) /\
  NoDup (map fst (terminals e name)) /\
  (forall args, kernel_args e devnum = Val args ->
     length args = length (terminals e name)) /\
  (forall x, x ∈ terminals e name ->
     exists s t, kernel_expr e name = s +:+ terminal_expr x +:+ t) /\
  preamble e name = "".
Proof.
  split; [|split; [|split; [apply terminals_names_NoDup |split; [|split]]]].
  - revert name. induction e as [v | T bits | OP l IHl r IHr]; intros name; simpl.
    + unfold concat_strings, terminal_prm. simpl. by rewrite string_app_nil_r.
    + unfold concat_strings, terminal_prm. simpl. by rewrite string_app_nil_r.
    + by rewrite map_app, concat_strings_app, IHl, IHr.
  - revert name. induction e as [v | T bits | OP l IHl r IHr]; intros name; simpl.
    + unfold terminal_arg. simpl. by destruct (at_ (buf v) devnum).
    + done.
    + rewrite map_app, collect_app, <- IHl, <- IHr.
      by destruct (kernel_args l devnum).
  - revert name. induction e as [v | T bits | OP l IHl r IHr]; intros name args; simpl.
    + destruct (at_ (buf v) devnum); simpl; [by intros [= <-] | done..].
    + by intros [= <-].
    + destruct (kernel_args l devnum) as [al | |] eqn:Hl; simpl; try done.
      destruct (kernel_args r devnum) as [ar | |] eqn:Hr; simpl; try done.
      intros [= <-]. rewrite !length_app.
      by rewrite (IHl (name +:+ "l") al), (IHr (name +:+ "r") ar).
  - revert name. induction e as [v | T bits | OP l IHl r IHr]; intros name x Hx;
      simpl in Hx |- *.
    + apply list_elem_of_singleton in Hx as ->. exists "", "".
      by rewrite string_app_nil_r.
    + apply list_elem_of_singleton in Hx as ->. exists "", "".
      by rewrite string_app_nil_r.
    + apply elem_of_app in Hx as [Hx | Hx].
      * destruct (IHl _ _ Hx) as (s & t & ->).
        exists ("(" +:+ s), (t +:+ " " +:+ String OP " "
                             +:+ kernel_expr r (name +:+ "r") +:+ ")").
        by rewrite !string_app_assoc.
      * destruct (IHr _ _ Hx) as (s & t & ->).
        exists ("(" +:+ kernel_expr l (name +:+ "l") +:+ " " +:+ String OP " " +:+ s),
               (t +:+ ")").
        by rewrite !string_app_assoc.
  - revert name. induction e as [v | T bits | OP l IHl r IHr]; intros name; simpl;
      try done.
    by rewrite IHl, IHr.
Qed.

(** ** The launch *)

Lemma launch_calls_add_calls (w : world) (new : list call) (e : expr)
    (this : vector) (d : nat) :
  launch_calls (add_calls w new) e this d = launch_calls w e this d.
Proof. reflexivity. Qed.

Lemma launch_calls_empty (w : world) (e : expr) (this : vector) (d : nat) :
  shard_nonempty this d = false -> launch_calls w e this d = [].
Proof.
  unfold shard_nonempty, launch_calls.
  destruct (part this !! d) as [lo|]; [|done].
  destruct (part this !! S d) as [hi|]; [|done].
  intros ->. destruct (queue this !! d); [|done].
  destruct (buf this !! d); [|done]. by destruct (kernel_args e d).
Qed.

(** The launch on one shard when the cache holds the kernel. *)
Lemma launch_shard_exact (e : expr) (this : vector) (w : world) (d : nat) :
  wf_vector this = true -> (d < nparts this)%nat ->
  cache_ready w (elem this) (type_of e) (queue this) ->
  (shard_nonempty this d = true -> returns (kernel_args e d)) ->
  launch_shard e d this w = (Val this, add_calls w (launch_calls w e this d)).
Proof.
  intros Hwf Hd Hready Hargs.
  destruct (wf_shard this Hwf d Hd) as (lo & hi & q & b & ev & Hlo & Hhi & Hle & Hq & Hb & _).
  pose proof (shard_nonempty_iff this d lo hi Hlo Hhi) as Hne.
  unfold launch_shard, mbind at 1 2, lift at 1 2, at_ at 1 2.
  rewrite Nat.add_1_r, Hhi, Hlo. cbn beta iota.
  rewrite size_sub_le by lia.
  destruct (N.ltb_spec lo hi) as [Hlt | Hge].
  - destruct (N.eqb_spec (hi - lo) 0) as [Hz | _]; [lia |].
    destruct (Hargs Hne) as [args Hargs'].
    destruct (Hready q) as (_ & k & wg & Hk & Hwg);
      [by eapply list_elem_of_lookup_2 |].
    unfold launch_calls. rewrite Hlo, Hhi, Hq, Hb, Hargs'.
    destruct (N.ltb_spec lo hi); [|lia]. rewrite Hk, Hwg. cbn [default].
    unfold mbind, lift, at_. rewrite Hq, Hb. cbn beta iota.
    rewrite (read_wgsize_present _ _ _ w wg Hwg).
    rewrite (read_kernel_present _ _ _ w k Hk).
    rewrite set_args_spec.
    rewrite (read_kernel_present _ _ _ (add_calls w _) k Hk).
    rewrite set_args_spec.
    rewrite (read_kernel_present _ _ _ (add_calls (add_calls w _) _) k Hk).
    rewrite set_args_spec.
    rewrite (read_kernel_present _ _ _ (add_calls (add_calls (add_calls w _) _) _) k Hk).
    rewrite (read_wgsize_present _ _ _ (add_calls (add_calls (add_calls w _) _) _) wg Hwg).
    unfold record_call, mret, add_call, add_calls, global_size. cbn.
    do 2 f_equal. by rewrite <- !app_assoc.
  - rewrite (launch_calls_empty w e this d) by done.
    rewrite add_calls_nil.
    by destruct (N.eqb_spec (hi - lo) 0) as [Hz | Hnz]; [|lia].
Qed.

Lemma cache_ready_add_calls (w : world) (new : list call) (T : ctype)
    (E : expr_type) (qs : list CommandQueue) :
  cache_ready w T E qs -> cache_ready (add_calls w new) T E qs.
Proof. done. Qed.

Lemma launch_loop_exact (e : expr) (this : vector) (m : nat) :
  wf_vector this = true ->
  (forall d, (d < nparts this)%nat -> shard_nonempty this d = true ->
             returns (kernel_args e d)) ->
  forall (a : nat) (w : world),
    (a + m <= nparts this)%nat ->
    cache_ready w (elem this) (type_of e) (queue this) ->
    for_ (seq a m) (launch_shard e) this w =
    (Val this, add_calls w (concat (map (launch_calls w e this) (seq a m)))).
Proof.
  intros Hwf Hargs. induction m as [|m IH]; intros a w Ha Hready.
  - simpl. by rewrite add_calls_nil.
  - cbn [seq map concat].
    rewrite (for_step a _ _ this this w _
               (launch_shard_exact e this w a Hwf ltac:(lia) Hready (Hargs a ltac:(lia)))).
    rewrite IH by (lia || by apply cache_ready_add_calls).
    by rewrite add_calls_app.
Qed.

(** X13: an assignment that finds the kernel of its key cached for the
    contexts of all its queues compiles nothing and, for each shard that
    is not empty, in shard order, binds the shard's size as argument 0,
    the destination buffer of the shard as argument 1 and the arguments
    of the terminals from position 2 on, and then enqueues one launch on
    the shard's queue with the cached work-group size; for an empty
    shard it makes no call.  The vector, the device memory, the events
    and the cache stay as they are. *)
Theorem launch_binds_arguments_in_order (api : DeviceAPI) (this : vector)
    (e : expr) (w : world) :
  wf_vector this = true ->
  cache_ready w (elem this) (type_of e) (queue this) ->
  (forall d, (d < nparts this)%nat -> shard_nonempty this d = true ->
             returns (kernel_args e d)) ->
  assign_expr api this e w =
  (Val this,
   add_calls w (concat (map (launch_calls w e this) (seq 0 (nparts this))))) /\
  (forall d, shard_nonempty this d = false -> launch_calls w e this d = []) /\
  (forall (d : nat) (lo hi : N),
     (d < nparts this)%nat ->
     part this !! d = Some lo -> part this !! S d = Some hi -> lo < hi ->
     exists (q : CommandQueue) (b : Buffer) (args : list kernel_arg) (k : Kernel)
            (wg : N),
       queue this !! d = Some q /\ buf this !! d = Some b /\
       kernel_args e d = Val args /\
       kernel (statics w (elem this) (type_of e)) !! context_id (queue_context q)
         = Some k /\
       wgsize (statics w (elem this) (type_of e)) !! context_id (queue_context q)
         = Some wg /\
       launch_calls w e this d =
       SetArg k 0 (ArgSize (hi - lo)) :: SetArg k 1 (ArgBuffer b)
       :: setarg_calls k 2 args
       ++ [NDRangeKernel (queue_id q) k (global_size q (hi - lo) wg) wg]).
Proof.
  intros Hwf Hready Hargs. split; [|split].
  - unfold assign_expr, mbind.
    rewrite compile_loop_ready by (intros q Hq; by destruct (Hready q Hq)).
    fold (nparts this). by apply launch_loop_exact.
  - apply launch_calls_empty.
  - intros d lo hi Hd Hlo Hhi Hlt.
    destruct (wf_shard this Hwf d Hd) as (? & ? & q & b & ev & ? & ? & _ & Hq & Hb & _).
    simplify_eq.
    destruct (Hargs d Hd) as [args Hargs'].
    { rewrite (shard_nonempty_iff this d lo hi Hlo Hhi). by apply N.ltb_lt. }
    destruct (Hready q) as (_ & k & wg & Hk & Hwg);
      [by eapply list_elem_of_lookup_2 |].
    exists q, b, args, k, wg. repeat (split; [done |]).
    unfold launch_calls. rewrite Hlo, Hhi, Hq, Hb, Hargs', Hk, Hwg.
    by destruct (N.ltb_spec lo hi); [|lia].
Qed.

(** ** Swap and move *)

Lemma with_members_twice (a b : vector) :
  with_members (with_members a b) (with_members b a) = a.
Proof. by destruct a. Qed.

Lemma with_members_self (a : vector) : with_members a a = a.
Proof. by destruct a. Qed.

(** X14: [swap] exchanges the queues, the partition table, the buffers
    and the events of two vectors and nothing else: no other object
    changes, each of the two then has the size and the contents the other
    had, and a second [swap] restores the objects.  The move assignment
    is this exchange and returns the object assigned to. *)
Theorem swap_exchanges_members (h : gmap addr vector) (x y : addr)
    (vx vy : vector) (w : world) :
  h !! x = Some vx -> h !! y = Some vy ->
  exists h' : gmap addr vector,
    swap h x y = Val h' /\
    h' !! x = Some (with_members vx vy) /\
    h' !! y = Some (with_members vy vx) /\
    (forall z, z <> x -> z <> y -> h' !! z = h !! z) /\
    size (with_members vx vy) = size vy /\
    contents (with_members vx vy) w = contents vy w /\
    contents (with_members vy vx) w = contents vx w /\
    swap h' x y = Val h /\
    move_assign h x y = Val (h', with_members vx vy).
Proof.
  intros Hx Hy.
  exists (<[y := with_members vy vx]> (<[x := with_members vx vy]> h)).
  assert (x = y -> vx = vy) as Halias by (intros ->; congruence).
  assert ((<[y := with_members vy vx]> (<[x := with_members vx vy]> h)) !! x
          = Some (with_members vx vy)) as Hx'.
  { destruct (decide (x = y)) as [Heq | Hne].
    - rewrite (Halias Heq), Heq. by rewrite lookup_insert_eq.
    - by rewrite lookup_insert_ne, lookup_insert_eq. }
  split; [unfold swap, vector_swap; by rewrite Hx, Hy |].
  split; [exact Hx' |].
  split; [by rewrite lookup_insert_eq |].
  split; [intros z Hzx Hzy; by rewrite !lookup_insert_ne |].
  split; [done |]. split; [done |]. split; [done |]. split.
  - unfold swap, vector_swap. rewrite Hx', lookup_insert_eq.
    rewrite !with_members_twice.
    f_equal. apply map_eq. intros z.
    destruct (decide (z = y)) as [-> | Hzy]; [by rewrite lookup_insert_eq |].
    rewrite lookup_insert_ne by done.
    destruct (decide (z = x)) as [-> | Hzx]; [by rewrite lookup_insert_eq |].
    by rewrite !lookup_insert_ne.
  - unfold move_assign, vector_swap. rewrite Hx, Hy. simpl. by rewrite Hx'.
Qed.

(** * OpenCL scalar and vector types: theorems *)

(** X15: the three type traits agree: every type is the vector type of
    its scalar type and its length, [cl_vector_of] has a type for the
    scalar types and the dimensions 1, 2, 4, 8 and 16 and for nothing
    else, the type it gives has that scalar type and that length, and a
    type is a scalar exactly when it is not a vector, which is when it
    is its own scalar type. *)
Theorem type_traits_round_trip (T : ctype) (dim : N) :
  cl_vector_of (cl_scalar_of T) (cl_vector_length T) = Some T /\
  (forall V, cl_vector_of T dim = Some V ->
     len T = len1 /\ cl_scalar_of V = T /\ cl_vector_length V = dim) /\
  (is_Some (cl_vector_of T dim) <->
   len T = len1 /\ (dim = 1 \/ dim = 2 \/ dim = 4 \/ dim = 8 \/ dim = 16)) /\
  is_cl_scalar T = negb (is_cl_vector T) /\
  (is_cl_scalar T = true <-> cl_scalar_of T = T) /\
  cl_scalar_of (cl_scalar_of T) = cl_scalar_of T /\
  sizeof T = sizeof (cl_scalar_of T) * cl_vector_length T.
Proof.
  split; [by destruct T as [b []] |].
  split.
  { intros V. unfold cl_vector_of. destruct T as [b l]. simpl.
    destruct l; try done.
    repeat match goal with
      | |- context [dim =? ?k] =>
          destruct (N.eqb_spec dim k) as [-> | ?]; [by intros [= <-] |]
      end.
    done. }
  split.
  { unfold cl_vector_of. destruct T as [b l]. simpl. split.
    - destruct l; try (by intros [? ?]).
      repeat match goal with
        | |- context [dim =? ?k] =>
            destruct (N.eqb_spec dim k) as [-> | ?]; [intros _; naive_solver |]
        end.
      by intros [? ?].
    - intros [-> Hdim].
      destruct Hdim as [-> | [-> | [-> | [-> | ->]]]]; by eexists. }
  split; [by destruct T as [b []] |].
  split; [|split].
  - destruct T as [b l]. unfold is_cl_scalar, cl_scalar_of, cl_vector_length. simpl.
    destruct l; simpl; split; try done; intros [=].
  - done.
  - unfold sizeof, cl_scalar_of, cl_vector_length. simpl. lia.
Qed.

(** X16: [type_name] gives different names to different types: the name
    of the base type followed by the number of components, nothing for
    one component. *)
Theorem type_name_injective (T1 T2 : ctype) :
  type_name T1 = type_name T2 <-> T1 = T2.
Proof.
  split; [|by intros ->].
  destruct T1 as [b1 l1], T2 as [b2 l2].
  destruct b1, l1, b2, l2; try reflexivity; intros H; discriminate H.
Qed.

(** ** The operators of the vector types *)

Section ClVectorProofs.

Context {A : Type}.
Variable op : A -> A -> A.
Variable neg : A -> A.
Variable show : A -> string.

Lemma assign_loop_spec (n : nat) :
  forall (i : nat) (a b : list A),
    (i + n = length a)%nat -> length b = length a ->
    assign_loop op n i a b = Val (take i a ++ zip_with op (drop i a) (drop i b)).
Proof.
  induction n as [|n IH]; intros i a b Hn Hb.
  - simpl. rewrite !drop_ge by lia. simpl. rewrite app_nil_r, take_ge by lia. done.
  - destruct (lookup_lt_is_Some_2 a i) as [x Hx]; [lia |].
    destruct (lookup_lt_is_Some_2 b i) as [y Hy]; [lia |].
    cbn [assign_loop]. unfold at_. rewrite Hx, Hy. cbn [bind].
    rewrite IH by (rewrite ?length_insert; lia).
    rewrite (take_S_r _ _ (op x y)) by (apply list_lookup_insert_eq; lia).
    rewrite take_insert_ge, drop_insert_lt by lia.
    rewrite (drop_S a x i Hx), (drop_S b y i Hy). simpl.
    by rewrite <- app_assoc.
Qed.

Lemma scalar_assign_loop_spec (b : A) (n : nat) :
  forall (i : nat) (a : list A),
    (i + n = length a)%nat ->
    scalar_assign_loop op n i a b = Val (take i a ++ map (fun x => op x b) (drop i a)).
Proof.
  induction n as [|n IH]; intros i a Hn.
  - simpl. rewrite !drop_ge by lia. simpl. rewrite app_nil_r, take_ge by lia. done.
  - destruct (lookup_lt_is_Some_2 a i) as [x Hx]; [lia |].
    cbn [scalar_assign_loop]. unfold at_. rewrite Hx. cbn [bind].
    rewrite IH by (rewrite ?length_insert; lia).
    rewrite (take_S_r _ _ (op x b)) by (apply list_lookup_insert_eq; lia).
    rewrite take_insert_ge, drop_insert_lt by lia.
    rewrite (drop_S a x i Hx). simpl.
    by rewrite <- app_assoc.
Qed.

Lemma negate_loop_spec (n : nat) :
  forall (i : nat) (res a : list A),
    (i + n = length a)%nat -> length res = length a ->
    negate_loop neg n i res a = Val (take i res ++ map neg (drop i a)).
Proof.
  induction n as [|n IH]; intros i res a Hn Hres.
  - simpl. rewrite !drop_ge by lia. simpl. rewrite app_nil_r, take_ge by lia. done.
  - destruct (lookup_lt_is_Some_2 a i) as [x Hx]; [lia |].
    destruct (lookup_lt_is_Some_2 res i) as [y Hy]; [lia |].
    cbn [negate_loop]. unfold at_. rewrite Hx, Hy. cbn [bind].
    rewrite IH by (rewrite ?length_insert; lia).
    rewrite (take_S_r _ _ (neg x)) by (apply list_lookup_insert_eq; lia).
    rewrite take_insert_ge by lia.
    rewrite (drop_S a x i Hx). simpl.
    by rewrite <- app_assoc.
Qed.

(** X17: the operators of a vector type work component by component and
    keep the number of components: [a op b] and [a op= b] combine the
    components at equal positions, a vector and a scalar combine every
    component with the scalar, and the unary minus negates every
    component, whatever the result's array held before. *)
Theorem vector_operators_componentwise (len : nat) (a b uninit : list A) (s : A) :
  length a = len -> length b = len -> length uninit = len ->
  vector_op op len a b = Val (zip_with op a b) /\
  vector_op_assign op len a b = Val (zip_with op a b) /\
  vector_scalar_op op len a s = Val (map (fun x => op x s) a) /\
  vector_scalar_op_assign op len a s = Val (map (fun x => op x s) a) /\
  vector_negate neg len uninit a = Val (map neg a) /\
  length (zip_with op a b) = len.
Proof using Type.
  intros Ha Hb Hu.
  unfold vector_op, vector_op_assign, vector_scalar_op, vector_scalar_op_assign,
    vector_negate.
  rewrite assign_loop_spec, scalar_assign_loop_spec, negate_loop_spec by lia.
  rewrite !take_0, !drop_0. simpl.
  repeat (split; [done |]). rewrite length_zip_with. lia.
Qed.

(** X18: for a scalar [a] and a vector [b], [a op b] is computed as
    [res = b; res op= a]: component [i] of the result is [b.s[i] op a],
    with the operands in the other order.  It is the operator applied to
    the vector of copies of [a] and to [b] exactly when the operator
    commutes on [a] and every component of [b]. *)
Theorem scalar_vector_operator_swaps_operands (len : nat) (a : A) (b : list A) :
  length b = len ->
  scalar_vector_op op len a b = Val (map (fun y => op y a) b) /\
  scalar_vector_op op len a b = vector_scalar_op op len b a /\
  (scalar_vector_op op len a b = vector_op op len (replicate len a) b <->
   forall y, y ∈ b -> op y a = op a y).
Proof using Type.
  intros Hb.
  assert (scalar_vector_op op len a b = Val (map (fun y => op y a) b)) as Hrun.
  { unfold scalar_vector_op, vector_scalar_op_assign.
    rewrite scalar_assign_loop_spec by lia. by rewrite take_0, drop_0. }
  split; [done |]. split; [done |].
  rewrite Hrun. unfold vector_op, vector_op_assign.
  rewrite assign_loop_spec by (rewrite ?length_replicate; lia).
  rewrite take_0, !drop_0. simpl. subst len. clear Hrun. split.
  - intros [= Heq] y Hy. apply list_elem_of_lookup in Hy as [i Hi].
    assert (map (fun y => op y a) b !! i = Some (op y a)) as H1
        by (by rewrite list_lookup_fmap, Hi).
    rewrite Heq, lookup_zip_with, lookup_replicate_2, Hi in H1
      by (by eapply lookup_lt_Some).
    by injection H1.
  - intros Hcomm. f_equal. apply list_eq. intros i.
    rewrite list_lookup_fmap, lookup_zip_with.
    destruct (b !! i) as [y|] eqn:Hi; simpl.
    + rewrite lookup_replicate_2 by (by eapply lookup_lt_Some). simpl.
      f_equal. apply Hcomm. by eapply list_elem_of_lookup_2.
    + by destruct (replicate (length b) a !! i).
Qed.

Lemma separated_cons (x : string) (l : list string) :
  separated (x :: l) = x +:+ concat_strings (map (fun y => "," +:+ y) l).
Proof.
  revert x. induction l as [|y l IH]; intros x.
  - simpl. by rewrite string_app_nil_r.
  - change (separated (x :: y :: l)) with (x +:+ "," +:+ separated (y :: l)).
    rewrite IH. cbn [map]. unfold concat_strings. simpl.
    by rewrite !string_app_assoc.
Qed.

Lemma print_loop_spec (value : list A) (n : nat) :
  forall (i : nat) (os : string),
    (i + n = length value)%nat -> (0 < i)%nat ->
    print_loop show n i os value =
    Val (os +:+ concat_strings (map (fun y => "," +:+ y) (map show (drop i value)))).
Proof.
  induction n as [|n IH]; intros i os Hn Hi.
  - simpl. rewrite drop_ge by lia. simpl. by rewrite string_app_nil_r.
  - destruct (lookup_lt_is_Some_2 value i) as [x Hx]; [lia |].
    cbn [print_loop]. rewrite bool_decide_eq_true_2 by lia.
    unfold at_. rewrite Hx. cbn [bind].
    rewrite IH by lia. rewrite (drop_S value x i Hx). cbn [map].
    unfold concat_strings. simpl. by rewrite !string_app_assoc.
Qed.

(** X19: [operator<<] writes, after what the stream holds, the name of
    the type in parentheses and then, in parentheses, the components in
    order, separated by commas, with no comma before the first or after
    the last. *)
Theorem print_vector_format (T : ctype) (len : nat) (os : string) (value : list A) :
  length value = len ->
  print_vector show T len os value =
  Val (os +:+ "(" +:+ type_name T +:+ ")(" +:+ separated (map show value) +:+ ")").
Proof using Type.
  intros Hlen. unfold print_vector. destruct value as [|x value].
  - subst len. simpl. by rewrite !string_app_assoc.
  - subst len. cbn [length print_loop].
    rewrite bool_decide_eq_false_2 by (intros H; by apply H).
    unfold at_. simpl lookup. cbn [bind].
    rewrite print_loop_spec by (simpl; lia).
    cbn [bind drop map]. rewrite drop_0, separated_cons.
    by rewrite !string_app_assoc.
Qed.

End ClVectorProofs.

Lemma convert_loop_spec {A B : Type} (conv : A -> B) (n : nat) :
  forall (i : nat) (out : list B) (val : list A),
    (i + n = length val)%nat -> length out = length val ->
    convert_loop conv n i out val = Val (take i out ++ map conv (drop i val)).
Proof.
  induction n as [|n IH]; intros i out val Hn Hout.
  - simpl. rewrite !drop_ge by lia. simpl. rewrite app_nil_r, take_ge by lia. done.
  - destruct (lookup_lt_is_Some_2 val i) as [x Hx]; [lia |].
    destruct (lookup_lt_is_Some_2 out i) as [y Hy]; [lia |].
    cbn [convert_loop]. unfold at_. rewrite Hx, Hy. cbn [bind].
    rewrite IH by (rewrite ?length_insert; lia).
    rewrite (take_S_r _ _ (conv x)) by (apply list_lookup_insert_eq; lia).
    rewrite take_insert_ge by lia.
    rewrite (drop_S val x i Hx). simpl.
    by rewrite <- app_assoc.
Qed.

(** X20: [cl_convert] converts every component and keeps their number
    and order, whatever the array of the result held before; converting
    there and back gives the value again when the conversion back undoes
    the conversion on every component. *)
Theorem cl_convert_componentwise {A B : Type} (to : A -> B) (back : B -> A)
    (n : nat) (uninit : list B) (uninit' val : list A) :
  length val = n -> length uninit = n -> length uninit' = n ->
  cl_convert to n uninit val = Val (map to val) /\
  ((forall x, x ∈ val -> back (to x) = x) ->
   (let! out := cl_convert to n uninit val in cl_convert back n uninit' out) = Val val).
Proof.
  intros Hval Hu Hu'.
  assert (cl_convert to n uninit val = Val (map to val)) as Hrun.
  { unfold cl_convert. rewrite convert_loop_spec by lia. by rewrite take_0, drop_0. }
  split; [done |]. intros Hback. rewrite Hrun. cbn [bind].
  unfold cl_convert. rewrite convert_loop_spec by (rewrite ?length_map; lia).
  rewrite take_0, drop_0. simpl. f_equal.
  rewrite <- list_fmap_compose. rewrite <- (list_fmap_id val) at 2.
  apply list_fmap_ext. intros i x Hx. simpl. apply Hback.
  by eapply list_elem_of_lookup_2.
Qed.

(** * The sample platform again: elements, iterators, ranges *)

Lemma world1_cache_ready : cache_ready world1 (elem vec_c) (type_of sum_a) (queue vec_c).
Proof.
  intros q Hq. apply list_elem_of_In in Hq. simpl in Hq.
  assert (context_id (queue_context q) = 7) as ->
      by (by destruct Hq as [<- | [<- | [<- | []]]]).
  split; [by vm_compute |].
  assert (is_Some (kernel (statics world1 (elem vec_c) (type_of sum_a)) !! 7)) as [k Hk]
      by (vm_compute; eauto).
  assert (is_Some (wgsize (statics world1 (elem vec_c) (type_of sum_a)) !! 7)) as [wg Hwg]
      by (vm_compute; eauto).
  by exists k, wg.
Qed.

Lemma element_read_returns_contents_witness :
  exists (d : nat) (e : element),
    operator_index 4 vec_b 3 = Done (Val (d, e)) /\
    fst (element_read (elem vec_b) e world0) = Val 10%Z.
Proof.
  destruct (element_read_returns_contents vec_b world0 3)
    as (d & e & x & Hrun & Hx & Hread); [by vm_compute.. |].
  exists d, e. split; [apply Hrun; vm_compute; lia |].
  rewrite Hread. vm_compute in Hx. by injection Hx as <-.
Defined.

Lemma element_write_updates_contents_witness :
  exists (d : nat) (e : element) (w1 : world),
    operator_index 4 vec_b 3 = Done (Val (d, e)) /\
    element_write (elem vec_b) e 42%Z world0 = (Val 42%Z, w1) /\
    contents vec_b w1 = [7; 8; 9; 42; 11]%Z.
Proof.
  destruct (element_write_updates_contents vec_b world0 3 42%Z)
    as (d & e & w1 & Hrun & Hwrite & _ & Hcontents & _); [by vm_compute.. |].
  exists d, e, w1. split; [apply Hrun; vm_compute; lia |].
  split; [exact Hwrite |]. rewrite Hcontents. by vm_compute.
Defined.

Lemma iterator_agrees_with_operator_index_witness :
  exists (it : iterator_type.t) (e : element),
    iterator_new vec_a 3 = Val it /\
    iterator_deref vec_a it = Val e /\
    operator_index 4 vec_a 3 = Done (Val (iterator_type.part it, e)).
Proof.
  destruct (iterator_agrees_with_operator_index vec_a 3)
    as (it & e & lo & hi & Hnew & _ & _ & _ & _ & Hderef & _ & Hrun); [by vm_compute.. |].
  exists it, e. split; [exact Hnew |]. split; [exact Hderef |].
  apply Hrun. vm_compute; lia.
Defined.

Lemma iterator_increment_agrees_with_constructor_witness :
  exists d : nat,
    incremented vec_a 3 (vector_begin vec_a) = Val (iterator_type.Mk (N.of_nat 3) d) /\
    iterator_new vec_a (N.of_nat 3) = Val (iterator_type.Mk (N.of_nat 3) d).
Proof.
  apply (iterator_increment_agrees_with_constructor vec_a 3); by vm_compute.
Defined.

Lemma iterator_at_end_reads_past_table_witness :
  vector_end vec_a = UB /\ iterator_new vec_a 7 = UB /\
  iterator_incr vec_a (iterator_type.Mk 4 2) = UB.
Proof.
  destruct (iterator_at_end_reads_past_table vec_a 7 (iterator_type.Mk 4 2)) as (Hwf & _).
  destruct Hwf as (Hpast & Hend & _ & Hincr); [reflexivity |].
  split; [exact Hend |]. split; [by apply Hpast; vm_compute |].
  apply Hincr; [reflexivity | vm_compute; lia].
Defined.

Lemma iterator_difference_undoes_sum_witness :
  iterator_minus (iterator_type.Mk 3 2) (iterator_type.Mk 1 0) = 2%Z /\
  iterator_plus vec_a (iterator_type.Mk 1 0)
    (iterator_minus (iterator_type.Mk 4 2) (iterator_type.Mk 1 0)) =
  iterator_new vec_a 4.
Proof.
  destruct (iterator_difference_undoes_sum vec_a (iterator_type.Mk 4 2)
              (iterator_type.Mk 1 0) (iterator_type.Mk 3 2) 2)
    as (Hsum & Hdiff & _); [by vm_compute | by vm_compute | lia |].
  split; [by apply Hsum; vm_compute | exact Hdiff].
Defined.

Lemma write_data_stores_range_witness :
  exists (v1 : vector) (w1 : world),
    write_data vec_a 3 10 sample_host true world0 = (Val v1, w1) /\
    contents vec_a w1 = [0; 0; 0; 1; 2]%Z.
Proof.
  destruct (write_data_stores_range vec_a 3 10 sample_host true world0)
    as (v1 & w1 & Hrun & Hcontents & _); [by vm_compute.. |].
  exists v1, w1. split; [exact Hrun |]. rewrite Hcontents. by vm_compute.
Defined.

Lemma read_data_returns_range_witness :
  exists (v1 : vector) (w1 : world),
    read_data vec_b 1 3 sample_out true world0 = (Val (v1, [8; 9; 10; 0; 0]%Z), w1) /\
    mem w1 = mem world0.
Proof.
  destruct (read_data_returns_range vec_b 1 3 sample_out true world0)
    as (v1 & w1 & Hrun & Hmem & _); [by vm_compute.. |].
  exists v1, w1. split; [|exact Hmem]. rewrite Hrun. by vm_compute.
Defined.

Lemma wrapped_range_transfers_nothing_witness :
  write_data vec_a 3 (size_modulus - 1) sample_host true world0 = (Val vec_a, world0) /\
  read_data vec_a 3 (size_modulus - 1) sample_out true world0
  = (Val (vec_a, sample_out), world0).
Proof.
  apply (wrapped_range_transfers_nothing vec_a 3 (size_modulus - 1)); by vm_compute.
Defined.

Lemma copy_range_to_host_copies_range_witness :
  (exists (v1 : vector) (w1 : world),
     copy_range_to_host vec_b (iterator_type.Mk 1 0) (iterator_type.Mk 4 2)
       sample_out true world0 = (Val (v1, [8; 9; 10; 0; 0]%Z, 3%Z), w1)) /\
  copy_range_to_host vec_b (iterator_type.Mk 4 2) (iterator_type.Mk 1 0)
    sample_out true world0 = (Val (vec_b, sample_out, (-3)%Z), world0).
Proof.
  split.
  - destruct (copy_range_to_host_copies_range vec_b (iterator_type.Mk 1 0)
                (iterator_type.Mk 4 2) sample_out true world0) as (Hcopy & _);
      [by vm_compute.. |].
    destruct Hcopy as (v1 & w1 & Hrun & _); [by vm_compute.. |].
    exists v1, w1. rewrite Hrun. by vm_compute.
  - destruct (copy_range_to_host_copies_range vec_b (iterator_type.Mk 4 2)
                (iterator_type.Mk 1 0) sample_out true world0) as (_ & Hnone);
      [by vm_compute.. |].
    destruct Hnone as (Hrun & Hminus); [by vm_compute |].
    rewrite Hrun, Hminus by (by vm_compute). by vm_compute.
Defined.

Lemma copy_range_to_device_stores_range_witness :
  (exists (v1 : vector) (w1 : world) (d : nat),
     copy_range_to_device sample_host 2 vec_a (iterator_type.Mk 1 0) true world0
     = (Val (v1, iterator_type.Mk 3 d), w1) /\
     contents vec_a w1 = [0; 1; 2; 0; 0]%Z) /\
  (exists w1 : world,
     copy_range_to_device sample_host 4 vec_a (iterator_type.Mk 1 0) true world0
     = (UB, w1) /\
     contents vec_a w1 = [0; 1; 2; 3; 4]%Z).
Proof.
  split.
  - destruct (copy_range_to_device_stores_range sample_host 2 vec_a
                (iterator_type.Mk 1 0) true world0)
      as (v1 & w1 & _ & Hcontents & _ & Hinside & _);
      [by vm_compute.. |].
    destruct Hinside as (d & Hrun); [by vm_compute |].
    exists v1, w1, d. split; [exact Hrun |]. rewrite Hcontents. by vm_compute.
  - destruct (copy_range_to_device_stores_range sample_host 4 vec_a
                (iterator_type.Mk 1 0) true world0)
      as (v1 & w1 & _ & Hcontents & _ & _ & Hend);
      [by vm_compute.. |].
    exists w1. split; [by apply Hend; vm_compute |]. rewrite Hcontents. by vm_compute.
Defined.

Lemma launch_binds_arguments_in_order_witness :
  assign_expr api_ok vec_c sum_a world1 =
  (Val vec_c,
   add_calls world1 (concat (map (launch_calls world1 sum_a vec_c) (seq 0 (nparts vec_c))))) /\
  launch_calls world1 sum_a vec_c 1 = [].
Proof.
  destruct (launch_binds_arguments_in_order api_ok vec_c sum_a world1)
    as (Hrun & Hempty & _).
  - reflexivity.
  - apply world1_cache_ready.
  - intros d Hd _. change (nparts vec_c) with 3%nat in Hd.
    destruct d as [|[|[|d]]]; [by eexists.. | lia].
  - split; [exact Hrun |]. apply Hempty. reflexivity.
Defined.

Lemma swap_exchanges_members_witness :
  exists h' : gmap addr vector,
    swap sample_heap 1 2 = Val h' /\
    h' !! 1 = Some (with_members vec_a vec_b) /\
    contents (with_members vec_a vec_b) world0 = [7; 8; 9; 10; 11]%Z /\
    swap h' 1 2 = Val sample_heap.
Proof.
  destruct (swap_exchanges_members sample_heap 1 2 vec_a vec_b world0)
    as (h' & Hswap & Hx & _ & _ & _ & Hcontents & _ & Hback & _); [reflexivity.. |].
  exists h'. split; [exact Hswap |]. split; [exact Hx |].
  split; [|exact Hback]. rewrite Hcontents. by vm_compute.
Defined.

Lemma vector_operators_componentwise_witness :
  vector_op Z.sub 2 [5; 7]%Z [1; 2]%Z = Val [4; 5]%Z /\
  vector_scalar_op Z.sub 2 [5; 7]%Z 3%Z = Val [2; 4]%Z /\
  vector_negate Z.opp 2 [0; 0]%Z [5; 7]%Z = Val [-5; -7]%Z.
Proof.
  destruct (vector_operators_componentwise Z.sub Z.opp 2 [5; 7]%Z [1; 2]%Z [0; 0]%Z 3%Z)
    as (Hop & _ & Hscalar & _ & Hneg & _); [reflexivity.. |].
  rewrite Hop, Hscalar, Hneg. done.
Defined.

Lemma scalar_vector_operator_swaps_operands_witness :
  scalar_vector_op Z.sub 2 1%Z [5; 7]%Z = Val [4; 6]%Z /\
  scalar_vector_op Z.sub 2 1%Z [5; 7]%Z <> vector_op Z.sub 2 (replicate 2 1%Z) [5; 7]%Z.
Proof.
  destruct (scalar_vector_operator_swaps_operands Z.sub 2 1%Z [5; 7]%Z)
    as (Hrun & _ & Hbroadcast); [reflexivity |].
  split; [by rewrite Hrun |].
  intros Heq. destruct Hbroadcast as (Hcomm & _).
  specialize (Hcomm Heq 5%Z (list_elem_of_here _ _)). discriminate Hcomm.
Defined.

Lemma print_vector_format_witness :
  print_vector (fun b : bool => if b then "1" else "0") (CType cl_char len2) 2
    "x=" [true; false]
  = Val "x=(char2)(1,0)".
Proof.
  by rewrite (print_vector_format (fun b : bool => if b then "1" else "0")
                (CType cl_char len2) 2 "x=" [true; false]).
Defined.

Lemma cl_convert_componentwise_witness :
  cl_convert Z.of_N 2 [0; 0]%Z [3; 4] = Val [3; 4]%Z /\
  (let! out := cl_convert Z.of_N 2 [0; 0]%Z [3; 4] in cl_convert Z.to_N 2 [9; 9] out)
  = Val [3; 4].
Proof.
  destruct (cl_convert_componentwise Z.of_N Z.to_N 2 [0; 0]%Z [9; 9] [3; 4])
    as (Hrun & Hback); [reflexivity.. |].
  split; [by rewrite Hrun |]. apply Hback. intros x _. apply N2Z.id.
Defined.
